(* ===== verification/_CoqProject ===== *)
-Q . S2P
Prelude.v
Lifetime.v
Subscriber.v
Queue.v
Worker.v
Ordinals.v
TickSource.v
Threads.v
Clients.v
Scheduler.v
Behavior.v
Race.v
Feedback.v
Joining.v
Pipeline.v
App.v
Demo.v
Frames.v
