(* ===== verification/Prelude.v ===== *)
(** * ofxRx: a verification development for the frame-driven Rx scheduler

    The repository glues RxCpp (reactive extensions for C++) to the
    openFrameworks frame loop.  Four source files are under [src/]:

    - [src/libs/ofxRx/includes/ofxRxUpdates.h]: the [Updates] tick source and
      the [update] scheduler, whose [worker_type] owns a time-ordered queue of
      schedulables that is drained on every frame;
    - [src/libs/librxcpp/includes/rxcpp/rx-subscriber.hpp]: [subscriber<T,
      Observer>], an observer paired with a [composite_subscription] lifetime,
      and the [make_subscriber] factory family;
    - [src/libs/librxcpp/includes/rxcpp/subjects/rx-behavior.hpp]: the
      [behavior] subject (latest value plus multicast);
    - [src/emptyExample/src/ofApp.cpp]: the demo application.

    How the parts interact: the host calls the tick source once per frame;
    the tick source calls [on_next] of the subscriber that the worker's
    constructor registered; that subscriber's destination is the frame
    callback, which drains the worker's queue, checking every item against
    its cancellation token and against the clock; the actions it runs may
    schedule further items on the same worker, cancel tokens, or throw.
    A scheduler makes any number of such workers; the host's frame reaches
    them one after the other.  The demo application routes the events of
    the host (mouse, keys, frames, a slider) through the library's
    operators to handlers that change its members, and keeps the source its
    points come from in a [behavior].

    ** Files of the development, in dependency order

    - [Prelude] (this file): the vocabulary every component shares.  Time
      points and subscription tokens; the [outcome] type that makes C++
      control flow explicit (normal return [Ret], a propagating exception
      [Throw], and the faults: blocking on a mutex one holds, [abort], fuel
      exhaustion of an unbounded loop), every outcome carrying the state
      reached; the sequencing operator [and_then] with the notation
      [do w <- m; k] in scope [rx_scope]; [unwinding] and [finally] for what
      destructors do; the predicates [holds] (of the state reached), [exits]
      (if the call comes back), [lands_in] (total), [returns] (by normal
      return) and [sound] (no deadlock) with their rules of consequence and
      sequence; the hint databases [rx]
      and [rx_simpl] and the tactics [case_guards], [outcome_inv]; list
      facts the components share, among them [interleavings].
    - [Lifetime]: the class [LifetimeOps] of the operations of
      [composite_subscription] on a world, the class [Lifetimes] of the laws
      its clients rely on, and module [composite_subscription], an
      implementation over a store of shared states with the instance that
      discharges the laws; [lifted_ops] and [lifted_lifetimes] carry
      operations and laws to any world that keeps the subscription states
      in a field.  rx-subscription.hpp is not under [src/]: this file is
      modelled from the specification and from the calls the sources make.
      The implementation records the cleanups it runs ([fired]).
    - [Subscriber]: rx-subscriber.hpp.  Class [Observer] is the C++ template
      parameter; module [subscriber] is the class (a lifetime token and a
      destination; [on_next], [on_error], [on_completed] with their
      [is_subscribed] guard and [detacher]; the delegations [add], [remove],
      [clear], [unsubscribe]); module [make] is the [make_subscriber]
      family, one definition per source of the lifetime ([fresh], [explicit],
      [chain], [chain_explicit], [override], [copy]) and per set of callables
      ([of_on_next] ... [of_all]).
    - [Queue]: the class [SchedQueueOps] of [schedulable_queue] (top, pop,
      push, empty), the class [SchedQueue] of its laws through an abstraction
      function [q_items] to the list of items in service order, and module
      [schedulable_queue], a sorted list that is stable for equal times.
      rx-scheduler.hpp is not under [src/]: modelled from the specification.
    - [Worker]: [update::worker_type] of ofxRxUpdates.h (lines 38-131).
      Record [worker_state] is the struct; [create] its constructor;
      [acquire] and [release] the [std::unique_lock] on [lock]; [now],
      [schedule] and [schedule_at] the member functions; [drain] the lambda
      of the constructor, statement by statement; [tick_subscriber] the
      subscriber that [events().subscribe(lifetime, lambda)] makes, and
      [on_tick] one frame.  A scheduled action is a closure in C++; here it
      is an identifier whose body is a list of commands [cmd] that change
      user state, schedule, cancel, throw, or call code that may throw
      ([Callout], a change of the user state and the test that says in
      which states the call ends by an exception).  The clock is a sequence of
      readings, [clock_now n] being the n-th.  The component is verified
      against the interfaces of [Lifetime] and [Queue], for every
      implementation that satisfies their laws.  [play] runs a history:
      frames, and client calls between them.  Module [example] holds a
      concrete worker and the scenario of the specification.
    - [Ordinals]: the queue as RxCpp implements it.  Module
      [priority_queue] is [std::priority_queue] by its contract ([top] is
      the first element that the comparison puts behind no other, [pop]
      removes it); module [ordinal_queue] has [compare_elem] and the queue
      of pairs of an item and the ordinal it was pushed with, the record
      carrying the invariant that every ordinal in the queue is below the
      counter; module [queue_client] runs pushes and pops on any
      implementation of the interface.  Modelled from the specification:
      rx-scheduler.hpp is not under [src/].
    - [TickSource]: [struct Updates] of ofxRxUpdates.h (lines 7-30), the
      adapter between the update event of the host and what subscribes to
      it.  Module [updates], over any world with subscription states:
      record [t] has the members ([registered], [sub_updates],
      [dest_updates]); a [system] is an adapter, the number of times the
      update event of the host holds it, and the world; [setup] and [clear] add it to the event
      and remove it; [subscribe] is [events().subscribe(o)]; [update] is
      [dest_updates.on_next(a)], which casts to the observers of the
      subject; [frame] is one update event; for the adapter of a worker,
      [construct] is the constructor of [worker_type] (lines 83-91).  The member functions are not under
      [src/]: they are modelled from the declaration and section 4.2 of
      the specification.
    - [Threads]: the frame callback (lines 92-113) as the steps of the
      thread of the host, cut where another thread can get in.  Module
      [threads]: [pc] is where the host thread is (outside the callback, at
      the head of the loop, past the test of line 96, past the test of
      line 100, in the action); [host] is its next step ([enter],
      [lock_and_test], [inspect], [call], [command]); [client] is a call
      from another thread; [run] runs a schedule of the two.  The mutex is
      the flag of [Worker]: a client that asks for it while it is held ends
      in [Deadlock], which there means that the thread waits.
    - [Clients]: [worker_type::schedule] (lines 120-130) cut as well.
      Module [clients]: [cpc] is where a client thread is in a call (away,
      at the test of line 125, at the guard of line 126, past it with the
      mutex held); a [t] is the machine of [Threads] and one [cpc] per
      client thread; [begin] enters a call, [schedule(scbl)] reading the
      clock as it does; [advance] takes the next statement of the call;
      [run] runs a schedule of the labels [Host], [Begin i c] and [Go i];
      [unraced] tests that a schedule lets no frame overtake a call.
    - [Scheduler]: [struct update] of ofxRxUpdates.h (lines 32-37 and
      133-148) and the accessors [make_update], [observe_on_update],
      [serialize_update], [synchronize_update] (lines 150-168).  Module
      [update]: a [world] holds the subscription states, the clock and the
      user's state, which the workers share, and one [slot] per worker made
      by [create_worker]; [focus k] is the world of [Worker] that worker
      [k] sees, [blur k] puts it back, [at_worker k op] runs an operation
      of [Worker] there; [frame] calls [on_tick] of every worker in the
      order they were made, and stops at an exception; [play] runs frames,
      client calls on any worker, and [create_worker].  Module
      [update_example] has two workers.
    - [Behavior]: rx-behavior.hpp, every member.  Module
      [behavior_observer_state] is the value under its mutex ([reset],
      [get]); module [subjects] the world of a behavior (subscription
      states, the value cell, the observer list, the history of deliveries)
      and the observers' code, lists of commands that change user state,
      cancel or throw; module [multicast_observer] the base class (not
      under [src/], modelled from the specification); module
      [behavior_observer] has [get_value] and [on_next]; module [behavior]
      the subject with [get_subscriber] and [get_observable], and [step] and
      [play] for the calls of its clients.  The two statements of [on_next]
      and of the subscription function are also the atoms [Store], [Cast],
      [Replay] and [Join], run by [run_atoms] in any order.  Module
      [behavior_example] holds a concrete behavior.
    - [Race]: the atoms of [Behavior] under every schedule.  Module [race]
      has a machine with three registers ([val], the value held; [joined],
      how often a subscriber is among the observers; [heard], what it was
      told), [step] for what an atom does to them, and the relation
      [abstracts] between a world and the registers.
    - [Feedback]: [behavior_observer::on_next] when the code of an observer
      calls [on_next] of the behavior it observes.  Module [feedback]:
      [back] says what each observer pushes when it is told; [round] is one
      push through [get_subscriber], its nested pushes a parameter; [push]
      nests rounds to the depth of its fuel.  Module [feedback_example] has
      observers that answer once, that echo, and that count down.
    - [Joining]: [behavior_observer::on_next] and the function of
      [get_observable] when the code of an observer subscribes another
      observer to the behavior while it is told.  Module [joining]:
      [invite] says whom each observer subscribes when it is told;
      [tell_inviting] is the code of such an observer, its commands and then
      its subscriptions through [Behavior.behavior.get_observable]; [push]
      is [get_subscriber().on_next(v)] over such observers.
    - [Pipeline]: the data flow of section 2 of the specification, the
      worker of [Worker] with the world of a behavior as the state its
      actions touch.  Module [pipeline]: [accounted] says that the state
      the actions touch is what the runs made of it; [push_into] is the
      action that calls [on_next] of the behavior's subscriber, a
      [Callout] that throws when an observer does.
    - [App]: the logic of ofApp.cpp.  Module [ofApp] has the members the
      handlers use and one definition per lambda of [ofApp::setup]:
      [on_move] (the rolling window of past points, lines 39-46),
      [on_backspace] and [on_char] with their filters (lines 111-129),
      [on_selection] (lines 139-145); and [draw_text] with [place] for the
      part of [ofApp::draw] that places the characters (lines 169-192).
      Unsigned 64-bit arithmetic is [u64], the conversion of a key code to
      [char] is [to_char].  Module [app_example] runs the program's own
      message.
    - [Demo]: the wiring of [ofApp::setup].  Module [combine_latest] is the
      operator, from its contract.  Module [demo]: [source] and
      [from_mouse] are the five observables of points (lines 63-86);
      [demo.t] has the members of [ofApp] and, for each of the two
      subscriptions to [center_points] (lines 39 and 52), the source its
      [switch_on_next] follows and the state of its [combine_latest];
      [window_point] and [window_tick] feed [on_move], [orbit_tick] and
      [center_point] set [center]; [orbit_point] is the orbit (lines
      22-25); [select_source] is [dest_center.on_next]; [step] takes one
      event of the host (mouse, key, frame, slider) and [play] a list;
      [members] and [setup] give the state [ofApp::setup] leaves.  Section
      [center_source] puts the program in the world of [Behavior]:
      [window_switch] and [center_switch] are the two [switch_on_next] as
      observers, [dest_center] the observer the program takes out of
      [get_subscriber()], [rx_setup] and [rx_on_selection] the calls of the
      behavior, the pushes through [dest_center] and so past the guard of
      the subscriber ([dest_center_passes_the_guard]).  Floats are a parameter type [F]; its sum, [ofMap] and the
      polar point are parameter functions.  Module [demo_example] runs the
      program on integers.

    - [Frames]: the member [updates] of [ofApp], an adapter of
      [TickSource] over the world of the program.  Module [frames]:
      [milliseconds] is [events()] mapped through the clock of the host,
      [window_observer] and [orbit_observer] are the two subscriptions of
      [ofApp::setup] (lines 38-40, 22 and 52), [setup] is [updates.setup()]
      (line 15) with the two subscriptions, [run] is a number of frames.

    ** What the theorems show

    - [Lifetime] and [Subscriber], nesting: unsubscribing ends the
      lifetime and exactly the subscriptions nested in it at any depth,
      also through a cycle ([unsubscribe_ends_nested],
      [unsubscribe_ends_what_is_nested]); the cleanups it runs are those of
      the subscriptions it ends, each once ([unsubscribe_runs_cleanups]); a
      cleanup added to a live subscriber runs once, when the subscriber is
      unsubscribed, and one added to an ended subscriber runs on the spot
      ([cleanup_runs_exactly_once], [cleanup_after_end_runs_at_once]).
    - [Subscriber]: an ended subscriber passes nothing on
      ([unsubscribed_is_silent]); [on_error], [on_completed] and any
      exception out of the destination end the lifetime
      ([terminal_ends_lifetime], [on_next_throws], [throw_ends_lifetime]);
      so any sequence of notifications has the effect of its prefix up to
      the first terminal one ([notify_all_upto_terminal]); chained
      subscribers share a lifetime and a subscriber made without one gets a
      new one ([chain_shares_lifetime], [fresh_lifetime]).
    - [Worker], refinement: every operation is a sequence of the six
      transitions of [atomic] (effect, clock reading, push, unsubscribe,
      discard, take) that leaves the mutex free and never blocks on it
      ([exec_steps], [drain_steps], [on_tick_steps], [play_steps],
      [play_refines_transitions], [drain_releases_mutex]).
    - [Worker], safety, by induction on the transitions: a cancelled token
      stays cancelled and its actions never run ([cancelled_never_runs],
      [cancelled_stays_cancelled]); nothing runs before it is due
      ([no_run_before_due]); the queue stays ordered
      ([queue_stays_ordered]); with a monotone clock and no scheduling into
      the past, runs are in due-time order across frames
      ([runs_in_due_order]), and not otherwise
      ([late_schedule_breaks_due_order]).
    - [Worker], progress: a drain that returns leaves nothing due
      ([drain_serves_all_due]); it does return when actions do not schedule
      ([drain_terminates]); it never returns when an action schedules itself
      for "now" ([self_scheduling_never_ends]).
    - [Worker], equivalence: for actions that only change the user's state
      and a clock that stands still during the frame, the loop with its
      mutex is the function on lists [serve], which discards the cancelled
      items in front, runs the live ones that are due and stops at the
      first that is not ([drain_serves_frame]).
    - [Worker], errors: scheduling under a cancelled token is refused
      ([schedule_at_dead_token]); an exception out of an action leaves the
      drain, and the tick subscriber's detacher then ends the worker for
      good ([exception_ends_worker]).
    - [Ordinals]: an element pushed with a new ordinal becomes the top
      exactly when it is due before the top, so the order of service with
      it is the order without it with the item put in by stable insertion
      ([top_push], [pop_push], [service_push]); hence the priority queue
      with ordinals satisfies the laws of [SchedQueue]
      ([ordinal_queue.laws]) and every theorem of [Worker] holds of the
      worker over it; every implementation of the interface holds, after
      any pushes and pops, what the sorted list holds
      ([run_items], [ordinal_queue_refines_sorted_list]); items pushed
      with one due time are served in the order they were pushed, and
      calls of [schedule(when, scbl)] with one time point queue their
      items in the order of the calls ([equal_times_in_push_order],
      [equal_times_queued_in_call_order]).
    - [TickSource]: the flag [registered] keeps the adapter in the update
      event of the host at most once, whatever is called
      ([play_plugged]); a frame that reaches a
      constructed worker through its adapter is [on_tick], and an
      exception out of an action ends the subject of the adapter as well
      ([frame_registered], [update_wired]), after which the update event
      of the host passes no frame on ([update_throws],
      [exception_ends_adapter]); while the subject of the adapter lives,
      the update events of the host and the calls of clients end as the
      histories of [Worker.worker.play] end, in the same world
      ([step_of_host], [play_of_host]); every history of frames,
      calls, [setup()] and [clear()] is a sequence of the transitions of
      the worker and leaves the adapter wired to the frame callback
      ([play_behind], [adapter_refines_transitions]), so nothing runs early
      or under a cancelled token behind the adapter
      ([behind_adapter_runs_are_due_and_live]); a cleared adapter passes
      no frame on ([cleared_adapter_is_silent]).
    - [Threads]: the host thread alone does what [on_tick] does
      ([drain_run], [host_alone_is_the_frame]); under every schedule of
      the host and the clients no action runs before it is due or under a
      token that was cancelled before the schedule began ([safe_run],
      [interleaved_runs_are_due_and_live]), and when nobody schedules into
      the past the runs are in due-time order ([in_order_run],
      [interleaved_runs_in_due_order]); the host never waits for the
      mutex, holds it for two steps at most, and a client that schedules
      meanwhile waits ([mutex_excludes_and_is_held_briefly]); a token
      cancelled between the test of line 100 and the call of line 111 does
      not stop the call ([cancel_after_test_runs_anyway]).
    - [Clients]: with the calls of the clients cut between their
      statements, at most one thread is between taking the mutex and
      giving it back, the flag says whether one is, and the holder gives
      it back within two steps of its own ([exclusive_step],
      [released_soon], [one_thread_holds_the_mutex]); the item the
      callback has tested is still in front of the queue when it is popped
      and nothing queued is due before it ([front_kept_step],
      [in_line_step], [callback_pops_what_it_tested]); no action runs
      before it is due or under a token cancelled before the schedule
      began ([safe_step], [cut_anywhere_runs_are_due_and_live]); a call
      that no thread cuts is the call of [Threads], so the schedules of
      [Threads] are among those of [Clients] ([in_one_piece_step],
      [uncut_calls_are_threads]).  The order of due times does not
      survive the cut: [schedule(scbl)] reads the clock before it takes
      the mutex, and a frame between the two runs a later item first
      ([schedule_for_now_is_overtaken]); that is the only way to lose it:
      in the schedules where the callback takes no item while a thread is
      in a call with an earlier time ([unraced], a test on the schedule)
      the runs are in due-time order ([in_turn_step],
      [due_order_unless_overtaken]).
    - [Scheduler]: every history of a scheduler is, seen from any one of
      its workers, a sequence of the transitions of that worker, the other
      workers showing as effects, clock readings and ends of lifetimes
      ([atomic_view], [play_projects], [scheduler_refines_workers]); so
      what is proved of the transitions holds of each worker: no run under
      a cancelled token or before its time, in any worker, also one made on
      the way ([play_keeps], [no_worker_runs_cancelled_or_early]), due-time
      order within each worker ([every_worker_in_due_order]), no run after
      the end of the worker's lifetime ([dead_lifetime_stops_worker]).  A
      call on one worker leaves the others' queues and histories alone
      ([at_worker_others]).  An exception in one worker leaves the frame
      before the later workers are reached ([exception_stops_frame]).
      Between workers there is no due-time order
      ([no_due_order_across_workers]).
    - [Behavior], whatever the observers do: every call comes back and
      leaves the mutex of the value free ([play_grows]; the observers of
      [Behavior] cannot call back, so this says little: the theorems on
      the mutex are those of [Feedback] and [Joining]); the
      history grows by deliveries to subscribers that were live, so an
      unsubscribed one is told nothing ([play_grows],
      [unsubscribed_gets_nothing]); a terminal notification ends the
      behavior and every observer ([terminal_ends_every_observer]); an
      exception out of an observer ends the behavior
      ([observer_exception_ends_behavior]); an ended behavior drops pushes
      and unsubscribes new subscribers ([push_after_end_is_dropped],
      [subscribe_after_end]).
    - [Behavior], with observers that only record: a push stores the value
      and tells every current observer once, in order
      ([push_reaches_every_observer], [pushes_arrive_in_order]); a new
      subscriber is told the current value once
      ([subscriber_gets_current_value], [push_then_subscribe_once]).
    - [Behavior], concurrency: [on_next] and the subscription function are
      each the sequence of their two atoms ([on_next_atoms],
      [get_observable_atoms]); of the interleavings of a push with a
      subscription, one makes the subscriber miss the pushed value and one
      tells it twice ([racing_subscriber_misses_push],
      [racing_subscriber_told_twice]).
    - [Race]: a behavior in use, watched at one subscriber, is the machine
      with three registers: every atom is a step of the machine
      ([step_refines], [race_refines_machine]).  Running the machine then
      says what each schedule of two calls does: of the six schedules of a
      push with a subscription four are right, one tells the value twice
      and one never ([push_subscribe_schedules]); of the six schedules of
      two pushes, two leave the behavior holding a value that is not the
      one its observers heard last ([push_push_schedules]).
    - [Feedback]: without feedback the nested push is the push of
      [Behavior] ([push_without_feedback]); no nesting blocks on the mutex
      of the value ([feedback_never_deadlocks]); fuel is only a bound
      ([more_fuel_same_outcome]); a push whose answers descend in a rank
      returns within that rank ([descending_feedback_returns]), and one
      that is always answered never returns
      ([endless_feedback_never_returns]); an answer overtakes the push it
      answers, so the observers behind the answering one hear the two
      values in the opposite order and are left with a value the behavior
      no longer holds ([feedback_overtakes]).
    - [Joining]: without invitations the push is the push of [Behavior]
      ([push_without_invitations]); a subscription from inside a cast
      never blocks on the mutex of the value, and nothing is told under a
      lifetime that had ended ([send_joins], [joining_never_blocks]); a
      subscriber that joins during the cast of a value is told the value
      once, by its subscription, the cast going on over the observers it
      began with, and stands behind them afterwards
      ([cast_reaches_inviter], [joined_in_cast_told_once]).
    - [Pipeline]: while the state the actions touch stays where no call
      of an action throws ([tame]), it is at every moment the fold of the
      actions that ran, in the order they ran, whatever the frames and the
      scheduling between them
      ([drain_accounts], [play_accounts]); so when the actions push into a
      behavior whose observers record, the behavior is as if the values
      had been pushed by hand in the order of the runs ([play_pushes]), and
      the observers hear every value once, in the order of the due times
      of the actions ([scheduled_pushes_arrive_in_due_order]); and since
      the histories of a worker behind its adapter are its histories
      alone, the same holds from the update events of the host to the
      observers ([frames_reach_observers_in_due_order]).  When an
      observer throws, the exception goes through the cast, the
      subscriber of the behavior, the action, the drain and the frame
      callback: the behavior and the worker have both ended, the items
      behind stay queued and no later frame runs them
      ([invoke_push_throws], [observer_exception_ends_worker]).
    - [App], the window: it always holds the newest point and drops only a
      prefix of older ones ([on_move_keeps_newest], [on_move_drops_old]);
      once the program has run for the flight of the message the window
      covers the flight ([window_covers_flight]); before that the unsigned
      subtraction wraps around and the window is one point
      ([early_window_collapses]), so the text does not fly
      ([single_record_stacks_text]).
    - [App], drawing: a character is drawn at a record of the window, the
      newest one older than its time ([place_in_window],
      [place_newest_older]); the wrap-around of that time is harmless
      ([early_char_at_newest]).
    - [App], editing and selection: the two key handlers exclude each other,
      backspace undoes a character, the label always shows the message
      ([key_handlers_exclusive], [backspace_undoes_char],
      [keys_keep_label]); the index of the selected source is in range for
      every [int] ([selection_in_range]).
    - [Demo], the window over a run of the program: as long as the times
      of the frames do not go back, the records are in the order of their
      times ([step_ok], [window_in_order]), which is the hypothesis of the
      theorems of [App]; every frame after the flight of the message leaves
      a window that covers the flight ([frame_keeps_flight]); every frame
      before leaves one record, and the text is drawn at one point
      ([no_flight_at_start]); after the first frame the window is never
      empty ([window_never_empty]).
    - [Demo], the sources: a mouse event reaches the window exactly when
      the selected source passes it on ([mouse_reaches_selected_source]);
      the two subscriptions always follow the source selected last
      ([subscriptions_follow_selection]); the orbit is periodic
      ([orbit_is_periodic]).
    - [Demo] and [Behavior]: [setup] and the handler of the selections, run
      as calls of the behavior [center_source] with the two
      [switch_on_next] as its observers, do what [setup] and
      [on_selection] say, and the value of the behavior is the source both
      subscriptions follow ([setup_through_behavior],
      [selection_through_behavior]); what [setup] leaves does not depend on
      the value the behavior was constructed with ([setup_forgets_seed]).

    - [Frames]: a frame of the host through the tick source of the
      program is the event [Update] of [Demo] with two successive readings
      of the clock, the window first ([frame_framed], [run_framed]);
      so when the clock of the host gives unsigned
      64-bit times that do not go back, the window is in the order of its
      times after any number of frames ([frames_keep_window_in_order]).

    ** Bounds and fuel

    Three things are unbounded in C++: the [for(;;)] of the frame
    callback, the recursive unsubscription of nested subscriptions, and
    the nesting of pushes from inside observers.  All are Fixpoints on a
    fuel argument.  For the drain,
    running out of fuel is the outcome [Fault OutOfFuel], which carries the
    state reached: the safety theorems are stated with [holds] and [sound]
    for every fuel, so they cover every finite prefix of a drain that does
    not end; [drain_terminates] gives the fuel that suffices, one more than
    the length of the queue, when actions do not schedule.  Unsubscription
    runs with one unit of fuel more than there are states in the store; the
    flag of a state is cleared before its children are visited, so each is
    entered at most once: [unsubscribe_fuel_closes] proves that this fuel
    reaches every nested subscription.  A nested push out of fuel is the
    fault [OutOfFuel] with the world reached;
    [descending_feedback_returns] gives the fuel that is enough and
    [more_fuel_same_outcome] says that more changes nothing.  Time points of the scheduler are unbounded
    integers [Z]: the scheduler only compares them.  The ordinal of the
    priority queue is an [int64_t] in C++ and a [nat] in [Ordinals]: the
    counter grows by one per push, and the 2^63 pushes that overflow it
    are out of reach; the order of service of a priority queue is the
    Fixpoint [service] on the number of its elements.  In [App] the ticks and
    sizes are 64 bits wide and every subtraction is taken modulo 2^64, as
    the program computes it; the [int] product [FLYING_DELAY_MS * index]
    of [char_time] is exact for messages of fewer than 10737419
    characters, and a [char] is its byte from 0 to 255 ([to_char]); the
    loops of [App] run over the window and the
    message and are structural.  A frame of a scheduler gives the same fuel
    to the drain of each worker.  The schedules of two calls into a
    behavior are the interleavings of their atoms, six for two calls of two
    atoms each; [race_refines_machine] holds for schedules of any length.

    ** Not modelled

    How a heap arranges the array of [std::priority_queue]: [Ordinals]
    keeps the container in the order of the pushes and selects the top by
    comparison.  Floating point: the coordinates, [ofMap] and the sine and cosine of the
    orbit are parameters of [Demo], so nothing is proved of the shape of
    the orbit beyond its period.  The controls of the GUI change members of
    [ofApp] inside the GUI library; those changes are not events of
    [Demo].  Of the operators, [combine_latest] is modelled from its
    contract and the others as [ofApp::setup] uses them.  Of [Updates],
    the destructor, and [microseconds] and [floats], which are
    [milliseconds] with another clock function.  The member functions of
    [Updates] are declared in the sources and defined elsewhere: that
    [setup()] and [clear()] test and set [registered], that [update(a)]
    is [dest_updates.on_next(a)], and that the host notifies in the order
    of registration ([listening], [Scheduler.update.tick_all]) are
    assumptions of [TickSource], [Frames] and [Scheduler], taken from the
    declaration and from section 4.2 of the specification.  The call
    [what(...)] of the frame callback runs the commands of the action:
    [schedulable::operator()] is not in the sources, and a guard inside it
    would not show here.  [TickSource] has one
    adapter and one worker, and [Frames] the adapter of the program with
    its two subscriptions; [Scheduler] has several workers and takes the
    frame as the call of their tick subscribers.  The adapters of the
    mouse and the keyboard are not modelled: their events are events of
    [Demo].  In [Pipeline] the worker and the behavior keep their
    subscription states apart: an observer cannot cancel a scheduled
    action.  A [Callout] ends by return or by exception; a fault of the
    code it calls (a mutex taken twice) is not passed on to the worker,
    and [Behavior] shows that no push has one.  An action of one worker that schedules
    on another worker.  The protocol by which an action asks to be rerun in
    place ([rxsc::recursion], rx-scheduler.hpp, not under [src/]) is
    reduced to the flag the worker resets.  Threads: a mutex is a flag and
    taking it twice is the fault [Deadlock]; in [Worker] and [Scheduler]
    client calls happen between frames or from within actions;
    [Threads] puts them between the steps of the callback of one worker,
    a call of a client being one step, and [Clients] cuts the calls of
    the clients between their statements too, the push with the reset of
    [r] and the end of the guard being one step, and a call that an action
    makes from the host thread staying in one piece; for a behavior,
    concurrency is the interleaving of the atoms of two calls, a cast
    being one atom.  Memory is sequentially consistent.  Threads on
    several workers of a scheduler are not modelled.  An observer pushes
    back after its own commands, the values depending on what it was told
    and not on the state; an observer subscribes others after its own
    commands, and the subscriber it brings runs its commands and nothing
    else when it is told its first value; an observer that both pushes back
    and subscribes others is not modelled.  Rendering is outside the
    scope. *)

From stdpp Require Import base decidable option numbers list sorting.

(** ** Shared vocabulary *)

(** [clock_type::time_point]: the scheduler only compares time points. *)
Abbreviation time := Z.

(** A [composite_subscription] is a shared handle; a token names its state. *)
Abbreviation token := nat.

(** Why a call did not come back. *)
Inductive fault : Set :=
| Deadlock    (* a [std::mutex] locked again by the thread that holds it *)
| Aborted     (* [abort()] was called *)
| OutOfFuel.  (* the model's bound on an unbounded loop was reached *)

(** How a call that mutates a state of type [W] ends.  Every outcome carries
    the state reached, a fault the state the call was in when it stopped. *)
Inductive outcome (W : Type) : Type :=
| Ret (w : W)      (* normal return *)
| Throw (w : W)    (* a C++ exception is propagating *)
| Fault (f : fault) (w : W).
Arguments Ret {W} w.
Arguments Throw {W} w.
Arguments Fault {W} f w.

#[export] Instance fault_eq_dec : EqDecision fault.
Proof. solve_decision. Defined.

#[export] Instance outcome_eq_dec `{EqDecision W} : EqDecision (outcome W).
Proof. solve_decision. Defined.

(** Sequencing: the continuation runs only after a normal return. *)
Definition and_then {W} (m : outcome W) (k : W -> outcome W) : outcome W :=
  match m with
  | Ret w => k w
  | Throw w => Throw w
  | Fault f w => Fault f w
  end.

(** Stack unwinding: [h] is what destructors do to the state an exception
    leaves behind. *)
Definition unwinding {W} (m : outcome W) (h : W -> W) : outcome W :=
  match m with
  | Throw w => Throw (h w)
  | o => o
  end.

(** Scope exit: [h] runs on normal return and during unwinding alike. *)
Definition finally {W} (m : outcome W) (h : W -> W) : outcome W :=
  match m with
  | Ret w => Ret (h w)
  | Throw w => Throw (h w)
  | Fault f w => Fault f w
  end.

(** A call on a part of the state, seen from the whole: [f] puts the part
    back. *)
Definition outcome_map {V W} (f : V -> W) (m : outcome V) : outcome W :=
  match m with
  | Ret v => Ret (f v)
  | Throw v => Throw (f v)
  | Fault x v => Fault x (f v)
  end.

(** The state a call reached, however it ended. *)
Definition final {W} (m : outcome W) : W :=
  match m with
  | Ret w | Throw w | Fault _ w => w
  end.

(** The call ended by an exception. *)
Definition thrown {W} (m : outcome W) : bool :=
  match m with
  | Throw _ => true
  | _ => false
  end.

(** [holds P m]: [P] is true of the state the call reached.  For a call that
    ran out of fuel this is the state after that many rounds, so [holds]
    for every fuel is safety along the whole, possibly endless, run. *)
Definition holds {W} (P : W -> Prop) (m : outcome W) : Prop := P (final m).

(** [exits P m]: if the call comes back, by return or by exception, [P] is
    true of the state it leaves. *)
Definition exits {W} (P : W -> Prop) (m : outcome W) : Prop :=
  match m with
  | Ret w | Throw w => P w
  | Fault _ _ => True
  end.

(** [lands m]: the call comes back (returns or throws), with no fault. *)
Definition lands {W} (m : outcome W) : Prop :=
  match m with
  | Fault _ _ => False
  | _ => True
  end.

(** [lands_in P m]: total correctness, [lands] and [holds] together. *)
Definition lands_in {W} (P : W -> Prop) (m : outcome W) : Prop :=
  lands m /\ holds P m.

(** [returns P m]: the call returns normally, to a state of which [P] is
    true. *)
Definition returns {W} (P : W -> Prop) (m : outcome W) : Prop :=
  match m with
  | Ret w => P w
  | _ => False
  end.

(** [sound P m]: the call does not deadlock, and [P] is true of the state it
    reached.  Only fuel may run out. *)
Definition sound {W} (P : W -> Prop) (m : outcome W) : Prop :=
  match m with
  | Fault Deadlock _ => False
  | _ => P (final m)
  end.

Declare Scope rx_scope.
Delimit Scope rx_scope with rx.
Notation "'do' x <- m ; k" := (and_then m (fun x => k))
  (at level 10, x name, m at level 100, k at level 200,
   format "'[v' 'do'  x  <-  m ; '/' k ']'") : rx_scope.
Open Scope rx_scope.

Create HintDb rx discriminated.
Create Rewrite HintDb rx_simpl.

(** ** Tactics *)

(** Case analysis on every guard ([if], [match]) that blocks the goal. *)
Ltac case_guards := repeat (case_match; simpl in *; simplify_eq; try done).

(** ** Laws of sequencing *)

Section outcome_laws.
Context {W : Type}.
Implicit Types (m : outcome W) (k : W -> outcome W) (P Q : W -> Prop).

Lemma thrown_final m : thrown m = true -> m = Throw (final m).
Proof. by destruct m. Qed.

Lemma and_then_Ret_l w k : and_then (Ret w) k = k w.
Proof. reflexivity. Qed.

Lemma and_then_Ret_r m : and_then m Ret = m.
Proof. by destruct m. Qed.

Lemma and_then_assoc m k1 k2 :
  and_then (and_then m k1) k2 = and_then m (fun w => and_then (k1 w) k2).
Proof. by destruct m. Qed.

Lemma and_then_Ret_inv m k w' :
  and_then m k = Ret w' -> exists w1, m = Ret w1 /\ k w1 = Ret w'.
Proof. destruct m; simpl; [eauto | done | done]. Qed.

Lemma and_then_Throw_inv m k w' :
  and_then m k = Throw w' ->
  m = Throw w' \/ exists w1, m = Ret w1 /\ k w1 = Throw w'.
Proof. destruct m; simpl; [eauto | auto | done]. Qed.

Lemma holds_Ret P w : P w -> holds P (Ret w).
Proof. done. Qed.

Lemma holds_Throw P w : P w -> holds P (Throw w).
Proof. done. Qed.

Lemma holds_and_then P Q m k :
  holds P m -> (forall w, P w -> holds Q (k w)) -> (forall w, P w -> Q w) ->
  holds Q (and_then m k).
Proof. destruct m; unfold holds; simpl; auto. Qed.

(** The common case: one invariant threaded through a sequence. *)
Lemma holds_seq P m k :
  holds P m -> (forall w, P w -> holds P (k w)) -> holds P (and_then m k).
Proof. intros; eapply holds_and_then; eauto. Qed.

Lemma holds_unwinding P m h :
  holds P m -> (forall w, P w -> P (h w)) -> holds P (unwinding m h).
Proof. destruct m; unfold holds; simpl; auto. Qed.

Lemma holds_impl P Q m : holds P m -> (forall w, P w -> Q w) -> holds Q m.
Proof. unfold holds; auto. Qed.

Lemma holds_conj P Q m : holds P m -> holds Q m -> holds (fun w => P w /\ Q w) m.
Proof. by split. Qed.

Lemma holds_exits P m : holds P m -> exits P m.
Proof. by destruct m. Qed.

Lemma exits_finally_any P m h : (forall w, P (h w)) -> exits P (finally m h).
Proof. destruct m; simpl; auto. Qed.

Lemma exits_impl P Q m : exits P m -> (forall w, P w -> Q w) -> exits Q m.
Proof. destruct m; simpl; auto. Qed.

Lemma lands_in_lands P m : lands_in P m -> lands m.
Proof. by intros [? ?]. Qed.

Lemma lands_in_holds P m : lands_in P m -> holds P m.
Proof. by intros [? ?]. Qed.

Lemma lands_in_Ret P w : P w -> lands_in P (Ret w).
Proof. by split. Qed.

Lemma lands_in_Throw P w : P w -> lands_in P (Throw w).
Proof. by split. Qed.

Lemma lands_in_and_then P Q m k :
  lands_in P m -> (forall w, P w -> lands_in Q (k w)) -> (forall w, P w -> Q w) ->
  lands_in Q (and_then m k).
Proof. destruct m; intros [? ?]; unfold lands_in, holds in *; simpl in *; auto. Qed.

Lemma lands_in_seq P m k :
  lands_in P m -> (forall w, P w -> lands_in P (k w)) -> lands_in P (and_then m k).
Proof. intros; eapply lands_in_and_then; eauto. Qed.

(** The rule of sequence along a transitive relation: [m] takes [w] to a
    related state, and [k] any state related to [w] to a state related to
    that one. *)
Lemma lands_in_trans (R : relation W) `{!Transitive R} w m k :
  lands_in (R w) m -> (forall w1, R w w1 -> lands_in (R w1) (k w1)) ->
  lands_in (R w) (and_then m k).
Proof.
  intros Hm Hk. eapply lands_in_and_then; [exact Hm| |done].
  intros w1 H1. destruct (Hk w1 H1) as [? ?]. split; [done|].
  unfold holds in *. by transitivity w1.
Qed.

Lemma lands_in_impl P Q m : lands_in P m -> (forall w, P w -> Q w) -> lands_in Q m.
Proof. intros [? ?] ?. split; [done|]. by eapply holds_impl. Qed.

Lemma and_then_ext m k1 k2 :
  (forall w, m = Ret w -> k1 w = k2 w) -> and_then m k1 = and_then m k2.
Proof. destruct m; simpl; auto. Qed.

Lemma lands_and_then_inv m k :
  lands (and_then m k) -> lands m /\ forall w, m = Ret w -> lands (k w).
Proof. destruct m; simpl; [|done..]. intros Hk. split; [done|]. by intros ? [= <-]. Qed.

Lemma lands_unwinding m h : lands (unwinding m h) <-> lands m.
Proof. by destruct m. Qed.

Lemma lands_finally m h : lands (finally m h) <-> lands m.
Proof. by destruct m. Qed.

Lemma returns_Ret P w : P w -> returns P (Ret w).
Proof. done. Qed.

Lemma returns_inv P m : returns P m -> exists w, m = Ret w /\ P w.
Proof. destruct m; [by eauto|done..]. Qed.

Lemma returns_lands_in P m : returns P m -> lands_in P m.
Proof. by destruct m. Qed.

Lemma returns_impl P Q m : returns P m -> (forall w, P w -> Q w) -> returns Q m.
Proof. destruct m; simpl; auto. Qed.

Lemma returns_unwinding P m h : returns P m -> returns P (unwinding m h).
Proof. by destruct m. Qed.

Lemma returns_trans (R : relation W) `{!Transitive R} w m k :
  returns (R w) m -> (forall w1, R w w1 -> returns (R w1) (k w1)) ->
  returns (R w) (and_then m k).
Proof.
  destruct m as [w1| |]; [|done..]. simpl. intros H1 Hk.
  eapply returns_impl; [by apply Hk|]. intros w2 H2. by transitivity w1.
Qed.

Lemma sound_holds P m : sound P m -> holds P m.
Proof. by destruct m as [| |[| |]]. Qed.

Lemma sound_no_deadlock P m w : sound P m -> m <> Fault Deadlock w.
Proof. by intros Hm ->. Qed.

Lemma sound_Ret P w : P w -> sound P (Ret w).
Proof. done. Qed.

Lemma lands_in_sound P m : lands_in P m -> sound P m.
Proof. by destruct m; intros [? ?]. Qed.

Lemma sound_and_then P Q m k :
  sound P m -> (forall w, P w -> sound Q (k w)) -> (forall w, P w -> Q w) ->
  sound Q (and_then m k).
Proof. destruct m as [| |[| |]]; simpl; auto. Qed.

Lemma sound_seq P m k :
  sound P m -> (forall w, P w -> sound P (k w)) -> sound P (and_then m k).
Proof. intros; eapply sound_and_then; eauto. Qed.

Lemma sound_impl P Q m : sound P m -> (forall w, P w -> Q w) -> sound Q m.
Proof. destruct m as [| |[| |]]; simpl; auto. Qed.

End outcome_laws.

Section outcome_map_laws.
Context {V W : Type}.
Implicit Types (f : V -> W) (m : outcome V).

Lemma final_outcome_map f m : final (outcome_map f m) = f (final m).
Proof. by destruct m. Qed.

Lemma sound_outcome_map (P : V -> Prop) (Q : W -> Prop) f m :
  sound P m -> (forall v, P v -> Q (f v)) -> sound Q (outcome_map f m).
Proof. destruct m as [| |[| |]]; simpl; auto. Qed.

Lemma lands_in_outcome_map (P : V -> Prop) (Q : W -> Prop) f m :
  lands_in P m -> (forall v, P v -> Q (f v)) -> lands_in Q (outcome_map f m).
Proof. destruct m; intros [? ?]; unfold lands_in, holds in *; simpl in *; auto. Qed.

Lemma outcome_map_Ret_inv f m w :
  outcome_map f m = Ret w -> exists v, m = Ret v /\ w = f v.
Proof. destruct m; simpl; intros; simplify_eq; eauto. Qed.

Lemma outcome_map_Throw_inv f m w :
  outcome_map f m = Throw w -> exists v, m = Throw v /\ w = f v.
Proof. destruct m; simpl; intros; simplify_eq; eauto. Qed.

End outcome_map_laws.

(** The rule of sequence along a transitive relation, for [sound]. *)
Lemma sound_trans {W} (R : relation W) `{!Transitive R} w m k :
  sound (R w) m -> (forall w1, R w w1 -> sound (R w1) (k w1)) ->
  sound (R w) (and_then m k).
Proof.
  intros Hm Hk. eapply sound_and_then; [exact Hm| |done].
  intros w1 H1. eapply sound_impl; [by apply Hk|].
  intros w2 H2. by transitivity w1.
Qed.

#[export] Hint Resolve holds_Ret holds_Throw lands_in_Ret lands_in_Throw sound_Ret
  returns_Ret : rx.
#[export] Hint Rewrite @and_then_Ret_l @and_then_Ret_r @and_then_assoc : rx_simpl.

(** Inversion of a sequence that is known to have returned or thrown. *)
Ltac outcome_inv H :=
  first
    [ apply and_then_Ret_inv in H as (? & ? & H)
    | apply and_then_Throw_inv in H as [H | (? & ? & H)] ].

(** ** Lists *)

Section list_facts.
Context {A : Type}.
Implicit Types (l k : list A) (x : A).

(** What an append-only log gained: [l] extends [k] by the suffix [ext]. *)
Definition extends l k : Prop := exists ext, l = k ++ ext.

#[export] Instance extends_refl : Reflexive extends.
Proof. intros l. exists []. by rewrite app_nil_r. Qed.

#[export] Instance extends_trans : Transitive extends.
Proof. intros l1 l2 l3 [e1 ->] [e2 ->]. exists (e2 ++ e1). by rewrite app_assoc. Qed.

Lemma extends_snoc l x : extends (l ++ [x]) l.
Proof. by exists [x]. Qed.

Lemma extends_length l k : extends l k -> length k <= length l.
Proof. intros [e ->]. rewrite length_app. lia. Qed.

(** Nothing passes a filter that every element fails. *)
Lemma filter_none (P : A -> Prop) `{!forall x, Decision (P x)} l :
  Forall (fun x => ~ P x) l -> filter P l = [].
Proof.
  induction 1 as [|x l Hx _ IH]; [done|]. by rewrite filter_cons, decide_False.
Qed.

(** Everything passes a filter that every element passes. *)
Lemma filter_all (P : A -> Prop) `{!forall x, Decision (P x)} l :
  Forall P l -> filter P l = l.
Proof.
  induction 1 as [|x l Hx _ IH]; [done|]. by rewrite filter_cons, decide_True, IH.
Qed.

(** What holds of a list holds of what a filter keeps. *)
Lemma Forall_filter_keep (P Q : A -> Prop) `{!forall x, Decision (Q x)} l :
  Forall P l -> Forall P (filter Q l).
Proof.
  rewrite !Forall_forall. intros Hl x [_ Hx]%list_elem_of_filter. by apply Hl.
Qed.

(** What is in a list after an update by index is the new element or was
    there before. *)
Lemma elem_of_insert_inv l i x y : y ∈ <[i := x]> l -> y = x \/ y ∈ l.
Proof.
  intros [j Hj]%list_elem_of_lookup. apply list_lookup_insert_Some in Hj as [(_ & <- & _)|[_ Hj]].
  - by left.
  - right. by eapply list_elem_of_lookup_2.
Qed.

(** A sorted list stays sorted when an element that everything precedes is
    put at its end. *)
Lemma StronglySorted_snoc (R : relation A) l a :
  StronglySorted R l -> Forall (fun b => R b a) l -> StronglySorted R (l ++ [a]).
Proof.
  induction 1 as [|b l Hl IH Hb]; simpl; intros Ha.
  - repeat constructor.
  - apply Forall_cons in Ha as [? ?]. constructor; [by apply IH|].
    apply Forall_app. split; [done|by constructor].
Qed.

Lemma StronglySorted_suffix (R : relation A) l k :
  StronglySorted R (l ++ k) -> StronglySorted R k.
Proof.
  induction l as [|x l IH]; [done|]. simpl.
  intros [? _]%StronglySorted_inv. by apply IH.
Qed.

(** The interleavings of two sequences: every merge that keeps the order of
    each. *)
Fixpoint interleavings l : list A -> list (list A) :=
  fix inner k :=
    match l, k with
    | [], _ => [k]
    | _, [] => [l]
    | x :: l', y :: k' => map (cons x) (interleavings l' k) ++ map (cons y) (inner k')
    end.

Lemma interleavings_cons x l y k :
  interleavings (x :: l) (y :: k)
  = map (cons x) (interleavings l (y :: k)) ++ map (cons y) (interleavings (x :: l) k).
Proof. done. Qed.

Lemma interleavings_length l k :
  Forall (fun i => length i = length l + length k) (interleavings l k).
Proof.
  revert k. induction l as [|x l IHl]; intros k.
  - destruct k; by repeat constructor.
  - induction k as [|y k IHk]; [repeat constructor; simpl; lia|].
    rewrite interleavings_cons. apply Forall_app. split; rewrite Forall_fmap.
    + pose proof (IHl (y :: k)) as IH. rewrite Forall_forall in IH |- *.
      intros i Hi. simpl. rewrite (IH i Hi). simpl. lia.
    + rewrite Forall_forall in IHk |- *.
      intros i Hi. simpl. rewrite (IHk i Hi). simpl. lia.
Qed.

End list_facts.

#[export] Hint Resolve extends_snoc : rx.
