(* ===== verification/Lifetime.v ===== *)
(** * Lifetime: [composite_subscription], the cancellation token

    RxCpp's [composite_subscription] is a shared handle on a state that is
    either subscribed or not (one way: it never becomes subscribed again) and
    that holds the subscriptions nested in it, which are unsubscribed with it.
    Its source (rx-subscription.hpp) is not part of the repository sources:
    the model follows section 4.1 of the specification.

    - [LifetimeOps], [Lifetimes]: the interface (operations, then laws) the
      other components are verified against.  A world type [W] is any state
      that carries subscription states; [narrows w' w] says that [w'] has no
      live token that [w] has not.
    - Module [composite_subscription]: the implementation, a finite map from
      tokens to cells, with the recursive [unsubscribe] on fuel, and the
      instance that discharges the laws.
    - What [unsubscribe] ends: [shrinks] (tokens only end, and the cleanups
      of those that end run, each once) holds for any fuel, [closes] (what is
      nested in an ended token has ended) for the fuel [unsubscribe] gives;
      together they say that unsubscribing ends exactly the tokens nested at
      any depth ([unsubscribe_ends_nested]) and runs exactly their cleanups
      ([unsubscribe_runs_cleanups]); a cleanup registered with a live token
      runs once, with an ended one on the spot
      ([registered_cleanup_runs_once], [late_cleanup_runs_at_once]). *)

From stdpp Require Import gmap.
From S2P Require Import Prelude.

(** ** The interface *)

(** A cleanup function registered with [make_subscription(f)] is named by an
    identifier; running it is recorded, so that "at most once" is a statement
    about the record. *)
Abbreviation cleanup := nat.

Class LifetimeOps (W : Type) : Type := {
  (** [cs.is_subscribed()] *)
  cs_is_subscribed : token -> W -> bool;
  (** [cs.unsubscribe()] *)
  cs_unsubscribe : token -> W -> W;
  (** [cs.add(s)]: nest subscription [s]; the weak handle returned is [s] *)
  cs_add : token -> token -> W -> W;
  (** [cs.remove(w)]: forget a nested subscription without ending it *)
  cs_remove : token -> token -> W -> W;
  (** [cs.clear()]: end every nested subscription, stay subscribed *)
  cs_clear : token -> W -> W;
  (** [composite_subscription()]: a new, subscribed state *)
  cs_create : W -> token * W;
  (** [make_subscription(f)]: a new subscription that runs [f] when it ends *)
  cs_make : cleanup -> W -> token * W;
}.

(** [narrows w' w]: every token live in [w'] is live in [w]. *)
Definition narrows `{LifetimeOps W} (w' w : W) : Prop :=
  forall u, cs_is_subscribed u w' = true -> cs_is_subscribed u w = true.

Class Lifetimes (W : Type) `{LifetimeOps W} : Prop := {
  cs_unsubscribe_off t w : cs_is_subscribed t (cs_unsubscribe t w) = false;
  cs_unsubscribe_dead t w : cs_is_subscribed t w = false -> cs_unsubscribe t w = w;
  cs_unsubscribe_narrows t w : narrows (cs_unsubscribe t w) w;
  cs_add_narrows p c w : narrows (cs_add p c w) w;
  cs_add_dead p c w :
    cs_is_subscribed p w = false -> cs_add p c w = cs_unsubscribe c w;
  cs_remove_flags p c w u :
    cs_is_subscribed u (cs_remove p c w) = cs_is_subscribed u w;
  cs_clear_narrows t w : narrows (cs_clear t w) w;
  cs_create_fresh w : cs_is_subscribed (cs_create w).1 w = false;
  cs_create_live w : cs_is_subscribed (cs_create w).1 (cs_create w).2 = true;
  cs_create_others w u :
    u <> (cs_create w).1 ->
    cs_is_subscribed u (cs_create w).2 = cs_is_subscribed u w;
  cs_make_fresh f w : cs_is_subscribed (cs_make f w).1 w = false;
  cs_make_live f w : cs_is_subscribed (cs_make f w).1 (cs_make f w).2 = true;
  cs_make_others f w u :
    u <> (cs_make f w).1 ->
    cs_is_subscribed u (cs_make f w).2 = cs_is_subscribed u w;
}.

Section lifetime_facts.
Context `{Lifetimes W}.
Implicit Types (w : W) (t u : token).

#[export] Instance narrows_refl : Reflexive (narrows (W:=W)).
Proof. by intros w u. Qed.

#[export] Instance narrows_trans : Transitive (narrows (W:=W)).
Proof. intros w1 w2 w3 H12 H23 u Hu. by apply H23, H12. Qed.

(** A dead token stays dead in every narrower world. *)
Lemma narrows_dead w' w t :
  narrows w' w -> cs_is_subscribed t w = false -> cs_is_subscribed t w' = false.
Proof.
  intros Hn Hd. destruct (cs_is_subscribed t w') eqn:E; [|done].
  apply Hn in E. congruence.
Qed.

Lemma cs_unsubscribe_idem t w :
  cs_unsubscribe t (cs_unsubscribe t w) = cs_unsubscribe t w.
Proof. apply cs_unsubscribe_dead, cs_unsubscribe_off. Qed.

Lemma cs_unsubscribe_stays_dead t u w :
  cs_is_subscribed u w = false -> cs_is_subscribed u (cs_unsubscribe t w) = false.
Proof. apply narrows_dead, cs_unsubscribe_narrows. Qed.

Lemma holds_narrows w (m : outcome W) (k : W -> outcome W) :
  holds (fun w' => narrows w' w) m ->
  (forall w1, holds (fun w' => narrows w' w1) (k w1)) ->
  holds (fun w' => narrows w' w) (and_then m k).
Proof.
  intros Hm Hk. eapply holds_and_then; [exact Hm| |done].
  intros w1 H1. eapply holds_impl; [apply Hk|]. intros w2 H2. by transitivity w1.
Qed.

End lifetime_facts.

#[export] Hint Resolve cs_unsubscribe_narrows cs_add_narrows cs_clear_narrows
  cs_unsubscribe_off cs_unsubscribe_stays_dead : rx.

(** ** Worlds that hold subscriptions

    A component keeps the subscription states in a field of its world.  The
    operations on the field act on the world, and the laws carry over. *)
Section lifted.
Context {L W : Type} `{!LifetimeOps L} (get : W -> L) (set : L -> W -> W).

Definition lifted_ops : LifetimeOps W := {|
  cs_is_subscribed t w := cs_is_subscribed t (get w);
  cs_unsubscribe t w := set (cs_unsubscribe t (get w)) w;
  cs_add p c w := set (cs_add p c (get w)) w;
  cs_remove p c w := set (cs_remove p c (get w)) w;
  cs_clear t w := set (cs_clear t (get w)) w;
  cs_create w := let '(t, s) := cs_create (get w) in (t, set s w);
  cs_make f w := let '(t, s) := cs_make f (get w) in (t, set s w);
|}.

Context `{!Lifetimes L}.
Context (get_set : forall s w, get (set s w) = s) (set_get : forall w, set (get w) w = w).

Lemma lifted_lifetimes : @Lifetimes W lifted_ops.
Proof.
  split; unfold narrows; simpl; intros;
    repeat match goal with H : context [get (set _ _)] |- _ => rewrite get_set in H end;
    rewrite ?get_set.
  - apply cs_unsubscribe_off.
  - by rewrite cs_unsubscribe_dead, set_get.
  - by eapply cs_unsubscribe_narrows.
  - by eapply cs_add_narrows.
  - by rewrite cs_add_dead.
  - apply cs_remove_flags.
  - by eapply cs_clear_narrows.
  - pose proof (cs_create_fresh (get w)). by destruct (cs_create (get w)).
  - pose proof (cs_create_live (get w)).
    destruct (cs_create (get w)); simpl in *. by rewrite get_set.
  - pose proof (cs_create_others (get w) u).
    destruct (cs_create (get w)); simpl in *. rewrite get_set. auto.
  - pose proof (cs_make_fresh f (get w)). by destruct (cs_make f (get w)).
  - pose proof (cs_make_live f (get w)).
    destruct (cs_make f (get w)); simpl in *. by rewrite get_set.
  - pose proof (cs_make_others f (get w) u).
    destruct (cs_make f (get w)); simpl in *. rewrite get_set. auto.
Qed.

End lifted.

(** ** The implementation *)

Module composite_subscription.

(** The shared state behind a handle. *)
Record state : Type := State {
  issubscribed : bool;
  subscriptions : list token;       (* nested subscriptions, in insertion order *)
  on_unsubscribe : option cleanup;  (* the function of a [make_subscription(f)] *)
}.

(** Every state allocated so far, and the cleanups run so far (newest last). *)
Record store : Type := Store {
  cells : gmap token state;
  fired : list cleanup;
}.

Definition empty : store := Store ∅ [].

Definition cell (t : token) (s : store) : state :=
  default (State false [] None) (cells s !! t).

Definition set_cell (t : token) (c : state) (s : store) : store :=
  Store (<[t := c]> (cells s)) (fired s).

Definition is_subscribed (t : token) (s : store) : bool :=
  issubscribed (cell t s).

Definition fire (f : option cleanup) (s : store) : store :=
  match f with
  | Some f => Store (cells s) (fired s ++ [f])
  | None => s
  end.

Definition alloc (c : state) (s : store) : token * store :=
  let t := fresh (dom (cells s)) in (t, set_cell t c s).

Definition create (s : store) : token * store := alloc (State true [] None) s.

Definition make_subscription (f : cleanup) (s : store) : token * store :=
  alloc (State true [] (Some f)) s.

(** [unsubscribe]: exchange the flag to false; when it was true, take the
    nested subscriptions out, run the cleanup and unsubscribe each of them.
    The flag is cleared first, so a cycle of subscriptions ends. *)
Fixpoint unsubscribe_fuel (n : nat) (t : token) (s : store) : store :=
  match n with
  | 0 => s
  | S n =>
      if is_subscribed t s then
        let c := cell t s in
        let s := set_cell t (State false [] (on_unsubscribe c)) s in
        let s := fire (on_unsubscribe c) s in
        foldl (fun s u => unsubscribe_fuel n u s) s (subscriptions c)
      else s
  end.

Definition unsubscribe (t : token) (s : store) : store :=
  unsubscribe_fuel (S (size (cells s))) t s.

(** [add]: a subscription added to an ended lifetime is ended on the spot;
    one that has itself ended is not kept. *)
Definition add (p c : token) (s : store) : store :=
  if is_subscribed p s then
    if is_subscribed c s then
      let cp := cell p s in
      set_cell p (State true (subscriptions cp ++ [c]) (on_unsubscribe cp)) s
    else s
  else unsubscribe c s.

Definition remove (p c : token) (s : store) : store :=
  if is_subscribed p s then
    let cp := cell p s in
    set_cell p (State true (filter (fun u => u <> c) (subscriptions cp))
                  (on_unsubscribe cp)) s
  else s.

Definition clear (p : token) (s : store) : store :=
  if is_subscribed p s then
    let cp := cell p s in
    let s := set_cell p (State true [] (on_unsubscribe cp)) s in
    foldl (fun s u => unsubscribe u s) s (subscriptions cp)
  else s.

#[global] Instance store_ops : LifetimeOps store := {
  cs_is_subscribed := is_subscribed;
  cs_unsubscribe := unsubscribe;
  cs_add := add;
  cs_remove := remove;
  cs_clear := clear;
  cs_create := create;
  cs_make := make_subscription;
}.

(** *** Facts *)

Implicit Types (s : store) (t u p : token) (c : state).

Lemma is_subscribed_set_cell t u c s :
  is_subscribed u (set_cell t c s) =
  if decide (t = u) then issubscribed c else is_subscribed u s.
Proof.
  unfold is_subscribed, cell, set_cell; simpl.
  rewrite lookup_insert. by case_decide.
Qed.

Lemma is_subscribed_fire f u s : is_subscribed u (fire f s) = is_subscribed u s.
Proof. by destruct f. Qed.

(** [dead_stays s' s]: no token came back to life from [s] to [s']. *)
Definition dead_stays (s' s : store) : Prop :=
  forall u, is_subscribed u s' = true -> is_subscribed u s = true.

Lemma dead_stays_foldl (f : store -> token -> store) l s :
  (forall s u, dead_stays (f s u) s) -> dead_stays (foldl f s l) s.
Proof.
  intros Hf. revert s. induction l as [|x l IH]; intros s u; simpl; [done|].
  intros Hu. by apply Hf with x, IH.
Qed.

Lemma unsubscribe_fuel_dead_stays n t s : dead_stays (unsubscribe_fuel n t s) s.
Proof.
  revert t s. induction n as [|n IH]; intros t s u; simpl; [done|].
  destruct (is_subscribed t s) eqn:Et; [|done]. intros Hu.
  apply (dead_stays_foldl (fun s u => unsubscribe_fuel n u s)) in Hu;
    [|intros; apply IH].
  rewrite is_subscribed_fire, is_subscribed_set_cell in Hu.
  case_decide; simplify_eq; done.
Qed.

Lemma unsubscribe_fuel_off n t s : is_subscribed t (unsubscribe_fuel (S n) t s) = false.
Proof.
  simpl. destruct (is_subscribed t s) eqn:Et; [|done].
  match goal with |- is_subscribed t ?x = false => destruct (is_subscribed t x) eqn:E end;
    [|done].
  apply (dead_stays_foldl (fun s u => unsubscribe_fuel n u s)) in E;
    [|intros; apply unsubscribe_fuel_dead_stays].
  rewrite is_subscribed_fire, is_subscribed_set_cell in E. by case_decide.
Qed.

Lemma unsubscribe_fuel_dead n t s :
  is_subscribed t s = false -> unsubscribe_fuel n t s = s.
Proof. intros E. destruct n; simpl; [done|]. by rewrite E. Qed.

Lemma alloc_fresh c s : is_subscribed (alloc c s).1 s = false.
Proof.
  unfold alloc, is_subscribed, cell; simpl.
  pose proof (is_fresh (dom (cells s))) as Hf.
  apply not_elem_of_dom in Hf. by rewrite Hf.
Qed.

Lemma alloc_lookup c s u :
  is_subscribed u (alloc c s).2 =
  if decide ((alloc c s).1 = u) then issubscribed c else is_subscribed u s.
Proof. unfold alloc; simpl. apply is_subscribed_set_cell. Qed.

Lemma alloc_live c s : issubscribed c = true -> is_subscribed (alloc c s).1 (alloc c s).2 = true.
Proof. intros Hc. rewrite alloc_lookup. by rewrite decide_True. Qed.

Lemma alloc_others c s u :
  u <> (alloc c s).1 -> is_subscribed u (alloc c s).2 = is_subscribed u s.
Proof. intros Hu. rewrite alloc_lookup. by rewrite decide_False. Qed.

Lemma add_dead_stays p q s : dead_stays (add p q s) s.
Proof.
  intros u. unfold add. case_guards; rewrite ?is_subscribed_set_cell.
  - case_decide; simplify_eq; done.
  - apply unsubscribe_fuel_dead_stays.
Qed.

Lemma remove_flags p q s u : is_subscribed u (remove p q s) = is_subscribed u s.
Proof.
  unfold remove. case_guards.
  rewrite is_subscribed_set_cell. case_decide; simplify_eq; done.
Qed.

Lemma clear_dead_stays p s : dead_stays (clear p s) s.
Proof.
  intros u. unfold clear. case_guards. intros Hu.
  apply (dead_stays_foldl (fun s u => unsubscribe u s)) in Hu;
    [|intros; apply unsubscribe_fuel_dead_stays].
  rewrite is_subscribed_set_cell in Hu. case_decide; simplify_eq; done.
Qed.

#[global] Instance store_lifetimes : Lifetimes store.
Proof.
  split.
  - intros t s. apply unsubscribe_fuel_off.
  - intros t s. apply unsubscribe_fuel_dead.
  - intros t s. apply unsubscribe_fuel_dead_stays.
  - apply add_dead_stays.
  - intros p q s E. cbn in *. unfold add. by rewrite E.
  - apply remove_flags.
  - apply clear_dead_stays.
  - intros s. apply (alloc_fresh (State true [] None)).
  - intros s. by apply (alloc_live (State true [] None)).
  - intros s u. apply (alloc_others (State true [] None)).
  - intros f s. apply (alloc_fresh (State true [] (Some f))).
  - intros f s. by apply (alloc_live (State true [] (Some f))).
  - intros f s u. apply (alloc_others (State true [] (Some f))).
Qed.

(** *** What [unsubscribe] ends, and the cleanups it runs *)

(** The tokens that are subscribed. *)
Definition live (s : store) : gset token :=
  dom (filter (fun kc => issubscribed kc.2 = true) (cells s)).

(** [u] is nested in [t]. *)
Definition nested (s : store) (t u : token) : Prop := u ∈ subscriptions (cell t s).

(** [u] is nested in [t] at some depth, below subscribed tokens. *)
Definition under (s : store) : relation token :=
  rtc (fun x y => is_subscribed x s = true /\ nested s x y).

(** The cleanups of the tokens [X]. *)
Definition cleanups (s : store) (X : gset token) : list cleanup :=
  omap (fun x => on_unsubscribe (cell x s)) (elements X).

(** [shrinks s s']: tokens have ended from [s] to [s'], none has changed
    otherwise, and the cleanups of those that ended have run, each once. *)
Record shrinks (s s' : store) : Prop := Shrinks {
  shrinks_keeps u :
    is_subscribed u s' = true -> is_subscribed u s = true /\ cell u s' = cell u s;
  shrinks_fired : fired s' ≡ₚ fired s ++ cleanups s (live s ∖ live s');
}.

(** [closes s s']: what is nested in a token that ended has ended. *)
Definition closes (s s' : store) : Prop :=
  forall x y, is_subscribed x s = true -> is_subscribed x s' = false ->
    nested s x y -> is_subscribed y s' = false.

Lemma elem_of_live u s : u ∈ live s <-> is_subscribed u s = true.
Proof.
  unfold live, is_subscribed, cell. rewrite elem_of_dom. unfold is_Some.
  setoid_rewrite map_lookup_filter_Some. simpl.
  destruct (cells s !! u) as [c|]; simpl; naive_solver.
Qed.

Lemma live_size s : size (live s) <= size (cells s).
Proof.
  rewrite <- (size_dom (D:=gset token)). apply subseteq_size, subseteq_dom, map_filter_subseteq.
Qed.

Lemma shrinks_live s s' : shrinks s s' -> live s' ⊆ live s.
Proof. intros [Hk _] u. rewrite !elem_of_live. intros Hu. by apply Hk. Qed.

Lemma cleanups_same s s' (X : gset token) :
  (forall u, u ∈ X -> cell u s' = cell u s) -> cleanups s' X = cleanups s X.
Proof.
  intros HX. unfold cleanups.
  assert (Forall (fun u => cell u s' = cell u s) (elements X)) as Hall
    by (apply Forall_forall; intros u Hu%elem_of_elements; auto).
  induction Hall as [|u l Hu _ IH]; simpl; [done|]. rewrite Hu.
  destruct (on_unsubscribe (cell u s)); [f_equal|]; exact IH.
Qed.

#[local] Instance shrinks_refl : Reflexive shrinks.
Proof.
  intros s. split; [done|].
  replace (live s ∖ live s) with (∅ : gset token) by set_solver.
  unfold cleanups. by rewrite elements_empty, app_nil_r.
Qed.

#[local] Instance shrinks_trans : Transitive shrinks.
Proof.
  intros s1 s2 s3 H12 H23.
  pose proof (shrinks_live _ _ H12) as L12. pose proof (shrinks_live _ _ H23) as L23.
  destruct H12 as [K12 F12], H23 as [K23 F23]. split.
  - intros u Hu. destruct (K23 u Hu) as [H2 E2]. destruct (K12 u H2) as [H1 E1].
    split; [done|congruence].
  - rewrite F23, F12, <- app_assoc. f_equiv.
    rewrite (cleanups_same s1 s2)
      by (intros u [Hu _]%elem_of_difference; by apply K12, elem_of_live).
    unfold cleanups. rewrite <- omap_app. apply omap_Permutation.
    rewrite <- elements_disj_union by set_solver. apply elements_proper.
    intros u. destruct (decide (u ∈ live s2)); set_solver.
Qed.

Lemma closes_trans s1 s2 s3 :
  shrinks s1 s2 -> shrinks s2 s3 -> closes s1 s2 -> closes s2 s3 -> closes s1 s3.
Proof.
  intros [K12 _] [K23 _] C12 C23 x y H1 H3 Hn.
  destruct (is_subscribed y s3) eqn:Hy; [|done].
  destruct (is_subscribed x s2) eqn:H2.
  - destruct (K12 x H2) as [_ Ex]. rewrite <- Hy. apply (C23 x y); [done..|].
    unfold nested. by rewrite Ex.
  - destruct (K23 y Hy) as [Hy2 _]. by rewrite (C12 x y) in Hy2.
Qed.

(** The first step of [unsubscribe]: the flag is cleared and the cleanup
    runs. *)
Lemma shrinks_kill t s :
  is_subscribed t s = true ->
  shrinks s (fire (on_unsubscribe (cell t s))
               (set_cell t (State false [] (on_unsubscribe (cell t s))) s)).
Proof.
  intros Ht. set (s0 := fire _ _).
  assert (forall u, is_subscribed u s0 = if decide (t = u) then false else is_subscribed u s)
    as Hflag.
  { intros u. unfold s0. rewrite is_subscribed_fire, is_subscribed_set_cell.
    by case_decide. }
  assert (forall u, t <> u -> cell u s0 = cell u s) as Hcell.
  { intros u Hu. unfold s0, cell. destruct (on_unsubscribe _); simpl;
      by rewrite lookup_insert_ne. }
  split.
  - intros u. rewrite Hflag. case_decide; [done|]. auto.
  - replace (live s ∖ live s0) with ({[t]} : gset token).
    + unfold cleanups. rewrite elements_singleton. simpl.
      unfold s0. destruct (on_unsubscribe (cell t s)); simpl; by rewrite ?app_nil_r.
    + apply set_eq. intros u.
      rewrite elem_of_singleton, elem_of_difference, !elem_of_live, Hflag.
      case_decide; naive_solver.
Qed.

Lemma shrinks_dead s s' u :
  shrinks s s' -> is_subscribed u s = false -> is_subscribed u s' = false.
Proof.
  intros [Hk _] Hu. destruct (is_subscribed u s') eqn:Hu'; [|done].
  destruct (Hk u Hu'). congruence.
Qed.

Lemma shrinks_size s s' : shrinks s s' -> size (live s') <= size (live s).
Proof. intros H. by apply subseteq_size, shrinks_live. Qed.

Lemma under_mono s s' t u : shrinks s s' -> under s' t u -> under s t u.
Proof.
  intros [Hk _]. apply rtc_subrel. intros x y [Hx Hn].
  destruct (Hk x Hx) as [Hx' Ex]. split; [done|]. unfold nested in *. by rewrite <- Ex.
Qed.

Lemma closes_refl s : closes s s.
Proof. intros x y Hx Hx'. congruence. Qed.

Lemma foldl_shrinks (f : store -> token -> store) l s :
  (forall s u, shrinks s (f s u)) -> shrinks s (foldl f s l).
Proof.
  intros Hf. revert s. induction l as [|x l IH]; intros s; simpl; [done|].
  by transitivity (f s x).
Qed.

(** Whatever the fuel, [unsubscribe] only ends tokens, and runs the cleanups
    of those it ends. *)
Lemma unsubscribe_fuel_shrinks n t s : shrinks s (unsubscribe_fuel n t s).
Proof.
  revert t s. induction n as [|n IH]; intros t s; simpl; [done|].
  destruct (is_subscribed t s) eqn:Ht; [|done].
  etransitivity; [by apply shrinks_kill|]. apply foldl_shrinks. intros; apply IH.
Qed.

(** The tokens it ends are nested in [t]. *)
Lemma foldl_under (f : store -> token -> store) l s x :
  (forall s u, shrinks s (f s u)) ->
  (forall s u, is_subscribed x s = true -> is_subscribed x (f s u) = false -> under s u x) ->
  is_subscribed x s = true -> is_subscribed x (foldl f s l) = false ->
  exists k, k ∈ l /\ under s k x.
Proof.
  intros Hs Hf. revert s. induction l as [|k l IH]; intros s Hx Hx'; simpl in *; [congruence|].
  destruct (is_subscribed x (f s k)) eqn:H1.
  - destruct (IH _ H1 Hx') as (k' & Hk' & Hu). exists k'.
    split; [set_solver|]. eapply under_mono; [apply Hs|done].
  - exists k. split; [set_solver|]. by apply Hf.
Qed.

Lemma unsubscribe_fuel_under n t s x :
  is_subscribed x s = true -> is_subscribed x (unsubscribe_fuel n t s) = false ->
  under s t x.
Proof.
  revert t s. induction n as [|n IH]; intros t s Hx Hx'; simpl in *; [congruence|].
  destruct (is_subscribed t s) eqn:Ht; [|congruence].
  destruct (decide (t = x)) as [->|Hne]; [done|].
  pose proof (shrinks_kill t s Ht) as Hkill. set (s0 := fire _ _) in *.
  assert (is_subscribed x s0 = true) as Hx0.
  { unfold s0. rewrite is_subscribed_fire, is_subscribed_set_cell. by rewrite decide_False. }
  destruct (foldl_under (fun s u => unsubscribe_fuel n u s) (subscriptions (cell t s)) s0 x)
    as (k & Hk & Hu);
    [intros; apply unsubscribe_fuel_shrinks|intros; by apply IH|done|done|].
  eapply rtc_l; [|by eapply under_mono]. done.
Qed.

(** With fuel beyond the number of subscribed tokens, it ends what is
    nested in what it ends. *)
Lemma foldl_closes (f : store -> token -> store) n l s :
  (forall s u, shrinks s (f s u)) ->
  (forall s u, size (live s) < n ->
     closes s (f s u) /\ is_subscribed u (f s u) = false) ->
  size (live s) < n ->
  closes s (foldl f s l) /\ Forall (fun u => is_subscribed u (foldl f s l) = false) l.
Proof.
  intros Hs Hf. revert s. induction l as [|k l IH]; intros s Hn; simpl.
  - split; [apply closes_refl|constructor].
  - destruct (Hf s k Hn) as [Hc Hk]. pose proof (shrinks_size _ _ (Hs s k)) as Hsz.
    destruct (IH (f s k)) as [Hc' Hl]; [lia|].
    pose proof (foldl_shrinks f l (f s k) Hs) as Hs'.
    split; [by apply (closes_trans s (f s k)); [apply Hs|..]|].
    constructor; [by eapply shrinks_dead|done].
Qed.

Lemma unsubscribe_fuel_closes n t s :
  size (live s) < n ->
  closes s (unsubscribe_fuel n t s) /\ is_subscribed t (unsubscribe_fuel n t s) = false.
Proof.
  revert t s. induction n as [|n IH]; intros t s Hn; simpl; [lia|].
  destruct (is_subscribed t s) eqn:Ht; [|by split; [apply closes_refl|]].
  pose proof (shrinks_kill t s Ht) as Hkill. set (s0 := fire _ _) in *.
  assert (forall u, is_subscribed u s0 = if decide (t = u) then false else is_subscribed u s)
    as Hflag.
  { intros u. unfold s0. rewrite is_subscribed_fire, is_subscribed_set_cell.
    by case_decide. }
  assert (size (live s0) < size (live s)) as Hlt.
  { apply subset_size. split; [by apply shrinks_live|].
    intros Hsub. specialize (Hsub t). rewrite !elem_of_live, Hflag, decide_True in Hsub by done.
    by specialize (Hsub Ht). }
  destruct (foldl_closes (fun s u => unsubscribe_fuel n u s) n (subscriptions (cell t s)) s0)
    as [Hc Hl]; [intros; apply unsubscribe_fuel_shrinks|intros; by apply IH|lia|].
  pose proof (foldl_shrinks (fun s u => unsubscribe_fuel n u s) (subscriptions (cell t s)) s0
                (fun s u => unsubscribe_fuel_shrinks n u s)) as Hs'.
  split.
  - intros x y Hx Hx' Hxy. destruct (decide (t = x)) as [<-|Hne].
    + rewrite Forall_forall in Hl. by apply Hl.
    + apply (Hc x y); [by rewrite Hflag, decide_False|done|].
      destruct Hkill as [Hk _]. destruct (Hk x) as [_ Ex]; [by rewrite Hflag, decide_False|].
      unfold nested. by rewrite Ex.
  - eapply shrinks_dead; [done|]. by rewrite Hflag, decide_True.
Qed.

(** [unsubscribe] gives the fuel that is enough. *)
Lemma unsubscribe_closes t s :
  closes s (unsubscribe t s) /\ is_subscribed t (unsubscribe t s) = false.
Proof. apply unsubscribe_fuel_closes. pose proof (live_size s). lia. Qed.

(** Unsubscribing [t] ends the tokens nested in [t] at any depth, and no
    other. *)
Theorem unsubscribe_ends_nested t s u :
  is_subscribed t s = true ->
  is_subscribed u (unsubscribe t s) = true
  <-> is_subscribed u s = true /\ ~ under s t u.
Proof.
  intros Ht. destruct (unsubscribe_closes t s) as [Hc Hoff].
  pose proof (unsubscribe_fuel_shrinks (S (size (cells s))) t s) as [Hk _].
  fold (unsubscribe t s) in Hk. split.
  - intros Hu. split; [by apply Hk|]. intros Hun.
    assert (is_subscribed u (unsubscribe t s) = false); [|congruence].
    clear Hu. revert u Hun.
    apply (rtc_ind_r (fun z => is_subscribed z (unsubscribe t s) = false) t); [done|].
    intros y z _ [Hy Hyz] IH. by apply (Hc y z).
  - intros [Hu Hn]. destruct (is_subscribed u (unsubscribe t s)) eqn:Hu'; [done|].
    destruct Hn. by eapply unsubscribe_fuel_under.
Qed.

(** The cleanups that unsubscribing runs are those of the tokens it ends,
    each once. *)
Theorem unsubscribe_runs_cleanups t s :
  fired (unsubscribe t s) ≡ₚ fired s ++ cleanups s (live s ∖ live (unsubscribe t s)).
Proof. apply unsubscribe_fuel_shrinks. Qed.

(** *** Registering a cleanup *)

(** What [make_subscription(f)] allocates. *)
Lemma make_subscription_cell f s :
  cell (make_subscription f s).1 (make_subscription f s).2 = State true [] (Some f) /\
  fired (make_subscription f s).2 = fired s /\
  forall u, u <> (make_subscription f s).1 -> cell u (make_subscription f s).2 = cell u s.
Proof.
  unfold make_subscription, alloc, cell, set_cell. simpl.
  rewrite lookup_insert_eq. split_and!; [done..|]. intros u Hu. by rewrite lookup_insert_ne.
Qed.

(** What [add] does to a subscribed token. *)
Lemma add_live p k s :
  is_subscribed p s = true -> is_subscribed k s = true ->
  cell p (add p k s)
  = State true (subscriptions (cell p s) ++ [k]) (on_unsubscribe (cell p s)) /\
  fired (add p k s) = fired s /\
  forall u, u <> p -> cell u (add p k s) = cell u s.
Proof.
  intros Hp Hk. unfold add. rewrite Hp, Hk. unfold cell, set_cell. simpl.
  rewrite lookup_insert_eq. split_and!; [done..|]. intros u Hu. by rewrite lookup_insert_ne.
Qed.

(** The cleanups of a set of tokens, one of them taken out. *)
Lemma cleanups_split s k (X : gset token) :
  k ∈ X ->
  cleanups s X ≡ₚ from_option (fun f => [f]) [] (on_unsubscribe (cell k s))
                   ++ cleanups s (X ∖ {[k]}).
Proof.
  intros Hk. unfold cleanups.
  assert (elements X ≡ₚ elements ({[k]} : gset token) ++ elements (X ∖ {[k]})) as ->.
  { rewrite <- elements_disj_union by set_solver. apply elements_proper.
    intros u. destruct (decide (u = k)); set_solver. }
  rewrite omap_app, elements_singleton. simpl. by destruct (on_unsubscribe (cell k s)).
Qed.

Lemma cleanups_without f s (X : gset token) :
  (forall x, x ∈ X -> on_unsubscribe (cell x s) <> Some f) ->
  filter (eq f) (cleanups s X) = [].
Proof.
  intros HX. apply filter_none, Forall_forall. intros g Hg <-.
  apply list_elem_of_omap in Hg as (x & Hx%elem_of_elements & Hf). by apply (HX x).
Qed.

(** No token has a cleanup named [f]. *)
Definition unused (f : cleanup) (s : store) : Prop :=
  map_Forall (fun _ c => on_unsubscribe c <> Some f) (cells s).

#[global] Instance unused_dec f s : Decision (unused f s).
Proof. unfold unused. apply _. Defined.

Lemma unused_live f s x :
  unused f s -> is_subscribed x s = true -> on_unsubscribe (cell x s) <> Some f.
Proof.
  intros Hf _. unfold cell. destruct (cells s !! x) as [c|] eqn:Hc; [|done].
  by apply (Hf x c).
Qed.

(** A cleanup registered with a subscribed token, under a name that is not
    in use, has not run; it runs once when the token is unsubscribed. *)
Lemma registered_cleanup_runs_once p f s :
  is_subscribed p s = true -> f ∉ fired s ->
  (forall x, is_subscribed x s = true -> on_unsubscribe (cell x s) <> Some f) ->
  let s1 := add p (make_subscription f s).1 (make_subscription f s).2 in
  fired s1 = fired s /\ filter (eq f) (fired (unsubscribe p s1)) = [f].
Proof.
  intros Hp Hf Hnew. destruct (make_subscription_cell f s) as (Hc & Hfired & Hother).
  pose proof (alloc_fresh (State true [] (Some f)) s) as Hfresh.
  pose proof (alloc_live (State true [] (Some f)) s eq_refl) as Hlive.
  fold (make_subscription f s) in Hfresh, Hlive.
  set (c := (make_subscription f s).1) in *. set (s0 := (make_subscription f s).2) in *.
  assert (p <> c) as Hpc by congruence.
  assert (is_subscribed p s0 = true) as Hp0 by (unfold is_subscribed; by rewrite Hother).
  destruct (add_live p c s0 Hp0 Hlive) as (Hcp & Hfired1 & Hother1). simpl.
  set (s1 := add p c s0) in *.
  assert (forall x, x <> c -> is_subscribed x s1 = is_subscribed x s /\
                    on_unsubscribe (cell x s1) = on_unsubscribe (cell x s)) as Hsame.
  { intros x Hx. unfold is_subscribed. destruct (decide (x = p)) as [->|Hxp].
    - rewrite Hcp, Hother by done. simpl. by rewrite <- Hp.
    - by rewrite Hother1, Hother. }
  assert (cell c s1 = State true [] (Some f)) as Hc1 by (by rewrite Hother1).
  assert (is_subscribed p s1 = true) as Hp1 by (unfold is_subscribed; by rewrite Hcp).
  split; [congruence|]. apply Permutation_singleton_r.
  rewrite (unsubscribe_runs_cleanups p s1), filter_app, Hfired1, Hfired.
  rewrite (filter_none (eq f) (fired s)) by (apply Forall_forall; by intros ? ? <-).
  rewrite (cleanups_split s1 c), Hc1; last first.
  { apply elem_of_difference. rewrite !elem_of_live. split; [unfold is_subscribed; by rewrite Hc1|].
    rewrite (unsubscribe_ends_nested p s1 c Hp1). intros [_ Hn]. apply Hn.
    apply rtc_once. split; [done|]. unfold nested. rewrite Hcp. set_solver. }
  simpl. rewrite filter_cons, decide_True, cleanups_without; [done| |done].
  intros x [[Hx _]%elem_of_difference Hxc%not_elem_of_singleton]%elem_of_difference.
  apply elem_of_live in Hx. destruct (Hsame x Hxc) as [Hl ->]. apply Hnew. congruence.
Qed.

(** A token that was allocated is not the next one. *)
Lemma alloc_new c s p : is_Some (cells s !! p) -> p <> (alloc c s).1.
Proof.
  intros Hp%elem_of_dom ->. by apply (is_fresh (dom (cells s))).
Qed.

(** A cleanup registered with a token that has ended runs on the spot. *)
Lemma late_cleanup_runs_at_once p f s :
  is_Some (cells s !! p) -> is_subscribed p s = false ->
  let s1 := add p (make_subscription f s).1 (make_subscription f s).2 in
  fired s1 = fired s ++ [f] /\ is_subscribed (make_subscription f s).1 s1 = false.
Proof.
  intros Hin Hp. destruct (make_subscription_cell f s) as (Hc & Hfired & Hother).
  pose proof (alloc_live (State true [] (Some f)) s eq_refl) as Hlive.
  pose proof (alloc_new (State true [] (Some f)) s p Hin) as Hpc.
  fold (make_subscription f s) in Hlive, Hpc.
  set (k := (make_subscription f s).1) in *. set (s0 := (make_subscription f s).2) in *.
  simpl. unfold add.
  assert (is_subscribed p s0 = false) as -> by (unfold is_subscribed; by rewrite Hother).
  split; [|apply unsubscribe_fuel_off].
  unfold unsubscribe. simpl. rewrite Hlive, Hc. simpl. by rewrite ?Hfired.
Qed.

End composite_subscription.
