(* ===== verification/Subscriber.v ===== *)
(** * Subscriber: [subscriber<T, Observer>] and [make_subscriber]

    Model of [src/libs/librxcpp/includes/rxcpp/rx-subscriber.hpp].

    - [Observer]: what the template parameter [Observer] must offer, the
      three callbacks, each a state transformer that may throw.
    - Module [static_observer]: an observer assembled from callables, as the
      [make_subscriber] overloads assemble it, the absent ones replaced by
      the library defaults [OnErrorEmpty] and [OnCompletedEmpty].
    - Module [subscriber]: the class.  A subscriber is the pair of a lifetime
      token and a destination; copies share the token.  Its callbacks are
      guarded by [is_subscribed] and protected by a [detacher].
    - Module [make]: the [make_subscriber] overloads by group, after where
      the lifetime of the result comes from. *)

From stdpp Require Import base list.
From S2P Require Import Prelude Lifetime.

(** ** The observer concept *)

Class Observer (W T E D : Type) : Type := {
  obs_on_next : D -> T -> W -> outcome W;
  obs_on_error : D -> E -> W -> outcome W;
  obs_on_completed : D -> W -> outcome W;
}.

(** What an observer is told. *)
Inductive notification (T E : Type) : Type :=
| Next (v : T)
| Error (e : E)
| Completed.
Arguments Next {T E} v.
Arguments Error {T E} e.
Arguments Completed {T E}.

Definition notify `{Observer W T E D} (o : D) (n : notification T E) (w : W) : outcome W :=
  match n with
  | Next v => obs_on_next o v w
  | Error e => obs_on_error o e w
  | Completed => obs_on_completed o w
  end.

(** A source that tells [o] the notifications [ns] one after the other. *)
Fixpoint notify_all `{Observer W T E D} (o : D) (ns : list (notification T E)) (w : W)
  : outcome W :=
  match ns with
  | [] => Ret w
  | n :: ns => do w <- notify o n w; notify_all o ns w
  end.

Definition is_terminal {T E} (n : notification T E) : bool :=
  match n with
  | Next _ => false
  | _ => true
  end.

(** ** Observers made of callables *)

Module static_observer.
Section static_observer.
Context {W T E : Type}.

Record t : Type := Make {
  on_next : T -> W -> outcome W;
  on_error : E -> W -> outcome W;
  on_completed : W -> outcome W;
}.

#[global] Instance observer : Observer W T E t := {
  obs_on_next := on_next;
  obs_on_error := on_error;
  obs_on_completed := on_completed;
}.

End static_observer.
Arguments t : clear implicits.
End static_observer.

(** ** The subscriber *)

Module subscriber.
Section subscriber.
Context {W : Type} `{Lifetimes W} {T E D : Type} `{!Observer W T E D}.

Record t : Type := Make {
  lifetime : token;
  destination : D;
}.

(** [subscriber(composite_subscription cs, U&& o)] *)
Definition create (cs : token) (o : D) : t := Make cs o.

(** [subscriber(const this_type& o)] and [subscriber(this_type&& o)]: the
    copy has the lifetime of the original, not a lifetime of its own. *)
Definition copy (o : t) : t := Make (lifetime o) (destination o).

(** [operator=(this_type o)] *)
Definition assign (s o : t) : t := Make (lifetime o) (destination o).

Definition get_observer (s : t) : D := destination s.
Definition get_subscription (s : t) : token := lifetime s.

(** *** composite_subscription *)

Definition is_subscribed (s : t) (w : W) : bool :=
  cs_is_subscribed (lifetime s) w.

Definition add (s : t) (sub : token) (w : W) : token * W :=
  (sub, cs_add (lifetime s) sub w).

Definition add_function (s : t) (f : cleanup) (w : W) : token * W :=
  let '(sub, w) := cs_make f w in
  (sub, cs_add (lifetime s) sub w).

Definition remove (s : t) (weak : token) (w : W) : W :=
  cs_remove (lifetime s) weak w.

Definition clear (s : t) (w : W) : W := cs_clear (lifetime s) w.

Definition unsubscribe (s : t) (w : W) : W := cs_unsubscribe (lifetime s) w.

(** *** detacher

    [~detacher] unsubscribes [that] unless it was reset to [nullptr]. *)
Definition detacher (that : option t) (w : W) : W :=
  match that with
  | Some s => unsubscribe s w
  | None => w
  end.

(** *** observer *)

(** [protect.that = nullptr] is reached only when the destination returns:
    the detacher acts during unwinding alone. *)
Definition on_next (s : t) (v : T) (w : W) : outcome W :=
  if negb (is_subscribed s w) then Ret w
  else
    match obs_on_next (destination s) v w with
    | Ret w => Ret (detacher None w)
    | Throw w => Throw (detacher (Some s) w)
    | Fault f w => Fault f w
    end.

(** [protect.that] is never reset: the detacher acts at every exit. *)
Definition on_error (s : t) (e : E) (w : W) : outcome W :=
  if negb (is_subscribed s w) then Ret w
  else finally (obs_on_error (destination s) e w) (detacher (Some s)).

Definition on_completed (s : t) (w : W) : outcome W :=
  if negb (is_subscribed s w) then Ret w
  else finally (obs_on_completed (destination s) w) (detacher (Some s)).

(** A subscriber is an observer. *)
#[global] Instance observer : Observer W T E t := {
  obs_on_next := on_next;
  obs_on_error := on_error;
  obs_on_completed := on_completed;
}.

End subscriber.
Arguments t : clear implicits.
Arguments Make {D} lifetime destination.
End subscriber.

(** ** [make_subscriber] *)

Module make.
Section make.
Context {W : Type} `{Lifetimes W} {T E : Type}.
(** The defaults of rx-observer.hpp for an absent callable. *)
Context (OnErrorEmpty : E -> W -> outcome W) (OnCompletedEmpty : W -> outcome W).

#[local] Abbreviation handlers := (static_observer.t W T E).

(** The four ways the overloads build a [static_observer]. *)
Definition of_on_next (on : T -> W -> outcome W) : handlers :=
  static_observer.Make on OnErrorEmpty OnCompletedEmpty.

Definition of_on_next_on_error (on : T -> W -> outcome W) (oe : E -> W -> outcome W)
  : handlers :=
  static_observer.Make on oe OnCompletedEmpty.

Definition of_on_next_on_completed (on : T -> W -> outcome W) (oc : W -> outcome W)
  : handlers :=
  static_observer.Make on OnErrorEmpty oc.

Definition of_all (on : T -> W -> outcome W) (oe : E -> W -> outcome W)
    (oc : W -> outcome W) : handlers :=
  static_observer.Make on oe oc.

(** [make_subscriber(subscriber o)]: a copy, sharing the lifetime. *)
Definition copy {D} (o : subscriber.t D) : subscriber.t D :=
  subscriber.Make (subscriber.lifetime o) (subscriber.destination o).

(** "observer": the lifetime is a new [composite_subscription()]. *)
Definition fresh {D} (o : D) (w : W) : subscriber.t D * W :=
  let '(cs, w) := cs_create w in (subscriber.Make cs o, w).

(** "explicit lifetime" *)
Definition explicit {D} (cs : token) (o : D) : subscriber.t D :=
  subscriber.Make cs o.

(** "chain defaults from subscriber": the lifetime of [scbr] is shared. *)
Definition chain {D' D} (scbr : subscriber.t D') (o : D) : subscriber.t D :=
  subscriber.Make (subscriber.get_subscription scbr) o.

(** The same with an explicit lifetime, which wins: [scbr] gives nothing. *)
Definition chain_explicit {D' D} (scbr : subscriber.t D') (cs : token) (o : D)
  : subscriber.t D :=
  subscriber.Make cs o.

(** "override lifetime": the observer of [scbr] under another lifetime. *)
Definition override {D} (scbr : subscriber.t D) (cs : token) : subscriber.t D :=
  subscriber.Make cs (subscriber.get_observer scbr).

End make.
End make.

(** ** Theorems *)

Section subscriber_facts.
Context {W : Type} `{Lifetimes W} {T E D : Type} `{!Observer W T E D}.
Implicit Types (s : subscriber.t D) (w : W) (n : notification T E).

Lemma notify_subscriber s n w :
  notify s n w =
  match n with
  | Next v => subscriber.on_next s v w
  | Error e => subscriber.on_error s e w
  | Completed => subscriber.on_completed s w
  end.
Proof. by destruct n. Qed.

Lemma notify_unsubscribed s n w :
  subscriber.is_subscribed s w = false -> notify s n w = Ret w.
Proof.
  intros Hs. rewrite notify_subscriber.
  destruct n; unfold subscriber.on_next, subscriber.on_error, subscriber.on_completed;
    by rewrite Hs.
Qed.

Lemma notify_all_unsubscribed s ns w :
  subscriber.is_subscribed s w = false -> notify_all s ns w = Ret w.
Proof.
  intros Hs. induction ns as [|n ns IH]; simpl; [done|].
  by rewrite notify_unsubscribed.
Qed.

Lemma notify_terminal s n w :
  is_terminal n = true ->
  exits (fun w' => subscriber.is_subscribed s w' = false) (notify s n w).
Proof.
  intros Hn. rewrite notify_subscriber.
  destruct n as [v|e|]; [done| |];
    unfold subscriber.on_error, subscriber.on_completed;
    (destruct (subscriber.is_subscribed s w) eqn:Hs; simpl; [|done]);
    apply exits_finally_any; intros; apply cs_unsubscribe_off.
Qed.

(** What a subscriber adds to its destination keeps every property that
    unsubscribing keeps, and a call comes back when the destination's does. *)
Lemma notify_lands_in (P : W -> Prop) s n w :
  P w -> (forall w', P w' -> P (subscriber.unsubscribe s w')) ->
  (subscriber.is_subscribed s w = true ->
   lands_in P (notify (subscriber.destination s) n w)) ->
  lands_in P (notify s n w).
Proof.
  intros Hw Hu. rewrite notify_subscriber.
  destruct n; simpl;
    unfold subscriber.on_next, subscriber.on_error, subscriber.on_completed, finally;
    (destruct (subscriber.is_subscribed s w); simpl; [|by intros; apply lands_in_Ret]);
    (intros [Hl Hh]; [done|]; case_match; simpl in *; try done; split; try done;
     unfold holds in *; simpl in *; auto).
Qed.

(** The same for a destination that may run out of fuel. *)
Lemma notify_sound (P : W -> Prop) s n w :
  P w -> (forall w', P w' -> P (subscriber.unsubscribe s w')) ->
  (subscriber.is_subscribed s w = true ->
   sound P (notify (subscriber.destination s) n w)) ->
  sound P (notify s n w).
Proof.
  intros Hw Hu. rewrite notify_subscriber.
  destruct n; simpl;
    unfold subscriber.on_next, subscriber.on_error, subscriber.on_completed, finally;
    (destruct (subscriber.is_subscribed s w); simpl; [|done]);
    (intros Hd; specialize (Hd eq_refl); case_match; simpl in *; auto).
Qed.

(** A call on a live subscriber comes back only if the destination's does. *)
Lemma notify_lands_inv s n w :
  subscriber.is_subscribed s w = true -> lands (notify s n w) ->
  lands (notify (subscriber.destination s) n w).
Proof.
  intros Hs. rewrite notify_subscriber.
  destruct n; simpl;
    unfold subscriber.on_next, subscriber.on_error, subscriber.on_completed;
    rewrite Hs; simpl; [by case_match|by rewrite lands_finally..].
Qed.

(** A call that returns: the destination returned, and a terminal call
    ended the lifetime behind it. *)
Lemma notify_Ret_inv s n w w' :
  subscriber.is_subscribed s w = true -> notify s n w = Ret w' ->
  exists w1, notify (subscriber.destination s) n w = Ret w1 /\
    w' = if is_terminal n then subscriber.unsubscribe s w1 else w1.
Proof.
  rewrite notify_subscriber. intros Hs Hn.
  destruct n;
    unfold subscriber.on_next, subscriber.on_error, subscriber.on_completed, finally in Hn;
    rewrite Hs in Hn; simpl in *; case_match; simplify_eq/=; eauto.
Qed.

Lemma notify_throws s n w w' :
  notify s n w = Throw w' ->
  subscriber.is_subscribed s w = true ->
  subscriber.is_subscribed s w' = false.
Proof.
  rewrite notify_subscriber. intros Hn Hs.
  destruct n;
    unfold subscriber.on_next, subscriber.on_error, subscriber.on_completed, finally in Hn;
    rewrite Hs in Hn; simpl in Hn;
    case_match; simplify_eq/=; apply cs_unsubscribe_off.
Qed.

(** A subscriber whose lifetime has ended passes nothing on:
    [on_next], [on_error] and [on_completed] return at once and leave the
    world as it is, whatever the destination would do. *)
Theorem unsubscribed_is_silent s w :
  subscriber.is_subscribed s w = false ->
  (forall v, subscriber.on_next s v w = Ret w) /\
  (forall e, subscriber.on_error s e w = Ret w) /\
  subscriber.on_completed s w = Ret w.
Proof.
  intros Hs. split_and!; intros;
    [apply (notify_unsubscribed s (Next v)) | apply (notify_unsubscribed s (Error e))
    | apply (notify_unsubscribed s Completed)]; done.
Qed.

(** [on_next] on a live subscriber is the destination's, and the detacher
    acts when its exception passes. *)
Lemma on_next_live s v w :
  subscriber.is_subscribed s w = true ->
  subscriber.on_next s v w
  = unwinding (obs_on_next (subscriber.destination s) v w) (subscriber.unsubscribe s).
Proof. intros Hs. unfold subscriber.on_next. rewrite Hs. simpl. by case_match. Qed.

(** [on_next] on a live subscriber whose destination returns: the result
    is the destination's, the detacher does nothing. *)
Lemma on_next_returns s v w w' :
  subscriber.is_subscribed s w = true ->
  obs_on_next (subscriber.destination s) v w = Ret w' ->
  subscriber.on_next s v w = Ret w'.
Proof. intros Hs Hd. unfold subscriber.on_next. by rewrite Hs, Hd. Qed.

(** When the destination throws out of [on_next], the exception goes
    on and the subscriber's lifetime is ended on the way. *)
Theorem on_next_throws s v w w' :
  subscriber.is_subscribed s w = true ->
  obs_on_next (subscriber.destination s) v w = Throw w' ->
  subscriber.on_next s v w = Throw (subscriber.unsubscribe s w') /\
  subscriber.is_subscribed s (subscriber.unsubscribe s w') = false.
Proof.
  intros Hs Hd. unfold subscriber.on_next. rewrite Hs, Hd. split; [done|].
  apply cs_unsubscribe_off.
Qed.

(** After [on_error] or [on_completed] the lifetime has ended, whether
    the destination returned or threw. *)
Theorem terminal_ends_lifetime s w :
  (forall e, exits (fun w' => subscriber.is_subscribed s w' = false)
               (subscriber.on_error s e w)) /\
  exits (fun w' => subscriber.is_subscribed s w' = false) (subscriber.on_completed s w).
Proof.
  split; [intros e; apply (notify_terminal s (Error e))
         |apply (notify_terminal s Completed)]; done.
Qed.

(** The notifications up to and including the first terminal one. *)
Fixpoint upto_terminal (ns : list (notification T E)) : list (notification T E) :=
  match ns with
  | [] => []
  | n :: ns => if is_terminal n then [n] else n :: upto_terminal ns
  end.

(** C30. The Rx grammar is enforced by the subscriber, not assumed of the
    source: whatever sequence of notifications a source sends, the effect is
    that of the sequence cut after its first [on_error] or [on_completed]. *)
Theorem notify_all_upto_terminal s ns w :
  notify_all s ns w = notify_all s (upto_terminal ns) w.
Proof.
  revert w. induction ns as [|n ns IH]; intros w; simpl; [done|].
  destruct (is_terminal n) eqn:Hn; simpl.
  - pose proof (notify_terminal s n w Hn) as Hend.
    destruct (notify s n w); simpl in *; [|done..].
    by apply notify_all_unsubscribed.
  - destruct (notify s n w); simpl; [apply IH|done..].
Qed.

(** An exception out of the destination is final as well: the
    subscriber that let it through has ended its lifetime. *)
Theorem throw_ends_lifetime s n w w' :
  notify s n w = Throw w' ->
  subscriber.is_subscribed s w = true ->
  subscriber.is_subscribed s w' = false.
Proof. apply notify_throws. Qed.

End subscriber_facts.

(** Two subscribers with one lifetime whose destinations do the same to a
    world do the same to it. *)
Section subscriber_ext.
Context {W : Type} `{Lifetimes W} {T E D1 D2 : Type}
  `{!Observer W T E D1, !Observer W T E D2}.

Lemma notify_ext (s1 : subscriber.t D1) (s2 : subscriber.t D2) (n : notification T E) w :
  subscriber.lifetime s1 = subscriber.lifetime s2 ->
  notify (subscriber.destination s1) n w = notify (subscriber.destination s2) n w ->
  notify s1 n w = notify s2 n w.
Proof.
  intros Hl Hd. rewrite !notify_subscriber.
  destruct n; simpl in Hd;
    unfold subscriber.on_next, subscriber.on_error, subscriber.on_completed,
      subscriber.is_subscribed, subscriber.detacher, subscriber.unsubscribe;
    by rewrite Hl, Hd.
Qed.

End subscriber_ext.

Section make_facts.
Context {W : Type} `{Lifetimes W} {T E D D' : Type} `{!Observer W T E D}.
Implicit Types (w : W) (n : notification T E).

(** A copy of a subscriber, and a subscriber assigned from it, are that
    subscriber: what ends the one ends the other. *)
Lemma copy_is_original (s o : subscriber.t D) :
  subscriber.copy o = o /\ subscriber.assign s o = o /\
  subscriber.create (subscriber.lifetime o) (subscriber.destination o) = o.
Proof. by destruct o. Qed.

(** A subscriber chained to [scbr] shares its lifetime: a terminal
    notification to the new subscriber ends [scbr] too. *)
Theorem chain_shares_lifetime (scbr : subscriber.t D') (o : D) n w :
  is_terminal n = true ->
  exits (fun w' => subscriber.is_subscribed scbr w' = false)
        (notify (make.chain scbr o) n w).
Proof. intros Hn. exact (notify_terminal (make.chain scbr o) n w Hn). Qed.

(** A subscriber made without a lifetime gets one of its own: it is
    live, it was not before, and no other token changed. *)
Theorem fresh_lifetime (o : D) w :
  let '(s, w') := make.fresh o w in
  subscriber.is_subscribed s w' = true /\
  subscriber.is_subscribed s w = false /\
  forall u, u <> subscriber.lifetime s -> cs_is_subscribed u w' = cs_is_subscribed u w.
Proof.
  unfold make.fresh, subscriber.is_subscribed.
  pose proof (cs_create_live w). pose proof (cs_create_fresh w).
  pose proof (cs_create_others w).
  destruct (cs_create w) as [cs w']; simpl in *. auto.
Qed.

End make_facts.

(** ** Subscribers over the implementation of the lifetimes

    What [unsubscribe] and [add] of a subscriber do to the store of
    [composite_subscription]: they are the operations of its lifetime. *)
Section subscriber_store.
Import composite_subscription.
Context {T E D : Type} `{!Observer store T E D}.
Implicit Types (s : subscriber.t D) (w : store) (f : cleanup) (u : token).

(** C31. Unsubscribing a subscriber ends its lifetime and the subscriptions
    nested in it at any depth, and no other: the fuel of the recursive
    [unsubscribe] reaches all of them, also through a cycle. *)
Theorem unsubscribe_ends_what_is_nested s w u :
  subscriber.is_subscribed s w = true ->
  cs_is_subscribed u (subscriber.unsubscribe s w) = true
  <-> cs_is_subscribed u w = true /\ ~ under w (subscriber.lifetime s) u.
Proof. apply unsubscribe_ends_nested. Qed.

(** C32. A cleanup added to a live subscriber with [add(f)], under a name not in
    use, does not run when it is added; it runs once when the subscriber is
    unsubscribed, and unsubscribing again runs nothing. *)
Theorem cleanup_runs_exactly_once s f w :
  subscriber.is_subscribed s w = true -> f ∉ fired w ->
  (forall x, is_subscribed x w = true -> on_unsubscribe (cell x w) <> Some f) ->
  let w1 := (subscriber.add_function s f w).2 in
  let w2 := subscriber.unsubscribe s w1 in
  fired w1 = fired w /\ filter (eq f) (fired w2) = [f] /\
  subscriber.unsubscribe s w2 = w2.
Proof.
  intros Hs Hf Hnew.
  destruct (registered_cleanup_runs_once (subscriber.lifetime s) f w Hs Hf Hnew) as [H1 H2].
  split_and!; [done..|]. apply cs_unsubscribe_dead, cs_unsubscribe_off.
Qed.

(** A cleanup added to a subscriber that has ended runs on the spot, and
    the subscription returned for it has ended. *)
Theorem cleanup_after_end_runs_at_once s f w :
  is_Some (cells w !! subscriber.lifetime s) -> subscriber.is_subscribed s w = false ->
  fired (subscriber.add_function s f w).2 = fired w ++ [f] /\
  cs_is_subscribed (subscriber.add_function s f w).1 (subscriber.add_function s f w).2
  = false.
Proof. apply late_cleanup_runs_at_once. Qed.

End subscriber_store.

(** ** Subscribers at work

    Subscribers over the reference implementation of subscriptions.  The
    destinations record what they are told in the store's log of cleanups,
    so that what reached them can be read off. *)
Module subscriber_example.
Import composite_subscription.

Definition OnErrorEmpty (e : unit) (s : store) : outcome store := Fault Aborted s.
Definition OnCompletedEmpty (s : store) : outcome store := Ret s.

(** Records values, [100] for an error and [200] for completion. *)
Definition recorder : static_observer.t store nat unit :=
  make.of_all (fun v s => Ret (fire (Some v) s))
              (fun _ s => Ret (fire (Some 100) s))
              (fun s => Ret (fire (Some 200) s)).

(** Records values, and throws at [0]. *)
Definition picky : static_observer.t store nat unit :=
  make.of_on_next OnErrorEmpty OnCompletedEmpty
    (fun v s => if decide (v = 0) then Throw s else Ret (fire (Some v) s)).

(** One lifetime, live; and the same after it has ended. *)
Definition s_live : store := (create empty).2.
Definition s_dead : store := unsubscribe 0 s_live.

Definition to_recorder := make.explicit 0 recorder.
Definition to_picky := make.explicit 0 picky.

(** A source that does not keep to the grammar: only [1; 2] and the
    completion reach the destination. *)
Example grammar_enforced :
  fired (final (notify_all to_recorder
                  [Next 1; Next 2; Completed; Next 3; Error (); Completed] s_live))
  = [1; 2; 200].
Proof. by vm_compute. Qed.

Lemma unsubscribed_is_silent_witness :
  (forall v, subscriber.on_next to_recorder v s_dead = Ret s_dead) /\
  (forall e, subscriber.on_error to_recorder e s_dead = Ret s_dead) /\
  subscriber.on_completed to_recorder s_dead = Ret s_dead.
Proof. apply unsubscribed_is_silent. reflexivity. Defined.

Lemma on_next_throws_witness :
  subscriber.on_next to_picky 0 s_live = Throw (subscriber.unsubscribe to_picky s_live) /\
  subscriber.is_subscribed to_picky (subscriber.unsubscribe to_picky s_live) = false.
Proof. apply on_next_throws; reflexivity. Defined.

Lemma throw_ends_lifetime_witness :
  subscriber.is_subscribed to_picky (unsubscribe 0 s_live) = false.
Proof.
  apply (throw_ends_lifetime to_picky (Next 0) s_live (unsubscribe 0 s_live)); reflexivity.
Defined.

Lemma chain_shares_lifetime_witness :
  exits (fun w' => subscriber.is_subscribed to_picky w' = false)
        (notify (make.chain to_picky recorder) Completed s_live).
Proof. apply chain_shares_lifetime. reflexivity. Defined.

Lemma notify_all_upto_terminal_witness :
  notify_all to_recorder [Next 1; Completed; Next 3; Error ()] s_live
  = notify_all to_recorder (upto_terminal [Next 1; Completed; Next 3; Error ()]) s_live.
Proof. apply notify_all_upto_terminal. Defined.

Lemma terminal_ends_lifetime_witness :
  (forall e, exits (fun w' => subscriber.is_subscribed to_recorder w' = false)
               (subscriber.on_error to_recorder e s_live)) /\
  exits (fun w' => subscriber.is_subscribed to_recorder w' = false)
        (subscriber.on_completed to_recorder s_live).
Proof. apply terminal_ends_lifetime. Defined.

Lemma fresh_lifetime_witness :
  let '(s, w') := make.fresh recorder s_live in
  subscriber.is_subscribed s w' = true /\
  subscriber.is_subscribed s s_live = false /\
  forall u, u <> subscriber.lifetime s -> cs_is_subscribed u w' = cs_is_subscribed u s_live.
Proof. apply (fresh_lifetime recorder s_live). Defined.

(** A subscription [1] nested in the lifetime [0], one [2] nested in [1],
    and one [3] that is not nested. *)
Definition s_nested : store :=
  add 1 2 (add 0 1 (create (create (create s_live).2).2).2).

Lemma unsubscribe_ends_what_is_nested_witness :
  cs_is_subscribed 2 (subscriber.unsubscribe to_recorder s_nested) = true
  <-> cs_is_subscribed 2 s_nested = true /\ ~ under s_nested 0 2.
Proof. apply (unsubscribe_ends_what_is_nested to_recorder s_nested 2). by vm_compute. Defined.

Example nested_end_together :
  map (fun u => is_subscribed u (subscriber.unsubscribe to_recorder s_nested)) [0; 1; 2; 3]
  = [false; false; false; true].
Proof. by vm_compute. Qed.

(** Two subscriptions nested in each other end together. *)
Definition s_cycle : store := add 1 0 (add 0 1 (create s_live).2).

Example cycle_ends :
  map (fun u => is_subscribed u (subscriber.unsubscribe to_recorder s_cycle)) [0; 1]
  = [false; false].
Proof. by vm_compute. Qed.

Lemma cleanup_runs_exactly_once_witness :
  let w1 := (subscriber.add_function to_recorder 7 s_nested).2 in
  let w2 := subscriber.unsubscribe to_recorder w1 in
  fired w1 = fired s_nested /\ filter (eq 7) (fired w2) = [7] /\
  subscriber.unsubscribe to_recorder w2 = w2.
Proof.
  apply (cleanup_runs_exactly_once to_recorder 7 s_nested);
    [by vm_compute|by intros ?%elem_of_nil|].
  intros x. apply unused_live. by apply (bool_decide_unpack _); vm_compute.
Defined.

Lemma cleanup_after_end_runs_at_once_witness :
  fired (subscriber.add_function to_recorder 7 s_dead).2 = fired s_dead ++ [7] /\
  cs_is_subscribed (subscriber.add_function to_recorder 7 s_dead).1
    (subscriber.add_function to_recorder 7 s_dead).2 = false.
Proof.
  apply (cleanup_after_end_runs_at_once to_recorder 7 s_dead);
    [vm_compute; by eexists|reflexivity].
Defined.

End subscriber_example.
