(* ===== verification/Queue.v ===== *)
(** * Queue: [schedulable_queue], the time-ordered queue of the worker

    [rxsc::schedulable], [time_schedulable] and [schedulable_queue] belong
    to RxCpp's rx-scheduler.hpp, which is not part of the repository
    sources; they are modelled from section 3 of the specification: a
    scheduled item is a due time and a cancellable action, the queue serves
    the earliest item first, and items with the same due time are served in
    insertion order.

    - [schedulable], [item]: the data.
    - [SchedQueueOps], [SchedQueue]: the interface the worker is verified
      against.  [q_items] is the abstraction function: the content of the
      queue in the order it will be served.
    - [insert_item], [ordered]: stable insertion by due time and the order
      it maintains, with their lemmas.
    - Module [schedulable_queue]: the reference implementation. *)

From stdpp Require Import base list sorting.
From S2P Require Import Prelude.

(** ** Data *)

(** [rxsc::schedulable]: an action and the lifetime that cancels it.  The
    action is a closure in C++; here it is named by an identifier, and the
    worker is given the code of every identifier. *)
Record schedulable : Type := Schedulable {
  sched_lifetime : token;
  sched_action : nat;
}.

(** [time_schedulable<time_point>]: the queue's [item_type]. *)
Record item : Type := Item {
  when : time;
  what : schedulable;
}.

#[global] Instance schedulable_eq_dec : EqDecision schedulable.
Proof. solve_decision. Defined.

#[global] Instance item_eq_dec : EqDecision item.
Proof. solve_decision. Defined.

(** ** Order *)

(** [before i j]: [i] is due no later than [j]. *)
Definition before (i j : item) : Prop := (when i <= when j)%Z.

#[global] Instance before_dec : RelDecision before.
Proof. intros i j. unfold before. apply _. Defined.

#[global] Instance before_refl : Reflexive before.
Proof. intros i. unfold before. lia. Qed.

#[global] Instance before_trans : Transitive before.
Proof. intros i j k. unfold before. lia. Qed.

(** A list of items in service order: each is due no later than all that
    follow. *)
Definition ordered (l : list item) : Prop := StronglySorted before l.

(** Stable insertion: [i] goes behind every item due at [when i] or earlier. *)
Fixpoint insert_item (i : item) (l : list item) : list item :=
  match l with
  | [] => [i]
  | j :: l' => if decide (when i < when j)%Z then i :: l else j :: insert_item i l'
  end.

(** ** The interface *)

Class SchedQueueOps (Q : Type) : Type := {
  q_new : Q;                     (* a default-constructed queue *)
  q_empty : Q -> bool;           (* [empty()] *)
  q_top : Q -> option item;      (* [top()], undefined on an empty queue *)
  q_pop : Q -> Q;                (* [pop()] *)
  q_push : item -> Q -> Q;       (* [push(item)] *)
  q_items : Q -> list item;      (* abstraction: the content in service order *)
}.

Class SchedQueue (Q : Type) `{SchedQueueOps Q} : Prop := {
  q_items_new : q_items q_new = [];
  q_empty_spec q : q_empty q = bool_decide (q_items q = []);
  q_top_spec q : q_top q = head (q_items q);
  q_pop_spec q : q_items (q_pop q) = tail (q_items q);
  q_push_spec i q : q_items (q_push i q) = insert_item i (q_items q);
}.

(** ** Facts about the order *)

Section order_facts.
Implicit Types (i j : item) (l : list item).

Lemma ordered_nil : ordered [].
Proof. constructor. Qed.

Lemma ordered_cons i l : ordered (i :: l) <-> Forall (before i) l /\ ordered l.
Proof.
  split.
  - intros Ho. apply StronglySorted_inv in Ho as [? ?]. done.
  - intros [? ?]. by constructor.
Qed.

Lemma ordered_tail l : ordered l -> ordered (tail l).
Proof. destruct l as [|i l]; simpl; [done|]. rewrite ordered_cons. tauto. Qed.

Lemma ordered_app l1 l2 :
  ordered (l1 ++ l2) <->
  ordered l1 /\ ordered l2 /\ forall i j, i ∈ l1 -> j ∈ l2 -> before i j.
Proof.
  induction l1 as [|x l1 IH]; simpl.
  - split; [intros; split_and!; [constructor|done|]|tauto].
    intros i j Hi. by apply elem_of_nil in Hi.
  - rewrite !ordered_cons, IH, Forall_app, !Forall_forall.
    setoid_rewrite elem_of_cons. naive_solver.
Qed.

Lemma insert_item_perm i l : insert_item i l ≡ₚ i :: l.
Proof.
  induction l as [|j l IH]; simpl; [done|].
  case_decide; [done|]. rewrite IH. apply Permutation_swap.
Qed.

Lemma elem_of_insert_item i j l : j ∈ insert_item i l <-> j = i \/ j ∈ l.
Proof. rewrite insert_item_perm. apply elem_of_cons. Qed.

Lemma length_insert_item i l : length (insert_item i l) = S (length l).
Proof. by rewrite insert_item_perm. Qed.

Lemma Forall_insert_item (P : item -> Prop) i l :
  Forall P (insert_item i l) <-> P i /\ Forall P l.
Proof. rewrite insert_item_perm. apply Forall_cons. Qed.

(** Insertion keeps the order. *)
Lemma insert_item_ordered i l : ordered l -> ordered (insert_item i l).
Proof.
  induction l as [|j l IH]; simpl; intros Ho.
  - repeat constructor.
  - apply ordered_cons in Ho as [Hj Ho]. case_decide.
    + apply ordered_cons. split; [|by apply ordered_cons].
      constructor; [unfold before; lia|].
      eapply Forall_impl; [exact Hj|]. unfold before. intros; simpl in *; lia.
    + apply ordered_cons. split; [|by apply IH].
      apply Forall_insert_item. split; [unfold before; lia|done].
Qed.

(** Insertion is stable: [i] lands behind the items due no later than it
    and in front of the items due later. *)
Lemma insert_item_split i l :
  ordered l ->
  exists l1 l2, l = l1 ++ l2 /\ insert_item i l = l1 ++ i :: l2 /\
    Forall (fun j => when j <= when i)%Z l1 /\ Forall (fun j => when i < when j)%Z l2.
Proof.
  induction l as [|j l IH]; simpl; intros Ho.
  - exists [], []. by repeat constructor.
  - apply ordered_cons in Ho as [Hj Ho]. case_decide.
    + exists [], (j :: l). split_and!; try done. constructor; [done|].
      eapply Forall_impl; [exact Hj|]. unfold before. intros; simpl in *; lia.
    + destruct (IH Ho) as (l1 & l2 & -> & -> & H1 & H2).
      exists (j :: l1), l2. split_and!; try done. constructor; [lia|done].
Qed.

(** An item due before every queued item is served first. *)
Lemma insert_item_head i l :
  Forall (fun j => when i < when j)%Z l -> insert_item i l = i :: l.
Proof.
  destruct l as [|j l]; simpl; [done|].
  intros Hl. apply Forall_cons in Hl as [? ?]. by rewrite decide_True.
Qed.

(** An item due no earlier than every queued item is served last. *)
Lemma insert_item_last i l :
  Forall (fun j => when j <= when i)%Z l -> insert_item i l = l ++ [i].
Proof.
  induction l as [|j l IH]; simpl; [done|].
  intros Hl. apply Forall_cons in Hl as [? ?]. rewrite decide_False by lia.
  by rewrite IH.
Qed.

End order_facts.

#[export] Hint Resolve ordered_nil ordered_tail insert_item_ordered : rx.

(** ** What every implementation of the interface gives *)

Section queue_facts.
Context `{SchedQueue Q}.
Implicit Types (q : Q) (i : item).

Lemma q_empty_true q : q_empty q = true <-> q_items q = [].
Proof. rewrite q_empty_spec. apply bool_decide_eq_true. Qed.

Lemma q_empty_false q : q_empty q = false <-> q_items q <> [].
Proof. rewrite q_empty_spec. apply bool_decide_eq_false. Qed.

Lemma q_top_Some q i : q_top q = Some i <-> exists l, q_items q = i :: l.
Proof.
  rewrite q_top_spec. destruct (q_items q) as [|j l]; simpl; [naive_solver|].
  split; [intros [= ->]; eauto|]. by intros [l' [= -> ->]].
Qed.

Lemma q_top_pop q i : q_top q = Some i -> q_items q = i :: q_items (q_pop q).
Proof. rewrite q_top_Some, q_pop_spec. intros [l ->]. done. Qed.

Lemma q_top_None q : q_top q = None <-> q_empty q = true.
Proof.
  rewrite q_top_spec, q_empty_true. destruct (q_items q); simpl; naive_solver.
Qed.

Lemma q_push_not_empty i q : q_empty (q_push i q) = false.
Proof.
  apply q_empty_false. rewrite q_push_spec. intros Hn.
  apply (f_equal length) in Hn. rewrite length_insert_item in Hn. done.
Qed.

Lemma q_pop_ordered q : ordered (q_items q) -> ordered (q_items (q_pop q)).
Proof. rewrite q_pop_spec. apply ordered_tail. Qed.

Lemma q_push_ordered i q : ordered (q_items q) -> ordered (q_items (q_push i q)).
Proof. rewrite q_push_spec. apply insert_item_ordered. Qed.

Lemma q_new_ordered : ordered (q_items (q_new : Q)).
Proof. rewrite q_items_new. constructor. Qed.

Lemma length_q_pop q : length (q_items (q_pop q)) = pred (length (q_items q)).
Proof. rewrite q_pop_spec. by destruct (q_items q). Qed.

Lemma length_q_push i q : length (q_items (q_push i q)) = S (length (q_items q)).
Proof. rewrite q_push_spec. apply length_insert_item. Qed.

End queue_facts.

#[export] Hint Resolve q_pop_ordered q_push_ordered q_new_ordered : rx.

(** ** The reference implementation *)

Module schedulable_queue.

Definition t : Type := list item.

Definition empty (q : t) : bool := bool_decide (q = []).
Definition top (q : t) : option item := head q.
Definition pop (q : t) : t := tail q.
Definition push (i : item) (q : t) : t := insert_item i q.

#[global] Instance ops : SchedQueueOps t := {
  q_new := [];
  q_empty := empty;
  q_top := top;
  q_pop := pop;
  q_push := push;
  q_items q := q;
}.

#[global] Instance laws : SchedQueue t.
Proof. by split. Qed.

(** The queue built by pushing [l] in order onto an empty queue. *)
Definition of_list (l : list item) : t := foldl (fun q i => push i q) [] l.

End schedulable_queue.
