(* ===== verification/Worker.v ===== *)
(** * Worker: the frame-driven worker of the [update] scheduler

    Model of [update::worker_type] in
    [src/libs/ofxRx/includes/ofxRxUpdates.h].

    The worker owns a queue of time-stamped schedulables.  [schedule] pushes
    onto it under the mutex; the callback subscribed to the per-frame tick
    source, [drain], pops and runs every item that is due, releasing the
    mutex around each action so that the action may schedule in turn.

    - [worker_state], [world]: the state.  A world is what a callback can
      touch: the subscription states, the worker, the clock, the user's own
      state, and a history of the runs (a ghost field, written only by
      [log_run], that no operation reads).
    - [cmd]: what the body of an action does.  [body] gives the code of each
      action identifier.
    - [schedule_at], [schedule], [drain], [on_tick]: the operations.
    - [clock_now n] is the [n]-th reading of [clock_type::now()]; theorems
      that need time to go forward assume it monotone. *)

From stdpp Require Import base relations list sorting.
From S2P Require Import Prelude Lifetime Subscriber Queue.

(** ** [rxsc::recursion]

    The flag handed to a running action: may it call itself in place?
    Modelled from section 4.2, step 6 of the specification. *)
Module recursion.

Record t : Type := Make { isallowed : bool }.

(** [recursion()] *)
Definition create : t := Make true.

(** [reset(b)] *)
Definition reset (b : bool) (r : t) : t := Make b.

End recursion.

(** [ofEventArgs]: the tick carries nothing. *)
Inductive ofEventArgs : Set := OfEventArgs.

Module worker.

(** One run of a scheduled action: the item, and the clock reading that let
    it through. *)
Record run : Type := Run {
  run_item : item;
  run_at : time;
}.

Section worker.
Context {L Q U E : Type}.
Context `{!LifetimeOps L, !Lifetimes L, !SchedQueueOps Q, !SchedQueue Q}.

(** [struct worker_state].  The member [Updates source] (line 63) has no
    field here: in this file the tick source is registered with the host by
    the constructor and stays so, and what it does, calling the frame
    callback once per frame, is [on_tick].  [TickSource] holds the adapter
    beside the world of the worker ([updates.system]) and shows that its
    frames are [on_tick]. *)
Record worker_state : Type := WorkerState {
  lifetime : token;
  lock : bool;             (* [std::mutex lock]: is it held? *)
  queue : Q;
  r : recursion.t;
}.

Record world : Type := World {
  subs : L;
  state : worker_state;
  reads : nat;             (* readings of the clock taken so far *)
  user : U;
  ran : list run;          (* history, oldest first *)
}.

(** What the code of an action may do.  [Callout f throws] is a call of
    code outside the worker: it leaves the user's state as [f] says and
    ends by an exception in the states where [throws] says so. *)
Inductive cmd : Type :=
| Effect (f : U -> U)                           (* touch the user's state *)
| Schedule (scbl : schedulable)                 (* [worker.schedule(scbl)] *)
| ScheduleAt (at_ : time) (scbl : schedulable)  (* [worker.schedule(when, scbl)] *)
| Unsubscribe (t : token)                       (* [cs.unsubscribe()] *)
| Raise                                         (* throw *)
| Callout (f : U -> U) (throws : U -> bool).    (* a call that may throw *)

Context (clock_now : nat -> time) (body : nat -> list cmd).
(** The defaults of rx-observer.hpp, for the observer made of [drain]. *)
Context (OnErrorEmpty : E -> world -> outcome world)
        (OnCompletedEmpty : world -> outcome world).

(** *** Field updates *)

Definition set_subs (s : L) (w : world) : world :=
  World s (state w) (reads w) (user w) (ran w).
Definition set_state (st : worker_state) (w : world) : world :=
  World (subs w) st (reads w) (user w) (ran w).
Definition set_reads (n : nat) (w : world) : world :=
  World (subs w) (state w) n (user w) (ran w).
Definition set_user (u : U) (w : world) : world :=
  World (subs w) (state w) (reads w) u (ran w).
Definition log_run (i : item) (t : time) (w : world) : world :=
  World (subs w) (state w) (reads w) (user w) (ran w ++ [Run i t]).

Definition set_lock (b : bool) (w : world) : world :=
  let st := state w in set_state (WorkerState (lifetime st) b (queue st) (r st)) w.
Definition set_queue (q : Q) (w : world) : world :=
  let st := state w in set_state (WorkerState (lifetime st) (lock st) q (r st)) w.
Definition set_r (x : recursion.t) (w : world) : world :=
  let st := state w in set_state (WorkerState (lifetime st) (lock st) (queue st) x) w.

(** The subscription states of a world are those of its [subs]. *)
#[global] Instance world_ops : LifetimeOps world := lifted_ops subs set_subs.

(** *** The mutex

    [std::unique_lock<std::mutex> guard(lock)] blocks while the mutex is
    held.  One thread runs the worker: a held mutex is a deadlock. *)
Definition acquire (w : world) : outcome world :=
  if lock (state w) then Fault Deadlock w else Ret (set_lock true w).

(** [guard.unlock()], and [~unique_lock] of a guard that owns the mutex. *)
Definition release (w : world) : world := set_lock false w.

(** *** [worker_type] *)

(** [worker_type(cs)]: the state of a new worker. *)
Definition create (cs : token) : worker_state :=
  WorkerState cs false q_new recursion.create.

(** [now()] *)
Definition now (w : world) : time * world :=
  (clock_now (reads w), set_reads (S (reads w)) w).

(** [schedule(when, scbl)] *)
Definition schedule_at (at_ : time) (scbl : schedulable) (w : world) : outcome world :=
  if cs_is_subscribed (sched_lifetime scbl) (subs w) then
    do w <- acquire w;
    let w := set_queue (q_push (Item at_ scbl) (queue (state w))) w in
    let w := set_r (recursion.reset false (r (state w))) w in
    Ret (release w)
  else Ret w.

(** [schedule(scbl)] *)
Definition schedule (scbl : schedulable) (w : world) : outcome world :=
  let '(t, w) := now w in schedule_at t scbl w.

(** *** Running an action *)

Definition exec (c : cmd) (w : world) : outcome world :=
  match c with
  | Effect f => Ret (set_user (f (user w)) w)
  | Schedule scbl => schedule scbl w
  | ScheduleAt t scbl => schedule_at t scbl w
  | Unsubscribe t => Ret (cs_unsubscribe t w)
  | Raise => Throw w
  | Callout f throws =>
      let w' := set_user (f (user w)) w in
      if throws (user w) then Throw w' else Ret w'
  end.

Fixpoint exec_all (cs : list cmd) (w : world) : outcome world :=
  match cs with
  | [] => Ret w
  | c :: cs => do w <- exec c w; exec_all cs w
  end.

(** [what(r.get_recurse())] *)
Definition invoke (scbl : schedulable) (w : world) : outcome world :=
  exec_all (body (sched_action scbl)) w.

(** *** The frame callback

    The lambda that [worker_type(cs)] subscribes to the tick source.  Each
    round of the [for(;;)] takes the mutex; [break] and [continue] give it
    back through the guard's destructor, and the path to the action through
    [guard.unlock()]. *)
Fixpoint drain (fuel : nat) (w : world) : outcome world :=
  match fuel with
  | 0 => Fault OutOfFuel w
  | S fuel =>
      do w <- acquire w;
      if q_empty (queue (state w)) || negb (cs_is_subscribed (lifetime (state w)) w)
      then Ret (release w)
      else
        match q_top (queue (state w)) with
        | None => Ret (release w)
        | Some peek =>
            if negb (cs_is_subscribed (sched_lifetime (what peek)) w) then
              drain fuel (release (set_queue (q_pop (queue (state w))) w))
            else
              let '(t, w) := now w in
              if (t <? when peek)%Z then Ret (release w)
              else
                let w := set_queue (q_pop (queue (state w))) w in
                let w := set_r (recursion.reset (q_empty (queue (state w)))
                                  (r (state w))) w in
                let w := release w in
                do w <- invoke (what peek) (log_run peek t w);
                drain fuel w
        end
  end.

(** [source.events().subscribe(state->lifetime, lambda)]: the subscriber the
    tick source notifies. *)
Definition tick_subscriber (fuel : nat) (st : worker_state)
  : subscriber.t (static_observer.t world ofEventArgs E) :=
  make.explicit (lifetime st)
    (make.of_on_next OnErrorEmpty OnCompletedEmpty (fun _ => drain fuel)).

(** One frame: the tick source calls [on_next] of that subscriber. *)
Definition on_tick (fuel : nat) (w : world) : outcome world :=
  subscriber.on_next (tick_subscriber fuel (state w)) OfEventArgs w.

(** *** The host

    What happens to a worker over its life: frames, and between frames the
    code of clients (any thread, one at a time) that schedules and cancels. *)
Inductive host_event : Type :=
| Frame                (* the tick source fires *)
| Call (c : cmd).      (* client code runs *)

Fixpoint play (fuel : nat) (evs : list host_event) (w : world) : outcome world :=
  match evs with
  | [] => Ret w
  | Frame :: evs => do w <- on_tick fuel w; play fuel evs w
  | Call c :: evs => do w <- exec c w; play fuel evs w
  end.

(** ** The worker as a transition system

    What the operations do to an idle world (one whose mutex is free), as
    six atomic transitions.  Every operation is a sequence of them
    ([exec_steps], [drain_steps], [on_tick_steps], [play_steps]), so an
    invariant of the transitions is an invariant of the worker.

    The transitions are relative to a guard [G] on what may be pushed: with
    [any_push] they describe every program, with [forward_push] the programs
    that never schedule into the past. *)

(** The mutex is free. *)
Definition idle (w : world) : Prop := lock (state w) = false.

(** The token of a schedulable is live. *)
Definition live (scbl : schedulable) (w : world) : bool :=
  cs_is_subscribed (sched_lifetime scbl) w.

(** The clock was read once more. *)
Definition tick_clock (w : world) : world := set_reads (S (reads w)) w.

(** [queue.push(item); r.reset(false)] *)
Definition push_item (i : item) (w : world) : world :=
  set_r (recursion.reset false (r (state w)))
    (set_queue (q_push i (queue (state w))) w).

(** [queue.pop(); continue] *)
Definition discard (w : world) : world :=
  set_queue (q_pop (queue (state w))) w.

(** The clock is read, the front item popped, [r] reset, the run recorded. *)
Definition take (peek : item) (w : world) : world :=
  let q := q_pop (queue (state w)) in
  log_run peek (clock_now (reads w))
    (set_r (recursion.reset (q_empty q) (r (state w)))
       (set_queue q (tick_clock w))).

Definition push_guard : Type := item -> world -> Prop.

Definition any_push : push_guard := fun _ _ => True.

(** The item is due no earlier than the latest reading of the clock. *)
Definition forward_push : push_guard := fun i w =>
  0 < reads w /\ (clock_now (pred (reads w)) <= when i)%Z.

Inductive atomic (G : push_guard) : world -> world -> Prop :=
| atomic_effect f w :
    atomic G w (set_user (f (user w)) w)
| atomic_clock w :
    atomic G w (tick_clock w)
| atomic_push i w :
    live (what i) w = true -> G i w ->
    atomic G w (push_item i w)
| atomic_unsubscribe t w :
    atomic G w (cs_unsubscribe t w)
| atomic_discard peek w :
    q_top (queue (state w)) = Some peek ->
    cs_is_subscribed (lifetime (state w)) w = true ->
    live (what peek) w = false ->
    atomic G w (discard w)
| atomic_take peek w :
    q_top (queue (state w)) = Some peek ->
    cs_is_subscribed (lifetime (state w)) w = true ->
    live (what peek) w = true ->
    (when peek <= clock_now (reads w))%Z ->
    atomic G w (take peek w).

Definition steps (G : push_guard) : relation world := rtc (atomic G).

(** [reaches G w w']: [w'] comes from [w] by transitions, the mutex free. *)
Definition reaches (G : push_guard) (w w' : world) : Prop :=
  steps G w w' /\ idle w'.

(** The commands whose pushes [G] admits wherever they run. *)
Definition allowed (G : push_guard) (c : cmd) : Prop :=
  match c with
  | Schedule scbl =>
      forall w, G (Item (clock_now (reads w)) scbl) (tick_clock w)
  | ScheduleAt t scbl => forall w, G (Item t scbl) w
  | _ => True
  end.

Definition allowed_event (G : push_guard) (ev : host_event) : Prop :=
  match ev with
  | Frame => True
  | Call c => allowed G c
  end.

(** Commands that leave the queue alone. *)
Definition passive (c : cmd) : bool :=
  match c with
  | Schedule _ | ScheduleAt _ _ => false
  | _ => true
  end.

(** Commands that schedule for "now" at the earliest. *)
Definition timely (c : cmd) : bool :=
  match c with
  | ScheduleAt _ _ => false
  | _ => true
  end.

(** *** The laws of subscriptions hold of worlds *)

#[global] Instance world_lifetimes : Lifetimes world.
Proof. apply lifted_lifetimes; [apply _|done|by intros []]. Qed.

(** *** The mutex bookkeeping, once and for all *)

Lemma release_idle w : idle w -> release w = w.
Proof. destruct w as [? [] ? ? ?]; unfold idle; simpl. by intros ->. Qed.

(** Two worlds that differ in the flag of the mutex only are equal once the
    flag is known. *)
Ltac world_eq :=
  match goal with
  | Hi : idle ?w |- _ =>
      destruct w as [? [] ? ? ?]; unfold idle in Hi; simpl in Hi; subst; reflexivity
  end.

Lemma schedule_at_idle t scbl w :
  idle w ->
  schedule_at t scbl w = Ret (if live scbl w then push_item (Item t scbl) w else w).
Proof.
  intros Hi. unfold schedule_at, live, acquire. simpl. rewrite Hi.
  destruct (cs_is_subscribed _ _); simpl; [f_equal; world_eq|done].
Qed.

Lemma schedule_idle scbl w :
  idle w ->
  schedule scbl w =
  Ret (if live scbl w then push_item (Item (clock_now (reads w)) scbl) (tick_clock w)
       else tick_clock w).
Proof. intros Hi. unfold schedule, now. by rewrite schedule_at_idle. Qed.

(** One round of the loop, on an idle world. *)
Lemma drain_S fuel w :
  idle w ->
  drain (S fuel) w =
  if q_empty (queue (state w)) || negb (cs_is_subscribed (lifetime (state w)) w)
  then Ret w
  else
    match q_top (queue (state w)) with
    | None => Ret w
    | Some peek =>
        if negb (live (what peek) w) then drain fuel (discard w)
        else if (clock_now (reads w) <? when peek)%Z then Ret (tick_clock w)
        else do w <- invoke (what peek) (take peek w); drain fuel w
    end.
Proof.
  intros Hi. unfold live. simpl. unfold acquire. rewrite Hi. simpl.
  repeat case_match; try done; repeat f_equal; world_eq.
Qed.

(** *** Every operation is a sequence of transitions *)

Section steps.
Context (G : push_guard).
Implicit Types (w : world) (m : outcome world).

Lemma atomic_idle w w' : atomic G w w' -> idle w -> idle w'.
Proof. by destruct 1. Qed.

Lemma reaches_refl w : idle w -> reaches G w w.
Proof. by split. Qed.

Lemma reaches_step w w' : atomic G w w' -> idle w -> reaches G w w'.
Proof. intros Ha Hi. split; [by apply rtc_once|by eapply atomic_idle]. Qed.

Lemma reaches_trans w1 w2 w3 : reaches G w1 w2 -> reaches G w2 w3 -> reaches G w1 w3.
Proof. intros [? ?] [? ?]. split; [by etrans|done]. Qed.

Lemma reaches_idle w w' : reaches G w w' -> idle w'.
Proof. by intros [? ?]. Qed.

(** The rule of sequence for [reaches], total and sound. *)
Lemma lands_reaches_seq w m k :
  lands_in (reaches G w) m ->
  (forall w1, idle w1 -> lands_in (reaches G w1) (k w1)) ->
  lands_in (reaches G w) (and_then m k).
Proof.
  intros Hm Hk. eapply lands_in_and_then; [exact Hm| |done].
  intros w1 H1. eapply lands_in_impl; [apply Hk; by eapply reaches_idle|].
  intros w2 H2. by eapply reaches_trans.
Qed.

Lemma sound_reaches_seq w m k :
  sound (reaches G w) m ->
  (forall w1, idle w1 -> sound (reaches G w1) (k w1)) ->
  sound (reaches G w) (and_then m k).
Proof.
  intros Hm Hk. eapply sound_and_then; [exact Hm| |done].
  intros w1 H1. eapply sound_impl; [apply Hk; by eapply reaches_idle|].
  intros w2 H2. by eapply reaches_trans.
Qed.

Lemma sound_reaches_step w w' m :
  atomic G w w' -> idle w -> sound (reaches G w') m -> sound (reaches G w) m.
Proof.
  intros Ha Hi Hm. eapply sound_impl; [exact Hm|].
  intros w2 H2. eapply reaches_trans; [by apply reaches_step|done].
Qed.

Lemma exec_steps c w :
  allowed G c -> idle w -> lands_in (reaches G w) (exec c w).
Proof.
  intros Hc Hi. destruct c as [f|scbl|t scbl|t| |f th]; simpl in *.
  - apply lands_in_Ret, reaches_step; [constructor|done].
  - rewrite schedule_idle by done. apply lands_in_Ret.
    assert (reaches G w (tick_clock w)) as Hr
      by (apply reaches_step; [constructor|done]).
    destruct (live scbl w) eqn:Hl; [|done].
    eapply reaches_trans; [exact Hr|].
    apply reaches_step; [|by eapply reaches_idle].
    by apply (atomic_push G (Item _ scbl)).
  - rewrite schedule_at_idle by done. apply lands_in_Ret.
    destruct (live scbl w) eqn:Hl; [|by apply reaches_refl].
    apply reaches_step; [|done]. by apply (atomic_push G (Item t scbl)).
  - apply lands_in_Ret, reaches_step; [constructor|done].
  - by apply lands_in_Throw, reaches_refl.
  - assert (reaches G w (set_user (f (user w)) w))
      by (apply reaches_step; [constructor|done]).
    destruct (th (user w)); [by apply lands_in_Throw|by apply lands_in_Ret].
Qed.

Lemma exec_all_steps cs w :
  Forall (allowed G) cs -> idle w -> lands_in (reaches G w) (exec_all cs w).
Proof.
  intros Hcs. revert w. induction Hcs as [|c cs Hc _ IH]; intros w Hi; simpl.
  - by apply lands_in_Ret, reaches_refl.
  - apply lands_reaches_seq; [by apply exec_steps|exact IH].
Qed.

(** From here on every action of the program is allowed. *)
Context (body_allowed : forall a, Forall (allowed G) (body a)).

(** The drain, round by round. *)
Lemma drain_steps fuel w : idle w -> sound (reaches G w) (drain fuel w).
Proof.
  revert w. induction fuel as [|fuel IH]; intros w Hi; [by apply reaches_refl|].
  rewrite drain_S by done.
  destruct (q_empty _ || negb _) eqn:Hg; [by apply sound_Ret, reaches_refl|].
  apply orb_false_iff in Hg as [_ Hl%negb_false_iff].
  destruct (q_top _) as [peek|] eqn:Ht; [|by apply sound_Ret, reaches_refl].
  destruct (live (what peek) w) eqn:Hp; simpl.
  - destruct (Z.ltb_spec (clock_now (reads w)) (when peek)).
    + apply reaches_step; [constructor|done].
    + assert (atomic G w (take peek w)) as Ha by (by constructor).
      eapply sound_reaches_step; [exact Ha|done|].
      apply sound_reaches_seq; [|exact IH].
      apply lands_in_sound, exec_all_steps; [done|]. by eapply atomic_idle.
  - assert (atomic G w (discard w)) as Ha by (by econstructor).
    eapply sound_reaches_step; [exact Ha|done|]. apply IH. by eapply atomic_idle.
Qed.

(** A frame.  When an action throws, the exception leaves the drain and the
    detacher of the tick subscriber ends the worker's lifetime. *)
Lemma on_tick_steps fuel w : idle w -> sound (reaches G w) (on_tick fuel w).
Proof.
  intros Hi. unfold on_tick, subscriber.on_next. simpl.
  destruct (negb _); [by apply sound_Ret, reaches_refl|].
  pose proof (drain_steps fuel w Hi) as Hd.
  destruct (drain fuel w) as [w'|w'|[| |] w']; simpl in *; try done.
  eapply reaches_trans; [exact Hd|].
  apply reaches_step; [constructor|by eapply reaches_idle].
Qed.

Lemma play_steps fuel evs w :
  Forall (allowed_event G) evs -> idle w -> sound (reaches G w) (play fuel evs w).
Proof.
  intros Hevs. revert w.
  induction Hevs as [|[|c] evs Hev _ IH]; intros w Hi; simpl.
  - by apply sound_Ret, reaches_refl.
  - apply sound_reaches_seq; [by apply on_tick_steps|exact IH].
  - apply sound_reaches_seq; [by apply lands_in_sound, exec_steps|exact IH].
Qed.

End steps.

(** Every command is allowed when nothing is asked of pushes. *)
Lemma allowed_any c : allowed any_push c.
Proof. by destruct c. Qed.

Lemma allowed_any_all cs : Forall (allowed any_push) cs.
Proof. apply Forall_forall. intros; apply allowed_any. Qed.

Lemma allowed_event_any evs : Forall (allowed_event any_push) evs.
Proof. apply Forall_forall. intros [|c] _; simpl; [done|apply allowed_any]. Qed.

(** A command that schedules for "now" at the earliest never pushes into the
    past. *)
Lemma allowed_timely c : timely c = true -> allowed forward_push c.
Proof.
  destruct c; try done. intros _ w. unfold forward_push; simpl. split; lia.
Qed.

(** A guard can always be weakened. *)
Lemma steps_any G w w' : steps G w w' -> steps any_push w w'.
Proof.
  induction 1 as [|w w1 w' Ha _ IH]; [done|].
  eapply rtc_l; [|exact IH]. destruct Ha; by econstructor.
Qed.

(** *** Invariants of the transitions *)

Section invariants.
Context (G : push_guard).
Implicit Types (w : world) (x : run).

(** The runs recorded from [w] to [w']. *)
Definition new_runs (w w' : world) : list run := drop (length (ran w)) (ran w').

(** A run is in order at [w]: its token was live there and it was due. *)
Definition run_ok (w : world) (x : run) : Prop :=
  live (what (run_item x)) w = true /\ (when (run_item x) <= run_at x)%Z.

Lemma atomic_narrows w w' : atomic G w w' -> narrows w' w.
Proof.
  destruct 1; first [by intros u|apply (cs_unsubscribe_narrows (W:=world))].
Qed.

Lemma atomic_ran w w' :
  atomic G w w' -> ran w' = ran w \/ exists x, ran w' = ran w ++ [x] /\ run_ok w x.
Proof.
  destruct 1; simpl; auto. right. eexists. split; [done|]. by split.
Qed.

Lemma run_ok_narrows w w' x : narrows w' w -> run_ok w' x -> run_ok w x.
Proof. intros Hn [Hl Hd]. split; [by apply Hn|done]. Qed.

Lemma steps_narrows w w' : steps G w w' -> narrows w' w.
Proof.
  induction 1 as [|w w1 w' Ha _ IH]; [done|].
  transitivity w1; [done|by apply atomic_narrows].
Qed.

(** The history only grows, and by runs that were in order where the
    transitions started. *)
Lemma steps_ran w w' :
  steps G w w' -> exists ext, ran w' = ran w ++ ext /\ Forall (run_ok w) ext.
Proof.
  induction 1 as [w|w w1 w' Ha _ (ext & -> & Hext)].
  - exists []. by rewrite app_nil_r.
  - assert (Forall (run_ok w) ext) as Hext'.
    { eapply Forall_impl; [exact Hext|]. intros x.
      by apply run_ok_narrows, atomic_narrows. }
    destruct (atomic_ran _ _ Ha) as [->|(x & -> & Hx)]; [by eauto|].
    exists (x :: ext). rewrite <- app_assoc. split; [done|by constructor].
Qed.

Lemma steps_new_runs w w' : steps G w w' -> Forall (run_ok w) (new_runs w w').
Proof.
  intros (ext & Hr & Hext)%steps_ran. unfold new_runs.
  by rewrite Hr, drop_app_length.
Qed.

(** The queue stays in service order. *)
Lemma atomic_ordered w w' :
  atomic G w w' -> ordered (q_items (queue (state w))) ->
  ordered (q_items (queue (state w'))).
Proof. destruct 1; simpl; auto with rx. Qed.

Lemma steps_ordered w w' :
  steps G w w' -> ordered (q_items (queue (state w))) ->
  ordered (q_items (queue (state w'))).
Proof. induction 1; eauto using atomic_ordered. Qed.

(** The worker's lifetime token is fixed at construction. *)
Lemma atomic_lifetime w w' : atomic G w w' -> lifetime (state w') = lifetime (state w).
Proof. by destruct 1. Qed.

Lemma steps_lifetime w w' : steps G w w' -> lifetime (state w') = lifetime (state w).
Proof. induction 1 as [|???? _ IH]; [done|]. rewrite IH. by apply atomic_lifetime. Qed.

(** The clock is only read forward. *)
Lemma atomic_reads w w' : atomic G w w' -> reads w <= reads w'.
Proof. destruct 1; simpl; lia. Qed.

Lemma steps_reads w w' : steps G w w' -> reads w <= reads w'.
Proof. induction 1 as [|???? _ IH]; [done|]. etrans; [by apply atomic_reads|done]. Qed.

End invariants.

(** *** Due-time order *)

Section due_order.
(** Time does not go back. *)
Context (clock_mono : forall n, (clock_now n <= clock_now (S n))%Z).
Implicit Types (w : world) (x y : run) (ext : list run).

(** [x] is due no later than [y]. *)
Definition due_before (x y : run) : Prop :=
  (when (run_item x) <= when (run_item y))%Z.

(** What is known of the runs [ext] made since some starting point: they are
    in due-time order, nothing queued is due earlier than any of them, and
    none was due later than the latest reading of the clock. *)
Definition served (ext : list run) (w : world) : Prop :=
  StronglySorted due_before ext /\
  ordered (q_items (queue (state w))) /\
  Forall (fun x =>
    Forall (fun i => (when (run_item x) <= when i)%Z) (q_items (queue (state w))) /\
    0 < reads w /\ (when (run_item x) <= clock_now (pred (reads w)))%Z) ext.

Lemma served_nil w : ordered (q_items (queue (state w))) -> served [] w.
Proof. intros Ho. split_and!; [constructor|done|constructor]. Qed.

(** [served] looks at the queue and the clock alone. *)
Lemma served_same ext w w' :
  queue (state w') = queue (state w) -> reads w' = reads w -> served ext w -> served ext w'.
Proof. unfold served. by intros -> ->. Qed.

Lemma served_tick ext w : served ext w -> served ext (tick_clock w).
Proof.
  intros (Hs & Ho & Hall). split_and!; [done..|].
  eapply Forall_impl; [exact Hall|]. simpl. intros x (Hq & Hr & Hx).
  split_and!; [done|lia|]. destruct (reads w) as [|n]; [lia|].
  simpl in *. pose proof (clock_mono n). lia.
Qed.

(** An item that is due no earlier than what has run may be pushed. *)
Lemma served_push_after ext i w :
  Forall (fun x => (when (run_item x) <= when i)%Z) ext ->
  served ext w -> served ext (push_item i w).
Proof.
  intros Hi (Hs & Ho & Hall). split_and!; simpl; [done|by apply q_push_ordered|].
  rewrite Forall_forall in Hi, Hall |- *. intros x Hx.
  destruct (Hall x Hx) as (Hq & Hr & Hd). split_and!; [|done..].
  rewrite q_push_spec. apply Forall_insert_item. split; [by apply Hi|done].
Qed.

Lemma served_push ext i w : forward_push i w -> served ext w -> served ext (push_item i w).
Proof.
  intros [Hr Hi] Hs. apply served_push_after; [|done]. destruct Hs as (_ & _ & Hall).
  eapply Forall_impl; [exact Hall|]. simpl. intros x (_ & _ & Hx). lia.
Qed.

Lemma served_discard ext w : served ext w -> served ext (discard w).
Proof.
  intros (Hs & Ho & Hall). split_and!; simpl; [done|by apply q_pop_ordered|].
  eapply Forall_impl; [exact Hall|]. simpl. intros x (Hq & Hr & Hx).
  split_and!; [|done..]. rewrite q_pop_spec. by apply Forall_tail.
Qed.

(** Taking the item in front when it is due, whatever its token. *)
Lemma served_take ext peek w :
  q_top (queue (state w)) = Some peek -> (when peek <= clock_now (reads w))%Z ->
  served ext w -> served (ext ++ [Run peek (clock_now (reads w))]) (take peek w).
Proof.
  intros Ht Hd (Hs & Ho & Hall).
  apply q_top_pop in Ht. rewrite Ht in Ho, Hall.
  apply ordered_cons in Ho as [Hpeek Ho].
  unfold served. split_and!; simpl.
  - apply StronglySorted_snoc; [done|].
    eapply Forall_impl; [exact Hall|]. intros x (Hq & _).
    by apply Forall_cons in Hq as [? _].
  - done.
  - apply Forall_app. split.
    + eapply Forall_impl; [exact Hall|]. intros x (Hq & Hr & Hx).
      apply Forall_cons in Hq as [Hx' Hq]. split_and!; [done|lia|lia].
    + constructor; [|done]. simpl. split_and!; [|lia|lia].
      eapply Forall_impl; [exact Hpeek|]. by intros i.
Qed.

Lemma served_atomic ext w w' :
  atomic forward_push w w' -> served ext w ->
  exists ext', ran w' = ran w ++ ext' /\ served (ext ++ ext') w'.
Proof.
  intros Ha Hext.
  destruct Ha as [f w|w|i w Hl Hi|t w|peek w Ht Hl Hp|peek w Ht Hl Hp Hd];
    [exists []; rewrite !app_nil_r; (split; [done|])..|].
  - by apply (served_same ext w).
  - by apply served_tick.
  - by apply served_push.
  - by apply (served_same ext w).
  - by apply served_discard.
  - exists [Run peek (clock_now (reads w))]. split; [done|]. by apply served_take.
Qed.

Lemma served_steps w w' :
  steps forward_push w w' -> ordered (q_items (queue (state w))) ->
  exists ext, ran w' = ran w ++ ext /\ served ext w'.
Proof.
  intros Hs Ho. revert w' Hs. apply rtc_ind_r.
  - exists []. rewrite app_nil_r. split; [done|by apply served_nil].
  - intros w1 w' _ Ha (ext & Hr & Hext).
    destruct (served_atomic _ _ _ Ha Hext) as (ext' & Hr' & Hext').
    exists (ext ++ ext'). by rewrite Hr', Hr, app_assoc.
Qed.

End due_order.

(** ** What the worker guarantees *)

Section guarantees.
Implicit Types (w : world) (x : run) (evs : list host_event).

Definition timely_event (ev : host_event) : bool :=
  match ev with
  | Frame => true
  | Call c => timely c
  end.

Lemma play_any fuel evs w : idle w -> sound (reaches any_push w) (play fuel evs w).
Proof.
  apply play_steps; [intros; apply allowed_any_all|apply allowed_event_any].
Qed.

(** Every run made by a history was in order where the history began. *)
Lemma play_new_runs fuel evs w :
  idle w -> holds (fun w' => Forall (run_ok w) (new_runs w w')) (play fuel evs w).
Proof.
  intros Hi. eapply holds_impl; [by apply sound_holds, play_any|].
  intros w' [Hs _]. by eapply steps_new_runs.
Qed.

(** C8. The worker implements the transition system: whatever the frames
    and the client code between them, and whatever the actions do, the
    history is a sequence of atomic transitions that never blocks on the
    mutex and leaves it free. *)
Theorem play_refines_transitions fuel evs w :
  idle w ->
  sound (fun w' => rtc (atomic any_push) w w' /\ idle w') (play fuel evs w).
Proof. apply play_any. Qed.

(** C1. Cancellation is final.  If a token is cancelled, no action scheduled
    under it runs any more, whatever follows: any number of frames, any
    client code between them, actions that schedule further work, and as far
    as the fuel reaches when a drain does not end. *)
Theorem cancelled_never_runs fuel evs t w :
  idle w ->
  cs_is_subscribed t w = false ->
  holds (fun w' =>
    Forall (fun x => sched_lifetime (what (run_item x)) <> t) (new_runs w w'))
    (play fuel evs w).
Proof.
  intros Hi Ht. eapply holds_impl; [by apply play_new_runs|].
  intros w' Hr. eapply Forall_impl; [exact Hr|].
  intros x [Hl _] Heq. unfold live in Hl. rewrite Heq in Hl. congruence.
Qed.

(** C2. No action runs before its due time: every run was let through by a
    clock reading at or after the time the item was scheduled for. *)
Theorem no_run_before_due fuel evs w :
  idle w ->
  holds (fun w' =>
    Forall (fun x => (when (run_item x) <= run_at x)%Z) (new_runs w w'))
    (play fuel evs w).
Proof.
  intros Hi. eapply holds_impl; [by apply play_new_runs|].
  intros w' Hr. eapply Forall_impl; [exact Hr|].
  by intros x [_ Hd].
Qed.

(** What [served] says of a history in which time does not go back and
    nobody schedules into the past. *)
Lemma play_served fuel evs w :
  (forall n, (clock_now n <= clock_now (S n))%Z) ->
  (forall a, forallb timely (body a) = true) ->
  forallb timely_event evs = true ->
  idle w ->
  ordered (q_items (queue (state w))) ->
  holds (fun w' => exists ext, ran w' = ran w ++ ext /\ served ext w') (play fuel evs w).
Proof.
  intros Hmono Hbody Hevs Hi Ho.
  assert (sound (reaches forward_push w) (play fuel evs w)) as Hp.
  { apply play_steps; [| |done].
    - intros a. specialize (Hbody a). rewrite forallb_forall in Hbody.
      apply Forall_forall. intros c Hc. apply allowed_timely, Hbody.
      by apply list_elem_of_In.
    - rewrite forallb_forall in Hevs. apply Forall_forall. intros [|c] Hc; [done|].
      apply allowed_timely, (Hevs (Call c)). by apply list_elem_of_In. }
  eapply holds_impl; [by apply sound_holds|]. intros w' [Hs _].
  by apply served_steps.
Qed.

(** C3. Actions run in due-time order, over any number of frames, provided
    time does not go back and nobody schedules into the past: the actions
    and the clients use [schedule(scbl)], not [schedule(when, scbl)]. *)
Theorem runs_in_due_order fuel evs w :
  (forall n, (clock_now n <= clock_now (S n))%Z) ->
  (forall a, forallb timely (body a) = true) ->
  forallb timely_event evs = true ->
  idle w ->
  ordered (q_items (queue (state w))) ->
  holds (fun w' => StronglySorted due_before (new_runs w w')) (play fuel evs w).
Proof.
  intros Hmono Hbody Hevs Hi Ho.
  eapply holds_impl; [by apply play_served|].
  intros w' (ext & Hr & Hext & _). unfold new_runs. by rewrite Hr, drop_app_length.
Qed.

(** C4. The drain never deadlocks on its own mutex and always gives it back:
    the mutex is released before an action runs, so that the action may
    schedule, and every way out of a round of the loop releases it. *)
Theorem drain_releases_mutex fuel w : idle w -> sound idle (drain fuel w).
Proof.
  intros Hi. eapply sound_impl.
  - apply (drain_steps any_push); [intros; apply allowed_any_all|done].
  - intros w'. apply reaches_idle.
Qed.

(** Scheduling under a live token: the item is queued behind the items due
    no later, and recursion is disallowed. *)
Theorem schedule_at_live t scbl w :
  idle w ->
  live scbl w = true ->
  exists w', schedule_at t scbl w = Ret w' /\
    q_items (queue (state w')) = insert_item (Item t scbl) (q_items (queue (state w))) /\
    recursion.isallowed (r (state w')) = false /\ idle w'.
Proof.
  intros Hi Hl. rewrite schedule_at_idle, Hl by done.
  eexists. split; [done|]. simpl. by rewrite q_push_spec.
Qed.

(** Scheduling under a cancelled token is refused on the spot: nothing is
    queued, the mutex is not even taken. *)
Theorem schedule_at_dead_token t scbl w :
  live scbl w = false -> schedule_at t scbl w = Ret w.
Proof. unfold live, schedule_at. simpl. by intros ->. Qed.

(** The queue stays in service order over every history: the drain may
    always take the earliest item from the front. *)
Theorem queue_stays_ordered fuel evs w :
  idle w ->
  ordered (q_items (queue (state w))) ->
  holds (fun w' => ordered (q_items (queue (state w')))) (play fuel evs w).
Proof.
  intros Hi Ho. eapply holds_impl; [by apply sound_holds, play_any|].
  intros w' [Hs _]. by eapply steps_ordered.
Qed.

(** Cancellation is one-way: a token that is cancelled stays cancelled over
    every history of the worker. *)
Theorem cancelled_stays_cancelled fuel evs t w :
  idle w ->
  cs_is_subscribed t w = false ->
  holds (fun w' => cs_is_subscribed t w' = false) (play fuel evs w).
Proof.
  intros Hi Ht. eapply holds_impl; [by apply sound_holds, play_any|].
  intros w' [Hs%steps_narrows _]. by eapply (narrows_dead (W:=world)).
Qed.

(** An exception that escapes an action escapes the drain: the rest of the
    queue is not served in that frame. *)
Lemma drain_throws fuel w peek w' :
  idle w ->
  cs_is_subscribed (lifetime (state w)) w = true ->
  q_top (queue (state w)) = Some peek ->
  live (what peek) w = true ->
  (when peek <= clock_now (reads w))%Z ->
  invoke (what peek) (take peek w) = Throw w' ->
  drain (S fuel) w = Throw w'.
Proof.
  intros Hi Hl Ht Hp Hd Hinv. rewrite drain_S, Hl, Ht, Hp, Hinv by done.
  assert (q_empty (queue (state w)) = false) as ->.
  { destruct (q_empty _) eqn:He; [|done]. apply q_top_None in He. congruence. }
  simpl. by destruct (Z.ltb_spec (clock_now (reads w)) (when peek)); [lia|].
Qed.

(** An exception that leaves the drain leaves the frame callback, after
    the detacher of the tick subscriber. *)
Lemma on_tick_rethrows fuel w w1 :
  cs_is_subscribed (lifetime (state w)) w = true ->
  drain fuel w = Throw w1 ->
  on_tick fuel w = Throw (cs_unsubscribe (lifetime (state w)) w1).
Proof.
  intros Hl Hd. unfold on_tick, subscriber.on_next. simpl in *. by rewrite Hl, Hd.
Qed.

(** The detacher of the tick subscriber ends the worker's lifetime when an
    exception leaves the frame callback. *)
Lemma on_tick_throws fuel w w' :
  idle w -> on_tick fuel w = Throw w' ->
  cs_is_subscribed (lifetime (state w')) w' = false.
Proof.
  intros Hi. unfold on_tick, subscriber.on_next. simpl.
  destruct (negb _); [done|].
  pose proof (drain_steps any_push (fun a => allowed_any_all _) fuel w Hi) as Hd.
  destruct (drain fuel w) as [w1|w1|f w1]; simpl; intros [= <-].
  destruct Hd as [Hs%steps_lifetime _]. simpl in *. rewrite Hs.
  apply cs_unsubscribe_off.
Qed.

(** A frame does nothing to a worker whose lifetime has ended. *)
Lemma on_tick_dead fuel w :
  cs_is_subscribed (lifetime (state w)) w = false -> on_tick fuel w = Ret w.
Proof. intros Hd. unfold on_tick, subscriber.on_next. simpl in *. by rewrite Hd. Qed.

(** Nothing runs in a worker whose lifetime has ended: the transitions that
    remain are those of its clients. *)
Lemma steps_dead_ran G w w' :
  steps G w w' -> cs_is_subscribed (lifetime (state w)) w = false -> ran w' = ran w.
Proof.
  induction 1 as [|w w1 w' Ha _ IH]; [done|]. intros Hd.
  rewrite IH.
  - destruct Ha; simpl in *; congruence.
  - rewrite (atomic_lifetime _ _ _ Ha).
    eapply (narrows_dead (W:=world)); [by eapply atomic_narrows|done].
Qed.

(** C9. An exception that escapes an action ends the worker: it leaves the
    frame callback, the tick subscriber's detacher cancels the worker's
    lifetime on the way, and no later frame does anything. *)
Theorem exception_ends_worker fuel w w' :
  idle w ->
  on_tick fuel w = Throw w' ->
  cs_is_subscribed (lifetime (state w')) w' = false /\
  forall fuel', on_tick fuel' w' = Ret w'.
Proof.
  intros Hi Hth. pose proof (on_tick_throws _ _ _ Hi Hth) as Hdead.
  split; [done|]. intros fuel'. by apply on_tick_dead.
Qed.

(** *** What a drain leaves, and when it ends *)

(** Nothing is left to do in this frame: the worker is cancelled, or the
    queue is empty, or the item in front is live and was not yet due at the
    latest reading of the clock. *)
Definition quiescent (w : world) : Prop :=
  cs_is_subscribed (lifetime (state w)) w = false \/
  match q_top (queue (state w)) with
  | None => True
  | Some peek =>
      live (what peek) w = true /\ 0 < reads w /\
      (clock_now (pred (reads w)) < when peek)%Z
  end.

(** The mutex is free and the queue is the queue of [w]. *)
Definition keeps_queue (w w' : world) : Prop :=
  idle w' /\ queue (state w') = queue (state w).

Lemma exec_passive c w :
  passive c = true -> idle w -> lands_in (keeps_queue w) (exec c w).
Proof.
  destruct c as [f|scbl|t scbl|t| |f th]; try done; intros _ Hi; simpl;
    try destruct (th (user w)); by constructor.
Qed.

Lemma exec_all_passive cs w :
  forallb passive cs = true -> idle w -> lands_in (keeps_queue w) (exec_all cs w).
Proof.
  revert w. induction cs as [|c cs IH]; simpl; intros w Hcs Hi.
  - by apply lands_in_Ret.
  - apply andb_true_iff in Hcs as [Hc Hcs].
    eapply lands_in_and_then; [by apply exec_passive| |done].
    intros w1 [Hi1 Hq1]. eapply lands_in_impl; [by apply IH|].
    intros w2 [Hi2 Hq2]. split; [done|congruence].
Qed.

(** C5. A drain ends when the actions do not schedule: it makes at most one
    round per queued item, and one more to see the queue empty.  It comes
    back by return or by the exception of an action, the mutex free. *)
Theorem drain_terminates fuel w :
  (forall a, forallb passive (body a) = true) ->
  idle w ->
  length (q_items (queue (state w))) < fuel ->
  lands_in idle (drain fuel w).
Proof.
  intros Hbody. revert w. induction fuel as [|fuel IH]; intros w Hi Hlen; [lia|].
  rewrite drain_S by done.
  destruct (q_empty _ || negb _); [by apply lands_in_Ret|].
  destruct (q_top _) as [peek|] eqn:Ht; [|by apply lands_in_Ret].
  apply q_top_pop in Ht. rewrite Ht in Hlen. simpl in Hlen.
  destruct (live (what peek) w); simpl.
  - destruct (_ <? _)%Z; [by apply lands_in_Ret|].
    eapply lands_in_and_then; [apply exec_all_passive; [apply Hbody|done]| |].
    + intros w1 [Hi1 Hq1]. apply IH; [done|]. rewrite Hq1. simpl. lia.
    + by intros w1 [? ?].
  - apply IH; [done|simpl; lia].
Qed.

(** A drain that returns leaves a cancelled worker, an empty queue, or a
    live item in front that the clock has not reached. *)
Lemma drain_quiescent fuel w w' :
  idle w -> drain fuel w = Ret w' -> quiescent w'.
Proof.
  revert w. induction fuel as [|fuel IH]; intros w Hi; [done|].
  rewrite drain_S by done.
  destruct (q_empty _ || negb _) eqn:Hg.
  { intros [= <-]. apply orb_true_iff in Hg as [He|Hl%negb_true_iff]; [right|by left].
    apply q_top_None in He. by rewrite He. }
  destruct (q_top _) as [peek|] eqn:Ht; [|intros [= <-]; right; by rewrite Ht].
  destruct (live (what peek) w) eqn:Hp; simpl.
  - destruct (Z.ltb_spec (clock_now (reads w)) (when peek)).
    + intros [= <-]. right. simpl. rewrite Ht. split_and!; [done|lia|done].
    + intros (w1 & Hinv & Hd)%and_then_Ret_inv. apply (IH w1); [|done].
      pose proof (exec_all_steps any_push (body (sched_action (what peek)))
                    (take peek w) (allowed_any_all _) Hi) as [_ Hr].
      unfold invoke in Hinv. rewrite Hinv in Hr. by apply reaches_idle in Hr.
  - by apply IH.
Qed.

(** A drain that returns has served everything that was due: unless the
    worker was cancelled, every item it leaves in the queue is due after the
    latest reading of the clock. *)
Theorem drain_serves_all_due fuel w w' :
  idle w ->
  ordered (q_items (queue (state w))) ->
  drain fuel w = Ret w' ->
  cs_is_subscribed (lifetime (state w')) w' = true ->
  Forall (fun i => (clock_now (pred (reads w')) < when i)%Z) (q_items (queue (state w'))).
Proof.
  intros Hi Ho Hd Hl.
  pose proof (drain_steps any_push (fun a => allowed_any_all _) fuel w Hi) as Hs%sound_holds.
  rewrite Hd in Hs. destruct Hs as [Ho'%steps_ordered _]; [|done]. simpl in Ho'.
  destruct (drain_quiescent fuel w w' Hi Hd) as [Hdead|Hq]; [congruence|].
  destruct (q_top _) as [peek|] eqn:Ht.
  - apply q_top_pop in Ht. rewrite Ht in Ho' |- *.
    apply ordered_cons in Ho' as [Hpeek _]. destruct Hq as (_ & _ & Hlt).
    constructor; [done|]. eapply Forall_impl; [exact Hpeek|].
    unfold before. intros i ?. lia.
  - apply q_top_None, q_empty_true in Ht. rewrite Ht. constructor.
Qed.

(** *** An action that schedules itself

    [spinning a tok w]: the one item of the queue is the action [a] under
    the live token [tok], and it is due. *)
Definition spinning (a : nat) (tok : token) (w : world) : Prop :=
  idle w /\ cs_is_subscribed (lifetime (state w)) w = true /\
  cs_is_subscribed tok w = true /\
  exists t, q_items (queue (state w)) = [Item t (Schedulable tok a)] /\
            (t <= clock_now (reads w))%Z.

(** One round of the drain runs the action, which puts itself back, due at
    once. *)
Lemma spinning_round fuel a tok w :
  (forall n, (clock_now n <= clock_now (S n))%Z) ->
  body a = [Schedule (Schedulable tok a)] ->
  spinning a tok w ->
  exists w1 x, drain (S fuel) w = drain fuel w1 /\ spinning a tok w1 /\
               ran w1 = ran w ++ [x].
Proof.
  intros Hmono Hbody (Hi & Hl & Htok & t & Hq & Hdue).
  assert (q_top (queue (state w)) = Some (Item t (Schedulable tok a))) as Ht
    by (by rewrite q_top_spec, Hq).
  assert (q_empty (queue (state w)) = false) as He
    by (apply q_empty_false; by rewrite Hq).
  set (peek := Item t (Schedulable tok a)) in *.
  set (s := Schedulable tok a) in *.
  exists (push_item (Item (clock_now (S (reads w))) s) (tick_clock (take peek w))),
    (Run peek (clock_now (reads w))).
  split_and!.
  - rewrite drain_S, He, Hl, Ht by done. unfold live. simpl.
    unfold live in Htok. simpl in Htok. rewrite Htok. simpl.
    destruct (Z.ltb_spec (clock_now (reads w)) t); [lia|].
    unfold invoke. simpl. rewrite Hbody. simpl.
    rewrite schedule_idle by done. unfold live. simpl. by rewrite Htok.
  - split_and!; try done. exists (clock_now (S (reads w))). split.
    + simpl. by rewrite q_push_spec, q_pop_spec, Hq.
    + simpl. apply Hmono.
  - done.
Qed.

(** C7. An action that schedules itself for "now" is run again in the same
    frame, and again: the drain makes a round for each unit of fuel and
    never comes back.  The recursion flag, which [schedule] resets, defers
    nothing to the next frame. *)
Theorem self_scheduling_never_ends fuel a tok w :
  (forall n, (clock_now n <= clock_now (S n))%Z) ->
  body a = [Schedule (Schedulable tok a)] ->
  spinning a tok w ->
  exists w', drain fuel w = Fault OutOfFuel w' /\ length (new_runs w w') = fuel.
Proof.
  intros Hmono Hbody. revert w.
  induction fuel as [|fuel IH]; intros w Hw.
  - exists w. split; [done|]. unfold new_runs. by rewrite drop_all.
  - destruct (spinning_round fuel a tok w Hmono Hbody Hw) as (w1 & x & -> & Hw1 & Hr).
    destruct (IH w1 Hw1) as (w' & Hd & Hn). exists w'. split; [done|].
    pose proof (drain_steps any_push (fun a => allowed_any_all _) fuel w1 (proj1 Hw1))
      as Hs%sound_holds.
    rewrite Hd in Hs. unfold holds in Hs. simpl in Hs.
    destruct Hs as [(ext & Hext & _)%steps_ran _].
    revert Hn. unfold new_runs. rewrite Hext, Hr, drop_app_length, <- app_assoc, drop_app_length.
    simpl. by intros ->.
Qed.

(** *** A frame, as a function on lists

    What a frame at time [t] serves from the queue [l] when the lifetimes
    are [s]: the items it runs, in order, and the items it leaves. *)
Fixpoint serve (s : L) (t : time) (l : list item) : list item * list item :=
  match l with
  | [] => ([], [])
  | i :: l' =>
      if negb (cs_is_subscribed (sched_lifetime (what i)) s) then serve s t l'
      else if (t <? when i)%Z then ([], l)
      else let '(run, kept) := serve s t l' in (i :: run, kept)
  end.

(** Actions that change the user's state and do nothing else. *)
Definition is_effect (c : cmd) : bool :=
  match c with
  | Effect _ => true
  | _ => false
  end.

(** What commands that return make of the user's state. *)
Fixpoint effects (cs : list cmd) (u : U) : U :=
  match cs with
  | [] => u
  | Effect f :: cs | Callout f _ :: cs => effects cs (f u)
  | _ :: cs => effects cs u
  end.

Lemma exec_all_effects cs w :
  forallb is_effect cs = true ->
  exec_all cs w = Ret (set_user (effects cs (user w)) w).
Proof.
  revert w. induction cs as [|[f| | | | |] cs IH]; intros w; simpl; try done.
  - by destruct w.
  - intros Hcs. by rewrite IH.
Qed.

(** The user's state after the actions of the items [run]. *)
Definition after_runs (run : list item) (u : U) : U :=
  foldl (fun u i => effects (body (sched_action (what i))) u) u run.

(** C6. A frame during which the clock reads [t], with actions that only
    change the user's state, is [serve]: the loop with its mutex runs the
    items that the function on lists picks, in that order, and leaves the
    queue that the function leaves. *)
Theorem drain_serves_frame fuel t w :
  (forall a, forallb is_effect (body a) = true) ->
  (forall n, reads w <= n -> clock_now n = t) ->
  idle w ->
  cs_is_subscribed (lifetime (state w)) w = true ->
  length (q_items (queue (state w))) < fuel ->
  exists w', drain fuel w = Ret w' /\
    new_runs w w' = map (fun i => Run i t) (serve (subs w) t (q_items (queue (state w)))).1 /\
    q_items (queue (state w')) = (serve (subs w) t (q_items (queue (state w)))).2 /\
    user w' = after_runs (serve (subs w) t (q_items (queue (state w)))).1 (user w) /\
    subs w' = subs w.
Proof.
  intros Hbody. revert w. induction fuel as [|fuel IH]; intros w Hclock Hi Hl Hlen; [lia|].
  rewrite drain_S, Hl by done. rewrite orb_false_r. cbn [negb].
  destruct (q_items (queue (state w))) as [|i l] eqn:Hq.
  { rewrite (proj2 (q_empty_true _) Hq). exists w.
    split_and!; try done. unfold new_runs. by rewrite drop_all. }
  rewrite (proj2 (q_empty_false _)) by (by rewrite Hq).
  assert (q_top (queue (state w)) = Some i) as -> by (by rewrite q_top_spec, Hq).
  assert (q_items (q_pop (queue (state w))) = l) as Hpop by (by rewrite q_pop_spec, Hq).
  unfold live. cbn [serve]. simpl in Hlen.
  change (cs_is_subscribed (sched_lifetime (what i)) w)
    with (cs_is_subscribed (sched_lifetime (what i)) (subs w)).
  destruct (cs_is_subscribed (sched_lifetime (what i)) (subs w)) eqn:Hlive; cbn [negb].
  - rewrite (Hclock (reads w)) by done.
    destruct (t <? when i)%Z.
    + exists (tick_clock w). split_and!; try done.
      unfold new_runs. by rewrite drop_all.
    + unfold invoke. rewrite exec_all_effects by done. cbn [and_then].
      set (w1 := set_user _ (take i w)).
      destruct (IH w1) as (w' & Hd & Hr & Hq' & Hu & Hs);
        [intros n Hn; apply Hclock; simpl in Hn; lia|done|done|simpl; rewrite Hpop; lia|].
      exists w'. simpl in Hr, Hq', Hu, Hs. rewrite Hpop in Hr, Hq', Hu.
      destruct (serve (subs w) t l) as [run kept]. simpl in *.
      split_and!; try done.
      pose proof (drain_steps any_push (fun a => allowed_any_all _) fuel w1 Hi)
        as Hst%sound_holds.
      rewrite Hd in Hst. destruct Hst as [(ext & Hext & _)%steps_ran _].
      revert Hr. unfold new_runs. simpl in Hext. rewrite Hext.
      change (ran w1) with (ran w ++ [Run i (clock_now (reads w))]).
      rewrite (Hclock (reads w)) by done.
      rewrite drop_app_length, <- app_assoc, drop_app_length. by intros ->.
  - destruct (IH (discard w)) as (w' & Hd & Hr & Hq' & Hu & Hs);
      [done|done|done|simpl; rewrite Hpop; lia|].
    exists w'. simpl in Hr, Hq', Hu, Hs. rewrite Hpop in Hr, Hq', Hu. by split_and!.
Qed.

End guarantees.

End worker.

Arguments worker_state : clear implicits.
Arguments world : clear implicits.
Arguments cmd : clear implicits.
Arguments host_event : clear implicits.

End worker.

(** ** A worker at work

    The worker over the reference implementations of subscriptions and of
    the queue, with a small program.  It runs the scenarios of the
    specification and gives the theorems above concrete inputs. *)
Module example.
Import worker.

Abbreviation world := (worker.world composite_subscription.store schedulable_queue.t nat).

(** The readings of the clock, in milliseconds: the frames of section 8 of
    the specification come at 40, 60 and 150. *)
Definition clock (n : nat) : time := nth n [40; 60; 60; 150]%Z 150%Z.

(** A clock that stands still, for the cases where no time passes. *)
Definition frozen (n : nat) : time := 0%Z.

(** Tokens: the worker's lifetime, and one per scheduled action. *)
Definition subs0 : composite_subscription.store :=
  (composite_subscription.create
     (composite_subscription.create
        (composite_subscription.create composite_subscription.empty).2).2).2.

Definition X : schedulable := Schedulable 1 1.
Definition Y : schedulable := Schedulable 2 2.
Definition again : schedulable := Schedulable 1 3.
Definition failing : schedulable := Schedulable 2 4.

(** The code of the actions: [X] and [Y] leave their mark in the user
    state, [again] schedules itself for "now", [failing] throws. *)
Definition program (a : nat) : list (cmd nat) :=
  match a with
  | 1 => [Effect (fun u => 10 * u + 1)]
  | 2 => [Effect (fun u => 10 * u + 2)]
  | 3 => [Schedule again]
  | 4 => [Raise]
  | _ => []
  end.

Definition OnErrorEmpty (e : unit) (w : world) : outcome world := Fault Aborted w.
Definition OnCompletedEmpty (w : world) : outcome world := Ret w.

Definition play (clk : nat -> time) : nat -> list (host_event nat) -> world -> outcome world :=
  worker.play clk program OnErrorEmpty OnCompletedEmpty.

(** A new worker, nothing scheduled. *)
Definition w0 : world := World subs0 (create 0) 0 0 [].

(** [X] is scheduled for 100 and [Y] for 50. *)
Definition w_xy : world :=
  final (play clock 0 [Call (ScheduleAt 100 X); Call (ScheduleAt 50 Y)] w0).

(** The same, and then [Y] is cancelled. *)
Definition w_x : world := final (play clock 0 [Call (Unsubscribe 2)] w_xy).

(** [failing] and [X] are both due. *)
Definition w_fx : world :=
  final (play frozen 0 [Call (ScheduleAt 0 failing); Call (ScheduleAt 0 X)] w0).

(** The frame in which [failing] throws has passed. *)
Definition w_failed : world := final (play frozen 9 [Frame] w_fx).

(** A frame at 40 has passed over [X] and [Y]: neither was due. *)
Definition w_drained : world := final (drain clock program 9 w_xy).

(** [again] is due. *)
Definition w_again : world := final (play frozen 0 [Call (Schedule again)] w0).

(** The example of section 8: at 40 nothing runs, at 60 [Y] runs and [X]
    does not, at 150 [X] runs. *)
Example frames_of_the_specification :
  map (fun w => map run_at (ran w))
    [final (play clock 9 [Frame] w_xy);
     final (play clock 9 [Frame; Frame] w_xy);
     final (play clock 9 [Frame; Frame; Frame] w_xy)]
  = [[]; [60%Z]; [60%Z; 150%Z]] /\
  map run_item (ran (final (play clock 9 [Frame; Frame; Frame] w_xy)))
  = [Item 50 Y; Item 100 X] /\
  user (final (play clock 9 [Frame; Frame; Frame] w_xy)) = 21.
Proof. by vm_compute. Qed.

Lemma cancelled_never_runs_witness :
  holds (fun w' =>
    Forall (fun x => sched_lifetime (what (run_item x)) <> 2) (new_runs w_x w'))
    (play clock 9 [Frame; Frame; Frame] w_x).
Proof. apply cancelled_never_runs; reflexivity. Defined.

Lemma no_run_before_due_witness :
  holds (fun w' => Forall (fun x => (when (run_item x) <= run_at x)%Z) (new_runs w_xy w'))
    (play clock 9 [Frame; Frame; Frame] w_xy).
Proof. apply no_run_before_due; reflexivity. Defined.

Lemma clock_monotone n : (clock n <= clock (S n))%Z.
Proof. do 4 (destruct n as [|n]; [by vm_compute|]). by destruct n. Qed.

Lemma runs_in_due_order_witness :
  holds (fun w' => StronglySorted due_before (new_runs w_xy w'))
    (play clock 9 [Frame; Call (Schedule X); Frame; Frame] w_xy).
Proof.
  apply runs_in_due_order;
    [exact clock_monotone | by intros [|[|[|[|[|a]]]]] | reflexivity | reflexivity
    | by vm_compute; repeat constructor].
Defined.

Lemma drain_releases_mutex_witness : sound idle (drain clock program 9 w_xy).
Proof. apply drain_releases_mutex. reflexivity. Defined.

Lemma schedule_at_live_witness :
  exists w', schedule_at 70 X w_xy = Ret w' /\
    q_items (queue (state w')) = insert_item (Item 70 X) (q_items (queue (state w_xy))) /\
    recursion.isallowed (r (state w')) = false /\ idle w'.
Proof. apply schedule_at_live; reflexivity. Defined.

Lemma schedule_at_dead_token_witness : schedule_at 70 Y w_x = Ret w_x.
Proof. apply schedule_at_dead_token. reflexivity. Defined.

(** [failing] throws in the first frame: [X], due in the same frame, does
    not run, neither then nor in any later frame. *)
Example exception_scenario :
  worker.on_tick frozen program OnErrorEmpty OnCompletedEmpty 9 w_fx = Throw w_failed /\
  map run_item (ran w_failed) = [Item 0 failing] /\
  q_items (queue (state w_failed)) = [Item 0 X].
Proof. by vm_compute. Qed.

Lemma exception_ends_worker_witness :
  cs_is_subscribed (lifetime (state w_failed)) w_failed = false /\
  forall fuel',
    worker.on_tick frozen program OnErrorEmpty OnCompletedEmpty fuel' w_failed = Ret w_failed.
Proof.
  apply (exception_ends_worker frozen program OnErrorEmpty OnCompletedEmpty 9 w_fx w_failed);
    reflexivity.
Defined.

(** The program without the action that schedules itself. *)
Definition quiet (a : nat) : list (cmd nat) :=
  match a with
  | 3 => []
  | _ => program a
  end.

Lemma quiet_passive a : forallb passive (quiet a) = true.
Proof. by destruct a as [|[|[|[|[|a]]]]]. Qed.

Lemma play_refines_transitions_witness :
  sound (fun w' => rtc (atomic clock any_push) w_xy w' /\ idle w')
    (play clock 9 [Frame; Call (Schedule again); Frame; Call (Unsubscribe 1)] w_xy).
Proof. apply play_refines_transitions. reflexivity. Defined.

Lemma queue_stays_ordered_witness :
  holds (fun w' => ordered (q_items (queue (state w'))))
    (play clock 9 [Frame; Call (ScheduleAt 70 X); Frame; Call (Schedule Y)] w_xy).
Proof. apply queue_stays_ordered; [reflexivity|by vm_compute; repeat constructor]. Defined.

Lemma cancelled_stays_cancelled_witness :
  holds (fun w' => cs_is_subscribed 2 w' = false)
    (play clock 9 [Frame; Call (Schedule Y); Frame; Frame] w_x).
Proof. apply cancelled_stays_cancelled; reflexivity. Defined.

Lemma drain_terminates_witness : lands_in idle (drain clock quiet 3 w_xy).
Proof. apply drain_terminates; [exact quiet_passive|reflexivity|vm_compute; lia]. Defined.

Lemma drain_serves_all_due_witness :
  Forall (fun i => (clock (pred (reads w_drained)) < when i)%Z)
    (q_items (queue (state w_drained))).
Proof.
  apply (drain_serves_all_due clock program 9 w_xy w_drained);
    [reflexivity | by vm_compute; repeat constructor | by vm_compute | by vm_compute].
Defined.

(** The actions that leave a mark and do nothing else. *)
Definition marks (a : nat) : list (cmd nat) :=
  match a with
  | 1 | 2 => program a
  | _ => []
  end.

Lemma marks_effects a : forallb is_effect (marks a) = true.
Proof. by destruct a as [|[|[|a]]]. Qed.

(** A frame at 120 over [X], due at 100, and [Y], due at 50. *)
Lemma drain_serves_frame_witness :
  exists w', drain (fun _ => 120%Z) marks 3 w_xy = Ret w' /\
    new_runs w_xy w'
    = map (fun i => Run i 120%Z) (serve (subs w_xy) 120%Z (q_items (queue (state w_xy)))).1 /\
    q_items (queue (state w')) = (serve (subs w_xy) 120%Z (q_items (queue (state w_xy)))).2 /\
    user w' = after_runs marks (serve (subs w_xy) 120%Z (q_items (queue (state w_xy)))).1 (user w_xy) /\
    subs w' = subs w_xy.
Proof.
  apply (drain_serves_frame (fun _ => 120%Z) marks 3 120%Z w_xy);
    [exact marks_effects | done | reflexivity | reflexivity | vm_compute; lia].
Defined.

(** What the function on lists picks there, and with [Y] cancelled. *)
Example serve_picks_due_and_live :
  serve (subs w_xy) 120%Z (q_items (queue (state w_xy))) = ([Item 50 Y; Item 100 X], []) /\
  serve (subs w_xy) 60%Z (q_items (queue (state w_xy))) = ([Item 50 Y], [Item 100 X]) /\
  serve (subs w_x) 120%Z (q_items (queue (state w_x))) = ([Item 100 X], []).
Proof. by vm_compute. Qed.

(** [again] never lets go of the frame: five units of fuel, five runs. *)
Lemma self_scheduling_never_ends_witness :
  exists w', drain frozen program 5 w_again = Fault OutOfFuel w' /\
             length (new_runs w_again w') = 5.
Proof.
  apply (self_scheduling_never_ends frozen program 5 3 1 w_again);
    [done | reflexivity | by split_and!; [..|exists 0%Z]].
Defined.

(** Scheduling into the past between two frames: [X], due at 55, runs in the
    frame at 60; [Y] is then scheduled for 50 and runs in the next frame,
    after an action due later than itself. *)
Example late_schedule_breaks_due_order :
  let w := final (play clock 9 [Call (ScheduleAt 55 X); Frame; Frame;
                                Call (ScheduleAt 50 Y); Frame] w0) in
  map run_item (ran w) = [Item 55 X; Item 50 Y] /\
  ~ StronglySorted due_before (new_runs w0 w).
Proof.
  split; [by vm_compute|]. vm_compute new_runs.
  intros [_ Hxy%Forall_inv]%StronglySorted_inv. unfold due_before in Hxy. simpl in Hxy. lia.
Qed.

End example.
