(* ===== verification/Ordinals.v ===== *)
(** * Ordinals: [schedulable_queue] as a priority queue with ordinals

    [Queue] gives the queue of the worker as a sorted list.  RxCpp's
    [schedulable_queue] (rx-scheduler.hpp, not among the sources) keeps a
    [std::priority_queue] of pairs of an item and the ordinal it was pushed
    with, ordered by [compare_elem]: by due time, and among equal due times
    by ordinal.  The specification asks that items with equal due time run
    in the order they became eligible (section 5); the ordinal is what
    gives that order.

    - Module [priority_queue]: [std::priority_queue] by its contract.  The
      container keeps the elements in the order they were pushed; [top] is
      the first element that the comparison puts behind no other, [pop]
      removes it.  How a heap arranges its array is not modelled.
    - Module [ordinal_queue]: [elem], [compare_elem] and the queue with its
      counter.  The record carries the invariant that the laws need: every
      ordinal in the queue is below the counter.  [ordinal] is an [int64_t]
      in C++ and a [nat] here: the model does not reach the 2^63 pushes
      that overflow it.
    - The theorems: the ordinal queue satisfies the laws of [SchedQueue]
      ([ordinal_queue.laws]), so every theorem of the worker holds of the
      worker over it; every implementation of the interface serves, after
      any pushes and pops, what the sorted list serves; items pushed with
      one due time are served in the order they were pushed. *)

From stdpp Require Import base list sorting.
From S2P Require Import Prelude Lifetime Subscriber Queue Worker.

(** ** [std::priority_queue] *)

Module priority_queue.
Section priority_queue.
Context {A : Type} (comp : A -> A -> bool).
Implicit Types (l : list A) (x e : A).

(** [top()]: an element [e] such that [comp e y] holds of no [y] in the
    queue; of several, the one pushed first. *)
Fixpoint top l : option A :=
  match l with
  | [] => None
  | e :: l =>
      match top l with
      | Some m => if comp e m then Some m else Some e
      | None => Some e
      end
  end.

(** [pop()]: the queue without that element. *)
Fixpoint pop l : list A :=
  match l with
  | [] => []
  | e :: l =>
      match top l with
      | Some m => if comp e m then e :: pop l else l
      | None => l
      end
  end.

(** [push(x)] *)
Definition push x l : list A := l ++ [x].

(** [empty()] *)
Definition empty l : bool := bool_decide (length l = 0).

(** The elements in the order in which [top] and [pop] give them. *)
Fixpoint service (n : nat) l : list A :=
  match n with
  | 0 => []
  | S n =>
      match top l with
      | Some e => e :: service n (pop l)
      | None => []
      end
  end.

Lemma top_None l : top l = None <-> l = [].
Proof.
  destruct l as [|e l]; simpl; [done|].
  split; [|done]. destruct (top l); [by destruct (comp _ _)|done].
Qed.

Lemma top_elem_of l m : top l = Some m -> m ∈ l.
Proof.
  revert m. induction l as [|e l IH]; intros m; simpl; [done|].
  destruct (top l) as [c|]; [destruct (comp e c)|]; intros [= <-];
    try apply list_elem_of_here. by apply list_elem_of_further, IH.
Qed.

Lemma length_pop l : length (pop l) = pred (length l).
Proof.
  induction l as [|e l IH]; simpl; [done|].
  destruct (top l) as [c|] eqn:Ht; [destruct (comp e c)|]; simpl; try done.
  rewrite IH. by destruct l.
Qed.

Lemma pop_subseteq l : pop l ⊆ l.
Proof.
  induction l as [|e l IH]; simpl; [done|].
  destruct (top l) as [c|]; [destruct (comp e c)|];
    first [by apply list_subseteq_skip|by apply list_subseteq_cons].
Qed.

Lemma service_nil n : service n [] = [].
Proof. by destruct n. Qed.

End priority_queue.
End priority_queue.

(** ** [schedulable_queue] *)

Module ordinal_queue.

(** [elem_type]: an item and its ordinal. *)
Definition elem : Type := item * nat.

(** [compare_elem]: [lhs] is served after [rhs]. *)
Definition compare_elem (lhs rhs : elem) : bool :=
  if decide (when lhs.1 = when rhs.1) then bool_decide (rhs.2 < lhs.2)
  else bool_decide (when rhs.1 < when lhs.1)%Z.

(** Every ordinal in [l] is below [n]. *)
Definition below (n : nat) (l : list elem) : Prop := Forall (fun e => e.2 < n) l.

Record t : Type := Make {
  q : list elem;                  (* [queue_type q] *)
  ordinal : nat;                  (* [int64_t ordinal] *)
  fresh : bool_decide (below ordinal q);
}.

Lemma fresh_pop Q : bool_decide (below (ordinal Q) (priority_queue.pop compare_elem (q Q))).
Proof.
  apply bool_decide_pack. pose proof (bool_decide_unpack _ (fresh Q)) as Hf.
  unfold below in *. rewrite Forall_forall in Hf |- *.
  intros e He. by apply Hf, (priority_queue.pop_subseteq compare_elem).
Qed.

Lemma fresh_push i Q :
  bool_decide (below (S (ordinal Q)) (priority_queue.push (i, ordinal Q) (q Q))).
Proof.
  apply bool_decide_pack. pose proof (bool_decide_unpack _ (fresh Q)) as Hf.
  apply Forall_app. split; [|by repeat constructor].
  eapply Forall_impl; [exact Hf|]. simpl. lia.
Qed.

(** [schedulable_queue()] *)
Definition new : t := Make [] 0 I.

(** [empty()] *)
Definition empty (Q : t) : bool := priority_queue.empty (q Q).

(** [top()]: [q.top().first] *)
Definition top (Q : t) : option item := fst <$> priority_queue.top compare_elem (q Q).

(** [pop()] *)
Definition pop (Q : t) : t :=
  Make (priority_queue.pop compare_elem (q Q)) (ordinal Q) (fresh_pop Q).

(** [push(value)]: [q.push(elem_type(value, ordinal++))] *)
Definition push (i : item) (Q : t) : t :=
  Make (priority_queue.push (i, ordinal Q) (q Q)) (S (ordinal Q)) (fresh_push i Q).

(** The items in the order they will be served. *)
Definition items (Q : t) : list item :=
  (priority_queue.service compare_elem (length (q Q)) (q Q)).*1.

#[global] Instance ops : SchedQueueOps t := {
  q_new := new;
  q_empty := empty;
  q_top := top;
  q_pop := pop;
  q_push := push;
  q_items := items;
}.

(** *** An element with a new ordinal at the back of the container *)

Section push.
Context (i : item) (n : nat).
Implicit Types (l : list elem) (e m : elem).

#[local] Abbreviation top_elem := (priority_queue.top compare_elem).
#[local] Abbreviation pop_elem := (priority_queue.pop compare_elem).

(** [(i, n)] is served after every element of [l] that is due no later. *)
Lemma compare_new e :
  e.2 < n -> compare_elem e (i, n) = bool_decide (when i < when e.1)%Z.
Proof.
  intros He. unfold compare_elem. simpl.
  case_decide as Hw; [|done]. rewrite Hw.
  rewrite !bool_decide_eq_false_2; [done|lia|lia].
Qed.

(** It is the top when it is due before the top, and not otherwise. *)
Lemma top_push l :
  below n l ->
  top_elem (l ++ [(i, n)])
  = match top_elem l with
    | Some m => if decide (when i < when m.1)%Z then Some (i, n) else Some m
    | None => Some (i, n)
    end.
Proof.
  induction 1 as [|e l He _ IH]; [done|].
  cbn [app priority_queue.top]. rewrite IH. clear IH.
  destruct (top_elem l) as [m|]; [|by rewrite compare_new; [case_decide; case_bool_decide|]].
  case_decide as Hm.
  - rewrite compare_new by done. unfold compare_elem.
    repeat (case_decide || case_bool_decide); simplify_eq/=; try done; lia.
  - unfold compare_elem.
    repeat (case_decide || case_bool_decide); simplify_eq/=; try done; lia.
Qed.

Lemma pop_push l :
  below n l ->
  pop_elem (l ++ [(i, n)])
  = match top_elem l with
    | Some m => if decide (when i < when m.1)%Z then l else pop_elem l ++ [(i, n)]
    | None => []
    end.
Proof.
  induction 1 as [|e l He Hl IH]; [done|].
  cbn [app priority_queue.pop priority_queue.top]. rewrite IH, (top_push l Hl). clear IH.
  destruct (top_elem l) as [m|] eqn:Ht.
  - case_decide as Hm.
    + rewrite compare_new by done. unfold compare_elem.
      repeat (case_decide || case_bool_decide); simplify_eq/=; try done; lia.
    + unfold compare_elem.
      repeat (case_decide || case_bool_decide); simplify_eq/=; try done; lia.
  - apply priority_queue.top_None in Ht as ->. rewrite compare_new by done.
    by case_decide; case_bool_decide.
Qed.

(** The order of service with the new element is the order without it,
    the new item put in by stable insertion. *)
Lemma service_push k l :
  below n l -> length l <= k ->
  (priority_queue.service compare_elem (S k) (l ++ [(i, n)])).*1
  = insert_item i (priority_queue.service compare_elem k l).*1.
Proof.
  revert l. induction k as [|k IH]; intros l Hl Hk.
  { destruct l; [done|simpl in Hk; lia]. }
  cbn [priority_queue.service]. rewrite top_push, pop_push by done.
  destruct (top_elem l) as [m|] eqn:Ht.
  - case_decide as Hm.
    + cbn [fmap list_fmap insert_item]. rewrite decide_True by done.
      f_equal. cbn [priority_queue.service]. by rewrite Ht.
    + cbn [fmap list_fmap insert_item]. rewrite decide_False by done.
      f_equal. apply (IH (pop_elem l)).
      * unfold below in *. rewrite Forall_forall in Hl |- *.
        intros e He. by apply Hl, (priority_queue.pop_subseteq compare_elem).
      * rewrite priority_queue.length_pop. lia.
  - apply priority_queue.top_None in Ht as ->. by destruct k.
Qed.

End push.

(** *** The laws *)

(** The order of service, one element at a time. *)
Lemma items_unfold Q :
  items Q
  = match priority_queue.top compare_elem (q Q) with
    | Some e => e.1 :: items (pop Q)
    | None => []
    end.
Proof.
  unfold items. cbn [q pop]. rewrite priority_queue.length_pop.
  destruct (q Q) as [|e l]; [done|]. cbn [length pred priority_queue.service].
  by destruct (priority_queue.top compare_elem (e :: l)).
Qed.

Lemma items_nil Q : items Q = [] <-> q Q = [].
Proof.
  rewrite items_unfold, <- (priority_queue.top_None compare_elem).
  by destruct (priority_queue.top compare_elem (q Q)).
Qed.

#[global] Instance laws : SchedQueue t.
Proof.
  split.
  - done.
  - intros Q. cbn [q_empty q_items ops]. unfold empty, priority_queue.empty.
    destruct (q Q) as [|e l] eqn:Hq.
    + symmetry. by apply bool_decide_eq_true_2, items_nil.
    + symmetry. apply bool_decide_eq_false_2. rewrite items_nil. congruence.
  - intros Q. cbn [q_top q_items ops]. rewrite items_unfold. unfold top.
    by destruct (priority_queue.top compare_elem (q Q)).
  - intros Q. cbn [q_pop q_items ops]. rewrite (items_unfold Q).
    destruct (priority_queue.top compare_elem (q Q)) eqn:Ht; [done|].
    apply priority_queue.top_None in Ht. apply (proj2 (items_nil _)).
    cbn [q pop]. by rewrite Ht.
  - intros i [l n Hf]. cbn [q_push q_items ops]. unfold items, push. cbn [q ordinal].
    unfold priority_queue.push. rewrite length_app, Nat.add_1_r.
    apply service_push; [exact (bool_decide_unpack _ Hf)|done].
Qed.

End ordinal_queue.

(** ** What the interface promises

    A client of a queue pushes and pops.  Whatever it does, every
    implementation of [SchedQueue] holds the items the sorted list of
    [Queue.schedulable_queue] holds, in the same order. *)

Module queue_client.

Inductive op : Type :=
| Push (i : item)
| Pop.

Section queue_client.
Context `{SchedQueue Q}.

Definition apply (o : op) (q : Q) : Q :=
  match o with
  | Push i => q_push i q
  | Pop => q_pop q
  end.

Definition run (os : list op) (q : Q) : Q := foldl (fun q o => apply o q) q os.

End queue_client.

Section refinement.
Context `{SchedQueue Q}.
Implicit Types (q : Q) (os : list op).

Lemma apply_items o q :
  q_items (apply o q) = apply o (q_items q : schedulable_queue.t).
Proof. destruct o; simpl; [apply q_push_spec|apply q_pop_spec]. Qed.

Lemma run_items os q :
  q_items (run os q) = run os (q_items q : schedulable_queue.t).
Proof.
  revert q. induction os as [|o os IH]; intros q; [done|].
  simpl. by rewrite IH, apply_items.
Qed.

(** Pushes with one due time are served in the order they were made, behind
    what the queue held. *)
Lemma pushes_at_one_time (t : time) (l : list schedulable) q :
  Forall (fun j => when j <= t)%Z (q_items q) ->
  q_items (run (map (fun s => Push (Item t s)) l) q) = q_items q ++ map (Item t) l.
Proof.
  revert q. induction l as [|s l IH]; intros q Hq; [by rewrite app_nil_r|].
  simpl. rewrite IH; rewrite q_push_spec, insert_item_last by done.
  - by rewrite <- app_assoc.
  - apply Forall_app. split; [done|]. repeat constructor. simpl. lia.
Qed.

End refinement.
End queue_client.

(** ** Calls of [schedule(when, scbl)] with one time point *)

Section schedule_order.
Import worker.
Context {L U : Type} `{!LifetimeOps L, !Lifetimes L}.
Context `{SchedQueue Q}.
Context (clock_now : nat -> time).
Implicit Types (w : worker.world L Q U) (l : list schedulable).

(** Calls with live tokens and one time point, no earlier than what is
    queued, queue their items in the order of the calls. *)
Lemma schedule_at_one_time (t : time) l w :
  idle w ->
  Forall (fun s => live s w = true) l ->
  Forall (fun j => when j <= t)%Z (q_items (queue (state w))) ->
  returns (fun w' =>
    q_items (queue (state w')) = q_items (queue (state w)) ++ map (Item t) l)
    (exec_all clock_now (map (ScheduleAt t) l) w).
Proof.
  revert w. induction l as [|s l IH]; intros w Hi Hl Hq.
  { simpl. by rewrite app_nil_r. }
  apply Forall_cons in Hl as [Hs Hl]. cbn [map exec_all exec]. rewrite schedule_at_idle, Hs by done. cbn [and_then].
  assert (q_items (queue (state (push_item (Item t s) w)))
          = q_items (queue (state w)) ++ [Item t s]) as Hp.
  { simpl. by rewrite q_push_spec, insert_item_last. }
  eapply returns_impl.
  - apply IH; [done|exact Hl|].
    rewrite Hp. apply Forall_app. split; [done|]. repeat constructor. simpl. lia.
  - intros w' Hw'. cbn beta in Hw'. rewrite Hw', Hp. simpl. by rewrite <- app_assoc.
Qed.

End schedule_order.

(** ** Theorems *)

Section ordinal_queue_theorems.
Import queue_client.

(** The priority queue with ordinals implements the queue of the
    specification: after any pushes and pops it holds the items that the
    sorted list holds, in the same order of service, and [top] and [empty]
    answer as those of the sorted list do. *)
Theorem ordinal_queue_refines_sorted_list (os : list op) :
  ordinal_queue.items (run os ordinal_queue.new) = run os ([] : schedulable_queue.t) /\
  ordinal_queue.top (run os ordinal_queue.new)
  = schedulable_queue.top (run os ([] : schedulable_queue.t)) /\
  ordinal_queue.empty (run os ordinal_queue.new)
  = schedulable_queue.empty (run os ([] : schedulable_queue.t)).
Proof.
  pose proof (run_items os ordinal_queue.new) as Hi. cbn [q_items ordinal_queue.ops] in Hi.
  change (ordinal_queue.items ordinal_queue.new) with (@nil item) in Hi.
  split_and!; [done| |].
  - rewrite <- Hi. exact (q_top_spec (Q:=ordinal_queue.t) _).
  - rewrite <- Hi. exact (q_empty_spec (Q:=ordinal_queue.t) _).
Qed.

(** Items pushed with one due time are served in the order they were
    pushed: the ordinal breaks the tie. *)
Theorem equal_times_in_push_order (t : time) (l : list schedulable) :
  ordinal_queue.items (run (map (fun s => Push (Item t s)) l) ordinal_queue.new)
  = map (Item t) l.
Proof.
  exact (pushes_at_one_time (Q:=ordinal_queue.t) t l ordinal_queue.new
           (Forall_nil_2 _)).
Qed.

Context {L U : Type} `{!LifetimeOps L, !Lifetimes L}.
Context (clock_now : nat -> time).

(** C21. Items that become eligible together run in the order they were
    scheduled: over the priority queue with ordinals, calls of
    [schedule(when, scbl)] with live tokens and one time point, no earlier
    than what the worker has queued, put their items behind what is queued,
    in the order of the calls, and that is the order in which the frame
    callback takes them. *)
Theorem equal_times_queued_in_call_order (t : time) (l : list schedulable)
    (w : worker.world L ordinal_queue.t U) :
  worker.idle w ->
  Forall (fun s => worker.live s w = true) l ->
  Forall (fun j => when j <= t)%Z (ordinal_queue.items (worker.queue (worker.state w))) ->
  returns (fun w' =>
    ordinal_queue.items (worker.queue (worker.state w'))
    = ordinal_queue.items (worker.queue (worker.state w)) ++ map (Item t) l)
    (worker.exec_all clock_now (map (worker.ScheduleAt t) l) w).
Proof. exact (schedule_at_one_time (Q:=ordinal_queue.t) clock_now t l w). Qed.

End ordinal_queue_theorems.

(** ** The worker over the ordinal queue *)

Module ordinals_example.
Import queue_client.

Definition A : schedulable := Schedulable 1 1.
Definition B : schedulable := Schedulable 2 2.
Definition C : schedulable := Schedulable 3 3.

(** Three items due at 50 and one due at 40, pushed in that order; then one
    pop. *)
Definition ops : list op :=
  [Push (Item 50 A); Push (Item 50 B); Push (Item 40 C); Push (Item 50 C); Pop].

Example ordinals_break_ties :
  ordinal_queue.q (run ops ordinal_queue.new)
  = [(Item 50 A, 0); (Item 50 B, 1); (Item 50 C, 3)] /\
  ordinal_queue.ordinal (run ops ordinal_queue.new) = 4 /\
  ordinal_queue.items (run ops ordinal_queue.new) = [Item 50 A; Item 50 B; Item 50 C] /\
  ordinal_queue.items (run (removelast ops) ordinal_queue.new)
  = [Item 40 C; Item 50 A; Item 50 B; Item 50 C].
Proof. by vm_compute. Qed.

(** The worker of [Worker.example] over the ordinal queue. *)
Abbreviation world := (worker.world composite_subscription.store ordinal_queue.t nat).

Definition play : nat -> list (worker.host_event nat) -> world -> outcome world :=
  worker.play example.clock example.program (fun (_ : unit) w => Fault Aborted w)
    (fun w => Ret w).

Definition w0 : world := worker.World example.subs0 (worker.create 0) 0 0 [].

(** [X], [Y] and [X] again are scheduled for 50, in that order; the frame at
    40 runs nothing and the next frame runs the three in the order they
    were scheduled, reading the clock before each: [X] writes the digit 1
    and [Y] the digit 2. *)
Example equal_times_run_in_push_order :
  let scheduling := [worker.Call (worker.ScheduleAt 50 example.X);
                     worker.Call (worker.ScheduleAt 50 example.Y);
                     worker.Call (worker.ScheduleAt 50 example.X)] in
  worker.user (final (play 9 (scheduling ++ [worker.Frame]) w0)) = 0 /\
  worker.user (final (play 9 (scheduling ++ [worker.Frame; worker.Frame]) w0)) = 121 /\
  map worker.run_at
    (worker.ran (final (play 9 (scheduling ++ [worker.Frame; worker.Frame]) w0)))
  = [60; 60; 150]%Z.
Proof. by vm_compute. Qed.

Lemma equal_times_queued_in_call_order_witness :
  returns (fun w' =>
    ordinal_queue.items (worker.queue (worker.state w'))
    = ordinal_queue.items (worker.queue (worker.state w0))
      ++ map (Item 50) [example.X; example.Y; example.X])
    (worker.exec_all example.clock
       (map (worker.ScheduleAt 50) [example.X; example.Y; example.X]) w0).
Proof.
  apply equal_times_queued_in_call_order;
    [reflexivity|repeat constructor; by vm_compute|constructor].
Defined.

End ordinals_example.
