(* ===== verification/TickSource.v ===== *)
(** * TickSource: [Updates], the adapter between the host and the worker

    [struct Updates] is declared in
    [src/libs/ofxRx/includes/ofxRxUpdates.h] (lines 7-30); its member
    functions are defined outside the sources and are modelled from the
    declaration and from section 4.2 of the specification: the adapter
    subscribes once to the per-frame notification of the host, and on each
    notification tells its subscribers, of which the frame callback of the
    worker is one.

    - Section [adapter], over any world with subscription states:
      [updates.t] has the members of [Updates]; [updates.system] puts an
      adapter, the host's update event and the world side by side;
      [setup], [clear], [subscribe] and [update] are the member functions
      and [frame] is one update event of the host.
    - Section [worker_adapter]: [construct] is the constructor of
      [worker_type], which sets the adapter up and subscribes the frame
      callback to it; [step] and [play] run frames, client calls,
      [setup()] and [clear()].
    - The theorems: the flag [registered] keeps the adapter in the host's
      event at most once, whatever is called; a frame of a constructed
      worker is [Worker.worker.on_tick], with the lifetime of the adapter's
      subject ended on top when an action throws, after which no frame
      is passed on; every history of the
      system is a sequence of the worker's transitions, so that what holds
      of the worker alone holds of the worker behind its adapter; while
      the subject lives, frames and calls behind the adapter end as the
      histories of [Worker.worker.play] do ([play_of_host]); a cleared
      adapter passes no frame on.  [Frames] uses the adapter for the tick
      source of the demo application. *)

From stdpp Require Import base relations list.
From S2P Require Import Prelude Lifetime Subscriber Queue Worker.

Module updates.
Import worker.

(** ** The adapter, over any world *)

Section adapter.
Context {world E : Type} `{!LifetimeOps world, !Lifetimes world}.
Context (OnErrorEmpty : E -> world -> outcome world)
        (OnCompletedEmpty : world -> outcome world).

(** What subscribes to [events()]: a subscriber for [ofEventArgs]. *)
#[local] Abbreviation listener :=
  (subscriber.t (static_observer.t world ofEventArgs E)).

(** [rx::subjects::subject<ofEventArgs>]: a lifetime and the subscribers
    told so far, in the order they came. *)
Record subject : Type := Subject {
  subject_lifetime : token;
  observers : list listener;
}.

(** [struct Updates].  [dest_updates] is [sub_updates.get_subscriber()]: a
    subscriber under the lifetime of the subject, that casts what it is told
    to the observers of the subject. *)
Record t : Type := Make {
  registered : bool;
  sub_updates : subject;
  dest_updates : token;
}.

(** The adapter of a worker ([worker_state::source]), the number of times
    the update event of the host holds [Updates::update] of that adapter,
    and the world of the worker. *)
Record system : Type := System {
  source : t;
  listening : nat;
  inner : world;
}.

Definition set_inner (s : system) (w : world) : system :=
  System (source s) (listening s) w.

Definition set_observers (os : list listener) (s : system) : system :=
  let x := source s in
  System (Make (registered x) (Subject (subject_lifetime (sub_updates x)) os)
            (dest_updates x))
    (listening s) (inner s).

(** [Updates()]: not registered, a new subject, its subscriber. *)
Definition create (w : world) : t * world :=
  let '(l, w) := cs_create w in (Make false (Subject l []) l, w).

(** [setup()]: [Updates::update] is added to the update event of the host,
    unless it is there. *)
Definition setup (s : system) : system :=
  let x := source s in
  System (Make true (sub_updates x) (dest_updates x))
    (if registered x then listening s else S (listening s)) (inner s).

(** [clear()]: it is removed, if it is there. *)
Definition clear (s : system) : system :=
  let x := source s in
  System (Make false (sub_updates x) (dest_updates x))
    (if registered x then pred (listening s) else listening s) (inner s).

(** The observers whose lifetime has not ended. *)
Definition current (s : system) : list listener :=
  filter (fun o => subscriber.is_subscribed o (inner s) = true)
    (observers (sub_updates (source s))).

(** [events().subscribe(o)]: [o] joins the observers of a live subject,
    behind those that are still subscribed; the subscriber of an ended
    subject is unsubscribed. *)
Definition subscribe (o : listener) (s : system) : system :=
  if cs_is_subscribed (subject_lifetime (sub_updates (source s))) (inner s) then
    if subscriber.is_subscribed o (inner s) then set_observers (current s ++ [o]) s
    else s
  else set_inner s (subscriber.unsubscribe o (inner s)).

(** The observer of the subject: the observers are told one after the
    other, in the order they came. *)
Fixpoint cast (os : list listener) (a : ofEventArgs) (w : world) : outcome world :=
  match os with
  | [] => Ret w
  | o :: os => do w <- subscriber.on_next o a w; cast os a w
  end.

(** [update(a)]: [dest_updates.on_next(a)]. *)
Definition update (a : ofEventArgs) (s : system) : outcome system :=
  outcome_map (set_inner s)
    (subscriber.on_next
       (make.explicit (dest_updates (source s))
          (make.of_on_next OnErrorEmpty OnCompletedEmpty
             (cast (observers (sub_updates (source s))))))
       a (inner s)).

(** The update event of the host notifies each listener it holds. *)
Fixpoint notify_listeners (n : nat) (s : system) : outcome system :=
  match n with
  | 0 => Ret s
  | S n => do s <- update OfEventArgs s; notify_listeners n s
  end.

(** One frame of the host. *)
Definition frame (s : system) : outcome system :=
  notify_listeners (listening s) s.

(** ** Facts *)

(** [plugged s]: the update event of the host holds the adapter once when
    the adapter says it is registered, and not at all when it says it is
    not. *)
Definition plugged (s : system) : Prop :=
  listening s = Nat.b2n (registered (source s)).

(** Nothing but the world has changed. *)
Definition same_adapter (s s' : system) : Prop :=
  source s' = source s /\ listening s' = listening s.

Lemma setup_plugged s : plugged s -> plugged (setup s).
Proof. unfold plugged, setup. simpl. destruct (registered _); simpl; lia. Qed.

Lemma clear_plugged s : plugged s -> plugged (clear s).
Proof. unfold plugged, clear. simpl. destruct (registered _); simpl; lia. Qed.

Lemma setup_idempotent s : setup (setup s) = setup s.
Proof. done. Qed.

Lemma update_same a s : holds (same_adapter s) (update a s).
Proof. unfold update, holds. rewrite final_outcome_map. done. Qed.

Lemma notify_listeners_same n s : holds (same_adapter s) (notify_listeners n s).
Proof.
  revert s. induction n as [|n IH]; intros s; simpl; [done|].
  eapply holds_and_then; [apply update_same| |done].
  intros s1 [H1 H2]. eapply holds_impl; [apply IH|].
  intros s2 [H3 H4]. split; congruence.
Qed.

(** A frame of an adapter whose subject has ended. *)
Lemma update_ended a s :
  cs_is_subscribed (dest_updates (source s)) (inner s) = false ->
  update a s = Ret s.
Proof.
  intros Hl. unfold update, subscriber.on_next, subscriber.is_subscribed.
  cbn [subscriber.lifetime make.explicit]. rewrite Hl. by destruct s.
Qed.

(** An adapter that is not registered passes nothing on. *)
Lemma frame_cleared s :
  plugged s -> registered (source s) = false -> frame s = Ret s.
Proof. unfold plugged, frame. intros -> ->. done. Qed.

End adapter.

Arguments t : clear implicits.
Arguments subject : clear implicits.
Arguments system : clear implicits.

(** ** The adapter of a worker *)

Section worker_adapter.
Context {L Q U E : Type}.
Context `{!LifetimeOps L, !Lifetimes L, !SchedQueueOps Q, !SchedQueue Q}.
#[local] Abbreviation world := (worker.world L Q U).
#[local] Abbreviation cmd := (worker.cmd U).
#[local] Abbreviation system := (system world E).
Context (clock_now : nat -> time) (body : nat -> list cmd).
Context (OnErrorEmpty : E -> world -> outcome world)
        (OnCompletedEmpty : world -> outcome world).

#[local] Abbreviation update := (update OnErrorEmpty OnCompletedEmpty).
#[local] Abbreviation notify_listeners := (notify_listeners OnErrorEmpty OnCompletedEmpty).
#[local] Abbreviation frame := (frame OnErrorEmpty OnCompletedEmpty).

(** [worker_type(cs)]: a new state under the lifetime [cs], its adapter set
    up, and the frame callback subscribed to the adapter under [cs]. *)
Definition construct (fuel : nat) (cs : token) (w : world) : system :=
  let w := set_state (worker.create cs) w in
  let '(x, w) := create w in
  subscribe (tick_subscriber clock_now body OnErrorEmpty OnCompletedEmpty fuel (state w))
    (setup (System x 0 w)).

(** What happens to a worker behind its adapter. *)
Inductive event : Type :=
| Tick                 (* the host's update event fires *)
| Do (c : cmd)         (* client code runs *)
| Setup                (* [source.setup()] *)
| Clear.               (* [source.clear()] *)

Definition step (ev : event) (s : system) : outcome system :=
  match ev with
  | Tick => frame s
  | Do c => outcome_map (set_inner s) (exec clock_now c (inner s))
  | Setup => Ret (setup s)
  | Clear => Ret (clear s)
  end.

Fixpoint play (evs : list event) (s : system) : outcome system :=
  match evs with
  | [] => Ret s
  | ev :: evs => do s <- step ev s; play evs s
  end.

#[local] Abbreviation on_tick := (worker.on_tick clock_now body OnErrorEmpty OnCompletedEmpty).
#[local] Abbreviation the_callback :=
  (tick_subscriber clock_now body OnErrorEmpty OnCompletedEmpty).
#[local] Abbreviation reaches := (worker.reaches clock_now any_push).

(** [wired fuel s]: the frame callback of the worker is the one observer of
    the adapter, as the constructor of the worker leaves it. *)
Definition wired (fuel : nat) (s : system) : Prop :=
  observers (sub_updates (source s)) = [the_callback fuel (state (inner s))] /\
  dest_updates (source s) = subject_lifetime (sub_updates (source s)).

Lemma step_plugged ev s : plugged s -> holds plugged (step ev s).
Proof.
  intros Hp. destruct ev as [|c| |]; simpl.
  - eapply holds_impl; [apply notify_listeners_same|].
    intros s' [Hs Hl]. unfold plugged. by rewrite Hs, Hl.
  - unfold holds. by rewrite final_outcome_map.
  - by apply setup_plugged.
  - by apply clear_plugged.
Qed.

Lemma play_plugged evs s : plugged s -> holds plugged (play evs s).
Proof.
  revert s. induction evs as [|ev evs IH]; intros s Hp; simpl; [done|].
  eapply holds_and_then; [by apply step_plugged|exact IH|done].
Qed.

(** The tick subscriber depends on the lifetime of the worker alone. *)
Lemma the_callback_lifetime fuel (st st' : worker_state Q) :
  lifetime st' = lifetime st -> the_callback fuel st' = the_callback fuel st.
Proof. unfold tick_subscriber. by intros ->. Qed.

(** What the constructor of the worker leaves. *)
Lemma construct_spec fuel cs w :
  cs_is_subscribed cs w = true ->
  let s := construct fuel cs w in
  wired fuel s /\ plugged s /\ registered (source s) = true /\
  cs_is_subscribed (dest_updates (source s)) (inner s) = true /\
  lifetime (state (inner s)) = cs /\ idle (inner s) /\
  ran (inner s) = ran w /\ user (inner s) = user w.
Proof.
  intros Hcs. unfold construct, create.
  set (w1 := set_state (worker.create cs) w).
  pose proof (cs_create_fresh w1) as Hf. pose proof (cs_create_live w1) as Hl.
  pose proof (cs_create_others w1 cs) as Ho.
  assert (cs_is_subscribed cs w1 = true) as H1 by done.
  destruct (cs_create w1) as [l w2] eqn:Hc. cbn [fst snd] in Hf, Hl, Ho.
  assert (state w2 = worker.create cs /\ ran w2 = ran w /\ user w2 = user w)
    as (Hst & Hr & Hus).
  { revert Hc. unfold cs_create. simpl. destruct (cs_create (subs w)).
    by intros [= <- <-]. }
  assert (cs_is_subscribed cs w2 = true) as H2.
  { rewrite Ho; [done|]. intros ->. congruence. }
  unfold subscribe, subscriber.is_subscribed. cbn [source sub_updates setup subject_lifetime inner subscriber.lifetime tick_subscriber make.explicit].
  rewrite Hl, Hst. cbn [lifetime worker.create]. rewrite H2.
  unfold wired, plugged, idle. cbn. rewrite Hst. by split_and!.
Qed.

(** A frame of a worker behind its adapter, while the subject of the adapter
    lives. *)
Lemma update_wired fuel s :
  wired fuel s ->
  cs_is_subscribed (dest_updates (source s)) (inner s) = true ->
  update OfEventArgs s
  = outcome_map (set_inner s)
      (unwinding (on_tick fuel (inner s)) (cs_unsubscribe (dest_updates (source s)))).
Proof.
  intros [Ho _] Hl. unfold update. f_equal.
  unfold subscriber.on_next at 1. unfold subscriber.is_subscribed.
  cbn [subscriber.lifetime subscriber.destination make.explicit].
  rewrite Hl, Ho.
  cbn [negb obs_on_next static_observer.observer static_observer.on_next
       make.of_on_next cast].
  rewrite and_then_Ret_r. unfold worker.on_tick.
  by destruct (subscriber.on_next _ _ _).
Qed.

(** [sys_reaches fuel s s']: the world of [s'] comes from that of [s] by
    transitions of the worker, and the adapter is as it was. *)
Definition sys_reaches (s s' : system) : Prop :=
  reaches (inner s) (inner s') /\ same_adapter s s'.

Lemma sys_reaches_refl s : idle (inner s) -> sys_reaches s s.
Proof. intros Hi. split; [by apply reaches_refl|done]. Qed.

Lemma update_steps fuel s :
  wired fuel s -> idle (inner s) -> sound (sys_reaches s) (update OfEventArgs s).
Proof.
  intros Hw Hi.
  destruct (cs_is_subscribed (dest_updates (source s)) (inner s)) eqn:Hl;
    [|rewrite update_ended by done; by apply sound_Ret, sys_reaches_refl].
  rewrite (update_wired fuel) by done.
  pose proof (on_tick_steps clock_now body OnErrorEmpty OnCompletedEmpty any_push
                (fun a => allowed_any_all _ _) fuel (inner s) Hi) as Hd.
  destruct (on_tick fuel (inner s)) as [w'|w'|[| |] w']; simpl in *; try done.
  split; [|done]. eapply reaches_trans; [exact Hd|].
  apply reaches_step; [constructor|by eapply reaches_idle].
Qed.

Lemma wired_kept fuel s s' :
  wired fuel s -> source s' = source s -> reaches (inner s) (inner s') ->
  wired fuel s'.
Proof.
  intros [Ho Hd] Hs [Hr _]. unfold wired. rewrite Hs. split; [|done].
  rewrite Ho. f_equal. symmetry. apply the_callback_lifetime.
  by eapply steps_lifetime.
Qed.

Lemma notify_listeners_steps fuel n s :
  wired fuel s -> idle (inner s) -> sound (sys_reaches s) (notify_listeners n s).
Proof.
  revert s. induction n as [|n IH]; intros s Hw Hi; simpl;
    [by apply sound_Ret, sys_reaches_refl|].
  eapply sound_and_then; [by apply (update_steps fuel)| |done].
  intros s1 [Hr [Hs Hl]]. eapply sound_impl.
  - apply IH; [by eapply wired_kept|by eapply reaches_idle].
  - intros s2 [Hr2 [Hs2 Hl2]]. split; [by eapply reaches_trans|].
    split; congruence.
Qed.

(** [behind fuel s s']: the world of [s'] comes from that of [s] by
    transitions of the worker, and the adapter of [s'] is in order. *)
Definition behind (fuel : nat) (s s' : system) : Prop :=
  reaches (inner s) (inner s') /\ wired fuel s' /\ plugged s'.

Lemma step_behind fuel ev s :
  wired fuel s -> plugged s -> idle (inner s) -> sound (behind fuel s) (step ev s).
Proof.
  intros Hw Hp Hi. destruct ev as [|c| |]; simpl.
  - eapply sound_impl; [by apply (notify_listeners_steps fuel)|].
    intros s' [Hr [Hs Hl]]. split_and!; [done|by eapply wired_kept|].
    unfold plugged. by rewrite Hs, Hl.
  - eapply sound_outcome_map.
    + apply lands_in_sound, (exec_steps clock_now any_push c); [apply allowed_any|done].
    + intros w' Hr. split_and!; [done| |done]. by eapply wired_kept.
  - apply sound_Ret. split_and!; [by apply reaches_refl|done|by apply setup_plugged].
  - apply sound_Ret. split_and!; [by apply reaches_refl|done|by apply clear_plugged].
Qed.

Lemma play_behind fuel evs s :
  wired fuel s -> plugged s -> idle (inner s) -> sound (behind fuel s) (play evs s).
Proof.
  revert s. induction evs as [|ev evs IH]; intros s Hw Hp Hi; simpl.
  - apply sound_Ret. split_and!; [by apply reaches_refl|done|done].
  - eapply sound_and_then; [by apply step_behind| |done].
    intros s1 (Hr & Hw1 & Hp1). eapply sound_impl.
    + apply IH; [done|done|by eapply reaches_idle].
    + intros s2 (Hr2 & ? & ?). split_and!; [by eapply reaches_trans|done|done].
Qed.

(** No command of a client records a run. *)
Lemma exec_ran (c : cmd) (w : world) : holds (fun w' => ran w' = ran w) (exec clock_now c w).
Proof.
  destruct c as [f|scbl|at_ scbl|tok| |f th]; unfold holds; simpl; try done;
    unfold schedule, schedule_at, acquire; simpl; by repeat case_match.
Qed.

Definition not_setup (ev : event) : bool :=
  match ev with
  | Setup => false
  | _ => true
  end.

Lemma play_cleared evs s :
  forallb not_setup evs = true ->
  plugged s -> registered (source s) = false ->
  holds (fun s' => ran (inner s') = ran (inner s)) (play evs s).
Proof.
  revert s. induction evs as [|ev evs IH]; intros s Hevs Hp Hr; [done|].
  simpl in Hevs. apply andb_true_iff in Hevs as [Hev Hevs]. simpl.
  eapply (holds_and_then
            (fun s' => plugged s' /\ registered (source s') = false /\
                       ran (inner s') = ran (inner s))).
  - destruct ev as [|c| |]; simpl in *; try done.
    + by rewrite frame_cleared.
    + unfold holds. rewrite final_outcome_map. simpl.
      split_and!; [done|done|apply exec_ran].
    + split_and!; [by apply clear_plugged|done|done].
  - intros s1 (Hp1 & Hr1 & Hran). eapply holds_impl; [by apply IH|].
    simpl. congruence.
  - by intros s1 (_ & _ & ?).
Qed.

(** An exception that leaves the frame callback leaves [update], after the
    detachers of the worker's tick subscriber and of the subscriber of the
    adapter: both lifetimes have ended. *)
Lemma update_throws fuel s s' :
  wired fuel s -> idle (inner s) -> update OfEventArgs s = Throw s' ->
  same_adapter s s' /\
  cs_is_subscribed (lifetime (state (inner s'))) (inner s') = false /\
  cs_is_subscribed (dest_updates (source s')) (inner s') = false.
Proof.
  intros Hw Hi Hth. pose proof (update_same OnErrorEmpty OnCompletedEmpty OfEventArgs s) as Hsame.
  rewrite Hth in Hsame. change (same_adapter s s') in Hsame.
  split; [done|]. destruct Hsame as [Hs _]. rewrite Hs.
  destruct (cs_is_subscribed (dest_updates (source s)) (inner s)) eqn:Hl;
    [|by rewrite update_ended in Hth].
  rewrite (update_wired fuel) in Hth by done.
  apply outcome_map_Throw_inv in Hth as (w' & Hth & ->).
  destruct (on_tick fuel (inner s)) as [w1|w1|f w1] eqn:Hon; simplify_eq/=.
  pose proof (on_tick_throws _ _ _ _ _ _ _ Hi Hon) as Hdead. split.
  - eapply narrows_dead; [apply cs_unsubscribe_narrows|exact Hdead].
  - apply cs_unsubscribe_off.
Qed.

(** The host's event passes nothing on once the subject has ended. *)
Lemma notify_listeners_ended n s :
  cs_is_subscribed (dest_updates (source s)) (inner s) = false ->
  notify_listeners n s = Ret s.
Proof. intros Hl. induction n as [|n IH]; simpl; [done|]. by rewrite update_ended. Qed.

(** *** The host of [Worker], behind the adapter

    [Worker.worker.play] takes a frame to be the call of the frame
    callback.  Behind the adapter a frame is an update event of the host;
    the two histories are the same while the subject of the adapter
    lives. *)
Definition of_host (ev : host_event U) : event :=
  match ev with
  | Frame => Tick
  | Call c => Do c
  end.

(** A step of the host of [Worker]. *)
Definition host_step (fuel : nat) (ev : host_event U) (w : world) : outcome world :=
  match ev with
  | Frame => on_tick fuel w
  | Call c => exec clock_now c w
  end.

(** What the adapter does to an exception on its way to the host. *)
Definition on_the_way (ev : host_event U) (s : system) (w : world) : world :=
  match ev with
  | Frame => cs_unsubscribe (dest_updates (source s)) w
  | Call _ => w
  end.

(** The subject of the adapter lives. *)
Definition alive (s : system) : Prop :=
  cs_is_subscribed (dest_updates (source s)) (inner s) = true.

Lemma worker_play_cons fuel ev evs w :
  worker.play clock_now body OnErrorEmpty OnCompletedEmpty fuel (ev :: evs) w
  = do w <- host_step fuel ev w;
    worker.play clock_now body OnErrorEmpty OnCompletedEmpty fuel evs w.
Proof. by destruct ev. Qed.

Lemma frame_registered s :
  plugged s -> registered (source s) = true -> frame s = update OfEventArgs s.
Proof. intros Hp Hr. unfold frame. rewrite Hp, Hr. simpl. by rewrite and_then_Ret_r. Qed.

Lemma step_of_host fuel ev s :
  wired fuel s -> plugged s -> registered (source s) = true -> alive s ->
  step (of_host ev) s
  = outcome_map (set_inner s) (unwinding (host_step fuel ev (inner s)) (on_the_way ev s)).
Proof.
  intros Hw Hp Hr Ha. destruct ev as [|c]; simpl.
  - rewrite frame_registered by done. by apply update_wired.
  - by destruct (exec clock_now c (inner s)).
Qed.

Lemma play_of_host_same evs s : holds (same_adapter s) (play (map of_host evs) s).
Proof.
  revert s. induction evs as [|ev evs IH]; intros s; [done|].
  cbn [map play]. eapply (holds_and_then (same_adapter s)); [| |done].
  - destruct ev; simpl; [apply notify_listeners_same|].
    unfold holds. by rewrite final_outcome_map.
  - intros s1 [H1 H2]. eapply holds_impl; [apply IH|].
    intros s2 [H3 H4]. split; congruence.
Qed.

(** A subject that lives at the end of a history lived at its start. *)
Lemma alive_before fuel evs s :
  wired fuel s -> plugged s -> idle (inner s) ->
  alive (final (play (map of_host evs) s)) -> alive s.
Proof.
  intros Hw Hp Hi. unfold alive.
  pose proof (sound_holds _ _ (play_behind fuel (map of_host evs) s Hw Hp Hi))
    as [[Hs%steps_narrows _] _].
  destruct (play_of_host_same evs s) as [-> _]. intros Ha.
  destruct (cs_is_subscribed _ (inner s)) eqn:Hd; [done|].
  eapply (narrows_dead (W:=world)) in Hd; [|exact Hs]. congruence.
Qed.

(** Behind its adapter the worker has the histories it has alone: as
    long as the subject of the adapter lives, frames of the host and calls
    of clients end as the frame callback and the calls end, in the same
    world, by return, by an exception of a call or by a fault. *)
Lemma play_of_host fuel evs s :
  wired fuel s -> listening s = Nat.b2n (registered (source s)) ->
  registered (source s) = true -> worker.idle (inner s) ->
  cs_is_subscribed (dest_updates (source (final (play (map of_host evs) s))))
    (inner (final (play (map of_host evs) s))) = true ->
  outcome_map inner (play (map of_host evs) s)
  = worker.play clock_now body OnErrorEmpty OnCompletedEmpty fuel evs (inner s).
Proof.
  revert s. induction evs as [|ev evs IH]; intros s Hw Hp Hr Hi Ha; [done|].
  pose proof (alive_before fuel (ev :: evs) s Hw Hp Hi Ha) as Hl.
  pose proof (step_behind fuel (of_host ev) s Hw Hp Hi) as Hb.
  rewrite worker_play_cons. cbn [map play] in *. rewrite (step_of_host fuel) in * by done.
  destruct (host_step fuel ev (inner s)) as [w1|w1|f w1]; simpl in *;
    [|destruct ev; [|done]|done].
  - destruct Hb as (Hr1 & Hw1 & Hp1). apply IH; [done..|by eapply reaches_idle|done].
  - simpl in Ha. by rewrite cs_unsubscribe_off in Ha.
Qed.

Lemma construct_plugged fuel cs w : plugged (construct fuel cs w).
Proof.
  unfold construct, create. destruct (cs_create _) as [l w2].
  unfold subscribe, plugged. by repeat case_match.
Qed.

(** ** Theorems *)

(** Every history of a worker behind its adapter is a sequence of the
    transitions of the worker, and leaves the adapter in order: what holds
    of every sequence of transitions holds behind the adapter. *)
Theorem adapter_refines_transitions fuel cs w evs :
  cs_is_subscribed cs w = true ->
  sound (fun s' => reaches (inner (construct fuel cs w)) (inner s') /\
                   wired fuel s' /\ plugged s')
    (play evs (construct fuel cs w)).
Proof.
  intros Hcs. destruct (construct_spec fuel cs w Hcs) as (Hw & Hp & _ & _ & _ & Hi & _).
  by apply play_behind.
Qed.

(** Behind the adapter no action runs before it is due, nor under a
    token that had been cancelled when the worker was made. *)
Theorem behind_adapter_runs_are_due_and_live fuel cs w evs :
  cs_is_subscribed cs w = true ->
  holds (fun s' => Forall (run_ok (inner (construct fuel cs w)))
                     (new_runs (inner (construct fuel cs w)) (inner s')))
    (play evs (construct fuel cs w)).
Proof.
  intros Hcs.
  pose proof (construct_spec fuel cs w Hcs) as (Hw & Hp & _ & _ & _ & Hi & _).
  eapply holds_impl; [exact (sound_holds _ _ (play_behind fuel evs _ Hw Hp Hi))|].
  intros s' [[Hst _] _]. by eapply steps_new_runs.
Qed.

(** A cleared adapter passes no frame on: until [setup()] is called
    again, nothing runs. *)
Theorem cleared_adapter_is_silent evs s :
  forallb not_setup evs = true ->
  listening s = Nat.b2n (registered (source s)) ->
  holds (fun s' => ran (inner s') = ran (inner s)) (play evs (clear s)).
Proof.
  intros Hevs Hp. eapply holds_impl; [apply play_cleared; try done|done].
  by apply clear_plugged.
Qed.

(** C19. An exception of an action is the end of the worker and of its
    adapter: when a frame of the host ends by an exception, the lifetime of
    the worker and the lifetime of the adapter's subject have both ended,
    and no later frame reaches the worker, whatever the host's event holds. *)
Theorem exception_ends_adapter fuel s s' :
  wired fuel s -> listening s = Nat.b2n (registered (source s)) ->
  worker.idle (inner s) ->
  frame s = Throw s' ->
  cs_is_subscribed (lifetime (state (inner s'))) (inner s') = false /\
  cs_is_subscribed (dest_updates (source s')) (inner s') = false /\
  forall n, notify_listeners n s' = Ret s'.
Proof.
  intros Hw Hp Hi. unfold frame. rewrite Hp.
  destruct (registered (source s)); [|done]. simpl. rewrite and_then_Ret_r.
  intros (_ & Hd & Hl)%(update_throws fuel); [|done..].
  split_and!; [done..|]. intros n. by apply notify_listeners_ended.
Qed.

End worker_adapter.

Arguments event : clear implicits.

End updates.

(** ** A worker behind its adapter

    The worker of [Worker.example], made by its constructor and driven by
    the update event of the host. *)
Module updates_example.
Import worker updates.

Abbreviation system := (updates.system example.world unit).
Abbreviation event := (updates.event nat).

Definition construct : system :=
  updates.construct example.clock example.program
    example.OnErrorEmpty example.OnCompletedEmpty 9 0 example.w0.

Definition play : list event -> system -> outcome system :=
  updates.play example.clock example.OnErrorEmpty example.OnCompletedEmpty.

(** [X] is scheduled for 100 and [Y] for 50. *)
Definition scheduling : list event :=
  [Do (ScheduleAt 100 example.X); Do (ScheduleAt 50 example.Y)].

(** The readings of the clock when the actions ran. *)
Definition run_times (m : outcome system) : list time :=
  map run_at (ran (inner (final m))).

(** The frames of section 8 of the specification, through the adapter: at
    40 nothing runs, at 60 [Y] runs, at 150 [X] runs.  A second [setup()]
    changes nothing; after [clear()] the frames pass the worker by, and
    after the next [setup()] they reach it again (the clock of the example
    is read by the worker, so a frame that passes it by reads nothing). *)
Example frames_through_the_adapter :
  run_times (play (scheduling ++ [Tick; Tick; Tick]) construct) = [60; 150]%Z /\
  run_times (play (Setup :: scheduling ++ [Tick; Tick; Tick]) construct) = [60; 150]%Z /\
  run_times (play (Clear :: scheduling ++ [Tick; Tick; Tick]) construct) = [] /\
  run_times (play (Clear :: scheduling ++ [Tick; Setup; Tick; Tick]) construct)
  = [60]%Z.
Proof. by vm_compute. Qed.

Lemma construct_live : cs_is_subscribed 0 example.w0 = true.
Proof. by vm_compute. Qed.

Lemma adapter_refines_transitions_witness :
  sound (fun s' => reaches example.clock any_push (inner construct) (inner s') /\
                   wired example.clock example.program example.OnErrorEmpty
                     example.OnCompletedEmpty 9 s' /\
                   plugged s')
    (play (scheduling ++ [Tick; Clear; Tick; Setup; Tick]) construct).
Proof. apply adapter_refines_transitions, construct_live. Defined.

Lemma behind_adapter_runs_are_due_and_live_witness :
  holds (fun s' => Forall (run_ok (inner construct))
                     (new_runs (inner construct) (inner s')))
    (play (scheduling ++ [Tick; Tick; Tick]) construct).
Proof. apply behind_adapter_runs_are_due_and_live, construct_live. Defined.

(** [failing], whose action throws, is due at the first frame. *)
Definition s_fx : system := final (play [Do (ScheduleAt 0 example.failing)] construct).
Definition s_failed : system :=
  final (frame example.OnErrorEmpty example.OnCompletedEmpty s_fx).

Lemma s_fx_behind :
  behind example.clock example.program example.OnErrorEmpty example.OnCompletedEmpty
    9 construct s_fx.
Proof.
  destruct (construct_spec example.clock example.program example.OnErrorEmpty
              example.OnCompletedEmpty 9 0 example.w0 construct_live)
    as (Hw & Hp & _ & _ & _ & Hi & _).
  exact (sound_holds _ _ (play_behind _ _ _ _ 9 [Do (ScheduleAt 0 example.failing)]
                            _ Hw Hp Hi)).
Qed.

Lemma exception_ends_adapter_witness :
  cs_is_subscribed (lifetime (state (inner s_failed))) (inner s_failed) = false /\
  cs_is_subscribed (dest_updates (source s_failed)) (inner s_failed) = false /\
  forall n, notify_listeners example.OnErrorEmpty example.OnCompletedEmpty n s_failed
            = Ret s_failed.
Proof.
  apply (exception_ends_adapter example.clock example.program example.OnErrorEmpty
           example.OnCompletedEmpty 9 s_fx s_failed);
    [apply s_fx_behind|by vm_compute|by vm_compute|apply thrown_final; by vm_compute].
Defined.

(** After the frame in which [failing] throws, [X], scheduled for 100, is
    in the queue and never runs. *)
Example frames_after_an_exception :
  thrown (play [Tick] s_fx) = true /\
  run_times (play [Do (ScheduleAt 100 example.X); Tick; Tick; Tick] s_failed) = [40]%Z.
Proof. by vm_compute. Qed.

Lemma cleared_adapter_is_silent_witness :
  holds (fun s' => ran (inner s') = ran (inner construct))
    (play (scheduling ++ [Tick; Tick; Tick]) (clear construct)).
Proof.
  apply cleared_adapter_is_silent; [reflexivity|].
  apply construct_plugged.
Defined.

End updates_example.
