(* ===== verification/Threads.v ===== *)
(** * Threads: the frame callback among the threads of the clients

    Model of the frame callback of [update::worker_type]
    ([src/libs/ofxRx/includes/ofxRxUpdates.h], lines 92-113) as the steps of
    one thread, the thread of the host, with the calls of other threads
    between them.  [Worker] runs the callback in one piece; here it is cut
    where another thread can get in: a thread that schedules needs the
    mutex and waits while the callback holds it, a thread that unsubscribes
    a token needs nothing and can run between any two statements that read
    tokens.  A call of a client is one step here; [Clients] cuts the calls
    as well.

    - Module [threads]: [pc] is where the host thread is; [host] is its next
      step; [client] is a call from another thread; [run] runs a schedule,
      a list of labels that says whose turn it is.  The mutex is the flag
      of [Worker]: a client that schedules while the flag is set ends in the
      fault [Deadlock], which here reads "this thread waits".
    - The theorems: the host thread alone does what [Worker.worker.on_tick]
      does; the host never waits for the mutex and holds it for at most two
      steps; under every schedule no action runs before its time or under a
      token that was cancelled before the schedule began, and the actions
      run in the order of their due times when nobody schedules into the
      past; an action whose token is cancelled between the test of the
      token and the call runs all the same. *)

From stdpp Require Import base list sorting.
From S2P Require Import Prelude Lifetime Subscriber Queue Worker.

Module threads.
Import worker.
Section threads.
Context {L Q U E : Type}.
Context `{!LifetimeOps L, !Lifetimes L, !SchedQueueOps Q, !SchedQueue Q}.
#[local] Abbreviation world := (worker.world L Q U).
#[local] Abbreviation cmd := (worker.cmd U).
Context (clock_now : nat -> time) (body : nat -> list cmd).

(** Where the thread of the host is. *)
Inductive pc : Type :=
| Outside                    (* not in the frame callback *)
| Head                       (* at [for(;;)] *)
| Locked                     (* past the test of line 96, the mutex held *)
| Checked (peek : item)      (* past the test of line 100, the mutex held *)
| Running (cs : list cmd).   (* in [what(...)], these commands left *)

Record t : Type := Machine {
  at_pc : pc;
  mem : world;
}.

(** A call on the world, seen from the machine: [p] is where the host
    thread is when the call does not return. *)
Definition at_return (p : pc) (m : outcome world) (k : world -> outcome t) : outcome t :=
  match m with
  | Ret w => k w
  | Throw w => Throw (Machine p w)
  | Fault f w => Fault f (Machine p w)
  end.

(** The tick source calls [on_next] of the subscriber of the callback, which
    passes the call on while the lifetime of the worker is subscribed. *)
Definition enter (w : world) : t :=
  Machine (if cs_is_subscribed (lifetime (state w)) w then Head else Outside) w.

(** Lines 95 to 98: the mutex is taken and the queue and the lifetime
    tested. *)
Definition lock_and_test (w : world) : outcome t :=
  at_return Head (acquire w) (fun w =>
    if q_empty (queue (state w)) || negb (cs_is_subscribed (lifetime (state w)) w)
    then Ret (Machine Outside (release w))
    else Ret (Machine Locked w)).

(** Lines 99 to 103: the token of the item in front is tested. *)
Definition inspect (w : world) : t :=
  match q_top (queue (state w)) with
  | None => Machine Outside (release w)
  | Some peek =>
      if negb (cs_is_subscribed (sched_lifetime (what peek)) w)
      then Machine Head (release (set_queue (q_pop (queue (state w))) w))
      else Machine (Checked peek) w
  end.

(** Lines 104 to 110: the clock is read; an item that is due is popped and
    the mutex released; line 111 then calls its action. *)
Definition call (peek : item) (w : world) : t :=
  let '(t, w) := now clock_now w in
  if (t <? when peek)%Z then Machine Outside (release w)
  else
    let w := set_queue (q_pop (queue (state w))) w in
    let w := set_r (recursion.reset (q_empty (queue (state w))) (r (state w))) w in
    let w := release w in
    Machine (Running (body (sched_action (what peek)))) (log_run peek t w).

(** One command of the action.  An exception leaves the callback through
    the subscriber, whose detacher ends the lifetime of the worker. *)
Definition command (c : cmd) (cs : list cmd) (w : world) : outcome t :=
  match exec clock_now c w with
  | Ret w => Ret (Machine (Running cs) w)
  | Throw w => Throw (Machine Outside (cs_unsubscribe (lifetime (state w)) w))
  | Fault f w => Fault f (Machine (Running (c :: cs)) w)
  end.

(** The next step of the host thread. *)
Definition host (m : t) : outcome t :=
  match at_pc m with
  | Outside => Ret (enter (mem m))
  | Head => lock_and_test (mem m)
  | Locked => Ret (inspect (mem m))
  | Checked peek => Ret (call peek (mem m))
  | Running [] => Ret (Machine Head (mem m))
  | Running (c :: cs) => command c cs (mem m)
  end.

(** A call from another thread: the host thread stays where it is. *)
Definition client (c : cmd) (m : t) : outcome t :=
  outcome_map (Machine (at_pc m)) (exec clock_now c (mem m)).

(** Whose turn it is. *)
Inductive label : Type :=
| Host
| Client (c : cmd).

Definition step (l : label) (m : t) : outcome t :=
  match l with
  | Host => host m
  | Client c => client c m
  end.

Fixpoint run (ls : list label) (m : t) : outcome t :=
  match ls with
  | [] => Ret m
  | l :: ls => do m <- step l m; run ls m
  end.

(** The callback holds the mutex. *)
Definition held (p : pc) : bool :=
  match p with
  | Locked | Checked _ => true
  | _ => false
  end.

End threads.
Arguments pc : clear implicits.
Arguments t : clear implicits.
Arguments label : clear implicits.

(** ** Theorems *)

Section threads_facts.
Context {L Q U E : Type}.
Context `{!LifetimeOps L, !Lifetimes L, !SchedQueueOps Q, !SchedQueue Q}.
#[local] Abbreviation world := (worker.world L Q U).
#[local] Abbreviation cmd := (worker.cmd U).
#[local] Abbreviation machine := (t L Q U).
Context (clock_now : nat -> time) (body : nat -> list cmd).
Context (OnErrorEmpty : E -> world -> outcome world)
        (OnCompletedEmpty : world -> outcome world).
Implicit Types (w : world) (m : machine) (c : cmd) (p : pc U) (ls : list (label U)).

#[local] Abbreviation host := (host clock_now body).
#[local] Abbreviation client := (client clock_now).
#[local] Abbreviation step := (step clock_now body).
#[local] Abbreviation run := (run clock_now body).

(** *** Schedules *)

Lemma run_app ls1 ls2 m : run (ls1 ++ ls2) m = do m <- run ls1 m; run ls2 m.
Proof.
  revert m. induction ls1 as [|l ls1 IH]; intros m; simpl; [done|].
  destruct (step l m); simpl; by rewrite ?IH.
Qed.

Lemma run_hosts n k m : run (replicate (n + k) Host) m
                        = do m <- run (replicate n Host) m; run (replicate k Host) m.
Proof. by rewrite replicate_add, run_app. Qed.

(** *** What a command does to any world, the mutex held or not *)

(** [kept w w']: no token has come back, the history, the lifetime of the
    worker and the flag of the mutex are the same, and so is the queue when
    the mutex is held. *)
Definition kept (w w' : world) : Prop :=
  narrows w' w /\ ran w' = ran w /\ lifetime (state w') = lifetime (state w) /\
  lock (state w') = lock (state w) /\
  (lock (state w) = true -> queue (state w') = queue (state w)).

Lemma kept_refl w : kept w w.
Proof. by split_and!. Qed.

Lemma schedule_at_kept at_ scbl w : holds (kept w) (schedule_at at_ scbl w).
Proof.
  unfold schedule_at, acquire. destruct (cs_is_subscribed _ _); [|apply kept_refl].
  destruct (lock (state w)) eqn:Hl; simpl; [apply kept_refl|].
  unfold holds, kept. simpl. split_and!; [by intros u|done..|by rewrite Hl].
Qed.

Lemma exec_kept c w : holds (kept w) (exec clock_now c w).
Proof.
  destruct c as [f|scbl|at_ scbl|tok| |f th]; simpl.
  - unfold holds, kept. simpl. by split_and!; [intros u|..].
  - unfold schedule, now. eapply holds_impl; [apply schedule_at_kept|].
    intros w' (Hn & Hr & Hl & Hk & Hq). split_and!; try done.
  - apply schedule_at_kept.
  - change (kept w (cs_unsubscribe tok w)).
    split_and!; [apply (cs_unsubscribe_narrows (W:=world))|done..].
  - apply kept_refl.
  - unfold holds, kept. destruct (th (user w)); simpl; by split_and!; [intros u|..].
Qed.

(** The queue stays in the order of the due times, whoever holds the
    mutex. *)
Definition in_line (w : world) : Prop := ordered (q_items (queue (state w))).

Lemma exec_in_line c w : in_line w -> holds in_line (exec clock_now c w).
Proof.
  unfold in_line, holds. intros Ho.
  destruct c as [f|scbl|at_ scbl|tok| |f th];
    [done| | |done|done|by simpl; destruct (th (user w))];
    unfold exec, schedule, now, schedule_at, acquire; simpl;
    (destruct (cs_is_subscribed _ _); simpl; [|done]);
    (destruct (lock (state w)); simpl; [done|by apply q_push_ordered]).
Qed.

Lemma host_in_line m : in_line (mem m) -> holds (fun m' => in_line (mem m')) (host m).
Proof.
  destruct m as [p w]. unfold in_line, holds, threads.host. simpl. intros Ho.
  destruct p as [| | |peek|[|c cs]]; simpl.
  - done.
  - unfold lock_and_test, acquire. destruct (lock (state w)); simpl; [done|by case_match].
  - unfold inspect. repeat case_match; simpl; try done. by apply q_pop_ordered.
  - unfold call, now. simpl. case_match; simpl; [done|by apply q_pop_ordered].
  - done.
  - unfold command. pose proof (exec_in_line c w Ho) as Hc. unfold in_line, holds in Hc.
    by destruct (exec clock_now c w).
Qed.

(** A step of the host thread records a run when it takes the item it has
    tested, and then only. *)
Lemma host_ran m :
  holds (fun m' =>
    ran (mem m') = ran (mem m) \/
    exists peek, at_pc m = Checked peek /\
      (clock_now (reads (mem m)) <? when peek)%Z = false /\
      ran (mem m') = ran (mem m) ++ [Run peek (clock_now (reads (mem m)))]) (host m).
Proof.
  destruct m as [p w]. unfold holds, threads.host. simpl.
  destruct p as [| | |peek|[|c cs]]; simpl; [by left| | | |by left|].
  - unfold lock_and_test, acquire. destruct (lock (state w)); simpl; [by left|].
    case_match; by left.
  - unfold inspect. repeat case_match; by left.
  - unfold call, now. simpl. destruct (_ <? _)%Z eqn:Hd; simpl; [by left|].
    right. by exists peek.
  - unfold command. pose proof (exec_kept c w) as (_ & Hr & _). unfold holds in Hr.
    destruct (exec clock_now c w); by left.
Qed.

(** A thread that schedules under a live token while the callback holds the
    mutex waits. *)
Lemma schedule_at_waits at_ scbl w :
  lock (state w) = true -> live scbl w = true ->
  schedule_at at_ scbl w = Fault Deadlock w.
Proof.
  intros Hl Hs. unfold schedule_at, acquire. unfold live in Hs. simpl in Hs.
  by rewrite Hs, Hl.
Qed.

(** *** The mutex *)

(** The flag of the mutex says where the host thread is. *)
Definition consistent m : Prop := lock (state (mem m)) = held (at_pc m).

Lemma exec_lands c w : idle w -> lands_in idle (exec clock_now c w).
Proof.
  intros Hi. eapply lands_in_impl.
  - apply (exec_steps clock_now any_push); [apply allowed_any|done].
  - by intros w' [_ ?].
Qed.

Lemma host_lands m : consistent m -> lands_in consistent (host m).
Proof.
  destruct m as [p w]. unfold consistent, threads.host. simpl.
  destruct p as [| | |peek|[|c cs]]; simpl; intros Hl.
  - unfold enter. by destruct (cs_is_subscribed _ _).
  - unfold lock_and_test, acquire. rewrite Hl. simpl. by case_match.
  - unfold inspect. repeat case_match; by simpl.
  - unfold call, now. simpl. by case_match.
  - done.
  - unfold command. pose proof (exec_lands c w Hl) as [Hla Hi].
    destruct (exec clock_now c w); simpl in *; [done| |done].
    split; [done|]. unfold holds. simpl.
    pose proof (cs_unsubscribe_narrows (W:=world)) as _. by unfold idle in Hi.
Qed.

Lemma client_lands c m :
  consistent m -> held (at_pc m) = false -> lands_in consistent (client c m).
Proof.
  destruct m as [p w]. unfold consistent, threads.client. simpl. intros Hl Hp.
  rewrite Hp in Hl. pose proof (exec_lands c w Hl) as [Hla Hi].
  destruct (exec clock_now c w); simpl in *; try done; split; try done;
    unfold holds; simpl; by rewrite Hp.
Qed.

Lemma client_consistent c m : consistent m -> holds consistent (client c m).
Proof.
  destruct m as [p w]. unfold consistent, threads.client. simpl. intros Hl.
  pose proof (exec_kept c w) as Hk. unfold holds in *.
  rewrite final_outcome_map. simpl. destruct Hk as (_ & _ & _ & -> & _). done.
Qed.

(** The host thread never waits and holds the mutex for two steps at most:
    whatever has happened, the callback takes the mutex when it asks for
    it, and having taken it gives it back within two steps. *)
Lemma call_releases peek w : held (at_pc (call clock_now body peek w)) = false.
Proof. unfold call, now. simpl. by case_match. Qed.

Lemma inspect_next w :
  held (at_pc (inspect w)) = false \/ exists peek, at_pc (inspect w) = Checked peek.
Proof. unfold inspect. repeat case_match; simpl; eauto. Qed.

Lemma held_briefly m :
  consistent m -> held (at_pc m) = true ->
  exists n m', n <= 2 /\ run (replicate n Host) m = Ret m' /\ held (at_pc m') = false.
Proof.
  destruct m as [p w]. intros Hc Hp. destruct p as [| | |peek|cs]; try done.
  - destruct (inspect_next w) as [Hf|[peek Hpk]].
    + exists 1, (inspect w). by split_and!; [lia|..].
    + exists 2, (call clock_now body peek (mem (inspect w))).
      split_and!; [lia| |apply call_releases].
      simpl. unfold threads.host at 1. by rewrite Hpk.
  - exists 1, (call clock_now body peek w). split_and!; [lia|done|apply call_releases].
Qed.

(** *** Safety under every schedule *)

(** The flag stays true to the place of the host thread under every
    schedule. *)
Lemma consistent_run ls m : consistent m -> holds consistent (run ls m).
Proof.
  revert m. induction ls as [|l ls IH]; intros m Hc; simpl; [done|].
  assert (holds consistent (step l m)) as Hl
    by (destruct l; [by apply host_lands|by apply client_consistent]).
  destruct (step l m); simpl; [by apply IH|done..].
Qed.

(** What a step of the host thread does to the flag, whoever holds the
    mutex: the flag changes as the place of the host thread does. *)
Definition one_if (b : bool) : nat := if b then 1 else 0.

Lemma host_mutex m :
  (held (at_pc m) = true -> lock (state (mem m)) = true) ->
  holds (fun m' => one_if (held (at_pc m')) + one_if (lock (state (mem m)))
                   = one_if (held (at_pc m)) + one_if (lock (state (mem m')))) (host m).
Proof.
  destruct m as [p w]. unfold holds, threads.host. simpl.
  destruct p as [| | |peek|[|c cs]]; simpl; intros Hl.
  - unfold enter. by destruct (cs_is_subscribed _ _).
  - unfold lock_and_test, acquire. destruct (lock (state w)) eqn:Hw; simpl; [by rewrite Hw|].
    by case_match.
  - specialize (Hl eq_refl). unfold inspect. repeat case_match; simpl; by rewrite ?Hl.
  - specialize (Hl eq_refl). unfold call, now. simpl. case_match; simpl; by rewrite ?Hl.
  - done.
  - unfold command. pose proof (exec_kept c w) as (_ & _ & _ & Hk & _). unfold holds in Hk.
    destruct (exec clock_now c w); simpl in *; by rewrite Hk.
Qed.

(** [safe w0 m]: no token has come back since [w0], the runs since [w0]
    were due and under tokens that were subscribed in [w0], and so is the
    item the callback has tested.  Nothing in it depends on the mutex. *)
Record safe (w0 : world) m : Prop := Safe {
  safe_narrows : narrows (mem m) w0;
  safe_runs : exists ext, ran (mem m) = ran w0 ++ ext /\ Forall (run_ok w0) ext;
  safe_checked peek : at_pc m = Checked peek -> live (what peek) w0 = true;
}.

Lemma safe_start p w : (forall peek, p <> Checked peek) -> safe w (Machine p w).
Proof.
  intros Hp. split; [done| |by intros peek ?%Hp].
  exists []. by rewrite app_nil_r.
Qed.

(** A step that keeps the history, and does not test an item. *)
Lemma safe_kept w0 m p w' :
  safe w0 m -> narrows w' (mem m) -> ran w' = ran (mem m) ->
  (forall peek, p = Checked peek -> at_pc m = Checked peek) ->
  safe w0 (Machine p w').
Proof.
  intros [Hn Hr Hk] Hn' Hr' Hp. split; simpl.
  - by transitivity (mem m).
  - by rewrite Hr'.
  - intros peek Hpeek. by apply Hk, Hp.
Qed.

Lemma safe_unsubscribe w0 m tok p :
  safe w0 m -> (forall peek, p = Checked peek -> at_pc m = Checked peek) ->
  safe w0 (Machine p (cs_unsubscribe tok (mem m))).
Proof.
  intros Hs Hp. eapply safe_kept; [exact Hs| |done..].
  apply (cs_unsubscribe_narrows (W:=world)).
Qed.

(** The steps of the callback that touch the mutex, the queue and the
    clock. *)
Ltac safe_same Hs := eapply safe_kept; [exact Hs|by intros ?|done..].

Lemma safe_host w0 m : safe w0 m -> holds (safe w0) (host m).
Proof.
  intros Hs. pose proof Hs as [Hn Hr Hk].
  destruct m as [p w]. unfold holds, threads.host in *. simpl in *.
  destruct p as [| | |peek|[|c cs]]; simpl in *.
  - unfold enter. destruct (cs_is_subscribed _ _); safe_same Hs.
  - unfold lock_and_test, acquire in *. destruct (lock (state w)); simpl in *; [done|].
    case_match; simpl in *; safe_same Hs.
  - unfold inspect in *. destruct (q_top (queue (state w))) as [peek|] eqn:Ht; simpl in *;
      [|safe_same Hs].
    destruct (cs_is_subscribed (sched_lifetime (what peek)) (subs w)) eqn:Hl; simpl in *;
      [|safe_same Hs].
    split; [done..|]. simpl. intros ? [= <-]. by apply Hn.
  - unfold call, now in *. simpl in *.
    destruct (clock_now (reads w) <? when peek)%Z eqn:Hd; simpl in *; [safe_same Hs|].
    split; simpl; [by intros u Hu; apply Hn| |done].
    destruct Hr as (ext & -> & Hext). exists (ext ++ [Run peek (clock_now (reads w))]).
    rewrite app_assoc. split; [done|]. apply Forall_app. split; [done|].
    repeat constructor; [by apply Hk|simpl; lia].
  - safe_same Hs.
  - unfold command in *. pose proof (exec_kept c w) as (Hn' & Hr' & _).
    unfold holds in *.
    destruct (exec clock_now c w) as [w'|w'|f w']; simpl in *.
    + by eapply safe_kept; [exact Hs|..].
    + apply (safe_unsubscribe w0 (Machine Outside w') (lifetime (state w')) Outside);
        [|done]. by eapply safe_kept; [exact Hs|..].
    + by eapply safe_kept; [exact Hs|..].
Qed.

Lemma safe_client w0 c m : safe w0 m -> holds (safe w0) (client c m).
Proof.
  intros Hs. pose proof (exec_kept c (mem m)) as (Hn & Hr & _). unfold holds in *.
  unfold threads.client in *. rewrite final_outcome_map in *.
  by eapply safe_kept; [exact Hs|..].
Qed.

Lemma safe_run w0 ls m : safe w0 m -> holds (safe w0) (run ls m).
Proof.
  revert m. induction ls as [|l ls IH]; intros m Hs; simpl; [done|].
  assert (holds (safe w0) (step l m)) as Hl
    by (destruct l; [by apply safe_host|by apply safe_client]).
  destruct (step l m); simpl; [by apply IH|done..].
Qed.

(** Under every schedule of the host thread and the threads of clients,
    however their calls fall between the statements of the callback, no
    action runs before it is due, and none runs under a token that was
    cancelled before the schedule began. *)
Theorem interleaved_runs_are_due_and_live ls w :
  holds (fun m => Forall (run_ok w) (new_runs w (mem m))) (run ls (Machine Outside w)).
Proof.
  eapply holds_impl; [apply safe_run, (safe_start Outside); done|].
  intros m [_ (ext & Hr & Hext) _]. unfold new_runs. by rewrite Hr, drop_app_length.
Qed.

(** The mutex under every schedule: the host thread never waits for it;
    it holds it for two steps at most; and while it holds it a client that
    schedules under a live token waits. *)
Theorem mutex_excludes_and_is_held_briefly ls w m :
  idle w -> run ls (Machine Outside w) = Ret m ->
  lands (host m) /\
  (held (at_pc m) = true ->
   (exists n m', n <= 2 /\ run (replicate n Host) m = Ret m' /\ held (at_pc m') = false) /\
   forall at_ scbl, live scbl (mem m) = true ->
     client (ScheduleAt at_ scbl) m = Fault Deadlock m).
Proof.
  intros Hi Hrun.
  pose proof (consistent_run ls (Machine Outside w) Hi) as Hc. rewrite Hrun in Hc.
  split; [by apply (host_lands m)|]. intros Hh. split; [by apply held_briefly|].
  intros at_ scbl Hl. unfold threads.client. simpl.
  rewrite schedule_at_waits; [by destruct m|by rewrite Hc|done].
Qed.

(** *** The host thread alone *)

(** How the callback ends, seen from the machine. *)
Definition leave (m : outcome world) : outcome machine :=
  match m with
  | Ret w => Ret (Machine Outside w)
  | Throw w => Throw (Machine Outside (cs_unsubscribe (lifetime (state w)) w))
  | Fault f w => Fault f (Machine Outside w)
  end.

(** How an action ends. *)
Definition resume (m : outcome world) : outcome machine :=
  match m with
  | Ret w => Ret (Machine Head w)
  | Throw w => Throw (Machine Outside (cs_unsubscribe (lifetime (state w)) w))
  | Fault f w => Fault f (Machine Head w)
  end.

(** The world with the mutex taken, and given back. *)
Lemma locked_idle w : idle w -> acquire w = Ret (set_lock true w).
Proof. unfold acquire, idle. by intros ->. Qed.

Lemma call_locked peek w :
  idle w ->
  call clock_now body peek (set_lock true w)
  = if (clock_now (reads w) <? when peek)%Z then Machine Outside (tick_clock w)
    else Machine (Running (body (sched_action (what peek)))) (take clock_now peek w).
Proof.
  intros Hi. destruct w as [? [? [] ? ?] ? ? ?]; [done|].
  unfold call, now, take, tick_clock. simpl. by case_match.
Qed.

Lemma run_S n m :
  run (replicate (S n) Host) m = do m <- host m; run (replicate n Host) m.
Proof. done. Qed.

Lemma host_command c (cs : list cmd) w :
  host (Machine (Running (c :: cs)) w) = command clock_now c cs w.
Proof. done. Qed.

(** The commands of an action, one step each. *)
Lemma commands_run (cs : list cmd) w :
  idle w -> lands (exec_all clock_now cs w) ->
  exists n, run (replicate n Host) (Machine (Running cs) w)
            = resume (exec_all clock_now cs w).
Proof.
  revert w. induction cs as [|c cs IH]; intros w Hi Hl.
  - by exists 1.
  - cbn [exec_all] in Hl |- *. apply lands_and_then_inv in Hl as [Hc Hcs].
    pose proof (exec_lands c w Hi) as [_ Hi'].
    destruct (exec clock_now c w) as [w1|w1|] eqn:Hw; [| |done].
    + destruct (IH w1 Hi' (Hcs w1 eq_refl)) as [n Hn]. exists (S n).
      rewrite run_S, host_command. unfold command. rewrite Hw. cbn [and_then].
      by rewrite Hn.
    + exists 1. rewrite run_S, host_command. unfold command. by rewrite Hw.
Qed.

(** The steps of a round, on a world whose mutex was free. *)
Lemma host_head w :
  idle w ->
  host (Machine Head w)
  = if q_empty (queue (state w)) || negb (cs_is_subscribed (lifetime (state w)) w)
    then Ret (Machine Outside w) else Ret (Machine Locked (set_lock true w)).
Proof.
  intros Hi. destruct w as [? [? [] ? ?] ? ? ?]; [done|].
  unfold threads.host, lock_and_test, acquire. simpl. by case_match.
Qed.

Lemma host_locked w :
  idle w ->
  host (Machine Locked (set_lock true w))
  = Ret match q_top (queue (state w)) with
        | None => Machine Outside w
        | Some peek => if negb (live (what peek) w) then Machine Head (discard w)
                       else Machine (Checked peek) (set_lock true w)
        end.
Proof.
  intros Hi. destruct w as [? [? [] ? ?] ? ? ?]; [done|].
  unfold threads.host, inspect, live, discard. simpl. by repeat case_match.
Qed.

Lemma host_checked peek w :
  idle w ->
  host (Machine (Checked peek) (set_lock true w))
  = Ret (if (clock_now (reads w) <? when peek)%Z then Machine Outside (tick_clock w)
         else Machine (Running (body (sched_action (what peek)))) (take clock_now peek w)).
Proof. intros Hi. unfold threads.host. simpl. by rewrite call_locked. Qed.

(** A round up to the call of an action, in three steps. *)
Lemma round_run peek w :
  idle w ->
  q_empty (queue (state w)) || negb (cs_is_subscribed (lifetime (state w)) w) = false ->
  q_top (queue (state w)) = Some peek -> negb (live (what peek) w) = false ->
  (clock_now (reads w) <? when peek)%Z = false ->
  run (replicate 3 Host) (Machine Head w)
  = Ret (Machine (Running (body (sched_action (what peek)))) (take clock_now peek w)).
Proof.
  intros Hi He Ht Hl Hd. rewrite run_S, host_head, He by done. cbn [and_then].
  rewrite run_S, host_locked, Ht, Hl by done. cbn [and_then].
  by rewrite run_S, host_checked, Hd.
Qed.

(** The loop, round by round. *)
Lemma drain_run fuel w :
  idle w -> lands (drain clock_now body fuel w) ->
  exists n, run (replicate n Host) (Machine Head w) = leave (drain clock_now body fuel w).
Proof.
  revert w. induction fuel as [|fuel IH]; intros w Hi Hl; [done|].
  rewrite drain_S in Hl |- * by done.
  pose proof (host_head w Hi) as Hhead. pose proof (host_locked w Hi) as Hlocked.
  destruct (q_empty (queue (state w)) || negb (cs_is_subscribed (lifetime (state w)) w))
    eqn:He; [exists 1; by rewrite run_S, Hhead|].
  destruct (q_top (queue (state w))) as [peek|] eqn:Ht;
    [|exists 2; rewrite run_S, Hhead; cbn [and_then]; by rewrite run_S, Hlocked].
  destruct (negb (live (what peek) w)) eqn:Hlive.
  { destruct (IH (discard w)) as [n Hn]; [done..|]. exists (2 + n).
    rewrite run_hosts, run_S, Hhead. cbn [and_then]. rewrite run_S, Hlocked.
    cbn [and_then replicate threads.run]. done. }
  destruct (clock_now (reads w) <? when peek)%Z eqn:Hd.
  { exists 3. rewrite run_S, Hhead. cbn [and_then]. rewrite run_S, Hlocked.
    cbn [and_then]. by rewrite run_S, host_checked, Hd. }
  pose proof (round_run peek w Hi He Ht Hlive Hd) as Hgo.
  apply lands_and_then_inv in Hl as [Hinv Hrest].
  destruct (commands_run (body (sched_action (what peek))) (take clock_now peek w))
    as [n1 Hn1]; [done..|].
  fold (invoke clock_now body (what peek) (take clock_now peek w)) in Hn1.
  pose proof (exec_all_steps clock_now any_push
                (body (sched_action (what peek))) (take clock_now peek w)
                (allowed_any_all clock_now _) ltac:(done)) as [_ [_ Hi1]].
  fold (invoke clock_now body (what peek) (take clock_now peek w)) in Hi1.
  destruct (invoke clock_now body (what peek) (take clock_now peek w)) as [w1|w1|] eqn:Hw;
    [|exists (3 + n1); by rewrite run_hosts, Hgo|done].
  destruct (IH w1) as [n2 Hn2]; [done|by apply Hrest|].
  exists (3 + n1 + n2). rewrite run_hosts, run_hosts, Hgo. cbn [and_then].
  rewrite Hn1. simpl. by rewrite Hn2.
Qed.

Lemma host_outside w : host (Machine Outside w) = Ret (enter w).
Proof. done. Qed.

(** C33. The host thread alone does what the frame does: when no other thread
    runs, the steps of the callback, taken one after the other from outside
    the callback until it is left, end as
    [Worker.worker.on_tick] ends, in the same world, by return or by
    exception. *)
Theorem host_alone_is_the_frame fuel w :
  idle w -> lands (on_tick clock_now body OnErrorEmpty OnCompletedEmpty fuel w) ->
  exists n, run (replicate n Host) (Machine Outside w)
            = outcome_map (Machine Outside)
                (on_tick clock_now body OnErrorEmpty OnCompletedEmpty fuel w).
Proof.
  intros Hi Hl. destruct (cs_is_subscribed (lifetime (state w)) w) eqn:Hs;
    [unfold on_tick in *|].
  - rewrite on_next_live in Hl |- * by done. simpl in Hl |- *.
    apply lands_unwinding in Hl. destruct (drain_run fuel w Hi Hl) as [n Hn].
    exists (S n). rewrite run_S, host_outside. unfold enter. rewrite Hs.
    cbn [and_then]. rewrite Hn.
    pose proof (drain_steps clock_now body any_push (fun a => allowed_any_all clock_now _)
                  fuel w Hi) as Hd.
    destruct (drain clock_now body fuel w) as [w1|w1|]; simpl in *; [done| |done].
    destruct Hd as [Hd _]. by rewrite (steps_lifetime clock_now any_push w w1 Hd).
  - exists 1. rewrite run_S, host_outside. unfold enter. rewrite Hs.
    by rewrite on_tick_dead.
Qed.

(** When the host thread runs alone, an item that passed the test of its
    token is still under a live token when its action is called. *)
Lemma host_checked_live m :
  (forall peek, at_pc m = Checked peek -> live (what peek) (mem m) = true) ->
  exits (fun m' => forall peek, at_pc m' = Checked peek -> live (what peek) (mem m') = true)
    (host m).
Proof.
  destruct m as [p w]. unfold threads.host. simpl. intros Hk.
  destruct p as [| | |peek'|[|c cs]]; simpl.
  - unfold enter. by case_match.
  - unfold lock_and_test, acquire. case_match; simpl; [done|]. by case_match.
  - unfold inspect. repeat case_match; simpl; try done.
    intros ? [= <-]. unfold live. by destruct (cs_is_subscribed _ _).
  - unfold call, now. simpl. by case_match.
  - done.
  - unfold command. by case_match.
Qed.

Lemma hosts_checked_live n m :
  (forall peek, at_pc m = Checked peek -> live (what peek) (mem m) = true) ->
  exits (fun m' => forall peek, at_pc m' = Checked peek -> live (what peek) (mem m') = true)
    (run (replicate n Host) m).
Proof.
  revert m. induction n as [|n IH]; intros m Hm; [done|]. rewrite run_S.
  pose proof (host_checked_live m Hm) as Hh.
  destruct (host m); simpl in *; [by apply IH|done..].
Qed.

(** C14. A token cancelled between the test and the call.  The callback tests
    the token of the item in front, reads the clock, pops the item and
    calls its action.  When the host thread runs alone the token is still
    subscribed at the call.  But whatever schedule has brought the callback
    past the test, a thread that cancels the token then does not stop the
    call: the item is popped and its action begins under a token that is
    cancelled. *)
Theorem cancel_after_test_runs_anyway peek w :
  idle w ->
  (forall n m, run (replicate n Host) (Machine Outside w) = Ret m ->
     at_pc m = Checked peek -> live (what peek) (mem m) = true) /\
  forall ls w1,
    run ls (Machine Outside w) = Ret (Machine (Checked peek) w1) ->
    (when peek <= clock_now (reads w1))%Z ->
    exists w',
      run (ls ++ [Client (Unsubscribe (sched_lifetime (what peek))); Host]) (Machine Outside w)
      = Ret (Machine (Running (body (sched_action (what peek)))) w') /\
      live (what peek) w' = false /\
      ran w' = ran w1 ++ [Run peek (clock_now (reads w1))].
Proof.
  intros Hi. split.
  - intros n m Hm. pose proof (hosts_checked_live n (Machine Outside w) ltac:(done)) as Hh.
    rewrite Hm in Hh. apply Hh.
  - intros ls w1 Hls Hdue. eexists. rewrite run_app, Hls.
    cbn [threads.run threads.step and_then].
    unfold threads.client. cbn [exec outcome_map and_then at_pc mem].
    unfold threads.host. cbn [at_pc mem and_then]. unfold call, now.
    assert ((clock_now (reads w1) <? when peek)%Z = false) as Hnot by lia.
    cbn [reads]. split_and!.
    + simpl. rewrite Hnot. done.
    + unfold live. simpl. apply (cs_unsubscribe_off (W:=L)).
    + done.
Qed.

(** *** Due-time order under every schedule *)

Section due_order.
(** Time does not go back, and neither the actions nor the clients schedule
    for a time before "now". *)
Context (clock_mono : forall n, (clock_now n <= clock_now (S n))%Z).
Context (body_timely : forall a, forallb timely (body a) = true).

Definition timely_label (l : label U) : bool :=
  match l with
  | Host => true
  | Client c => timely c
  end.

(** What a command that schedules for "now" does to the runs served, the
    mutex held or not. *)
Lemma exec_served c w ext :
  timely c = true -> served clock_now ext w -> holds (served clock_now ext) (exec clock_now c w).
Proof.
  intros Hc Hs. unfold holds.
  destruct c as [f|scbl|at_ scbl|tok| |f th];
    [by apply (served_same clock_now ext w)| |done
    |by apply (served_same clock_now ext w)|done
    |by simpl; destruct (th (user w)); apply (served_same clock_now ext w)].
  simpl. unfold schedule, now, schedule_at, acquire. simpl.
  pose proof (served_tick clock_now clock_mono ext w Hs) as Ht.
  destruct (cs_is_subscribed _ _); [|done].
  destruct (lock (state w)); simpl; [done|].
  eapply served_same;
    [| |apply (served_push clock_now ext (Item (clock_now (reads w)) scbl) (tick_clock w))];
    [done|done| |done].
  split; simpl; lia.
Qed.

(** [in_order w0 m]: the runs since [w0] are in the order of their due
    times; the item the callback has tested is the one in front; the
    commands left of the running action schedule for "now".  Nothing in it
    depends on the mutex. *)
Record in_order (w0 : world) m : Prop := InOrder {
  order_served : exists ext, ran (mem m) = ran w0 ++ ext /\ served clock_now ext (mem m);
  order_checked peek :
    at_pc m = Checked peek -> q_top (queue (state (mem m))) = Some peek;
  order_running cs : at_pc m = Running cs -> forallb timely cs = true;
}.

(** A step that records no run. *)
Lemma in_order_step_since w0 m p w' :
  in_order w0 m -> ran w' = ran (mem m) ->
  (forall ext, ran (mem m) = ran w0 ++ ext ->
     served clock_now ext (mem m) -> served clock_now ext w') ->
  (forall peek, p = Checked peek -> q_top (queue (state w')) = Some peek) ->
  (forall cs, p = Running cs -> forallb timely cs = true) ->
  in_order w0 (Machine p w').
Proof.
  intros [(ext & Hr & Hs) Hk Hrun] Hr' Hs' Hk' Hrun'. split; simpl; try done.
  exists ext. split; [congruence|by apply Hs'].
Qed.

Lemma in_order_step w0 m p w' :
  in_order w0 m -> ran w' = ran (mem m) ->
  (forall ext, served clock_now ext (mem m) -> served clock_now ext w') ->
  (forall peek, p = Checked peek -> q_top (queue (state w')) = Some peek) ->
  (forall cs, p = Running cs -> forallb timely cs = true) ->
  in_order w0 (Machine p w').
Proof.
  intros Ho Hr Hs. apply (in_order_step_since w0 m); [done|done|]. intros ext _. apply Hs.
Qed.

Ltac order_same Hs :=
  eapply in_order_step;
  [exact Hs|done|intros ?; by apply served_same|by intros ? [=]|by intros ? [=]].

Lemma in_order_host w0 m : in_order w0 m -> holds (in_order w0) (host m).
Proof.
  intros Hs. pose proof Hs as [(ext & Hr & Hext) Hk Hrun].
  destruct m as [p w]. unfold holds, threads.host in *. simpl in *.
  destruct p as [| | |peek|[|c cs]]; simpl in *.
  - unfold enter. destruct (cs_is_subscribed _ _); order_same Hs.
  - unfold lock_and_test, acquire in *. destruct (lock (state w)); simpl in *;
      [order_same Hs|]. case_match; simpl in *; order_same Hs.
  - unfold inspect in *. destruct (q_top (queue (state w))) as [peek|] eqn:Ht; simpl in *;
      [|order_same Hs].
    destruct (cs_is_subscribed (sched_lifetime (what peek)) (subs w)) eqn:Hl; simpl in *.
    + eapply in_order_step; [exact Hs|done|done|by intros ? [= <-]|by intros ? [=]].
    + eapply in_order_step; [exact Hs|done| |by intros ? [=]|by intros ? [=]].
      intros ext' Hext'. eapply served_same; [| |by apply (served_discard clock_now ext' w)];
        done.
  - unfold call, now in *. simpl in *. specialize (Hk peek eq_refl).
    destruct (clock_now (reads w) <? when peek)%Z eqn:Hd; simpl in *.
    + eapply in_order_step; [exact Hs|done| |by intros ? [=]|by intros ? [=]].
      intros ext' Hext'. eapply served_same; [| |by apply (served_tick clock_now clock_mono ext' w)];
        done.
    + split; simpl; [|by intros ? [=]|by intros ? [= <-]].
      exists (ext ++ [Run peek (clock_now (reads w))]). rewrite Hr, app_assoc.
      split; [done|].
      eapply served_same; [| |apply (served_take clock_now ext peek w)]; [done..|lia|done].
  - order_same Hs.
  - unfold command in *. specialize (Hrun _ eq_refl). simpl in Hrun.
    apply andb_prop in Hrun as [Htc Htcs].
    pose proof (exec_kept c w) as (_ & Hr' & _).
    pose proof (fun ext' H => exec_served c w ext' Htc H) as Hserved.
    unfold holds in *.
    destruct (exec clock_now c w) as [w'|w'|f w']; simpl in *.
    + eapply in_order_step; [exact Hs|done|done|by intros ? [=]|by intros ? [= <-]].
    + eapply in_order_step; [exact Hs|done| |by intros ? [=]|by intros ? [=]].
      intros ext' Hext'. eapply served_same; [| |by apply Hserved]; done.
    + eapply in_order_step; [exact Hs|done|done|by intros ? [=]
                            |intros ? [= <-]; simpl; by rewrite Htc].
Qed.

Lemma in_order_client w0 c m :
  timely c = true -> consistent m -> in_order w0 m -> holds (in_order w0) (client c m).
Proof.
  intros Htc Hc Hs. pose proof Hs as [_ Hk Hrun].
  pose proof (exec_kept c (mem m)) as (_ & Hr & _ & _ & Hq).
  pose proof (fun ext' H => exec_served c (mem m) ext' Htc H) as Hserved.
  unfold holds, threads.client in *. rewrite final_outcome_map in *.
  eapply in_order_step; [exact Hs|done|done| |done].
  intros peek Hp. simpl in *. rewrite Hq; [by apply Hk|]. by rewrite Hc, Hp.
Qed.

Lemma in_order_run w0 ls m :
  forallb timely_label ls = true -> consistent m -> in_order w0 m ->
  holds (in_order w0) (run ls m).
Proof.
  revert m. induction ls as [|l ls IH]; intros m Hls Hc Hs; simpl; [done|].
  simpl in Hls. apply andb_prop in Hls as [Hl Hls].
  assert (holds (in_order w0) (step l m)) as Hstep
    by (destruct l; [by apply in_order_host|by apply in_order_client]).
  pose proof (consistent_run [l] m Hc) as Hc'. simpl in Hc'.
  destruct (step l m); simpl in *; [by apply IH|done..].
Qed.

(** Due-time order under every schedule: when the clock does not go back
    and neither the actions nor the clients schedule for a time before
    "now", the actions run in the order of their due times, however the
    calls of the clients fall between the statements of the callback.
    Each call is one step: [schedule(scbl)] reads the clock and pushes with
    no frame in between. *)
Theorem interleaved_runs_in_due_order ls w :
  forallb timely_label ls = true -> idle w -> ordered (q_items (queue (state w))) ->
  holds (fun m => StronglySorted due_before (new_runs w (mem m)))
    (run ls (Machine Outside w)).
Proof.
  intros Hls Hi Ho. eapply holds_impl; [apply (in_order_run w); [done|done|]|].
  - split; [|done..]. exists []. rewrite app_nil_r. split; [done|].
    by apply served_nil.
  - intros m [(ext & Hr & Hs & _) _ _]. unfold new_runs. by rewrite Hr, drop_app_length.
Qed.

End due_order.
End threads_facts.
End threads.

(** ** Two threads at work

    The worker of [Worker.example], with [X] scheduled for 100 and [Y] for
    50, frames at 40 and 60, and a thread that cancels the token of [Y]. *)
Module threads_example.
Import worker example.

Abbreviation machine := (threads.t composite_subscription.store schedulable_queue.t nat).

Definition run : list (threads.label nat) -> machine -> outcome machine :=
  threads.run clock program.

Definition hosts (n : nat) : list (threads.label nat) := replicate n threads.Host.

Definition cancel_Y : threads.label nat := threads.Client (Unsubscribe 2).

Definition start : machine := threads.Machine threads.Outside w_xy.

(** The first frame, at 40, takes four steps and runs nothing; three steps
    into the second the callback has tested the token of [Y]. *)
Definition m_locked : machine := Eval vm_compute in final (run (hosts 6) start).
Definition m_checked : machine := Eval vm_compute in final (run (hosts 7) start).

Example second_frame :
  map (fun n => threads.held (threads.at_pc (final (run (hosts n) start)))) [4; 5; 6; 7; 8]
  = [false; false; true; true; false] /\
  threads.at_pc m_checked = threads.Checked (Item 50 Y).
Proof. by vm_compute. Qed.

(** Cancelled before the test, [Y] is discarded; cancelled after it, [Y]
    runs and leaves its mark, under a token that is cancelled. *)
Example cancel_before_and_after_the_test :
  map (fun ls => (user (threads.mem (final (run ls start))),
                  cs_is_subscribed 2 (threads.mem (final (run ls start)))))
    [hosts 6 ++ [cancel_Y] ++ hosts 4; hosts 7 ++ [cancel_Y] ++ hosts 3]
  = [(0, false); (2, false)].
Proof. by vm_compute. Qed.

(** A thread that schedules during the critical section waits. *)
Example schedule_waits :
  run (hosts 6 ++ [threads.Client (ScheduleAt 70 X)]) start = Fault Deadlock m_locked /\
  threads.at_pc (final (run (hosts 8 ++ [threads.Client (ScheduleAt 70 X)]) start))
  = threads.Running (program 2).
Proof. by vm_compute. Qed.

Lemma interleaved_runs_are_due_and_live_witness :
  holds (fun m => Forall (run_ok w_xy) (new_runs w_xy (threads.mem m)))
    (run (hosts 7 ++ [cancel_Y] ++ hosts 3 ++ [threads.Client (ScheduleAt 0 X)] ++ hosts 9)
       start).
Proof.
  apply (threads.interleaved_runs_are_due_and_live clock program _ w_xy).
Defined.

Lemma interleaved_runs_in_due_order_witness :
  holds (fun m => StronglySorted due_before (new_runs w_xy (threads.mem m)))
    (run (hosts 7 ++ [cancel_Y] ++ hosts 3 ++ [threads.Client (Schedule X)] ++ hosts 9)
       start).
Proof.
  apply (threads.interleaved_runs_in_due_order clock program clock_monotone);
    [by intros [|[|[|[|[|a]]]]]|reflexivity|reflexivity|by vm_compute; repeat constructor].
Defined.

Lemma mutex_excludes_and_is_held_briefly_witness :
  lands (threads.host clock program m_locked) /\
  (threads.held (threads.at_pc m_locked) = true ->
   (exists n m', n <= 2 /\ run (hosts n) m_locked = Ret m' /\
                 threads.held (threads.at_pc m') = false) /\
   forall at_ scbl, live scbl (threads.mem m_locked) = true ->
     threads.client clock (ScheduleAt at_ scbl) m_locked = Fault Deadlock m_locked).
Proof.
  apply (threads.mutex_excludes_and_is_held_briefly clock program (hosts 6) w_xy m_locked);
    [reflexivity|by vm_compute].
Defined.

Lemma host_alone_is_the_frame_witness :
  exists n, run (hosts n) start
            = outcome_map (threads.Machine threads.Outside)
                (on_tick clock program OnErrorEmpty OnCompletedEmpty 9 w_xy).
Proof.
  apply (threads.host_alone_is_the_frame clock program OnErrorEmpty OnCompletedEmpty 9 w_xy);
    [reflexivity|by vm_compute].
Defined.

Lemma cancel_after_test_runs_anyway_witness :
  (forall n m, run (hosts n) start = Ret m ->
     threads.at_pc m = threads.Checked (Item 50 Y) -> live Y (threads.mem m) = true) /\
  forall ls w1,
    run ls start = Ret (threads.Machine (threads.Checked (Item 50 Y)) w1) ->
    (50 <= clock (reads w1))%Z ->
    exists w',
      run (ls ++ [cancel_Y; threads.Host]) start
      = Ret (threads.Machine (threads.Running (program 2)) w') /\
      live Y w' = false /\
      ran w' = ran w1 ++ [Run (Item 50 Y) (clock (reads w1))].
Proof.
  apply (threads.cancel_after_test_runs_anyway clock program (Item 50 Y) w_xy). reflexivity.
Defined.

End threads_example.
