(* ===== verification/Clients.v ===== *)
(** * Clients: the threads that call the worker

    [Threads] cuts the frame callback into the steps of the host thread and
    takes a call of a client in one piece.  Here the calls are cut as well:
    [worker_type::schedule] of [src/libs/ofxRx/includes/ofxRxUpdates.h]
    (lines 120-130) reads the clock, tests the token, takes the mutex and
    pushes the item, and another thread, the host among them, can run
    between any two of these.

    - Module [clients]: [cpc] is where a client thread is in a call; a
      [t] is the machine of [Threads] with one [cpc] per client thread;
      [begin] enters a call, [advance] takes its next statement; [run] runs
      a schedule of labels [Host], [Begin i c] and [Go i].  A thread that
      asks for a mutex that is held ends the schedule in the fault
      [Deadlock], which reads "this thread waits".
    - The theorems: at most one thread is between taking the mutex and
      giving it back, and the flag of the mutex says whether one is; who
      holds the mutex gives it back within two steps of its own; no action
      runs before its time or under a token that was cancelled before the
      schedule began, wherever the threads are cut; a call that no other
      thread cuts does what the call of [Threads] does, so that every
      schedule of [Threads] is one of this machine.  The order of due times
      is lost when a frame falls between the reading of the clock and the
      push of [schedule(scbl)] and runs a later item first, and is kept in
      every schedule where that does not happen. *)

From stdpp Require Import base list sorting.
From S2P Require Import Prelude Lifetime Subscriber Queue Worker Threads.

Module clients.
Import worker.
Section clients.
Context {L Q U E : Type}.
Context `{!LifetimeOps L, !Lifetimes L, !SchedQueueOps Q, !SchedQueue Q}.
#[local] Abbreviation world := (worker.world L Q U).
#[local] Abbreviation cmd := (worker.cmd U).
Context (clock_now : nat -> time) (body : nat -> list cmd).

(** Where a client thread is. *)
Inductive cpc : Type :=
| Away                                         (* not in a call on the worker *)
| Called (when_ : time) (scbl : schedulable)   (* in [schedule(when, scbl)], at line 125 *)
| Tested (when_ : time) (scbl : schedulable)   (* past the test, asking for the mutex *)
| Inside (when_ : time) (scbl : schedulable).  (* at line 127, the mutex held *)

(** The host thread with the memory, as in [Threads], and the client
    threads by number. *)
Record t : Type := Pool {
  host_side : threads.t L Q U;
  callers : list cpc;
}.

Definition mem (p : t) : world := threads.mem (host_side p).

(** A client thread makes a call.  [schedule(scbl)] reads the clock
    (line 121) and calls [schedule(when, scbl)] with the reading; the other
    commands are taken in one piece. *)
Definition begin (c : cmd) (w : world) : outcome (cpc * world) :=
  match c with
  | Schedule scbl => let '(t, w) := now clock_now w in Ret (Called t scbl, w)
  | ScheduleAt at_ scbl => Ret (Called at_ scbl, w)
  | _ => outcome_map (pair Away) (exec clock_now c w)
  end.

(** The next statement of [schedule(when, scbl)]: the test of the token
    (line 125); the guard of line 126, which waits for the mutex; the push,
    the reset of [r] and the end of the guard (lines 127 to 129). *)
Definition advance (c : cpc) (w : world) : outcome (cpc * world) :=
  match c with
  | Away => Ret (Away, w)
  | Called when_ scbl =>
      Ret (if cs_is_subscribed (sched_lifetime scbl) w then Tested when_ scbl else Away, w)
  | Tested when_ scbl =>
      match acquire w with
      | Ret w => Ret (Inside when_ scbl, w)
      | Throw w => Throw (c, w)
      | Fault f w => Fault f (c, w)
      end
  | Inside when_ scbl => Ret (Away, release (push_item (Item when_ scbl) w))
  end.

(** Thread [i] has taken a step: the host thread stays where it is. *)
Definition of_thread (i : nat) (p : t) (m : outcome (cpc * world)) : outcome t :=
  outcome_map
    (fun cw => Pool (threads.Machine (threads.at_pc (host_side p)) cw.2)
                 (<[i := cw.1]> (callers p))) m.

(** The next step of the host thread. *)
Definition host (p : t) : outcome t :=
  outcome_map (fun m => Pool m (callers p)) (threads.host clock_now body (host_side p)).

(** Whose turn it is: the host thread takes a step, thread [i] makes the
    call [c], thread [i] takes the next step of its call.  A thread makes
    one call at a time: [Begin] does nothing when the thread is in a call,
    and neither label does anything when there is no such thread. *)
Inductive label : Type :=
| Host
| Begin (i : nat) (c : cmd)
| Go (i : nat).

Definition step (l : label) (p : t) : outcome t :=
  match l with
  | Host => host p
  | Begin i c =>
      match callers p !! i with
      | Some Away => of_thread i p (begin c (mem p))
      | _ => Ret p
      end
  | Go i =>
      match callers p !! i with
      | Some c => of_thread i p (advance c (mem p))
      | None => Ret p
      end
  end.

Fixpoint run (ls : list label) (p : t) : outcome t :=
  match ls with
  | [] => Ret p
  | l :: ls => do p <- step l p; run ls p
  end.

(** The thread holds the mutex. *)
Definition inside (c : cpc) : bool :=
  match c with
  | Inside _ _ => true
  | _ => false
  end.

(** How many threads are between taking the mutex and giving it back. *)
Definition holders (p : t) : nat :=
  threads.one_if (threads.held (threads.at_pc (host_side p)))
  + length (filter (fun c => inside c = true) (callers p)).

(** The due time a thread in a call carries. *)
Definition carried (k : cpc) : option time :=
  match k with
  | Away => None
  | Called when_ _ | Tested when_ _ | Inside when_ _ => Some when_
  end.

(** No thread is in a call with a time before the due time of [peek]. *)
Definition none_earlier (peek : item) (ks : list cpc) : bool :=
  forallb (fun k => match carried k with
                    | Some when_ => (when peek <=? when_)%Z
                    | None => true
                    end) ks.

(** The step overtakes no call: the callback does not take an item while
    a thread is in a call with an earlier time, and no thread calls
    [schedule(when, scbl)] with a time of its own. *)
Definition unraced_step (l : label) (p : t) : bool :=
  match l with
  | Host =>
      match threads.at_pc (host_side p) with
      | threads.Checked peek =>
          (clock_now (reads (mem p)) <? when peek)%Z || none_earlier peek (callers p)
      | _ => true
      end
  | Begin _ c => timely c
  | Go _ => true
  end.

Fixpoint unraced (ls : list label) (p : t) : bool :=
  match ls with
  | [] => true
  | l :: ls =>
      unraced_step l p &&
      match step l p with
      | Ret p => unraced ls p
      | _ => true
      end
  end.

(** A call of [Threads], as the steps of thread 0. *)
Definition in_one_piece (l : threads.label U) : list label :=
  match l with
  | threads.Host => [Host]
  | threads.Client c => [Begin 0 c; Go 0; Go 0; Go 0]
  end.

End clients.

Arguments cpc : clear implicits.
Arguments t : clear implicits.
Arguments label : clear implicits.

(** ** Theorems *)

Section clients_facts.
Context {L Q U E : Type}.
Context `{!LifetimeOps L, !Lifetimes L, !SchedQueueOps Q, !SchedQueue Q}.
#[local] Abbreviation world := (worker.world L Q U).
#[local] Abbreviation cmd := (worker.cmd U).
#[local] Abbreviation pool := (t L Q U).
Context (clock_now : nat -> time) (body : nat -> list cmd).
Implicit Types (w : world) (p : pool) (c : cmd) (k : cpc) (ks : list cpc)
  (l : label U) (ls : list (label U)).

#[local] Abbreviation host := (host clock_now body).
#[local] Abbreviation step := (step clock_now body).
#[local] Abbreviation run := (run clock_now body).
#[local] Abbreviation begin := (begin clock_now).

(** *** Schedules *)

Lemma pool_run_app ls1 ls2 p : run (ls1 ++ ls2) p = do p <- run ls1 p; run ls2 p.
Proof.
  revert p. induction ls1 as [|l ls1 IH]; intros p; simpl; [done|].
  destruct (step l p); simpl; by rewrite ?IH.
Qed.

(** The host thread alone steps as in [Threads]. *)
Lemma pool_run_hosts n p :
  run (replicate n Host) p
  = outcome_map (fun m => Pool m (callers p))
      (threads.run clock_now body (replicate n threads.Host) (host_side p)).
Proof.
  revert p. induction n as [|n IH]; intros [m ks]; simpl; [done|].
  unfold clients.host. simpl. destruct (threads.host clock_now body m); simpl; [|done..].
  by rewrite IH.
Qed.

(** An invariant of the steps is an invariant of the schedules. *)
Lemma run_invariant (P : pool -> Prop) ls p :
  (forall l p, P p -> holds P (step l p)) -> P p -> holds P (run ls p).
Proof.
  intros HP. revert p. induction ls as [|l ls IH]; intros p Hp; simpl; [done|].
  pose proof (HP l p Hp) as Hl. destruct (step l p); simpl; [by apply IH|done..].
Qed.

(** *** What a step of a client does to the memory *)

(** [quiet w w']: no token has come back and nothing has run. *)
Definition quiet (w w' : world) : Prop := narrows w' w /\ ran w' = ran w.

Lemma begin_quiet c w : holds (fun kw => quiet w kw.2) (begin c w).
Proof.
  pose proof (threads.exec_kept clock_now c w) as (Hn & Hr & _). unfold holds in *.
  destruct c as [f|scbl|at_ scbl|tok| |f th]; simpl in *;
    try destruct (th (user w)); simpl in *;
    (split; [first [exact Hn|by intros u]|done]).
Qed.

Lemma advance_quiet k w : holds (fun kw => quiet w kw.2) (advance k w).
Proof.
  destruct k as [|at_ scbl|at_ scbl|at_ scbl]; unfold holds; simpl; try (by split).
  - unfold acquire. destruct (lock (state w)); simpl; (split; [by intros u|done]).
  - split; [by intros u|done].
Qed.

(** A call begins outside the critical section and leaves the flag of the
    mutex as it was. *)
Lemma begin_mutex c w :
  holds (fun kw => inside kw.1 = false /\ lock (state kw.2) = lock (state w)) (begin c w).
Proof.
  pose proof (threads.exec_kept clock_now c w) as (_ & _ & _ & Hl & _). unfold holds in *.
  destruct c as [f|scbl|at_ scbl|tok| |f th]; simpl in *; try done.
  by destruct (th (user w)).
Qed.

(** The flag changes as the place of the thread does. *)
Lemma advance_mutex k w :
  (inside k = true -> lock (state w) = true) ->
  holds (fun kw => threads.one_if (inside kw.1) + threads.one_if (lock (state w))
                   = threads.one_if (inside k) + threads.one_if (lock (state kw.2)))
    (advance k w).
Proof.
  destruct k as [|at_ scbl|at_ scbl|at_ scbl]; unfold holds; simpl; intros Hl; try done.
  - by case_match.
  - unfold acquire. by destruct (lock (state w)) eqn:Hw; simpl; rewrite ?Hw.
  - by rewrite Hl.
Qed.

(** *** One thread at a time *)

(** The threads of [ks] that hold the mutex. *)
Definition crowd ks : nat := length (filter (fun k => inside k = true) ks).

Lemma crowd_insert ks i k k' :
  ks !! i = Some k ->
  crowd (<[i := k']> ks) + threads.one_if (inside k)
  = crowd ks + threads.one_if (inside k').
Proof.
  unfold crowd. revert i. induction ks as [|k0 ks IH]; intros [|i] Hi; simplify_eq/=.
  - rewrite !filter_cons. destruct (inside k), (inside k'); simpl; lia.
  - rewrite !filter_cons. specialize (IH i Hi). destruct (inside k0); simpl; lia.
Qed.

Lemma crowd_away n : crowd (replicate n Away) = 0.
Proof. unfold crowd. induction n as [|n IH]; [done|]. simpl. by rewrite filter_cons. Qed.

(** [exclusive p]: as many threads hold the mutex as its flag says, none or
    one. *)
Definition exclusive p : Prop := holders p = threads.one_if (lock (state (mem p))).

Lemma exclusive_held p :
  exclusive p -> threads.held (threads.at_pc (host_side p)) = true ->
  lock (state (mem p)) = true.
Proof.
  unfold exclusive, holders. intros He Hh. rewrite Hh in He. simpl in He.
  by destruct (lock (state (mem p))).
Qed.

Lemma exclusive_inside p i k :
  exclusive p -> callers p !! i = Some k -> inside k = true -> lock (state (mem p)) = true.
Proof.
  unfold exclusive, holders. intros He Hi Hk.
  pose proof (crowd_insert (callers p) i k Away Hi) as Hc. unfold crowd in Hc.
  rewrite Hk in Hc. simpl in Hc. destruct (lock (state (mem p))); [done|simpl in He; lia].
Qed.

Lemma exclusive_host p : exclusive p -> holds exclusive (host p).
Proof.
  intros He. pose proof (threads.host_mutex clock_now body (host_side p) (exclusive_held p He)) as Hm.
  unfold holds, clients.host, exclusive, holders, mem in *. rewrite final_outcome_map. simpl. lia.
Qed.

Lemma exclusive_thread i k p (m : outcome (cpc * world)) :
  exclusive p -> callers p !! i = Some k ->
  holds (fun kw => threads.one_if (inside kw.1) + threads.one_if (lock (state (mem p)))
                   = threads.one_if (inside k) + threads.one_if (lock (state kw.2))) m ->
  holds exclusive (of_thread i p m).
Proof.
  intros He Hi Hm. pose proof (crowd_insert (callers p) i k (final m).1 Hi) as Hc.
  unfold holds, of_thread, exclusive, holders, crowd, mem in *. rewrite final_outcome_map.
  simpl. lia.
Qed.

Lemma exclusive_step l p : exclusive p -> holds exclusive (step l p).
Proof.
  intros He. destruct l as [|i c|i]; simpl; [by apply exclusive_host|..].
  - destruct (callers p !! i) as [[| | |]|] eqn:Hi; try done.
    apply (exclusive_thread i Away); [done..|].
    eapply holds_impl; [apply begin_mutex|]. by intros kw [-> ->].
  - destruct (callers p !! i) as [k|] eqn:Hi; [|done].
    apply (exclusive_thread i k); [done..|]. apply advance_mutex.
    by apply (exclusive_inside p i).
Qed.

(** *** Safety, wherever the threads are cut *)

Lemma safe_thread w0 i p (m : outcome (cpc * world)) :
  threads.safe w0 (host_side p) -> holds (fun kw => quiet (mem p) kw.2) m ->
  holds (fun p' => threads.safe w0 (host_side p')) (of_thread i p m).
Proof.
  intros Hs Hm. unfold holds, of_thread in *. rewrite final_outcome_map. simpl.
  destruct Hm as [Hn Hr]. by eapply threads.safe_kept.
Qed.

Lemma safe_step w0 l p :
  threads.safe w0 (host_side p) -> holds (fun p' => threads.safe w0 (host_side p')) (step l p).
Proof.
  intros Hs. destruct l as [|i c|i]; simpl.
  - pose proof (threads.safe_host clock_now body w0 _ Hs) as Hh.
    unfold holds, clients.host in *. by rewrite final_outcome_map.
  - destruct (callers p !! i) as [[| | |]|]; try done. apply safe_thread; [done|].
    apply begin_quiet.
  - destruct (callers p !! i) as [k|]; [|done]. apply safe_thread; [done|].
    apply advance_quiet.
Qed.

(** *** Who holds the mutex gives it back *)

Lemma crowd_holder ks :
  0 < crowd ks -> exists i at_ scbl, ks !! i = Some (Inside at_ scbl).
Proof.
  unfold crowd. induction ks as [|k ks IH]; simpl; [lia|]. rewrite filter_cons.
  destruct k as [|at_ scbl|at_ scbl|at_ scbl]; simpl;
    try (intros (i & at' & scbl' & Hi)%IH; by exists (S i), at', scbl').
  intros _. by exists 0, at_, scbl.
Qed.

Lemma host_releases p :
  exclusive p -> threads.held (threads.at_pc (host_side p)) = true ->
  exists n p', n <= 2 /\ run (replicate n Host) p = Ret p' /\ idle (mem p').
Proof.
  intros He Hh. assert (threads.consistent (host_side p)) as Hc.
  { unfold threads.consistent. rewrite Hh. by apply exclusive_held. }
  destruct (threads.held_briefly clock_now body _ Hc Hh) as (n & m' & Hn & Hrun & Hm').
  pose proof (threads.consistent_run clock_now body (replicate n threads.Host) _ Hc) as Hc'.
  rewrite Hrun in Hc'. exists n, (Pool m' (callers p)).
  split_and!; [done|by rewrite pool_run_hosts, Hrun|].
  unfold idle, mem. simpl. by rewrite <-Hm'.
Qed.

Lemma client_releases p i at_ scbl :
  callers p !! i = Some (Inside at_ scbl) ->
  exists p', run [Go i] p = Ret p' /\ idle (mem p').
Proof. intros Hi. eexists. simpl. rewrite Hi. simpl. by split. Qed.

Lemma released_soon p :
  exclusive p -> lock (state (mem p)) = true ->
  exists l n p', n <= 2 /\ run (replicate n l) p = Ret p' /\ idle (mem p').
Proof.
  intros He Hl. destruct (threads.held (threads.at_pc (host_side p))) eqn:Hh.
  - destruct (host_releases p He Hh) as (n & p' & ?). by exists Host, n, p'.
  - destruct (crowd_holder (callers p)) as (i & at_ & scbl & Hi).
    { unfold exclusive, holders in He. rewrite Hh, Hl in He. simpl in He.
      unfold crowd. lia. }
    destruct (client_releases p i at_ scbl Hi) as (p' & ? & ?).
    exists (Go i), 1, p'. by split_and!; [lia|..].
Qed.

(** C13. Mutual exclusion: under every schedule of the host thread and the
    threads of clients, cut between any two statements, as many threads
    are between taking the mutex and giving it back as the flag of the
    mutex says, which is none or one; and the thread that holds the mutex
    gives it back within two steps of its own, whatever the others do. *)
Theorem one_thread_holds_the_mutex ls w ks :
  idle w -> crowd ks = 0 ->
  holds (fun p =>
    holders p = threads.one_if (lock (state (mem p))) /\
    (lock (state (mem p)) = true ->
     exists l n p', n <= 2 /\ run (replicate n l) p = Ret p' /\ idle (mem p')))
    (run ls (Pool (threads.Machine threads.Outside w) ks)).
Proof.
  intros Hi Hk. eapply holds_impl.
  - apply (run_invariant exclusive); [apply exclusive_step|].
    unfold exclusive, holders, mem. simpl. fold (crowd ks). by rewrite Hk, Hi.
  - intros p He. split; [done|]. by apply released_soon.
Qed.

(** C12. Safety, wherever the threads are cut: under every schedule of the
    steps of the host thread and of any number of client threads, no action
    runs before it is due, and none runs under a token that was cancelled
    before the schedule began. *)
Theorem cut_anywhere_runs_are_due_and_live ls w ks :
  holds (fun p => Forall (run_ok w) (new_runs w (mem p)))
    (run ls (Pool (threads.Machine threads.Outside w) ks)).
Proof.
  eapply holds_impl.
  - apply (run_invariant (fun p => threads.safe w (host_side p))); [apply safe_step|].
    by apply (threads.safe_start threads.Outside).
  - intros p [_ (ext & Hr & Hext) _]. unfold new_runs, mem. by rewrite Hr, drop_app_length.
Qed.

(** *** What the mutex is for *)

(** While the host thread holds the mutex no client thread does. *)
Lemma exclusive_alone p i k :
  exclusive p -> threads.held (threads.at_pc (host_side p)) = true ->
  callers p !! i = Some k -> inside k = false.
Proof.
  unfold exclusive, holders. intros He Hh Hi.
  pose proof (crowd_insert (callers p) i k Away Hi) as Hc. unfold crowd in Hc.
  rewrite Hh in He. destruct (inside k), (lock (state (mem p))); simpl in *; [lia..|done|done].
Qed.

(** [front_kept p]: the item the callback has tested is the one in front of
    the queue. *)
Definition front_kept p : Prop :=
  forall peek, threads.at_pc (host_side p) = threads.Checked peek ->
    q_top (queue (state (mem p))) = Some peek.

Lemma front_kept_host p : holds front_kept (host p).
Proof.
  destruct p as [[pc w] ks]. unfold holds, clients.host, front_kept, threads.host, mem.
  rewrite final_outcome_map. simpl.
  destruct pc as [| | |peek|[|c cs]]; simpl; intros peek'; try done.
  - unfold threads.enter. by case_match.
  - unfold threads.lock_and_test, acquire. destruct (lock (state w)); simpl; [done|].
    by case_match.
  - unfold threads.inspect. repeat case_match; simpl; try done. by intros [= <-].
  - unfold threads.call, now. simpl. by case_match.
  - unfold threads.command. by destruct (exec clock_now c w).
Qed.

Lemma front_kept_thread i p (m : outcome (cpc * world)) :
  front_kept p ->
  (threads.held (threads.at_pc (host_side p)) = true ->
   queue (state (final m).2) = queue (state (mem p))) ->
  holds front_kept (of_thread i p m).
Proof.
  intros Hf Hq. unfold holds, of_thread, front_kept, mem in *. rewrite final_outcome_map.
  simpl. intros peek Hp. rewrite Hq; [by apply Hf|by rewrite Hp].
Qed.

Lemma advance_queue k w :
  inside k = false -> lock (state w) = true -> queue (state (final (advance k w)).2) = queue (state w).
Proof.
  destruct k as [|at_ scbl|at_ scbl|at_ scbl]; simpl; try done.
  unfold acquire. by intros _ ->.
Qed.

Lemma begin_queue c w :
  lock (state w) = true -> queue (state (final (begin c w)).2) = queue (state w).
Proof.
  pose proof (threads.exec_kept clock_now c w) as (_ & _ & _ & _ & Hq). unfold holds in Hq.
  destruct c as [f|scbl|at_ scbl|tok| |f th]; simpl in *; try done.
  by destruct (th (user w)).
Qed.

Lemma front_kept_step l p :
  exclusive p -> front_kept p -> holds front_kept (step l p).
Proof.
  intros He Hf. destruct l as [|i c|i]; simpl; [apply front_kept_host|..].
  - destruct (callers p !! i) as [[| | |]|] eqn:Hi; try done.
    apply front_kept_thread; [done|]. intros Hh. apply begin_queue.
    by apply exclusive_held.
  - destruct (callers p !! i) as [k|] eqn:Hi; [|done].
    apply front_kept_thread; [done|]. intros Hh.
    apply advance_queue; [by apply (exclusive_alone p i)|by apply exclusive_held].
Qed.

(** The queue stays in the order of the due times. *)
Lemma in_line_step l p :
  threads.in_line (mem p) -> holds (fun p' => threads.in_line (mem p')) (step l p).
Proof.
  intros Ho. unfold mem in *. destruct l as [|i c|i]; simpl.
  - pose proof (threads.host_in_line clock_now body _ Ho) as Hh.
    unfold holds, clients.host in *. by rewrite final_outcome_map.
  - destruct (callers p !! i) as [[| | |]|]; try done.
    unfold holds, of_thread, mem. rewrite final_outcome_map. simpl.
    pose proof (threads.exec_in_line clock_now c _ Ho) as Hc. unfold holds in Hc.
    destruct c as [f|scbl|at_ scbl|tok| |f th]; simpl in *;
      try destruct (th (user _)); done.
  - destruct (callers p !! i) as [k|]; [|done].
    unfold holds, of_thread, mem. rewrite final_outcome_map. simpl.
    destruct k as [|at_ scbl|at_ scbl|at_ scbl]; simpl; try done.
    + unfold acquire. by destruct (lock (state _)).
    + by apply q_push_ordered.
Qed.

(** C17. What the mutex is for: under every schedule, cut between any two
    statements, the item whose token and due time the callback has tested
    is still the one in front of the queue when the callback pops the
    queue and calls its action, so that what is popped is what runs; and
    nothing in the queue is due before it. *)
Theorem callback_pops_what_it_tested ls w ks :
  idle w -> crowd ks = 0 -> ordered (q_items (queue (state w))) ->
  holds (fun p => forall peek,
           threads.at_pc (host_side p) = threads.Checked peek ->
           q_top (queue (state (mem p))) = Some peek /\
           Forall (before peek) (q_items (queue (state (mem p)))))
    (run ls (Pool (threads.Machine threads.Outside w) ks)).
Proof.
  intros Hi Hk Ho. eapply holds_impl.
  - apply (run_invariant
             (fun p => exclusive p /\ front_kept p /\ threads.in_line (mem p))).
    + intros l p (He & Hf & Hl). pose proof (exclusive_step l p He) as He'.
      pose proof (front_kept_step l p He Hf) as Hf'.
      pose proof (in_line_step l p Hl) as Hl'. by split_and!.
    + split_and!; [|done..]. unfold exclusive, holders, mem. simpl. fold (crowd ks).
      by rewrite Hk, Hi.
  - intros p (_ & Hf & Hl) peek Hp. specialize (Hf peek Hp). split; [done|].
    apply q_top_Some in Hf as [l Hq]. unfold threads.in_line in Hl. rewrite Hq in Hl |- *.
    apply ordered_cons in Hl as [Hl _]. by constructor.
Qed.

(** *** Calls that no thread cuts *)

Lemma in_one_piece_step (l' : threads.label U) m ks :
  outcome_map host_side (run (in_one_piece l') (Pool m (Away :: ks)))
  = threads.step clock_now body l' m /\
  forall p, run (in_one_piece l') (Pool m (Away :: ks)) = Ret p -> callers p = Away :: ks.
Proof.
  destruct m as [pc [s [lt lk q r] n u rn]]. destruct l' as [|c]; simpl.
  - unfold clients.host. simpl. destruct (threads.host clock_now body _); simpl; [|done..].
    split; [done|]. by intros p [= <-].
  - unfold threads.client, mem.
    destruct c as [f|scbl|at_ scbl|tok| |f th]; simpl;
      try destruct (th u); simpl;
      try (split; [done|by intros p [= <-]]);
      unfold schedule, schedule_at, acquire, now; simpl;
      destruct (cs_is_subscribed _ _); simpl; try (split; [done|by intros p [= <-]]);
      destruct lk; simpl; (split; [done|by intros p [= <-]]).
Qed.

(** The machine of [Threads] is this machine with the calls of the
    clients in one piece: a schedule of [Threads], each call replaced by
    the steps of that call taken by one thread with nothing in between,
    ends as it ends in [Threads]. *)
Theorem uncut_calls_are_threads (ls' : list (threads.label U)) m ks :
  outcome_map host_side (run (flat_map in_one_piece ls') (Pool m (Away :: ks)))
  = threads.run clock_now body ls' m.
Proof.
  revert m. induction ls' as [|l' ls' IH]; intros m; [done|].
  change (flat_map in_one_piece (l' :: ls')) with (in_one_piece l' ++ flat_map in_one_piece ls').
  rewrite pool_run_app. destruct (in_one_piece_step l' m ks) as [Hstep Hks].
  cbn [threads.run]. rewrite <-Hstep.
  destruct (run (in_one_piece l') _) as [[m' ks']|?|? ?]; simpl; [|done..].
  specialize (Hks _ eq_refl). simpl in Hks. subst ks'. apply IH.
Qed.

(** *** The order of due times is lost *)

(** The steps of a call that meets no other thread in its way. *)
Lemma rest_of_call i at_ scbl m ks :
  ks !! i = Some (Called at_ scbl) -> idle (threads.mem m) ->
  live scbl (threads.mem m) = true ->
  run (replicate 3 (Go i)) (Pool m ks)
  = Ret (Pool (threads.Machine (threads.at_pc m) (push_item (Item at_ scbl) (threads.mem m)))
           (<[i := Away]> ks)).
Proof.
  destruct m as [pc [s [lt lk q r] n u rn]]. unfold idle, live. simpl. intros Hi -> Hs.
  assert (i < length ks) as Hlen by by eapply lookup_lt_Some.
  unfold of_thread, mem. rewrite Hi. simpl. rewrite Hs. simpl.
  rewrite list_lookup_insert_eq by done. simpl.
  rewrite list_insert_insert_eq, list_lookup_insert_eq by done. simpl.
  by rewrite list_insert_insert_eq.
Qed.

(** A frame on an idle worker whose first item is live and due: four steps
    of the host thread bring the callback into the action. *)
Lemma frame_takes peek w :
  idle w -> cs_is_subscribed (lifetime (state w)) w = true ->
  q_top (queue (state w)) = Some peek -> live (what peek) w = true ->
  (when peek <= clock_now (reads w))%Z ->
  threads.run clock_now body (replicate 4 threads.Host) (threads.Machine threads.Outside w)
  = Ret (threads.Machine (threads.Running (body (sched_action (what peek))))
           (take clock_now peek w)).
Proof.
  intros Hi Hl Ht Hp Hd. rewrite threads.run_S, threads.host_outside.
  unfold threads.enter. rewrite Hl. cbn [and_then].
  apply threads.round_run; [done| |done|by rewrite Hp|lia].
  rewrite Hl. apply orb_false_iff. split; [|done].
  apply q_empty_false. apply q_top_Some in Ht as [l ->]. done.
Qed.

(** C15. [schedule(scbl)] reads the clock before it takes the mutex.  When
    a frame falls between the two, with an item in front that is due after
    the reading of the thread and by the reading of the frame, that item
    runs, and only then is the item of the thread queued: an item due
    earlier than one that has run waits in the queue, under a live token,
    for a later frame. *)
Theorem schedule_for_now_is_overtaken i scbl peek w ks :
  idle w -> cs_is_subscribed (lifetime (state w)) w = true ->
  ks !! i = Some Away -> live scbl w = true ->
  q_top (queue (state w)) = Some peek -> live (what peek) w = true ->
  (clock_now (reads w) < when peek <= clock_now (S (reads w)))%Z ->
  exists p',
    run ([Begin i (Schedule scbl)] ++ replicate 4 Host ++ replicate 3 (Go i))
      (Pool (threads.Machine threads.Outside w) ks) = Ret p' /\
    new_runs w (mem p') = [Run peek (clock_now (S (reads w)))] /\
    Item (clock_now (reads w)) scbl ∈ q_items (queue (state (mem p'))) /\
    live scbl (mem p') = true /\
    (clock_now (reads w) < when peek)%Z.
Proof.
  intros Hi Hl Hk Hs Ht Hp [Hlt Hd]. eexists. split_and!; [|..|done].
  - rewrite pool_run_app. cbn [clients.run clients.step callers and_then]. rewrite Hk.
    unfold of_thread, mem.
    cbn [clients.begin now outcome_map and_then fst snd host_side threads.mem threads.at_pc].
    rewrite pool_run_app, pool_run_hosts. cbn [host_side callers].
    rewrite (frame_takes peek (set_reads (S (reads w)) w)); [|done..].
    cbn [outcome_map and_then].
    rewrite (rest_of_call i (clock_now (reads w)) scbl); [done|..|done].
    + apply list_lookup_insert_eq. by eapply lookup_lt_Some.
    + done.
  - unfold new_runs, mem. simpl. by rewrite drop_app_length.
  - unfold mem. simpl. rewrite q_push_spec, q_pop_spec. apply elem_of_insert_item. by left.
  - done.
Qed.

(** *** The order of due times, when no call is overtaken *)

Section due_order.
Context (clock_mono : forall n, (clock_now n <= clock_now (S n))%Z).
Context (body_timely : forall a, forallb timely (body a) = true).

(** [in_turn w0 p]: one thread at most holds the mutex; the runs since [w0]
    are in the order of their due times; and no thread is in a call with a
    time before the due time of an item that has run. *)
Record in_turn (w0 : world) p : Prop := InTurn {
  turn_exclusive : exclusive p;
  turn_order : threads.in_order clock_now w0 (host_side p);
  turn_carried k t :
    k ∈ callers p -> carried k = Some t ->
    Forall (fun x => (when (run_item x) <= t)%Z) (new_runs w0 (mem p));
}.

(** What has run was due by the latest reading of the clock. *)
Lemma served_by_now ext w :
  served clock_now ext w ->
  Forall (fun x => (when (run_item x) <= clock_now (reads w))%Z) ext.
Proof.
  intros (_ & _ & Hall). eapply Forall_impl; [exact Hall|]. simpl.
  intros x (_ & Hr & Hx). destruct (reads w) as [|n]; [lia|].
  simpl in Hx. pose proof (clock_mono n). lia.
Qed.

Lemma new_runs_since w0 w ext : ran w = ran w0 ++ ext -> new_runs w0 w = ext.
Proof. intros Hr. unfold new_runs. by rewrite Hr, drop_app_length. Qed.

Lemma in_turn_host w0 p :
  unraced_step clock_now Host p = true -> in_turn w0 p -> holds (in_turn w0) (host p).
Proof.
  intros Hu [He Ho Hk]. pose proof (exclusive_host p He) as He'.
  pose proof (threads.in_order_host clock_now body clock_mono body_timely w0 _ Ho) as Ho'.
  pose proof (threads.host_ran clock_now body (host_side p)) as Hr.
  unfold holds, clients.host in *. rewrite final_outcome_map in *.
  split; [done|done|]. simpl. intros k t Hin Ht. specialize (Hk k t Hin Ht).
  unfold new_runs, mem in *. simpl.
  destruct Hr as [->|(peek & Hp & Hd & ->)]; [done|].
  destruct Ho as [(ext & Hext & _) _ _]. rewrite Hext in Hk |- *.
  rewrite drop_app_length in Hk. rewrite <-app_assoc, drop_app_length.
  apply Forall_app. split; [done|].
  repeat constructor. unfold unraced_step, mem in Hu. rewrite Hp, Hd in Hu. simpl in Hu.
  unfold none_earlier in Hu. rewrite forallb_forall in Hu.
  specialize (Hu k (proj1 (list_elem_of_In _ _) Hin)). rewrite Ht in Hu. simpl. lia.
Qed.

(** A step of thread [i], from [k] to the place and the memory [m] ends
    with. *)
Lemma in_turn_thread w0 i k p (m : outcome (cpc * world)) :
  in_turn w0 p -> callers p !! i = Some k ->
  threads.one_if (inside (final m).1) + threads.one_if (lock (state (mem p)))
  = threads.one_if (inside k) + threads.one_if (lock (state (final m).2)) ->
  ran (final m).2 = ran (mem p) ->
  (served clock_now (new_runs w0 (mem p)) (mem p) ->
   served clock_now (new_runs w0 (mem p)) (final m).2) ->
  (threads.held (threads.at_pc (host_side p)) = true ->
   queue (state (final m).2) = queue (state (mem p))) ->
  (forall t, carried (final m).1 = Some t ->
     carried k = Some t \/
     Forall (fun x => (when (run_item x) <= t)%Z) (new_runs w0 (mem p))) ->
  holds (in_turn w0) (of_thread i p m).
Proof.
  intros [He Ho Hk] Hi Hm Hr Hs Hq Hc.
  pose proof (exclusive_thread i k p m He Hi Hm) as He'.
  unfold holds, of_thread in *. rewrite final_outcome_map in *. split; [done|..]; simpl.
  - apply (threads.in_order_step_since clock_now w0 (host_side p)); [done..| | |].
    + intros ext Hext. rewrite <-(new_runs_since w0 (mem p) ext Hext). apply Hs.
    + intros peek Hp. rewrite Hq by by rewrite Hp. by apply Ho.
    + apply Ho.
  - intros k' t Hin Ht. unfold new_runs, mem in *. simpl. rewrite Hr.
    apply elem_of_insert_inv in Hin as [->|Hin]; [|by eapply Hk].
    destruct (Hc t Ht) as [Hkt|?]; [|done]. eapply Hk; [|done].
    by eapply list_elem_of_lookup_2.
Qed.

Lemma in_turn_begin w0 i c p :
  timely c = true -> in_turn w0 p -> callers p !! i = Some Away ->
  holds (in_turn w0) (of_thread i p (begin c (mem p))).
Proof.
  intros Hc Ht Hi. pose proof Ht as [_ [(ext & Hext & Hs) _ _] _].
  pose proof (begin_mutex c (mem p)) as [Hin Hl]. pose proof (begin_quiet c (mem p)) as [_ Hr].
  pose proof (begin_queue c (mem p)) as Hq.
  apply (in_turn_thread w0 i Away); [done|done|by rewrite Hin, Hl|done| |..].
  - intros _. rewrite (new_runs_since w0 (mem p) ext Hext).
    destruct c as [f|scbl|at_ scbl|tok| |f th]; simpl;
      try destruct (th (user _)); try done. by apply served_tick.
  - intros Hh. apply Hq. by apply exclusive_held; [apply Ht|].
  - intros t Hk. right. rewrite (new_runs_since w0 (mem p) ext Hext).
    destruct c as [f|scbl|at_ scbl|tok| |f th]; simpl in Hk;
      try destruct (th (user _)); simplify_eq/=. by apply served_by_now.
Qed.

Lemma advance_carried k w t :
  carried (final (advance k w)).1 = Some t -> carried k = Some t.
Proof.
  destruct k as [|at_ scbl|at_ scbl|at_ scbl]; simpl; try done.
  - by case_match.
  - unfold acquire. by destruct (lock (state w)).
Qed.

Lemma advance_served k w ext :
  (forall t, carried k = Some t -> Forall (fun x => (when (run_item x) <= t)%Z) ext) ->
  served clock_now ext w -> served clock_now ext (final (advance k w)).2.
Proof.
  intros Hk Hs. destruct k as [|at_ scbl|at_ scbl|at_ scbl]; simpl; try done.
  - unfold acquire. destruct (lock (state w)); [done|]. by apply (served_same clock_now ext w).
  - apply (served_same clock_now ext (push_item (Item at_ scbl) w)); [done..|].
    apply served_push_after; [|done]. by apply Hk.
Qed.

Lemma in_turn_go w0 i k p :
  in_turn w0 p -> callers p !! i = Some k ->
  holds (in_turn w0) (of_thread i p (advance k (mem p))).
Proof.
  intros Ht Hi. pose proof Ht as [He _ Hk].
  apply (in_turn_thread w0 i k); [done|done|..].
  - apply advance_mutex. by apply (exclusive_inside p i).
  - by destruct (advance_quiet k (mem p)).
  - apply advance_served. intros t. apply Hk. by eapply list_elem_of_lookup_2.
  - intros Hh. apply advance_queue; [by apply (exclusive_alone p i)|by apply exclusive_held].
  - intros t Hc. left. by eapply advance_carried.
Qed.

Lemma in_turn_step w0 l p :
  unraced_step clock_now l p = true -> in_turn w0 p -> holds (in_turn w0) (step l p).
Proof.
  intros Hu Ht. destruct l as [|i c|i]; simpl; [by apply in_turn_host|..].
  - destruct (callers p !! i) as [[| | |]|] eqn:Hi; try done. by apply in_turn_begin.
  - destruct (callers p !! i) as [k|] eqn:Hi; [|done]. by apply in_turn_go.
Qed.

Lemma in_turn_run w0 ls p :
  unraced clock_now body ls p = true -> in_turn w0 p -> holds (in_turn w0) (run ls p).
Proof.
  revert p. induction ls as [|l ls IH]; intros p Hu Ht; simpl; [done|].
  simpl in Hu. apply andb_prop in Hu as [Hl Hls].
  pose proof (in_turn_step w0 l p Hl Ht) as Hstep.
  destruct (step l p); simpl in *; [by apply IH|done..].
Qed.

(** C16. The order of due times, when no call is overtaken: with a clock that
    does not go back, actions and clients that schedule for "now" only,
    and a schedule in which the callback takes no item while a thread is
    in a call with an earlier time, the actions run in the order of their
    due times, however else the statements of the threads fall. *)
Theorem due_order_unless_overtaken ls w n :
  unraced clock_now body ls (Pool (threads.Machine threads.Outside w) (replicate n Away)) = true ->
  idle w -> ordered (q_items (queue (state w))) ->
  holds (fun p => StronglySorted due_before (new_runs w (mem p)))
    (run ls (Pool (threads.Machine threads.Outside w) (replicate n Away))).
Proof.
  intros Hu Hi Ho. eapply holds_impl; [apply (in_turn_run w); [done|]|].
  - split; simpl.
    + unfold exclusive, holders, mem. simpl. fold (crowd (replicate n Away)).
      by rewrite crowd_away, Hi.
    + split; [|done..]. exists []. rewrite app_nil_r. split; [done|by apply served_nil].
    + by intros k t ->%elem_of_replicate_inv.
  - intros p [_ [(ext & Hr & Hs & _) _ _] _]. by rewrite (new_runs_since w (mem p) ext Hr).
Qed.

End due_order.

End clients_facts.
End clients.

(** ** Three threads at work

    The worker of [Worker.example], with [X] scheduled for 100 and [Y] for
    50 and frames at 40, 60 and 150, and two client threads. *)
Module clients_example.
Import worker example.

Abbreviation pool := (clients.t composite_subscription.store schedulable_queue.t nat).

Definition run : list (clients.label nat) -> pool -> outcome pool :=
  clients.run clock program.

Definition hosts (n : nat) : list (clients.label nat) := replicate n clients.Host.

(** The steps of thread [i] after the call has begun. *)
Definition rest (i : nat) : list (clients.label nat) := replicate 3 (clients.Go i).

Definition start : pool :=
  clients.Pool (threads.Machine threads.Outside w_xy) [clients.Away; clients.Away].

Definition due_times (p : pool) : list time :=
  map (fun x => when (run_item x)) (ran (clients.mem p)).

(** Thread 0 calls [schedule(X)] and reads 40 from the clock.  When the
    call goes on at once, [X] is queued for 40 and runs first in the frame
    at 60.  When that frame comes before the call goes on, [Y], due at 50,
    runs in it, and [X], due at 40, runs in the frame after. *)
Example frame_between_reading_and_push :
  due_times (final (run ([clients.Begin 0 (Schedule X)] ++ rest 0 ++ hosts 30) start))
  = [40; 50; 100]%Z /\
  due_times (final (run ([clients.Begin 0 (Schedule X)] ++ hosts 9 ++ rest 0 ++ hosts 30) start))
  = [50; 40; 100]%Z.
Proof. by vm_compute. Qed.

(** Thread 0 has tested the token of [Y] when thread 1 cancels it: the item
    is queued all the same, under a token that is cancelled, and no frame
    runs it. *)
Example cancel_after_test_is_queued :
  let p := final (run ([clients.Begin 0 (ScheduleAt 70 Y); clients.Go 0;
                        clients.Begin 1 (Unsubscribe 2); clients.Go 0; clients.Go 0]) start) in
  q_items (queue (state (clients.mem p))) = [Item 50 Y; Item 70 Y; Item 100 X] /\
  live Y (clients.mem p) = false /\
  due_times (final (run (hosts 30) p)) = [100%Z].
Proof. by vm_compute. Qed.

(** While thread 0 is between the guard and the push the callback waits at
    its own guard, and goes on when the thread has left. *)
Example host_waits_for_client :
  let p := final (run ([clients.Begin 0 (ScheduleAt 70 Y); clients.Go 0; clients.Go 0]
                       ++ hosts 1) start) in
  clients.holders p = 1 /\
  run [clients.Host] p = Fault Deadlock p /\
  clients.holders (final (run [clients.Go 0; clients.Host] p)) = 1 /\
  threads.at_pc (clients.host_side (final (run [clients.Go 0; clients.Host] p)))
  = threads.Locked.
Proof. by vm_compute. Qed.

(** The schedule in which the frame overtakes the call is the one the
    theorem on the order of due times leaves out; two threads that call
    [schedule] before the frame, their statements mixed, are in it. *)
Example frame_between_is_a_race :
  clients.unraced clock program
    ([clients.Begin 0 (Schedule X)] ++ hosts 9 ++ rest 0 ++ hosts 30) start = false /\
  clients.unraced clock program
    ([clients.Begin 0 (Schedule X)] ++ rest 0 ++ hosts 30) start = true.
Proof. by vm_compute. Qed.

Example two_threads_before_the_frame :
  due_times (final (run ([clients.Begin 0 (Schedule X); clients.Begin 1 (Schedule Y);
                          clients.Go 1; clients.Host; clients.Go 0; clients.Go 0;
                          clients.Go 0; clients.Go 1; clients.Go 1] ++ hosts 40) start))
  = [40; 50; 60; 100]%Z.
Proof. by vm_compute. Qed.

Lemma program_timely a : forallb timely (program a) = true.
Proof. by destruct a as [|[|[|[|[|a]]]]]. Qed.

Lemma due_order_unless_overtaken_witness :
  holds (fun p => StronglySorted due_before (new_runs w_xy (clients.mem p)))
    (run ([clients.Begin 0 (Schedule X); clients.Begin 1 (Schedule Y); clients.Go 1;
           clients.Host; clients.Go 0; clients.Go 0; clients.Go 0; clients.Go 1;
           clients.Go 1] ++ hosts 40) start).
Proof.
  apply (clients.due_order_unless_overtaken clock program clock_monotone program_timely
           _ w_xy 2); [by vm_compute|reflexivity|by vm_compute; repeat constructor].
Defined.

Lemma one_thread_holds_the_mutex_witness :
  holds (fun p =>
    clients.holders p = threads.one_if (lock (state (clients.mem p))) /\
    (lock (state (clients.mem p)) = true ->
     exists l n p', n <= 2 /\ run (replicate n l) p = Ret p' /\ idle (clients.mem p')))
    (run ([clients.Begin 0 (ScheduleAt 70 Y); clients.Go 0; clients.Go 0] ++ hosts 1) start).
Proof.
  apply (clients.one_thread_holds_the_mutex clock program _ w_xy); reflexivity.
Defined.

(** Thread 0 schedules [X] for now, the frame at 60 runs [Y], thread 1
    cancels the token of [Y], thread 0 pushes, and the frames at 150 run
    [X] twice. *)
Definition mixed : list (clients.label nat) :=
  [clients.Begin 0 (Schedule X)] ++ hosts 6 ++ [clients.Begin 1 (Unsubscribe 2)]
  ++ rest 0 ++ hosts 30.

Example mixed_runs :
  run mixed start = Ret (final (run mixed start)) /\
  due_times (final (run mixed start)) = [50; 40; 100]%Z /\
  user (clients.mem (final (run mixed start))) = 211.
Proof. by vm_compute. Qed.

Lemma cut_anywhere_runs_are_due_and_live_witness :
  holds (fun p => Forall (run_ok w_xy) (new_runs w_xy (clients.mem p))) (run mixed start).
Proof. apply (clients.cut_anywhere_runs_are_due_and_live clock program _ w_xy). Defined.

Lemma callback_pops_what_it_tested_witness :
  holds (fun p => forall peek,
           threads.at_pc (clients.host_side p) = threads.Checked peek ->
           q_top (queue (state (clients.mem p))) = Some peek /\
           Forall (before peek) (q_items (queue (state (clients.mem p)))))
    (run (hosts 7 ++ [clients.Begin 0 (ScheduleAt 45 X); clients.Go 0; clients.Go 0]) start).
Proof.
  apply (clients.callback_pops_what_it_tested clock program _ w_xy);
    [reflexivity|reflexivity|by vm_compute; repeat constructor].
Defined.

Lemma schedule_for_now_is_overtaken_witness :
  exists p',
    run ([clients.Begin 0 (Schedule X)] ++ replicate 4 clients.Host
         ++ replicate 3 (clients.Go 0)) start = Ret p' /\
    new_runs w_xy (clients.mem p') = [Run (Item 50 Y) (clock (S (reads w_xy)))] /\
    Item (clock (reads w_xy)) X ∈ q_items (queue (state (clients.mem p'))) /\
    live X (clients.mem p') = true /\
    (clock (reads w_xy) < when (Item 50 Y))%Z.
Proof.
  apply (clients.schedule_for_now_is_overtaken clock program 0 X (Item 50 Y) w_xy);
    [reflexivity..|by vm_compute].
Defined.

End clients_example.
