(* ===== verification/Scheduler.v ===== *)
(** * Scheduler: the [update] scheduler and the workers it creates

    Model of [struct update] and of the accessors [make_update],
    [observe_on_update], [serialize_update] and [synchronize_update] in
    [src/libs/ofxRx/includes/ofxRxUpdates.h].

    [update] has no members: all that a scheduler does is read the clock and
    make workers.  Every worker made by [create_worker] has a state, a queue
    and a tick source of its own; what the workers share is the clock, the
    subscription states and whatever the actions touch.  A frame of the host
    reaches the workers one after the other, in the order in which their
    tick sources were set up.

    - [world]: the shared parts, and one [slot] per worker made so far.
    - [focus k], [blur k]: the world of worker [k] alone, as [Worker] has it,
      and the way back; [at_worker k op] runs an operation of [Worker] there.
    - [now], [create_worker], [frame], [step], [play]: the operations.
    - [projects]: every history of the scheduler is, seen from any one
      worker, a sequence of the transitions of [Worker.worker.atomic]; the
      guarantees of a worker are then guarantees of each worker of a
      scheduler ([play_projects] and the theorems after it). *)

From stdpp Require Import base relations list sorting.
From S2P Require Import Prelude Lifetime Subscriber Queue Worker.

Module update.

(** [rxsc::scheduler]: a handle on a scheduler.  [update] has no state, so
    the handle says which class it is and nothing more. *)
Inductive scheduler : Set := Update.

(** [make_update()]: the scheduler built at the first call and returned at
    every call. *)
Definition make_update : scheduler := Update.

(** [rx::observe_on_one_worker] and its siblings: a coordination keeps the
    scheduler it makes its workers from. *)
Record coordination : Set := Coordination { factory : scheduler }.

(** [observe_on_update()] *)
Definition observe_on_update : coordination := Coordination make_update.

(** [serialize_update()] *)
Definition serialize_update : coordination := Coordination make_update.

(** [synchronize_update()] *)
Definition synchronize_update : coordination := Coordination make_update.

Section update.
Context {L Q U E : Type}.
Context `{!LifetimeOps L, !Lifetimes L, !SchedQueueOps Q, !SchedQueue Q}.
Context (clock_now : nat -> time) (body : nat -> list (worker.cmd U)).
Context (OnErrorEmpty : E -> worker.world L Q U -> outcome (worker.world L Q U))
        (OnCompletedEmpty : worker.world L Q U -> outcome (worker.world L Q U)).

(** What there is of one worker: the [worker_state] that its [worker_type]
    and its tick callback share, and the history of its runs. *)
Record slot : Type := Slot {
  slot_state : worker.worker_state Q;
  slot_ran : list worker.run;
}.

Record world : Type := World {
  subs : L;
  workers : list slot;     (* in the order of [create_worker] *)
  reads : nat;             (* readings of the clock taken so far *)
  user : U;
}.

Definition set_subs (s : L) (w : world) : world :=
  World s (workers w) (reads w) (user w).
Definition set_workers (ws : list slot) (w : world) : world :=
  World (subs w) ws (reads w) (user w).
Definition set_reads (n : nat) (w : world) : world :=
  World (subs w) (workers w) n (user w).

#[global] Instance world_ops : LifetimeOps world := lifted_ops subs set_subs.

(** *** One worker at a time *)

(** The world that worker [k] and its actions see. *)
Definition focus (k : nat) (w : world) : option (worker.world L Q U) :=
  match workers w !! k with
  | Some s => Some (worker.World (subs w) (slot_state s) (reads w) (user w) (slot_ran s))
  | None => None
  end.

(** What worker [k] made of its world, put back. *)
Definition blur (k : nat) (w : world) (fw : worker.world L Q U) : world :=
  World (worker.subs fw)
    (<[k := Slot (worker.state fw) (worker.ran fw)]> (workers w))
    (worker.reads fw) (worker.user fw).

(** A call of a member of worker [k]. *)
Definition at_worker (k : nat) (op : worker.world L Q U -> outcome (worker.world L Q U))
    (w : world) : outcome world :=
  match focus k w with
  | Some fw => outcome_map (blur k w) (op fw)
  | None => Ret w
  end.

(** *** [update] *)

(** [update::now()] *)
Definition now (w : world) : time * world :=
  (clock_now (reads w), set_reads (S (reads w)) w).

(** [update::create_worker(cs)]: a [worker_type(cs)] with a new state, whose
    constructor sets up the tick source and subscribes the frame callback.
    The result is the new worker and the world that has it. *)
Definition create_worker (cs : token) (w : world) : nat * world :=
  (length (workers w), set_workers (workers w ++ [Slot (worker.create cs) []]) w).

(** [create_coordinator(cs)] of a coordination: a worker of its scheduler. *)
Definition create_coordinator (c : coordination) (cs : token) (w : world) : nat * world :=
  match factory c with
  | Update => create_worker cs w
  end.

(** *** The host *)

(** The tick source of worker [k] fires. *)
Definition on_tick (fuel k : nat) : world -> outcome world :=
  at_worker k (worker.on_tick clock_now body OnErrorEmpty OnCompletedEmpty fuel).

Fixpoint tick_all (fuel : nat) (ks : list nat) (w : world) : outcome world :=
  match ks with
  | [] => Ret w
  | k :: ks => do w <- on_tick fuel k w; tick_all fuel ks w
  end.

(** One frame: the host notifies the tick sources in the order in which they
    were set up.  An exception out of a callback leaves the notification. *)
Definition frame (fuel : nat) (w : world) : outcome world :=
  tick_all fuel (seq 0 (length (workers w))) w.

Inductive host_event : Type :=
| Frame                                (* the host's update event *)
| Call (k : nat) (c : worker.cmd U)    (* client code calls worker [k] *)
| CreateWorker (cs : token).           (* client code asks for a worker *)

Definition step (fuel : nat) (ev : host_event) (w : world) : outcome world :=
  match ev with
  | Frame => frame fuel w
  | Call k c => at_worker k (worker.exec clock_now c) w
  | CreateWorker cs => Ret (create_worker cs w).2
  end.

Fixpoint play (fuel : nat) (evs : list host_event) (w : world) : outcome world :=
  match evs with
  | [] => Ret w
  | ev :: evs => do w <- step fuel ev w; play fuel evs w
  end.

(** ** One worker seen from the scheduler *)

Implicit Types (w : world) (fw : worker.world L Q U) (s : slot) (k j : nat).

#[global] Instance world_lifetimes : Lifetimes world.
Proof. apply lifted_lifetimes; [apply _|done|by intros []]. Qed.

(** Every mutex is free. *)
Definition idle (w : world) : Prop :=
  Forall (fun s => worker.lock (slot_state s) = false) (workers w).

(** The runs of worker [k] so far; none if there is no such worker. *)
Definition runs_of (k : nat) (w : world) : list worker.run :=
  match workers w !! k with
  | Some s => slot_ran s
  | None => []
  end.

(** The world of the worker in [s] when the shared parts are those of [fw],
    the world of another worker. *)
Definition view (s : slot) (fw : worker.world L Q U) : worker.world L Q U :=
  worker.World (worker.subs fw) (slot_state s) (worker.reads fw) (worker.user fw)
    (slot_ran s).

Lemma focus_lookup k w fw :
  focus k w = Some fw ->
  exists s, workers w !! k = Some s /\ worker.state fw = slot_state s /\
            worker.ran fw = slot_ran s /\ worker.subs fw = subs w /\
            worker.reads fw = reads w /\ worker.user fw = user w.
Proof. unfold focus. destruct (workers w !! k) as [s|]; [|done]. intros [= <-]. eauto 10. Qed.

Lemma focus_is_Some k w : k < length (workers w) -> is_Some (focus k w).
Proof. intros [s Hs]%lookup_lt_is_Some. unfold focus. rewrite Hs. eauto. Qed.

Lemma focus_None k w : focus k w = None -> length (workers w) <= k.
Proof.
  unfold focus. destruct (workers w !! k) eqn:Hk; [done|].
  intros _. by apply lookup_ge_None.
Qed.

Lemma focus_idle k w fw : idle w -> focus k w = Some fw -> worker.idle fw.
Proof.
  intros Hi (s & Hs & Hst & _)%focus_lookup. unfold worker.idle. rewrite Hst.
  by eapply (Forall_lookup_1 _ _ _ _ Hi).
Qed.

Lemma focus_blur_eq k w fw fw' : focus k w = Some fw -> focus k (blur k w fw') = Some fw'.
Proof.
  intros (s & Hs%lookup_lt_Some & _)%focus_lookup. unfold focus, blur. simpl.
  rewrite list_lookup_insert_eq by done. by destruct fw'.
Qed.

Lemma focus_blur_ne j k w fw' s :
  j <> k -> workers w !! j = Some s -> focus j (blur k w fw') = Some (view s fw').
Proof.
  intros Hjk Hs. unfold focus, blur. simpl.
  by rewrite list_lookup_insert_ne, Hs by done.
Qed.

Lemma focus_view j k w fw s :
  workers w !! j = Some s -> focus k w = Some fw -> focus j w = Some (view s fw).
Proof.
  intros Hs (_ & _ & _ & _ & Hsubs & Hreads & Huser)%focus_lookup.
  unfold focus, view. by rewrite Hs, Hsubs, Hreads, Huser.
Qed.

Lemma blur_idle k w fw' : idle w -> worker.idle fw' -> idle (blur k w fw').
Proof.
  intros Hi Hi'. unfold idle, blur. simpl.
  destruct (decide (k < length (workers w))).
  - by apply Forall_insert.
  - by rewrite list_insert_ge by lia.
Qed.

(** A call of worker [k] leaves the other workers' states and histories
    alone. *)
Lemma at_worker_others k op w j :
  j <> k -> workers (final (at_worker k op w)) !! j = workers w !! j.
Proof.
  intros Hjk. unfold at_worker. destruct (focus k w) as [fw|]; [|done].
  rewrite final_outcome_map. simpl. by rewrite list_lookup_insert_ne.
Qed.

Lemma at_worker_length k op w :
  length (workers (final (at_worker k op w))) = length (workers w).
Proof.
  unfold at_worker. destruct (focus k w) as [fw|]; [|done].
  rewrite final_outcome_map. simpl. by rewrite length_insert.
Qed.

(** *** What a transition of one worker is for another

    A worker sees of another worker's transitions what they do to the shared
    parts: a change of the user's state, a reading of the clock, the end of
    a lifetime.  Each of these is a transition of its own. *)
Lemma atomic_view G G' s fw fw' :
  worker.atomic clock_now G fw fw' ->
  worker.steps clock_now G' (view s fw) (view s fw').
Proof.
  destruct 1 as [f fw|fw|i fw _ _|t fw|peek fw _ _ _|peek fw _ _ _ _].
  - apply rtc_once, (worker.atomic_effect _ _ f (view s fw)).
  - apply rtc_once, (worker.atomic_clock _ _ (view s fw)).
  - done.
  - apply rtc_once, (worker.atomic_unsubscribe _ _ t (view s fw)).
  - done.
  - apply rtc_once, (worker.atomic_clock _ _ (view s fw)).
Qed.

Lemma steps_view G G' s fw fw' :
  worker.steps clock_now G fw fw' ->
  worker.steps clock_now G' (view s fw) (view s fw').
Proof.
  induction 1 as [|fw fw1 fw' Ha _ IH]; [done|].
  etrans; [by eapply atomic_view|done].
Qed.

(** ** The scheduler, projected on a worker *)

Section projects.
Context (G : worker.push_guard (L:=L) (Q:=Q) (U:=U)).

(** [projects w w']: the mutexes are free in [w'], and every worker of [w]
    is a worker of [w'] that got there by transitions of its own. *)
Definition projects (w w' : world) : Prop :=
  idle w' /\
  forall j fj, focus j w = Some fj ->
    exists fj', focus j w' = Some fj' /\ worker.steps clock_now G fj fj'.

Lemma projects_refl w : idle w -> projects w w.
Proof. intros Hi. split; [done|]. intros j fj Hj. by exists fj. Qed.

#[global] Instance projects_trans : Transitive projects.
Proof.
  intros w1 w2 w3 [_ H12] [Hi H23]. split; [done|]. intros j f1 H1.
  destruct (H12 _ _ H1) as (f2 & H2 & Hs12).
  destruct (H23 _ _ H2) as (f3 & H3 & Hs23).
  exists f3. split; [done|by etrans].
Qed.

Lemma projects_idle w w' : projects w w' -> idle w'.
Proof. by intros [? _]. Qed.

(** An operation of [Worker] that is a sequence of transitions there is one
    for every worker of the scheduler. *)
Lemma at_worker_projects k op w :
  idle w ->
  (forall fw, worker.idle fw -> sound (worker.reaches clock_now G fw) (op fw)) ->
  sound (projects w) (at_worker k op w).
Proof.
  intros Hi Hop. unfold at_worker.
  destruct (focus k w) as [fw|] eqn:Hk; [|by apply sound_Ret, projects_refl].
  eapply sound_outcome_map; [by eapply Hop, focus_idle|].
  intros fw' [Hs Hi']. split; [by apply blur_idle|]. intros j fj Hj.
  destruct (decide (j = k)) as [->|Hjk].
  - exists fw'. split; [by eapply focus_blur_eq|]. congruence.
  - destruct (focus_lookup _ _ _ Hj) as (s & Hs' & _).
    exists (view s fw'). split; [by apply focus_blur_ne|].
    rewrite (focus_view _ _ _ _ _ Hs' Hk) in Hj. injection Hj as <-.
    by eapply steps_view.
Qed.

Lemma create_worker_projects cs w : idle w -> projects w (create_worker cs w).2.
Proof.
  intros Hi. split.
  - apply Forall_app. split; [done|]. by repeat constructor.
  - intros j fj Hj. exists fj. split; [|done].
    destruct (focus_lookup _ _ _ Hj) as (s & Hs & _).
    revert Hj. unfold focus. simpl. by rewrite lookup_app_l_Some with (x:=s), Hs.
Qed.

(** From here on every action of the program is allowed. *)
Context (body_allowed : forall a, Forall (worker.allowed clock_now G) (body a)).

Lemma tick_all_projects fuel ks w : idle w -> sound (projects w) (tick_all fuel ks w).
Proof.
  revert w. induction ks as [|k ks IH]; intros w Hi; simpl.
  - by apply sound_Ret, projects_refl.
  - apply (sound_trans projects).
    + apply at_worker_projects; [done|]. intros fw. by apply worker.on_tick_steps.
    + intros w1 H1. by eapply IH, projects_idle.
Qed.

Definition allowed_event (ev : host_event) : Prop :=
  match ev with
  | Call _ c => worker.allowed clock_now G c
  | _ => True
  end.

Lemma step_projects fuel ev w :
  allowed_event ev -> idle w -> sound (projects w) (step fuel ev w).
Proof.
  intros Hev Hi. destruct ev as [|k c|cs]; simpl.
  - by apply tick_all_projects.
  - apply at_worker_projects; [done|]. intros fw Hfw.
    by apply lands_in_sound, worker.exec_steps.
  - by apply sound_Ret, create_worker_projects.
Qed.

Lemma play_projects fuel evs w :
  Forall allowed_event evs -> idle w -> sound (projects w) (play fuel evs w).
Proof.
  intros Hevs. revert w. induction Hevs as [|ev evs Hev _ IH]; intros w Hi; simpl.
  - by apply sound_Ret, projects_refl.
  - apply (sound_trans projects); [by apply step_projects|].
    intros w1 H1. by eapply IH, projects_idle.
Qed.

End projects.

(** ** The histories of all the workers *)

(** The runs that worker [k] made from [w] to [w']. *)
Definition new_runs_of (k : nat) (w w' : world) : list worker.run :=
  drop (length (runs_of k w)) (runs_of k w').

(** A run is in order at [w]: its token was live there and it was due. *)
Definition run_ok (w : world) (x : worker.run) : Prop :=
  cs_is_subscribed (sched_lifetime (what (worker.run_item x))) w = true /\
  (when (worker.run_item x) <= worker.run_at x)%Z.

(** [keeps w w']: no lifetime has come back, and every worker, old or new,
    has added to its history only runs that were in order at [w]. *)
Definition keeps (w w' : world) : Prop :=
  idle w' /\ narrows w' w /\
  forall k, exists ext, runs_of k w' = runs_of k w ++ ext /\ Forall (run_ok w) ext.

Lemma keeps_refl w : idle w -> keeps w w.
Proof.
  intros Hi. split_and!; [done|done|]. intros k. exists []. by rewrite app_nil_r.
Qed.

#[global] Instance keeps_trans : Transitive keeps.
Proof.
  intros w1 w2 w3 (_ & Hn12 & H12) (Hi & Hn23 & H23).
  split_and!; [done|by transitivity w2|]. intros k.
  destruct (H12 k) as (ext1 & Hr1 & He1). destruct (H23 k) as (ext2 & Hr2 & He2).
  exists (ext1 ++ ext2). rewrite Hr2, Hr1, app_assoc. split; [done|].
  apply Forall_app. split; [done|]. eapply Forall_impl; [exact He2|].
  intros x [Hl Hd]. split; [by apply Hn12|done].
Qed.

Lemma keeps_idle w w' : keeps w w' -> idle w'.
Proof. by intros [? _]. Qed.

Lemma keeps_new_runs w w' k : keeps w w' -> Forall (run_ok w) (new_runs_of k w w').
Proof.
  intros (_ & _ & Hk). destruct (Hk k) as (ext & Hr & Hext).
  unfold new_runs_of. by rewrite Hr, drop_app_length.
Qed.

Lemma runs_of_blur_eq k w fw fw' :
  focus k w = Some fw -> runs_of k (blur k w fw') = worker.ran fw'.
Proof.
  intros (s & Hs%lookup_lt_Some & _)%focus_lookup. unfold runs_of, blur. simpl.
  by rewrite list_lookup_insert_eq.
Qed.

Lemma runs_of_focus k w fw : focus k w = Some fw -> runs_of k w = worker.ran fw.
Proof. intros (s & Hs & _ & Hr & _)%focus_lookup. unfold runs_of. by rewrite Hs. Qed.

Lemma at_worker_keeps k op w :
  idle w ->
  (forall fw, worker.idle fw -> sound (worker.reaches clock_now worker.any_push fw) (op fw)) ->
  sound (keeps w) (at_worker k op w).
Proof.
  intros Hi Hop. unfold at_worker.
  destruct (focus k w) as [fw|] eqn:Hk; [|by apply sound_Ret, keeps_refl].
  eapply sound_outcome_map; [by eapply Hop, focus_idle|].
  intros fw' [Hs Hi'].
  destruct (focus_lookup _ _ _ Hk) as (_ & _ & _ & _ & Hsubs & _).
  assert (forall u, cs_is_subscribed u fw = cs_is_subscribed u w) as Hsame
    by (intros u; simpl; by rewrite Hsubs).
  split_and!; [by apply blur_idle| |].
  - intros u Hu. rewrite <- Hsame. by eapply worker.steps_narrows.
  - intros j. destruct (decide (j = k)) as [->|Hjk].
    + destruct (worker.steps_ran _ _ _ _ Hs) as (ext & Hr & Hext).
      exists ext. rewrite (runs_of_blur_eq _ _ _ _ Hk), (runs_of_focus _ _ _ Hk).
      split; [done|]. eapply Forall_impl; [exact Hext|].
      intros x [Hl Hd]. split; [|done]. unfold worker.live in Hl. by rewrite <- Hsame.
    + exists []. rewrite app_nil_r. unfold runs_of, blur. simpl.
      by rewrite list_lookup_insert_ne.
Qed.

Lemma create_worker_keeps cs w : idle w -> keeps w (create_worker cs w).2.
Proof.
  intros Hi. split_and!.
  - apply Forall_app. split; [done|]. by repeat constructor.
  - by intros u.
  - intros k. exists []. rewrite app_nil_r. unfold runs_of. simpl.
    destruct (decide (k < length (workers w))) as [Hk|Hk].
    + by rewrite lookup_app_l.
    + rewrite (lookup_ge_None_2 (workers w)) by lia.
      destruct (decide (k = length (workers w))) as [->|].
      * by rewrite list_lookup_middle.
      * rewrite lookup_ge_None_2; [done|]. rewrite length_app. simpl. lia.
Qed.

Lemma tick_all_keeps fuel ks w : idle w -> sound (keeps w) (tick_all fuel ks w).
Proof.
  revert w. induction ks as [|k ks IH]; intros w Hi; simpl.
  - by apply sound_Ret, keeps_refl.
  - apply (sound_trans keeps).
    + apply at_worker_keeps; [done|]. intros fw.
      apply worker.on_tick_steps. intros a. apply worker.allowed_any_all.
    + intros w1 H1. by eapply IH, keeps_idle.
Qed.

Lemma step_keeps fuel ev w : idle w -> sound (keeps w) (step fuel ev w).
Proof.
  intros Hi. destruct ev as [|k c|cs]; simpl.
  - by apply tick_all_keeps.
  - apply at_worker_keeps; [done|]. intros fw Hfw.
    apply lands_in_sound, worker.exec_steps; [apply worker.allowed_any|done].
  - by apply sound_Ret, create_worker_keeps.
Qed.

Lemma play_keeps fuel evs w : idle w -> sound (keeps w) (play fuel evs w).
Proof.
  revert w. induction evs as [|ev evs IH]; intros w Hi; simpl.
  - by apply sound_Ret, keeps_refl.
  - apply (sound_trans keeps); [by apply step_keeps|].
    intros w1 H1. by eapply IH, keeps_idle.
Qed.

(** ** What a scheduler guarantees of its workers *)

Implicit Types (evs : list host_event).

Lemma events_allowed_any evs : Forall (allowed_event worker.any_push) evs.
Proof. apply Forall_forall. intros [|k c|cs] _; simpl; [done|apply worker.allowed_any|done]. Qed.

Definition timely_event (ev : host_event) : bool :=
  match ev with
  | Call _ c => worker.timely c
  | _ => true
  end.

Lemma play_projects_any fuel evs w :
  idle w -> sound (projects worker.any_push w) (play fuel evs w).
Proof.
  intros Hi. apply play_projects; [|apply events_allowed_any|done].
  intros a. apply worker.allowed_any_all.
Qed.

(** C22. Every history of a scheduler (frames that reach all its workers in
    turn, client calls on any of them, new workers) is, seen from any one
    worker, a sequence of the atomic transitions of that worker: what the
    other workers do shows as changes of the user's state, readings of the
    clock and ends of lifetimes.  No call blocks on a mutex, and all the
    mutexes are free at the end. *)
Theorem scheduler_refines_workers fuel evs w :
  idle w -> sound (projects worker.any_push w) (play fuel evs w).
Proof. apply play_projects_any. Qed.

(** In no worker of a scheduler, those made on the way included, does an
    action run under a token that was cancelled, or before it is due,
    whatever the other workers and their actions do. *)
Theorem no_worker_runs_cancelled_or_early fuel evs t w :
  idle w ->
  cs_is_subscribed t w = false ->
  holds (fun w' => forall k,
    Forall (fun x => sched_lifetime (what (worker.run_item x)) <> t /\
                     (when (worker.run_item x) <= worker.run_at x)%Z)
      (new_runs_of k w w'))
    (play fuel evs w).
Proof.
  intros Hi Ht. eapply holds_impl; [by apply sound_holds, play_keeps|].
  intros w' Hk k. eapply Forall_impl; [by apply keeps_new_runs|].
  intros x [Hl Hd]. split; [|done]. intros Heq. rewrite Heq in Hl. congruence.
Qed.

(** C18. Each worker of a scheduler runs its actions in due-time order, over
    any number of frames and whatever runs in the other workers between its
    rounds, provided time does not go back and nobody schedules into the
    past: the actions and the clients use [schedule(scbl)], not
    [schedule(when, scbl)]. *)
Theorem every_worker_in_due_order fuel evs w k s :
  (forall n, (clock_now n <= clock_now (S n))%Z) ->
  (forall a, forallb worker.timely (body a) = true) ->
  forallb timely_event evs = true ->
  idle w ->
  workers w !! k = Some s ->
  ordered (q_items (worker.queue (slot_state s))) ->
  holds (fun w' => StronglySorted worker.due_before (new_runs_of k w w'))
    (play fuel evs w).
Proof.
  intros Hmono Hbody Hevs Hi Hs Ho.
  assert (sound (projects (worker.forward_push clock_now) w) (play fuel evs w)) as Hp.
  { apply play_projects; [| |done].
    - intros a. specialize (Hbody a). rewrite forallb_forall in Hbody.
      apply Forall_forall. intros c Hc. apply worker.allowed_timely, Hbody.
      by apply list_elem_of_In.
    - rewrite forallb_forall in Hevs. apply Forall_forall. intros [|j c|cs] Hc; [done| |done].
      apply worker.allowed_timely, (Hevs (Call j c)). by apply list_elem_of_In. }
  eapply holds_impl; [by apply sound_holds|]. intros w' [_ Hw'].
  destruct (focus_is_Some k w) as [fk Hfk]; [by eapply lookup_lt_Some|].
  destruct (Hw' _ _ Hfk) as (fk' & Hfk' & Hsteps).
  destruct (focus_lookup _ _ _ Hfk) as (s' & Hs' & Hst & _).
  destruct (worker.served_steps _ Hmono _ _ Hsteps) as (ext & Hr & Hext & _).
  { rewrite Hst. congruence. }
  unfold new_runs_of. rewrite (runs_of_focus _ _ _ Hfk), (runs_of_focus _ _ _ Hfk'), Hr.
  by rewrite drop_app_length.
Qed.

(** A worker whose lifetime has ended runs nothing any more: frames pass
    over it, and what its clients still schedule stays in the queue.  Two
    workers made with the same lifetime stop together. *)
Theorem dead_lifetime_stops_worker fuel evs w k s :
  idle w ->
  workers w !! k = Some s ->
  cs_is_subscribed (worker.lifetime (slot_state s)) w = false ->
  holds (fun w' => runs_of k w' = runs_of k w) (play fuel evs w).
Proof.
  intros Hi Hs Hd.
  eapply holds_impl; [by apply sound_holds, play_projects_any|].
  intros w' [_ Hw'].
  destruct (focus_is_Some k w) as [fk Hfk]; [by eapply lookup_lt_Some|].
  destruct (Hw' _ _ Hfk) as (fk' & Hfk' & Hsteps).
  rewrite (runs_of_focus _ _ _ Hfk), (runs_of_focus _ _ _ Hfk').
  eapply worker.steps_dead_ran; [exact Hsteps|].
  destruct (focus_lookup _ _ _ Hfk) as (s' & Hs' & Hst & _ & Hsubs & _).
  assert (s' = s) as -> by congruence.
  rewrite Hst. simpl. rewrite Hsubs. exact Hd.
Qed.

(** ** New workers, and exceptions *)

(** The worker that [create_worker] makes is idle, has nothing queued and has
    run nothing; the workers there were are as they were. *)
Lemma create_worker_focus cs w :
  focus (create_worker cs w).1 (create_worker cs w).2
  = Some (worker.World (subs w) (worker.create cs) (reads w) (user w) []) /\
  forall j, j < length (workers w) ->
    focus j (create_worker cs w).2 = focus j w.
Proof.
  unfold focus. simpl. split.
  - by rewrite list_lookup_middle.
  - intros j Hj. by rewrite lookup_app_l.
Qed.

Lemma on_tick_idle fuel k w w1 : idle w -> on_tick fuel k w = Ret w1 -> idle w1.
Proof.
  intros Hi Hr. pose proof (tick_all_keeps fuel [k] w Hi) as Hk.
  simpl in Hk. rewrite Hr in Hk. simpl in Hk. by eapply keeps_idle.
Qed.

(** The worker that throws ends its own lifetime. *)
Lemma tick_throws fuel k w w' :
  idle w -> on_tick fuel k w = Throw w' ->
  exists s, workers w' !! k = Some s /\
            cs_is_subscribed (worker.lifetime (slot_state s)) w' = false.
Proof.
  intros Hi. unfold on_tick, at_worker.
  destruct (focus k w) as [fw|] eqn:Hk; [|done].
  intros (fw' & Hth & ->)%outcome_map_Throw_inv.
  apply worker.on_tick_throws in Hth; [|by eapply focus_idle].
  destruct (focus_lookup _ _ _ Hk) as (s & Hs%lookup_lt_Some & _).
  eexists. split; [by apply list_lookup_insert_eq|done].
Qed.

(** A callback leaves the slots of the other workers alone. *)
Lemma on_tick_others fuel a w j :
  j <> a -> workers (final (on_tick fuel a w)) !! j = workers w !! j.
Proof.
  exact (at_worker_others a
           (worker.on_tick clock_now body OnErrorEmpty OnCompletedEmpty fuel) w j).
Qed.

(** A frame that ends by an exception: the callbacks of the workers before
    [k] have returned, that of worker [k] has thrown, and the workers
    behind it were not reached. *)
Lemma tick_all_throws fuel a n w w' :
  idle w ->
  tick_all fuel (seq a n) w = Throw w' ->
  exists k s w1, a <= k /\
    tick_all fuel (seq a (k - a)) w = Ret w1 /\ on_tick fuel k w1 = Throw w' /\
    workers w' !! k = Some s /\
    cs_is_subscribed (worker.lifetime (slot_state s)) w' = false /\
    forall j, k < j -> workers w' !! j = workers w !! j.
Proof.
  revert a w. induction n as [|n IH]; intros a w Hi; simpl; [done|].
  destruct (on_tick fuel a w) as [w1|w1|f w1] eqn:Ha; simpl; [|intros [= <-]|done].
  - intros Hth. destruct (IH (S a) w1) as (k & s & w2 & Hk & Hb & Hth' & Hs & Hd & Hj);
      [by eapply on_tick_idle|done|].
    exists k, s, w2. split_and!; [lia| |done..|].
    + replace (k - a) with (S (k - S a)) by lia. simpl. by rewrite Ha.
    + intros j Hkj. rewrite Hj by done.
      pose proof (on_tick_others fuel a w j) as Ho. rewrite Ha in Ho. apply Ho. lia.
  - destruct (tick_throws _ _ _ _ Hi Ha) as (s & Hs & Hd).
    exists a, s, w. rewrite Nat.sub_diag. split_and!; [done..|]. intros j Haj.
    pose proof (on_tick_others fuel a w j) as Ho. rewrite Ha in Ho. apply Ho. lia.
Qed.

(** C39. An exception that escapes an action of one worker leaves the frame:
    the callbacks of the workers set up before it have returned, its own
    has thrown and left the world the frame ends in, its lifetime is ended
    by the detacher of its tick subscriber, and the workers set up after it
    are not reached in that frame, so their states and histories are what
    they were. *)
Theorem exception_stops_frame fuel w w' :
  idle w ->
  frame fuel w = Throw w' ->
  exists k s w1,
    tick_all fuel (seq 0 k) w = Ret w1 /\ on_tick fuel k w1 = Throw w' /\
    workers w' !! k = Some s /\
    cs_is_subscribed (worker.lifetime (slot_state s)) w' = false /\
    forall j, k < j -> workers w' !! j = workers w !! j.
Proof.
  intros Hi Hth.
  destruct (tick_all_throws _ _ _ _ _ Hi Hth) as (k & s & w1 & _ & Hb & ?).
  rewrite Nat.sub_0_r in Hb. by exists k, s, w1.
Qed.

End update.
End update.

(** ** A scheduler with two workers *)

Module update_example.
Import update.

Abbreviation world := (update.world (L:=composite_subscription.store)
                         (Q:=schedulable_queue.t) (U:=nat)).

(** The readings of the clock: two in each of the frames at 40 and 60, then
    150 for good. *)
Definition clock (n : nat) : time := nth n [40; 40; 60; 60]%Z 150%Z.

Lemma clock_never_back n : (clock n <= clock (S n))%Z.
Proof. do 4 (destruct n as [|n]; [by vm_compute|]). by destruct n. Qed.

(** Tokens 0 to 2 as in [Worker.example]; token 3 is the lifetime of a
    second worker. *)
Definition subs1 : composite_subscription.store :=
  (composite_subscription.create example.subs0).2.

Definition play (clk : nat -> time) : nat -> list host_event -> world -> outcome world :=
  update.play clk example.program example.OnErrorEmpty example.OnCompletedEmpty.

Definition frame (clk : nat -> time) : nat -> world -> outcome world :=
  update.frame clk example.program example.OnErrorEmpty example.OnCompletedEmpty.

(** A scheduler that has made no worker yet. *)
Definition w0 : world := World subs1 [] 0 0.

(** Two workers, with lifetimes 0 and 3: [X] is scheduled for 100 on the
    first and [Y] for 50 on the second. *)
Definition w_xy : world := Eval vm_compute in
  final (play clock 0 [CreateWorker 0; CreateWorker 3;
                       Call 0 (worker.ScheduleAt 100 example.X);
                       Call 1 (worker.ScheduleAt 50 example.Y)] w0).

(** Two workers that share lifetime 0, with the same work. *)
Definition w_shared : world := Eval vm_compute in
  final (play clock 0 [CreateWorker 0; CreateWorker 0;
                       Call 0 (worker.ScheduleAt 100 example.X);
                       Call 1 (worker.ScheduleAt 50 example.Y)] w0).

(** [failing] is due on the first worker and [X] on the second. *)
Definition w_fx : world := Eval vm_compute in
  final (play example.frozen 0 [CreateWorker 0; CreateWorker 3;
                                Call 0 (worker.ScheduleAt 0 example.failing);
                                Call 1 (worker.ScheduleAt 0 example.X)] w0).

(** [Y] is cancelled before any frame. *)
Definition w_x : world := Eval vm_compute in
  final (play clock 0 [Call 0 (worker.Unsubscribe 2)] w_xy).

(** The shared lifetime has ended. *)
Definition w_stopped : world := Eval vm_compute in
  final (play clock 0 [Call 0 (worker.Unsubscribe 0)] w_shared).

(** The frame in which [failing] throws has passed. *)
Definition w_failed : world := Eval vm_compute in final (frame example.frozen 9 w_fx).

Definition items (rs : list worker.run) : list item := map worker.run_item rs.

(** The example of section 8 of the specification with one worker for each
    action: at 40 nothing runs, at 60 [Y] runs, at 150 [X] runs. *)
Example frames_reach_every_worker :
  map (fun evs => let w := final (play clock 9 evs w_xy) in
                  (items (runs_of 0 w), items (runs_of 1 w)))
    [[Frame]; [Frame; Frame]; [Frame; Frame; Frame]]
  = [([], []); ([], [Item 50 example.Y]); ([Item 100 example.X], [Item 50 example.Y])].
Proof. by vm_compute. Qed.

(** Due-time order is an order within a worker.  In one frame at 150 the
    first worker runs [X], due at 100, before the second runs [Y], due at
    50: the user's state shows the mark of [X] under that of [Y]. *)
Example no_due_order_across_workers :
  let w := final (play (fun _ => 150%Z) 9 [Frame] w_xy) in
  items (runs_of 0 w) = [Item 100 example.X] /\
  items (runs_of 1 w) = [Item 50 example.Y] /\
  user w = 12.
Proof. by vm_compute. Qed.

(** The end of a shared lifetime stops both workers, the end of the
    lifetime of one leaves the other running. *)
Example lifetimes_of_workers :
  let stop := Call 0 (worker.Unsubscribe 0) in
  let w := final (play (fun _ => 150%Z) 9 [stop; Frame] w_shared) in
  let w' := final (play (fun _ => 150%Z) 9 [stop; Frame] w_xy) in
  (runs_of 0 w, runs_of 1 w) = ([], []) /\
  (items (runs_of 0 w'), items (runs_of 1 w')) = ([], [Item 50 example.Y]).
Proof. by vm_compute. Qed.

(** [failing] throws in the first worker: [X], due in the second, does not
    run in that frame; it runs in the next, which passes over the first
    worker. *)
Example exception_between_workers :
  frame example.frozen 9 w_fx = Throw w_failed /\
  items (runs_of 0 w_failed) = [Item 0 example.failing] /\
  runs_of 1 w_failed = [] /\
  items (runs_of 1 (final (frame example.frozen 9 w_failed))) = [Item 0 example.X].
Proof. by vm_compute. Qed.

Lemma w_xy_idle : idle w_xy.
Proof. by repeat constructor. Qed.

Lemma scheduler_refines_workers_witness :
  sound (projects clock worker.any_push w_xy) (play clock 9 [Frame; Frame; Frame] w_xy).
Proof.
  exact (scheduler_refines_workers clock example.program example.OnErrorEmpty
           example.OnCompletedEmpty 9 [Frame; Frame; Frame] w_xy w_xy_idle).
Defined.

Lemma no_worker_runs_cancelled_or_early_witness :
  holds (fun w' => forall k,
    Forall (fun x => sched_lifetime (what (worker.run_item x)) <> 2 /\
                     (when (worker.run_item x) <= worker.run_at x)%Z)
      (new_runs_of k w_x w'))
    (play clock 9 [CreateWorker 0; Frame; Frame; Frame] w_x).
Proof.
  apply (no_worker_runs_cancelled_or_early clock example.program example.OnErrorEmpty
           example.OnCompletedEmpty 9 [CreateWorker 0; Frame; Frame; Frame] 2 w_x);
    [by repeat constructor|reflexivity].
Defined.

Lemma every_worker_in_due_order_witness :
  holds (fun w' => StronglySorted worker.due_before (new_runs_of 1 w_xy w'))
    (play clock 9 [Frame; Call 1 (worker.Schedule example.X); Frame; Frame] w_xy).
Proof.
  eapply (every_worker_in_due_order clock example.program _ _ 9 _ w_xy 1);
    [exact clock_never_back | by intros [|[|[|[|[|a]]]]] | reflexivity | exact w_xy_idle
    | reflexivity | by vm_compute; repeat constructor].
Defined.

Lemma dead_lifetime_stops_worker_witness :
  holds (fun w' => runs_of 1 w' = runs_of 1 w_stopped)
    (play clock 9 [Frame; Call 1 (worker.Schedule example.X); Frame] w_stopped).
Proof.
  eapply (dead_lifetime_stops_worker clock example.program _ _ 9 _ w_stopped 1);
    [by repeat constructor | reflexivity | reflexivity].
Defined.

Lemma exception_stops_frame_witness :
  exists k s w1,
    tick_all example.frozen example.program example.OnErrorEmpty
      example.OnCompletedEmpty 9 (seq 0 k) w_fx = Ret w1 /\
    on_tick example.frozen example.program example.OnErrorEmpty
      example.OnCompletedEmpty 9 k w1 = Throw w_failed /\
    workers w_failed !! k = Some s /\
    cs_is_subscribed (worker.lifetime (slot_state s)) w_failed = false /\
    forall j, k < j -> workers w_failed !! j = workers w_fx !! j.
Proof.
  apply (exception_stops_frame example.frozen example.program example.OnErrorEmpty
           example.OnCompletedEmpty 9 w_fx w_failed); [by repeat constructor|by vm_compute].
Defined.

End update_example.
