(* ===== verification/Behavior.v ===== *)
(** * Behavior: the subject that holds a value

    Model of [src/libs/librxcpp/includes/rxcpp/subjects/rx-behavior.hpp].

    - Module [behavior_observer_state]: the value under its mutex.
    - Module [subjects]: the world of a behavior (subscription states, the
      value cell, the observers, the history of deliveries, user state) and
      the observers' own code, a list of commands per notification.
    - Module [multicast_observer]: the base class, which keeps the observers
      and casts to them.  rx-subject.hpp is not among the sources: it is
      modelled from the specification.
    - Module [behavior_observer]: [get_value] and [on_next], which stores the
      value and then casts it.
    - Module [behavior]: the subject; [get_subscriber] is the way in,
      [get_observable] what happens to each new subscriber.
    - Section [behavior_facts]: the theorems.  What every operation keeps
      ([grows], [casts]); what a push and a subscription deliver when the
      observers only record; the atoms [on_next] and the subscription
      function are made of, and what two interleavings of a push with a
      subscription deliver; the end of a behavior.
    - Module [behavior_example]: a behavior at work. *)

From stdpp Require Import base list.
From S2P Require Import Prelude Lifetime Subscriber.

(** ** [behavior_observer_state] *)

Module behavior_observer_state.
Section behavior_observer_state.
Context {T : Type}.

Record t : Type := Make {
  lock : bool;
  value : T;
}.

(** [behavior_observer_state(first)] *)
Definition create (first : T) : t := Make false first.

(** [std::unique_lock<std::mutex> guard(lock)] *)
Definition acquire (st : t) : outcome t :=
  if lock st then Fault Deadlock st else Ret (Make true (value st)).

(** [~unique_lock] *)
Definition release (st : t) : t := Make false (value st).

(** [reset(v)] *)
Definition reset (v : T) (st : t) : outcome t :=
  do st <- acquire st;
  let st := Make (lock st) v in
  Ret (release st).

(** [get()]: the value returned is [value] of the result, copied while the
    mutex was held. *)
Definition get (st : t) : outcome t :=
  do st <- acquire st;
  Ret (release st).

End behavior_observer_state.
Arguments t : clear implicits.
End behavior_observer_state.

(** ** The world of a behavior *)

Module subjects.
Section subjects.
Context {L U T E : Type} `{!LifetimeOps L}.

(** What the code of an observer may do when it is told something: change
    the user's state, end a lifetime, throw.  Observers whose code calls
    back into the behavior that tells them are in [Feedback] (they push) and
    in [Joining] (they subscribe others); only there can a call meet the
    mutex of the value held. *)
Inductive cmd : Type :=
| Effect (f : U -> U)
| Unsubscribe (t : token)
| Raise.

(** The destination of a subscriber: its code, and a name to tell it by. *)
Record dest : Type := Dest {
  dest_id : nat;
  react : notification T E -> list cmd;
}.

(** A delivery: the destination of a subscriber was called. *)
Record delivery : Type := Delivery {
  to_lifetime : token;
  to_dest : nat;
  what : notification T E;
}.

Record world : Type := World {
  subs : L;                                   (* the subscription states *)
  cell : behavior_observer_state.t T;         (* the value under its mutex *)
  observers : list (subscriber.t dest);       (* of the multicast_observer *)
  delivered : list delivery;                  (* history: deliveries so far *)
  user : U;
}.

Definition set_subs (s : L) (w : world) : world :=
  World s (cell w) (observers w) (delivered w) (user w).
Definition set_cell (c : behavior_observer_state.t T) (w : world) : world :=
  World (subs w) c (observers w) (delivered w) (user w).
Definition set_observers (os : list (subscriber.t dest)) (w : world) : world :=
  World (subs w) (cell w) os (delivered w) (user w).
Definition set_user (u : U) (w : world) : world :=
  World (subs w) (cell w) (observers w) (delivered w) u.
Definition log (d : delivery) (w : world) : world :=
  World (subs w) (cell w) (observers w) (delivered w ++ [d]) (user w).

#[global] Instance world_ops : LifetimeOps world := lifted_ops subs set_subs.

(** An operation of the cell, in the world. *)
Definition on_cell (f : behavior_observer_state.t T -> outcome (behavior_observer_state.t T))
    (w : world) : outcome world :=
  match f (cell w) with
  | Ret c => Ret (set_cell c w)
  | Throw c => Throw (set_cell c w)
  | Fault x c => Fault x (set_cell c w)
  end.

Definition exec (c : cmd) (w : world) : outcome world :=
  match c with
  | Effect f => Ret (set_user (f (user w)) w)
  | Unsubscribe t => Ret (cs_unsubscribe t w)
  | Raise => Throw w
  end.

Fixpoint exec_all (cs : list cmd) (w : world) : outcome world :=
  match cs with
  | [] => Ret w
  | c :: cs => do w <- exec c w; exec_all cs w
  end.

(** A destination is an observer: it runs its code. *)
Definition tell (d : dest) (n : notification T E) (w : world) : outcome world :=
  exec_all (react d n) w.

#[global] Instance dest_observer : Observer world T E dest := {
  obs_on_next d v := tell d (Next v);
  obs_on_error d e := tell d (Error e);
  obs_on_completed d := tell d Completed;
}.

(** The delivery that calling [o] with [n] makes. *)
Definition delivery_to (o : subscriber.t dest) (n : notification T E) : delivery :=
  Delivery (subscriber.lifetime o) (dest_id (subscriber.destination o)) n.

(** The destination of [o], with the history kept: a call of it is recorded
    before it runs. *)
Record recorded : Type := Recorded {
  inner : subscriber.t dest;
}.

Definition tell_recorded (r : recorded) (n : notification T E) (w : world) : outcome world :=
  tell (subscriber.destination (inner r)) n (log (delivery_to (inner r) n) w).

#[global] Instance recorded_observer : Observer world T E recorded := {
  obs_on_next r v := tell_recorded r (Next v);
  obs_on_error r e := tell_recorded r (Error e);
  obs_on_completed r := tell_recorded r Completed;
}.

(** [o.on_next(v)], [o.on_error(e)], [o.on_completed()] on a subscriber. *)
Definition send (o : subscriber.t dest) (n : notification T E) (w : world) : outcome world :=
  notify (subscriber.Make (subscriber.lifetime o) (Recorded o)) n w.

Fixpoint send_all (os : list (subscriber.t dest)) (n : notification T E) (w : world)
  : outcome world :=
  match os with
  | [] => Ret w
  | o :: os => do w <- send o n w; send_all os n w
  end.

(** The observers whose lifetime has not ended. *)
Definition current (w : world) : list (subscriber.t dest) :=
  filter (fun o => subscriber.is_subscribed o w = true) (observers w).

End subjects.
Arguments cmd : clear implicits.
Arguments dest : clear implicits.
Arguments delivery : clear implicits.
Arguments recorded : clear implicits.
Arguments world : clear implicits.
End subjects.

(** ** [multicast_observer] *)

Module multicast_observer.
Import subjects.
Section multicast_observer.
Context {L U T E : Type} `{!LifetimeOps L}.
#[local] Abbreviation world := (subjects.world L U T E).
#[local] Abbreviation observer := (subscriber.t (dest U T E)).

Record t : Type := Make {
  lifetime : token;
}.

(** [has_observers()] *)
Definition has_observers (m : t) (w : world) : bool :=
  bool_decide (current w <> []).

(** [add(o)]: a subscriber joins the observers of a live subject, behind
    those that are still subscribed; the subscriber of an ended subject is
    unsubscribed. *)
Definition add (m : t) (o : observer) (w : world) : outcome world :=
  if cs_is_subscribed (lifetime m) w then
    if subscriber.is_subscribed o w then Ret (set_observers (current w ++ [o]) w)
    else Ret w
  else Ret (subscriber.unsubscribe o w).

(** [on_next(v)]: cast to the observers, in the order they joined. *)
Definition on_next (m : t) (v : T) (w : world) : outcome world :=
  send_all (observers w) (Next v) w.

Definition on_error (m : t) (e : E) (w : world) : outcome world :=
  send_all (observers w) (Error e) w.

Definition on_completed (m : t) (w : world) : outcome world :=
  send_all (observers w) Completed w.

End multicast_observer.
End multicast_observer.

(** ** [behavior_observer] *)

Module behavior_observer.
Import subjects.
Section behavior_observer.
Context {L U T E : Type} `{!LifetimeOps L}.
#[local] Abbreviation world := (subjects.world L U T E).

(** The base class; [state] points to the cell of the world. *)
Record t : Type := Make {
  base : multicast_observer.t;
}.

(** [behavior_observer(f, l)] *)
Definition create (f : T) (l : token) (w : world) : t * world :=
  (Make (multicast_observer.Make l),
   set_observers [] (set_cell (behavior_observer_state.create f) w)).

(** [get_value()]: [k] is what the caller does with the value. *)
Definition get_value (b : t) (k : T -> world -> outcome world) (w : world) : outcome world :=
  do w <- on_cell behavior_observer_state.get w;
  k (behavior_observer_state.value (cell w)) w.

(** [on_next(v)] *)
Definition on_next (b : t) (v : T) (w : world) : outcome world :=
  do w <- on_cell (behavior_observer_state.reset v) w;
  multicast_observer.on_next (base b) v w.

(** [on_error] and [on_completed] are those of the base class. *)
#[global] Instance observer : Observer world T E t := {
  obs_on_next := on_next;
  obs_on_error b := multicast_observer.on_error (base b);
  obs_on_completed b := multicast_observer.on_completed (base b);
}.

End behavior_observer.
End behavior_observer.

(** ** [behavior] *)

Module behavior.
Import subjects.
Section behavior.
Context {L U T E : Type} `{!LifetimeOps L}.
#[local] Abbreviation world := (subjects.world L U T E).
#[local] Abbreviation observer := (subscriber.t (dest U T E)).

Record t : Type := Make {
  lifetime : token;
  s : behavior_observer.t;
}.

(** [behavior(f, cs)] *)
Definition create (f : T) (cs : token) (w : world) : t * world :=
  let '(s, w) := behavior_observer.create f cs w in (Make cs s, w).

(** [behavior(f)]: the lifetime is a new [composite_subscription()]. *)
Definition create_default (f : T) (w : world) : t * world :=
  let '(cs, w) := cs_create w in create f cs w.

Definition has_observers (b : t) (w : world) : bool :=
  multicast_observer.has_observers (behavior_observer.base (s b)) w.

Definition get_value (b : t) (k : T -> world -> outcome world) (w : world) : outcome world :=
  behavior_observer.get_value (s b) k w.

(** [get_subscriber()]: the way in, under the lifetime of the behavior. *)
Definition get_subscriber (b : t) : subscriber.t behavior_observer.t :=
  make.explicit (lifetime b) (s b).

(** [get_observable()]: the function of the observable, which runs for each
    subscriber [o]. *)
Definition get_observable (b : t) (o : observer) (w : world) : outcome world :=
  do w <- (if cs_is_subscribed (lifetime b) w
           then get_value b (fun v => send o (Next v)) w
           else Ret w);
  multicast_observer.add (behavior_observer.base (s b)) o w.

(** *** Clients *)

(** What the clients of a behavior do, one call after the other. *)
Inductive event : Type :=
| Push (v : T)                    (* [get_subscriber().on_next(v)] *)
| Fail (e : E)                    (* [get_subscriber().on_error(e)] *)
| Complete                        (* [get_subscriber().on_completed()] *)
| Subscribe (o : observer)        (* [get_observable().subscribe(o)] *)
| Cancel (t : token).             (* [unsubscribe()] of some lifetime *)

Definition step (b : t) (ev : event) (w : world) : outcome world :=
  match ev with
  | Push v => notify (get_subscriber b) (Next v) w
  | Fail e => notify (get_subscriber b) (Error e) w
  | Complete => notify (get_subscriber b) Completed w
  | Subscribe o => get_observable b o w
  | Cancel t => Ret (cs_unsubscribe t w)
  end.

Fixpoint play (b : t) (evs : list event) (w : world) : outcome world :=
  match evs with
  | [] => Ret w
  | ev :: evs => do w <- step b ev w; play b evs w
  end.

End behavior.
Arguments event : clear implicits.
End behavior.

(** ** Theorems *)

Section behavior_facts.
Import subjects.
Context {L U T E : Type} `{!LifetimeOps L, !Lifetimes L}.
#[local] Abbreviation world := (subjects.world L U T E).
#[local] Abbreviation observer := (subscriber.t (dest U T E)).
Implicit Types (w : world) (o : observer) (n : notification T E) (b : behavior.t)
  (d : delivery T E) (v : T).

#[global] Instance world_lifetimes : Lifetimes world.
Proof. apply lifted_lifetimes; [apply _|done|by intros []]. Qed.

(** The mutex of the value is free. *)
Definition unlocked (w : world) : Prop :=
  behavior_observer_state.lock (cell w) = false.

(** The deliveries recorded from [w] to [w']. *)
Definition new_deliveries (w w' : world) : list (delivery T E) :=
  drop (length (delivered w)) (delivered w').

(** [grows w w']: what every operation does to a world, whatever the
    observers do.  The mutex is free again, no lifetime has come back, and
    the history has grown by deliveries to subscribers that were live. *)
Definition grows (w w' : world) : Prop :=
  unlocked w' /\ narrows w' w /\
  exists ext, delivered w' = delivered w ++ ext /\
              Forall (fun d => cs_is_subscribed (to_lifetime d) w = true) ext.

Lemma grows_refl w : unlocked w -> grows w w.
Proof.
  intros Hu. split_and!; [done|done|]. exists []. by rewrite app_nil_r.
Qed.

#[global] Instance grows_trans : Transitive grows.
Proof.
  intros w1 w2 w3 (_ & Hn12 & ext1 & Hd1 & He1) (Hu & Hn23 & ext2 & Hd2 & He2).
  split_and!; [done|by transitivity w2|].
  exists (ext1 ++ ext2). rewrite Hd2, Hd1, app_assoc. split; [done|].
  apply Forall_app. split; [done|]. eapply Forall_impl; [exact He2|].
  intros d. apply Hn12.
Qed.

Lemma grows_unlocked w w' : grows w w' -> unlocked w'.
Proof. by intros [? _]. Qed.

Lemma grows_new_deliveries w w' :
  grows w w' ->
  Forall (fun d => cs_is_subscribed (to_lifetime d) w = true) (new_deliveries w w').
Proof.
  intros (_ & _ & ext & Hd & He). unfold new_deliveries.
  by rewrite Hd, drop_app_length.
Qed.

(** A step that leaves the mutex and the history alone and revives nothing. *)
Lemma grows_quiet w w' :
  unlocked w' -> narrows w' w -> delivered w' = delivered w -> grows w w'.
Proof.
  intros Hu Hn Hd. split_and!; [done|done|]. exists []. by rewrite app_nil_r.
Qed.

Lemma grows_unsubscribe w w' t : grows w w' -> grows w (cs_unsubscribe t w').
Proof.
  intros Hg. transitivity w'; [done|]. apply grows_quiet.
  - by apply grows_unlocked in Hg.
  - apply (cs_unsubscribe_narrows (W:=world)).
  - done.
Qed.

(** *** The value cell *)

Lemma reset_unlocked v w :
  unlocked w ->
  on_cell (behavior_observer_state.reset v) w
  = Ret (set_cell (behavior_observer_state.Make false v) w).
Proof.
  unfold unlocked, on_cell, behavior_observer_state.reset, behavior_observer_state.acquire.
  by intros ->.
Qed.

Lemma get_unlocked w :
  unlocked w -> on_cell behavior_observer_state.get w = Ret w.
Proof.
  unfold unlocked, on_cell, behavior_observer_state.get, behavior_observer_state.acquire.
  destruct w as [? [[] ?] ? ? ?]; simpl; by intros.
Qed.

(** *** Telling the observers

    [casts w w']: what telling observers does to a world.  It grows, and the
    observers and the value stay as they are. *)
Definition casts (w w' : world) : Prop :=
  grows w w' /\ observers w' = observers w /\ cell w' = cell w.

Lemma casts_grows w w' : casts w w' -> grows w w'.
Proof. by intros [? _]. Qed.

Lemma casts_refl w : unlocked w -> casts w w.
Proof. intros Hu. split; [by apply grows_refl|done]. Qed.

#[global] Instance casts_trans : Transitive casts.
Proof.
  intros w1 w2 w3 (Hg1 & Ho1 & Hc1) (Hg2 & Ho2 & Hc2).
  split_and!; [by transitivity w2|congruence..].
Qed.

Lemma casts_unlocked w w' : casts w w' -> unlocked w'.
Proof. intros [Hg _]. by eapply grows_unlocked. Qed.

Lemma casts_unsubscribe w w' t : casts w w' -> casts w (cs_unsubscribe t w').
Proof. intros (Hg & Ho & Hc). split; [by apply grows_unsubscribe|done]. Qed.

Lemma exec_casts (c : cmd U) w : unlocked w -> lands_in (casts w) (exec c w).
Proof.
  intros Hu. destruct c as [f|t|]; simpl.
  - apply lands_in_Ret. split; [|done].
    apply grows_quiet; [by unfold unlocked in *|by intros u|done].
  - by apply lands_in_Ret, casts_unsubscribe, casts_refl.
  - by apply lands_in_Throw, casts_refl.
Qed.

Lemma exec_all_casts (cs : list (cmd U)) w :
  unlocked w -> lands_in (casts w) (exec_all cs w).
Proof.
  revert w. induction cs as [|c cs IH]; intros w Hu; simpl.
  - by apply lands_in_Ret, casts_refl.
  - apply (lands_in_trans casts); [by apply exec_casts|].
    intros w1 H1. apply IH. by eapply casts_unlocked.
Qed.

(** The code of a live subscriber runs, recorded. *)
Lemma tell_recorded_casts o n w :
  unlocked w -> subscriber.is_subscribed o w = true ->
  lands_in (casts w) (tell_recorded (Recorded o) n w).
Proof.
  intros Hu Ho.
  assert (casts w (log (delivery_to o n) w)) as Hlog.
  { split; [|done]. split_and!; [by unfold unlocked in *|by intros u|].
    exists [delivery_to o n]. split; [done|]. by repeat constructor. }
  eapply lands_in_impl.
  - apply (exec_all_casts _ (log _ w)); done.
  - intros w'. by transitivity (log (delivery_to o n) w).
Qed.

Lemma send_casts o n w : unlocked w -> lands_in (casts w) (send o n w).
Proof.
  intros Hu. unfold send.
  apply notify_lands_in; [by apply casts_refl|intros w'; apply casts_unsubscribe|].
  intros Ho. destruct n; by apply tell_recorded_casts.
Qed.

Lemma send_all_casts (os : list observer) n w :
  unlocked w -> lands_in (casts w) (send_all os n w).
Proof.
  revert w. induction os as [|o os IH]; intros w Hu; simpl.
  - by apply lands_in_Ret, casts_refl.
  - apply (lands_in_trans casts); [by apply send_casts|].
    intros w1 H1. apply IH. by eapply casts_unlocked.
Qed.

Lemma send_grows o n w : unlocked w -> lands_in (grows w) (send o n w).
Proof. intros Hu. eapply lands_in_impl; [by apply send_casts|apply casts_grows]. Qed.

Lemma send_all_grows (os : list observer) n w :
  unlocked w -> lands_in (grows w) (send_all os n w).
Proof. intros Hu. eapply lands_in_impl; [by apply send_all_casts|apply casts_grows]. Qed.

(** *** Every operation grows the world and comes back *)

Lemma grows_set_cell w x :
  unlocked w -> grows w (set_cell (behavior_observer_state.Make false x) w).
Proof. intros Hu. apply grows_quiet; [by unfold unlocked in *|by intros u|done]. Qed.

Lemma grows_set_observers w os : unlocked w -> grows w (set_observers os w).
Proof. intros Hu. apply grows_quiet; [by unfold unlocked in *|by intros u|done]. Qed.

Lemma behavior_observer_grows (s : behavior_observer.t) n w :
  unlocked w -> lands_in (grows w) (notify s n w).
Proof.
  intros Hu. destruct n as [v|e|]; simpl;
    [|by apply send_all_grows|by apply send_all_grows].
  unfold behavior_observer.on_next. rewrite reset_unlocked by done. simpl.
  eapply lands_in_impl; [by apply send_all_grows|].
  intros w'. by transitivity (set_cell (behavior_observer_state.Make false v) w);
    [apply grows_set_cell|].
Qed.

Lemma get_observable_grows b o w :
  unlocked w -> lands_in (grows w) (behavior.get_observable b o w).
Proof.
  intros Hu. unfold behavior.get_observable.
  apply (lands_in_trans grows).
  - destruct (cs_is_subscribed _ w); [|by apply lands_in_Ret, grows_refl].
    unfold behavior.get_value, behavior_observer.get_value.
    rewrite get_unlocked by done. by apply send_grows.
  - intros w1 H1%grows_unlocked. unfold multicast_observer.add.
    repeat case_match; apply lands_in_Ret;
      [by apply grows_set_observers|by apply grows_refl|].
    by apply grows_unsubscribe, grows_refl.
Qed.

Lemma step_grows b (ev : behavior.event U T E) w :
  unlocked w -> lands_in (grows w) (behavior.step b ev w).
Proof.
  intros Hu. destruct ev as [v|e| |o|t]; unfold behavior.step.
  1-3: apply notify_lands_in;
    [by apply grows_refl|intros w'; apply grows_unsubscribe
    |intros _; by apply behavior_observer_grows].
  - by apply get_observable_grows.
  - by apply lands_in_Ret, grows_unsubscribe, grows_refl.
Qed.

Lemma play_grows b (evs : list (behavior.event U T E)) w :
  unlocked w -> lands_in (grows w) (behavior.play b evs w).
Proof.
  revert w. induction evs as [|ev evs IH]; intros w Hu; simpl.
  - by apply lands_in_Ret, grows_refl.
  - apply (lands_in_trans grows); [by apply step_grows|].
    intros w1 H1. apply IH. by eapply grows_unlocked.
Qed.

(** C29. An unsubscribed observer is told nothing, whatever follows: pushes,
    subscriptions, the end of the behavior, observers that cancel and throw. *)
Theorem unsubscribed_gets_nothing b evs t w :
  unlocked w ->
  cs_is_subscribed t w = false ->
  holds (fun w' => Forall (fun d => to_lifetime d <> t) (new_deliveries w w'))
    (behavior.play b evs w).
Proof.
  intros Hu Ht. eapply holds_impl; [by apply lands_in_holds, play_grows|].
  intros w' Hg%grows_new_deliveries. eapply Forall_impl; [exact Hg|].
  intros d Hd Heq. cbv beta in Hd. congruence.
Qed.

(** *** Observers that only record

    What a push and a subscription deliver, exactly, when the code of the
    observers changes the user's state and nothing else. *)

Definition is_effect (c : cmd U) : bool :=
  match c with
  | Effect _ => true
  | _ => false
  end.

Definition calm (o : observer) : Prop :=
  forall n, forallb is_effect (react (subscriber.destination o) n) = true.

(** The user's state after the effects of [cs]. *)
Fixpoint effects (cs : list (cmd U)) (u : U) : U :=
  match cs with
  | [] => u
  | Effect f :: cs => effects cs (f u)
  | _ :: cs => effects cs u
  end.

(** The world after [o] was told [n]. *)
Definition told (o : observer) n (w : world) : world :=
  set_user (effects (react (subscriber.destination o) n) (user w))
    (log (delivery_to o n) w).

(** The world after the observers [os] that are subscribed were told [n]. *)
Definition cast_to (os : list observer) n (w : world) : world :=
  foldl (fun w o => if subscriber.is_subscribed o w then told o n w else w) w os.

(** The world after [v] was pushed. *)
Definition pushed v (w : world) : world :=
  cast_to (observers w) (Next v) (set_cell (behavior_observer_state.Make false v) w).

Lemma cast_to_cons o (os : list observer) n w :
  cast_to (o :: os) n w
  = cast_to os n (if subscriber.is_subscribed o w then told o n w else w).
Proof. done. Qed.

Lemma exec_all_calm (cs : list (cmd U)) w :
  forallb is_effect cs = true ->
  exec_all cs w = Ret (set_user (effects cs (user w)) w).
Proof.
  revert w. induction cs as [|[f|t|] cs IH]; intros w; simpl; try done.
  - by destruct w.
  - intros Hcs. by rewrite IH.
Qed.

Lemma send_calm o v w :
  calm o -> subscriber.is_subscribed o w = true ->
  send o (Next v) w = Ret (told o (Next v) w).
Proof.
  intros Hc Ho. unfold send.
  apply on_next_returns; [done|]. simpl. unfold tell_recorded, tell. simpl.
  by rewrite exec_all_calm.
Qed.

Lemma send_dead o n w :
  subscriber.is_subscribed o w = false -> send o n w = Ret w.
Proof. intros Ho. unfold send. by apply notify_unsubscribed. Qed.

Lemma send_all_calm (os : list observer) v w :
  Forall calm os -> send_all os (Next v) w = Ret (cast_to os (Next v) w).
Proof.
  intros Hos. revert w. induction Hos as [|o os Ho _ IH]; intros w; [done|].
  rewrite cast_to_cons. cbn [send_all].
  destruct (subscriber.is_subscribed o w) eqn:Hl.
  - rewrite send_calm by done. apply IH.
  - rewrite send_dead by done. apply IH.
Qed.

(** Casting changes the history and the user's state only. *)
Lemma cast_to_frame (os : list observer) n w :
  subs (cast_to os n w) = subs w /\ cell (cast_to os n w) = cell w /\
  observers (cast_to os n w) = observers w /\
  delivered (cast_to os n w)
  = delivered w
    ++ map (fun o => delivery_to o n)
         (filter (fun o => subscriber.is_subscribed o w = true) os).
Proof.
  revert w. induction os as [|o os IH]; intros w.
  - unfold cast_to. simpl. by rewrite app_nil_r.
  - rewrite cast_to_cons, filter_cons.
    destruct (IH (if subscriber.is_subscribed o w then told o n w else w))
      as (-> & -> & -> & ->).
    rewrite (list_filter_iff _ (fun o' => subscriber.is_subscribed o' w = true))
      by (intros o'; by case_match).
    destruct (subscriber.is_subscribed o w) eqn:Hl.
    + rewrite decide_True by done. simpl. by rewrite <- app_assoc.
    + rewrite decide_False by congruence. done.
Qed.

Lemma pushed_frame v w :
  subs (pushed v w) = subs w /\
  cell (pushed v w) = behavior_observer_state.Make false v /\
  observers (pushed v w) = observers w /\
  delivered (pushed v w)
  = delivered w ++ map (fun o => delivery_to o (Next v)) (current w).
Proof.
  unfold pushed.
  destruct (cast_to_frame (observers w) (Next v)
              (set_cell (behavior_observer_state.Make false v) w)) as (-> & -> & -> & ->).
  done.
Qed.

(** [on_next] of the observer of the behavior, called without the guard
    of its subscriber. *)
Lemma on_next_calm (s : behavior_observer.t) v w :
  unlocked w -> Forall calm (observers w) ->
  behavior_observer.on_next s v w = Ret (pushed v w).
Proof.
  intros Hu Hc. unfold behavior_observer.on_next. rewrite reset_unlocked by done. simpl.
  unfold multicast_observer.on_next. simpl. by rewrite send_all_calm.
Qed.

Lemma push_calm b v w :
  unlocked w -> cs_is_subscribed (behavior.lifetime b) w = true ->
  Forall calm (observers w) ->
  behavior.step b (behavior.Push v) w = Ret (pushed v w).
Proof.
  intros Hu Hl Hc. unfold behavior.step.
  apply on_next_returns; [done|]. by apply on_next_calm.
Qed.

(** The observer of a behavior is under the lifetime of the behavior, as
    the constructor makes it. *)
Definition well_formed b : Prop :=
  multicast_observer.lifetime (behavior_observer.base (behavior.s b)) = behavior.lifetime b.

Lemma create_well_formed (f : T) cs w : well_formed (behavior.create f cs w).1.
Proof. done. Qed.

Lemma subscribe_calm b o w :
  well_formed b ->
  unlocked w -> cs_is_subscribed (behavior.lifetime b) w = true ->
  calm o -> subscriber.is_subscribed o w = true ->
  behavior.step b (behavior.Subscribe o) w
  = Ret (set_observers (current w ++ [o])
           (told o (Next (behavior_observer_state.value (cell w))) w)).
Proof.
  intros Hwf Hu Hl Hc Ho. unfold behavior.step, behavior.get_observable. rewrite Hl.
  unfold behavior.get_value, behavior_observer.get_value.
  rewrite get_unlocked by done. cbn [and_then]. rewrite send_calm by done.
  cbn [and_then]. unfold multicast_observer.add. rewrite Hwf.
  assert (cs_is_subscribed (behavior.lifetime b)
            (told o (Next (behavior_observer_state.value (cell w))) w) = true) as -> by done.
  assert (subscriber.is_subscribed o
            (told o (Next (behavior_observer_state.value (cell w))) w) = true) as -> by done.
  done.
Qed.

(** [steady b w]: the behavior is in use.  It is as its constructor made
    it, its mutex is free, its lifetime has not ended and its observers
    only record. *)
Definition steady b (w : world) : Prop :=
  well_formed b /\ unlocked w /\
  cs_is_subscribed (behavior.lifetime b) w = true /\
  Forall calm (observers w).

Lemma new_deliveries_app w w' ext :
  delivered w' = delivered w ++ ext -> new_deliveries w w' = ext.
Proof. intros Hd. unfold new_deliveries. by rewrite Hd, drop_app_length. Qed.

Lemma get_value_unlocked b (k : T -> world -> outcome world) w :
  unlocked w ->
  behavior.get_value b k w = k (behavior_observer_state.value (cell w)) w.
Proof.
  intros Hu. unfold behavior.get_value, behavior_observer.get_value.
  by rewrite get_unlocked.
Qed.

Lemma current_same w w' :
  subs w' = subs w -> observers w' = observers w -> current w' = current w.
Proof.
  intros Hs Ho. unfold current, subscriber.is_subscribed. simpl. by rewrite Hs, Ho.
Qed.

Lemma pushed_steady b v w : steady b w -> steady b (pushed v w).
Proof.
  intros (Hwf & Hu & Hl & Hc). destruct (pushed_frame v w) as (Hs & Hv & Ho & _).
  split_and!; [done|by unfold unlocked; rewrite Hv| |by rewrite Ho].
  simpl in *. by rewrite Hs.
Qed.

(** A run of pushes. *)
Lemma pushes_calm b (vs : list T) w :
  steady b w ->
  exists w', behavior.play b (map behavior.Push vs) w = Ret w' /\
    steady b w' /\ subs w' = subs w /\ observers w' = observers w /\
    delivered w'
    = delivered w
      ++ flat_map (fun v => map (fun o => delivery_to o (Next v)) (current w)) vs /\
    behavior_observer_state.value (cell w')
    = default (behavior_observer_state.value (cell w)) (last vs).
Proof.
  revert w. induction vs as [|v vs IH]; intros w Hw.
  - exists w. simpl. by rewrite app_nil_r.
  - pose proof Hw as (Hwf & Hu & Hl & Hc).
    destruct (pushed_frame v w) as (Hs & Hv & Ho & Hd).
    destruct (IH (pushed v w) (pushed_steady b v w Hw))
      as (w' & Hp & Hw' & Hs' & Ho' & Hd' & Hv').
    exists w'. cbn [map behavior.play]. rewrite push_calm by done. cbn [and_then].
    split_and!; [done|done|congruence|congruence| |].
    + rewrite Hd', Hd, (current_same w (pushed v w)) by done.
      simpl. by rewrite <- app_assoc.
    + rewrite Hv', Hv, last_cons. simpl. by destruct (last vs).
Qed.

(** A push on a behavior in use stores the value and reaches every current
    observer once, in the order of subscription. *)
Theorem push_reaches_every_observer b v w :
  steady b w ->
  exists w', behavior.step b (behavior.Push v) w = Ret w' /\
    new_deliveries w w' = map (fun o => delivery_to o (Next v)) (current w) /\
    behavior_observer_state.value (cell w') = v /\
    observers w' = observers w.
Proof.
  intros (Hwf & Hu & Hl & Hc). exists (pushed v w).
  destruct (pushed_frame v w) as (Hs & Hv & Ho & Hd).
  split_and!; [by apply push_calm|by apply new_deliveries_app|by rewrite Hv|done].
Qed.

(** A new subscriber is told the current value, once, and joins the
    observers behind those that are still subscribed. *)
Theorem subscriber_gets_current_value b o w :
  steady b w -> calm o -> subscriber.is_subscribed o w = true ->
  exists w', behavior.step b (behavior.Subscribe o) w = Ret w' /\
    new_deliveries w w'
    = [delivery_to o (Next (behavior_observer_state.value (cell w)))] /\
    observers w' = current w ++ [o] /\
    cell w' = cell w.
Proof.
  intros (Hwf & Hu & Hl & Hc) Hco Ho. eexists.
  split; [by apply subscribe_calm|]. by split_and!; [apply new_deliveries_app|..].
Qed.

(** A push followed by a subscription: the new subscriber is told the pushed
    value, and told it once. *)
Theorem push_then_subscribe_once b v o w :
  steady b w -> calm o -> subscriber.is_subscribed o w = true ->
  Forall (fun o' => subscriber.lifetime o' <> subscriber.lifetime o) (observers w) ->
  exists w', behavior.play b [behavior.Push v; behavior.Subscribe o] w = Ret w' /\
    filter (fun d => to_lifetime d = subscriber.lifetime o) (new_deliveries w w')
    = [delivery_to o (Next v)].
Proof.
  intros Hw Hco Ho Hfresh. pose proof Hw as (Hwf & Hu & Hl & Hc).
  destruct (pushed_frame v w) as (Hs & Hv & Hobs & Hd).
  destruct (pushed_steady b v w Hw) as (_ & Hu' & Hl' & _).
  eexists. cbn [behavior.play]. rewrite push_calm by done. cbn [and_then].
  rewrite subscribe_calm by (done || (unfold subscriber.is_subscribed in *; simpl in *;
                                      by rewrite Hs)).
  cbn [and_then]. split; [done|].
  erewrite new_deliveries_app; last first.
  { simpl. rewrite Hd, Hv. simpl. by rewrite <- app_assoc. }
  rewrite filter_app, filter_cons, decide_True, filter_nil by done.
  rewrite filter_none; [done|].
  apply Forall_forall. intros d (o' & -> & Ho')%list_elem_of_fmap.
  unfold current in Ho'. apply list_elem_of_filter in Ho' as [_ Ho'].
  rewrite Forall_forall in Hfresh. by apply Hfresh.
Qed.

(** C23. Every observer sees all the pushes, in the order they were pushed, none
    skipped and none twice; and [get_value] gives the value pushed last. *)
Theorem pushes_arrive_in_order b (vs : list T) w :
  steady b w ->
  exists w', behavior.play b (map behavior.Push vs) w = Ret w' /\
    new_deliveries w w'
    = flat_map (fun v => map (fun o => delivery_to o (Next v)) (current w)) vs /\
    forall k, behavior.get_value b k w'
              = k (default (behavior_observer_state.value (cell w)) (last vs)) w'.
Proof.
  intros Hw. destruct (pushes_calm b vs w Hw)
    as (w' & Hp & (_ & Hu' & _) & _ & _ & Hd & Hv).
  exists w'. split_and!; [done|by apply new_deliveries_app|].
  intros k. by rewrite get_value_unlocked, Hv.
Qed.

(** *** A push that races with a subscription

    [behavior_observer::on_next] and the function of [get_observable] are
    two steps each, and nothing makes the two steps one: another thread may
    run between them.  The steps are the atoms below; a thread is a list of
    atoms, and what two threads do together is an interleaving of their
    lists. *)

Inductive atom : Type :=
| Store (v : T)           (* [state->reset(v)] *)
| Cast (v : T)            (* [base_type::on_next(v)] *)
| Replay (o : observer)   (* [if (lifetime.is_subscribed()) o.on_next(get_value())] *)
| Join (o : observer).    (* [s.add(o)] *)

Definition run_atom b (a : atom) (w : world) : outcome world :=
  match a with
  | Store v => on_cell (behavior_observer_state.reset v) w
  | Cast v => multicast_observer.on_next (behavior_observer.base (behavior.s b)) v w
  | Replay o =>
      if cs_is_subscribed (behavior.lifetime b) w
      then behavior.get_value b (fun v => send o (Next v)) w
      else Ret w
  | Join o => multicast_observer.add (behavior_observer.base (behavior.s b)) o w
  end.

Fixpoint run_atoms b (p : list atom) (w : world) : outcome world :=
  match p with
  | [] => Ret w
  | a :: p => do w <- run_atom b a w; run_atoms b p w
  end.

(** [behavior_observer::on_next(v)] *)
Definition push_atoms v : list atom := [Store v; Cast v].

(** The function of [get_observable], for the subscriber [o]. *)
Definition subscribe_atoms o : list atom := [Replay o; Join o].

(** The two operations are their atoms, in order. *)
Lemma on_next_atoms b v w :
  behavior_observer.on_next (behavior.s b) v w = run_atoms b (push_atoms v) w.
Proof.
  unfold behavior_observer.on_next. cbn [run_atoms push_atoms run_atom].
  destruct (on_cell _ w); [|done..]. cbn [and_then]. by rewrite and_then_Ret_r.
Qed.

Lemma get_observable_atoms b o w :
  behavior.get_observable b o w = run_atoms b (subscribe_atoms o) w.
Proof.
  unfold behavior.get_observable. cbn [run_atoms subscribe_atoms run_atom].
  destruct (if cs_is_subscribed _ w then _ else _); [|done..].
  cbn [and_then]. by rewrite and_then_Ret_r.
Qed.

(** What each atom does to a behavior in use. *)
Lemma store_calm b v w :
  unlocked w ->
  run_atom b (Store v) w = Ret (set_cell (behavior_observer_state.Make false v) w).
Proof. apply reset_unlocked. Qed.

Lemma cast_calm b v w :
  Forall calm (observers w) ->
  run_atom b (Cast v) w = Ret (cast_to (observers w) (Next v) w).
Proof. apply send_all_calm. Qed.

Lemma replay_calm b o w :
  unlocked w -> cs_is_subscribed (behavior.lifetime b) w = true ->
  calm o -> subscriber.is_subscribed o w = true ->
  run_atom b (Replay o) w
  = Ret (told o (Next (behavior_observer_state.value (cell w))) w).
Proof.
  intros Hu Hl Hc Ho. cbn [run_atom]. rewrite Hl, get_value_unlocked by done.
  by apply send_calm.
Qed.

Lemma join_calm b o w :
  well_formed b -> cs_is_subscribed (behavior.lifetime b) w = true ->
  subscriber.is_subscribed o w = true ->
  run_atom b (Join o) w = Ret (set_observers (current w ++ [o]) w).
Proof.
  intros Hwf Hl Ho. cbn [run_atom]. unfold multicast_observer.add.
  by rewrite Hwf, Hl, Ho.
Qed.

Lemma is_subscribed_same t w w' :
  subs w' = subs w -> cs_is_subscribed t w' = cs_is_subscribed t w.
Proof. intros Hs. simpl. by rewrite Hs. Qed.

(** Filtering the current observers again changes nothing. *)
Lemma current_filter w w' :
  subs w' = subs w ->
  filter (fun o => subscriber.is_subscribed o w' = true) (current w) = current w.
Proof.
  intros Hs. unfold current.
  rewrite (list_filter_iff _ (fun o => subscriber.is_subscribed o w = true))
    by (intros o; unfold subscriber.is_subscribed; simpl; by rewrite Hs).
  rewrite list_filter_filter. apply list_filter_iff. tauto.
Qed.

(** The subscription sees the old value and joins after the cast: the
    pushed value never reaches the new subscriber, although it is
    subscribed while the behavior holds that value. *)
Theorem racing_subscriber_misses_push b v o w :
  steady b w -> calm o -> subscriber.is_subscribed o w = true ->
  [Replay o; Store v; Cast v; Join o] ∈ interleavings (push_atoms v) (subscribe_atoms o) /\
  exists w', run_atoms b [Replay o; Store v; Cast v; Join o] w = Ret w' /\
    new_deliveries w w'
    = delivery_to o (Next (behavior_observer_state.value (cell w)))
      :: map (fun o' => delivery_to o' (Next v)) (current w) /\
    observers w' = current w ++ [o] /\
    behavior_observer_state.value (cell w') = v.
Proof.
  intros (Hwf & Hu & Hl & Hc) Hco Ho. split; [simpl; rewrite !elem_of_cons; auto 10|].
  set (w1 := told o (Next (behavior_observer_state.value (cell w))) w).
  set (w2 := set_cell (behavior_observer_state.Make false v) w1).
  destruct (cast_to_frame (observers w2) (Next v) w2) as (Hs3 & Hc3 & Ho3 & Hd3).
  set (w3 := cast_to (observers w2) (Next v) w2) in *.
  exists (set_observers (current w3 ++ [o]) w3). split.
  { cbn [run_atoms]. rewrite replay_calm by done. cbn [and_then].
    rewrite store_calm by done. cbn [and_then].
    rewrite cast_calm by done. cbn [and_then].
    rewrite join_calm; [done|done|..]; unfold subscriber.is_subscribed;
      by erewrite is_subscribed_same by exact Hs3. }
  split_and!.
  - apply new_deliveries_app. simpl. rewrite Hd3. simpl. by rewrite <- app_assoc.
  - simpl. f_equal. by apply current_same.
  - simpl. by rewrite Hc3.
Qed.

(** The subscription sees the pushed value and joins before the cast: the
    new subscriber is told the pushed value twice. *)
Theorem racing_subscriber_told_twice b v o w :
  steady b w -> calm o -> subscriber.is_subscribed o w = true ->
  [Store v; Replay o; Join o; Cast v] ∈ interleavings (push_atoms v) (subscribe_atoms o) /\
  exists w', run_atoms b [Store v; Replay o; Join o; Cast v] w = Ret w' /\
    new_deliveries w w'
    = delivery_to o (Next v)
      :: map (fun o' => delivery_to o' (Next v)) (current w ++ [o]).
Proof.
  intros (Hwf & Hu & Hl & Hc) Hco Ho. split; [simpl; rewrite !elem_of_cons; auto 10|].
  set (w1 := set_cell (behavior_observer_state.Make false v) w).
  set (w2 := told o (Next v) w1).
  set (w3 := set_observers (current w2 ++ [o]) w2).
  destruct (cast_to_frame (observers w3) (Next v) w3) as (_ & _ & _ & Hd3).
  assert (current w2 = current w) as Hcur by (by apply current_same).
  exists (cast_to (observers w3) (Next v) w3). split.
  { cbn [run_atoms]. rewrite store_calm by done. cbn [and_then].
    rewrite replay_calm by (done || by unfold unlocked). cbn [and_then].
    rewrite join_calm by done. cbn [and_then].
    rewrite cast_calm; [done|]. change (Forall calm (current w2 ++ [o])). rewrite Hcur.
    apply Forall_app. split; [|by constructor].
    unfold current. by apply Forall_filter_keep. }
  apply new_deliveries_app. rewrite Hd3.
  change (observers w3) with (current w2 ++ [o]).
  change (delivered w3) with (delivered w ++ [delivery_to o (Next v)]).
  rewrite Hcur, filter_app, (current_filter w w3), filter_cons, decide_True, filter_nil
    by done.
  by rewrite <- app_assoc.
Qed.

(** *** The end of a behavior *)

(** A subscription to a behavior whose lifetime has ended delivers nothing,
    and the subscriber is unsubscribed. *)
Theorem subscribe_after_end b o w :
  well_formed b ->
  cs_is_subscribed (behavior.lifetime b) w = false ->
  exists w', behavior.step b (behavior.Subscribe o) w = Ret w' /\
    delivered w' = delivered w /\ observers w' = observers w /\
    subscriber.is_subscribed o w' = false.
Proof.
  intros Hwf Hl. exists (subscriber.unsubscribe o w).
  unfold behavior.step, behavior.get_observable, multicast_observer.add.
  rewrite Hl. cbn [and_then]. rewrite Hwf, Hl.
  split_and!; [done..|]. apply (cs_unsubscribe_off (W:=world)).
Qed.

(** A push into a behavior whose lifetime has ended is dropped: nobody is
    told, and the value is not stored. *)
Theorem push_after_end_is_dropped b v w :
  cs_is_subscribed (behavior.lifetime b) w = false ->
  behavior.step b (behavior.Push v) w = Ret w.
Proof. intros Hl. by apply notify_unsubscribed. Qed.

(** C38. An exception out of an observer goes through the cast and through the
    subscriber of the behavior, whose detacher ends the lifetime of the
    behavior: every later push is dropped, for every observer. *)
Theorem observer_exception_ends_behavior b v w w' :
  cs_is_subscribed (behavior.lifetime b) w = true ->
  behavior.step b (behavior.Push v) w = Throw w' ->
  cs_is_subscribed (behavior.lifetime b) w' = false /\
  forall vs, behavior.play b (map behavior.Push vs) w' = Ret w'.
Proof.
  intros Hl Hth.
  pose proof (notify_throws (behavior.get_subscriber b) (Next v) w w' Hth Hl) as Hdead.
  change (cs_is_subscribed (behavior.lifetime b) w' = false) in Hdead.
  split; [done|]. induction vs as [|v' vs IH]; [done|].
  cbn [map behavior.play]. unfold behavior.step.
  by rewrite notify_unsubscribed.
Qed.

(** Telling a subscriber that the sequence has ended ends its lifetime. *)
Lemma send_terminal o n w w' :
  is_terminal n = true -> send o n w = Ret w' -> subscriber.is_subscribed o w' = false.
Proof.
  intros Hn Hs. unfold send in Hs.
  pose proof (notify_terminal (subscriber.Make (subscriber.lifetime o) (Recorded o))
                n w Hn) as Ht.
  by rewrite Hs in Ht.
Qed.

Lemma send_all_terminal (os : list observer) n w w' :
  is_terminal n = true -> unlocked w -> send_all os n w = Ret w' ->
  Forall (fun o => subscriber.is_subscribed o w' = false) os.
Proof.
  intros Hn. revert w. induction os as [|o os IH]; intros w Hu; [by constructor|].
  cbn [send_all]. intros (w1 & H1 & H2)%and_then_Ret_inv.
  pose proof (send_grows o n w Hu) as [_ Hg1]. rewrite H1 in Hg1.
  pose proof (send_all_grows os n w1 (grows_unlocked _ _ Hg1)) as [_ Hg2].
  rewrite H2 in Hg2. destruct Hg2 as (_ & Hn2 & _).
  constructor; [|by eapply IH; [eapply grows_unlocked|]].
  eapply (narrows_dead (W:=world)); [exact Hn2|]. by eapply send_terminal.
Qed.

(** The client call that tells the behavior [n]. *)
Definition event_of n : behavior.event U T E :=
  match n with
  | Next v => behavior.Push v
  | Error e => behavior.Fail e
  | Completed => behavior.Complete
  end.

Lemma step_event_of b n w :
  behavior.step b (event_of n) w = notify (behavior.get_subscriber b) n w.
Proof. by destruct n. Qed.

Lemma terminal_cast b n w w' :
  is_terminal n = true -> notify (behavior.s b) n w = Ret w' ->
  send_all (observers w) n w = Ret w'.
Proof. by destruct n. Qed.

(** When a behavior is told that the sequence has ended, and the call
    returns, its lifetime has ended and so has that of every observer. *)
Theorem terminal_ends_every_observer b n w w' :
  is_terminal n = true -> unlocked w ->
  behavior.step b (event_of n) w = Ret w' ->
  cs_is_subscribed (behavior.lifetime b) w = true ->
  cs_is_subscribed (behavior.lifetime b) w' = false /\ current w' = [].
Proof.
  intros Hn Hu Hs Hl. rewrite step_event_of in Hs.
  pose proof (notify_terminal (behavior.get_subscriber b) n w Hn) as Hend.
  rewrite Hs in Hend. split; [done|].
  apply notify_Ret_inv in Hs as (w1 & Hsend & ->); [|done].
  rewrite Hn. apply terminal_cast in Hsend; [|done].
  pose proof (send_all_casts (observers w) n w Hu) as [_ Hc].
  rewrite Hsend in Hc. unfold holds in Hc. cbn [final] in Hc.
  destruct Hc as (_ & Hobs & _). unfold current. change (observers (subscriber.unsubscribe _ w1)) with (observers w1).
  rewrite Hobs. apply filter_none.
  eapply Forall_impl; [by eapply send_all_terminal|].
  intros o Ho Hlive. cbv beta in Ho. unfold subscriber.is_subscribed in *.
  apply (cs_unsubscribe_narrows (W:=world)) in Hlive. congruence.
Qed.

End behavior_facts.

(** ** A behavior at work

    A behavior over the reference implementation of subscriptions, with
    observers that count what they are told, and one that throws. *)
Module behavior_example.
Import subjects.

Abbreviation world := (subjects.world composite_subscription.store nat nat unit).
Abbreviation observer := (subscriber.t (dest nat nat unit)).

(** Three lifetimes: [0] for the behavior, [1] and [2] for subscribers. *)
Definition subs0 : composite_subscription.store :=
  (composite_subscription.create
     (composite_subscription.create
        (composite_subscription.create composite_subscription.empty).2).2).2.

Definition recorder (i : nat) : dest nat nat unit := Dest i (fun _ => [Effect S]).
Definition thrower (i : nat) : dest nat nat unit := Dest i (fun _ => [Raise]).

Definition A : observer := subscriber.Make 1 (recorder 10).
Definition B : observer := subscriber.Make 2 (recorder 20).
Definition Z : observer := subscriber.Make 2 (thrower 30).

Definition w0 : world := World subs0 (behavior_observer_state.create 7) [] [] 0.

(** The behavior, seeded with [0], and the world it starts in. *)
Definition b : behavior.t := (behavior.create 0 0 w0).1.
Definition w_seed : world := (behavior.create 0 0 w0).2.

Definition after (evs : list (behavior.event nat nat unit)) : world :=
  final (behavior.play b evs w_seed).

(** Who was told what. *)
Definition heard (w : world) : list (nat * notification nat unit) :=
  map (fun d => (to_dest d, what d)) (delivered w).

Lemma recorder_calm l i : calm (subscriber.Make l (recorder i)).
Proof. by intros n. Qed.

Lemma steady_after_A : steady b (after [behavior.Subscribe A]).
Proof. split_and!; [done|done|by vm_compute|repeat constructor; apply recorder_calm]. Qed.

(** The example of section 8: [A] subscribes and hears the seed, [1] is
    pushed, [B] subscribes and hears [1], both hear [2], [A] unsubscribes,
    only [B] hears [3]. *)
Example broadcast_of_the_specification :
  heard (after [behavior.Subscribe A; behavior.Push 1; behavior.Subscribe B;
                behavior.Push 2; behavior.Cancel 1; behavior.Push 3])
  = [(10, Next 0); (10, Next 1); (20, Next 1); (10, Next 2); (20, Next 2); (20, Next 3)].
Proof. by vm_compute. Qed.

Lemma unsubscribed_gets_nothing_witness :
  holds (fun w' => Forall (fun d => to_lifetime d <> 1)
                     (new_deliveries (after [behavior.Subscribe A; behavior.Cancel 1]) w'))
    (behavior.play b [behavior.Push 1; behavior.Subscribe A; behavior.Push 2]
       (after [behavior.Subscribe A; behavior.Cancel 1])).
Proof. apply unsubscribed_gets_nothing; by vm_compute. Defined.

Lemma push_reaches_every_observer_witness :
  exists w', behavior.step b (behavior.Push 5) (after [behavior.Subscribe A]) = Ret w' /\
    new_deliveries (after [behavior.Subscribe A]) w'
    = map (fun o => delivery_to o (Next 5)) (current (after [behavior.Subscribe A])) /\
    behavior_observer_state.value (cell w') = 5 /\
    observers w' = observers (after [behavior.Subscribe A]).
Proof. apply push_reaches_every_observer, steady_after_A. Defined.

Lemma subscriber_gets_current_value_witness :
  exists w', behavior.step b (behavior.Subscribe B) (after [behavior.Subscribe A]) = Ret w' /\
    new_deliveries (after [behavior.Subscribe A]) w'
    = [delivery_to B (Next (behavior_observer_state.value
                              (cell (after [behavior.Subscribe A]))))] /\
    observers w' = current (after [behavior.Subscribe A]) ++ [B] /\
    cell w' = cell (after [behavior.Subscribe A]).
Proof.
  apply subscriber_gets_current_value;
    [apply steady_after_A|apply recorder_calm|by vm_compute].
Defined.

Lemma push_then_subscribe_once_witness :
  exists w', behavior.play b [behavior.Push 5; behavior.Subscribe B]
               (after [behavior.Subscribe A]) = Ret w' /\
    filter (fun d => to_lifetime d = subscriber.lifetime B)
      (new_deliveries (after [behavior.Subscribe A]) w')
    = [delivery_to B (Next 5)].
Proof.
  apply push_then_subscribe_once;
    [apply steady_after_A|apply recorder_calm|by vm_compute
    |by vm_compute; repeat constructor].
Defined.

Lemma pushes_arrive_in_order_witness :
  exists w', behavior.play b (map behavior.Push [1; 2; 3]) (after [behavior.Subscribe A])
             = Ret w' /\
    new_deliveries (after [behavior.Subscribe A]) w'
    = flat_map (fun v => map (fun o => delivery_to o (Next v))
                           (current (after [behavior.Subscribe A]))) [1; 2; 3] /\
    forall k, behavior.get_value b k w'
              = k (default (behavior_observer_state.value
                              (cell (after [behavior.Subscribe A]))) (last [1; 2; 3])) w'.
Proof. apply pushes_arrive_in_order, steady_after_A. Defined.

Lemma racing_subscriber_misses_push_witness :
  [Replay B; Store 5; Cast 5; Join B] ∈ interleavings (push_atoms 5) (subscribe_atoms B) /\
  exists w', run_atoms b [Replay B; Store 5; Cast 5; Join B] (after [behavior.Subscribe A])
             = Ret w' /\
    new_deliveries (after [behavior.Subscribe A]) w'
    = delivery_to B (Next (behavior_observer_state.value
                             (cell (after [behavior.Subscribe A]))))
      :: map (fun o' => delivery_to o' (Next 5)) (current (after [behavior.Subscribe A])) /\
    observers w' = current (after [behavior.Subscribe A]) ++ [B] /\
    behavior_observer_state.value (cell w') = 5.
Proof.
  apply racing_subscriber_misses_push;
    [apply steady_after_A|apply recorder_calm|by vm_compute].
Defined.

Lemma racing_subscriber_told_twice_witness :
  [Store 5; Replay B; Join B; Cast 5] ∈ interleavings (push_atoms 5) (subscribe_atoms B) /\
  exists w', run_atoms b [Store 5; Replay B; Join B; Cast 5] (after [behavior.Subscribe A])
             = Ret w' /\
    new_deliveries (after [behavior.Subscribe A]) w'
    = delivery_to B (Next 5)
      :: map (fun o' => delivery_to o' (Next 5))
           (current (after [behavior.Subscribe A]) ++ [B]).
Proof.
  apply racing_subscriber_told_twice;
    [apply steady_after_A|apply recorder_calm|by vm_compute].
Defined.

(** What the race looks like: [B] hears the seed and never [5], or hears
    [5] twice. *)
Example race_scenarios :
  heard (final (run_atoms b [Replay B; Store 5; Cast 5; Join B] (after [behavior.Subscribe A])))
  = [(10, Next 0); (20, Next 0); (10, Next 5)] /\
  heard (final (run_atoms b [Store 5; Replay B; Join B; Cast 5] (after [behavior.Subscribe A])))
  = [(10, Next 0); (20, Next 5); (10, Next 5); (20, Next 5)].
Proof. by vm_compute. Qed.

Lemma subscribe_after_end_witness :
  exists w', behavior.step b (behavior.Subscribe A) (after [behavior.Cancel 0]) = Ret w' /\
    delivered w' = delivered (after [behavior.Cancel 0]) /\
    observers w' = observers (after [behavior.Cancel 0]) /\
    subscriber.is_subscribed A w' = false.
Proof. apply subscribe_after_end; by vm_compute. Defined.

Lemma push_after_end_is_dropped_witness :
  behavior.step b (behavior.Push 5) (after [behavior.Cancel 0]) = Ret (after [behavior.Cancel 0]).
Proof. apply push_after_end_is_dropped. by vm_compute. Defined.

(** [A] and then [Z] subscribe. *)
Definition w_thrown : world :=
  final (behavior.play b [behavior.Subscribe A; behavior.Subscribe Z] w_seed).

(** [Z] throws at the replay of its own subscription, which leaves the
    function of the observable before [Z] joins. *)
Example thrower_never_joins :
  behavior.play b [behavior.Subscribe A; behavior.Subscribe Z] w_seed = Throw w_thrown /\
  length (observers w_thrown) = 1.
Proof. by vm_compute. Qed.

(** A world in which the thrower is among the observers. *)
Definition w_trap : world := set_observers [A; Z] (after [behavior.Subscribe A]).
Definition w_sprung : world := final (behavior.step b (behavior.Push 5) w_trap).

Lemma observer_exception_ends_behavior_witness :
  cs_is_subscribed (behavior.lifetime b) w_sprung = false /\
  forall vs, behavior.play b (map behavior.Push vs) w_sprung = Ret w_sprung.
Proof.
  apply (observer_exception_ends_behavior b 5 w_trap w_sprung); by vm_compute.
Defined.

Lemma terminal_ends_every_observer_witness :
  cs_is_subscribed (behavior.lifetime b)
    (after [behavior.Subscribe A; behavior.Subscribe B; behavior.Complete]) = false /\
  current (after [behavior.Subscribe A; behavior.Subscribe B; behavior.Complete]) = [].
Proof.
  apply (terminal_ends_every_observer b Completed
           (after [behavior.Subscribe A; behavior.Subscribe B])); by vm_compute.
Defined.

End behavior_example.
