(* ===== verification/Race.v ===== *)
(** * Race: calls into a behavior from two threads

    [behavior_observer::on_next] and the function of [behavior::get_observable]
    in [src/libs/librxcpp/includes/rxcpp/subjects/rx-behavior.hpp] take the
    mutex of the value for one statement each and call the observers outside
    it.  [Behavior] splits them into atoms; this file says what every
    schedule of the atoms of two calls does to one subscriber.

    - [race.t], [race.step], [race.run]: a machine with three registers (the
      value held, how often the subscriber is in the list of observers, what
      it has been told) that the atoms drive.
    - [race_refines_machine]: the behavior, watched at one subscriber, is
      that machine.
    - [push_subscribe_schedules], [push_push_schedules]: what the
      subscriber is told under each of the six schedules of a push with a
      subscription, and of two pushes. *)

From stdpp Require Import base list.
From S2P Require Import Prelude Lifetime Subscriber Behavior.

Module race.
Section race.
Import subjects.
Context {L U T E : Type} `{!LifetimeOps L, !Lifetimes L}.
#[local] Abbreviation world := (subjects.world L U T E).
#[local] Abbreviation observer := (subscriber.t (dest U T E)).
#[local] Abbreviation atom := (Behavior.atom (U:=U) (T:=T) (E:=E)).

(** What matters of a world to one subscriber. *)
Record t : Type := Make {
  val : T;             (* the value the behavior holds *)
  joined : nat;        (* how often the subscriber is among the observers *)
  heard : list T;      (* what it has been told, oldest first *)
}.

(** What an atom does to that. *)
Definition step (a : atom) (s : t) : t :=
  match a with
  | Store v => Make v (joined s) (heard s)
  | Cast v => Make (val s) (joined s) (heard s ++ replicate (joined s) v)
  | Replay _ => Make (val s) (joined s) (heard s ++ [val s])
  | Join _ => Make (val s) (S (joined s)) (heard s)
  end.

Definition run (p : list atom) (s : t) : t := foldl (fun s a => step a s) s p.

(** ** The behavior is that machine *)

Context (b : behavior.t) (o : observer).
Implicit Types (w : world) (s : t) (a : atom) (p : list atom).

(** The observers that are the subscriber, and the deliveries to it. *)
Definition same (o' : observer) : Prop :=
  dest_id (subscriber.destination o') = dest_id (subscriber.destination o).
Definition mine (d : delivery T E) : Prop :=
  to_dest d = dest_id (subscriber.destination o).

(** What the subscriber was told after the first [n0] deliveries. *)
Definition heard_since (n0 : nat) (w : world) : list (notification T E) :=
  map what (filter mine (drop n0 (delivered w))).

Definition abstracts (n0 : nat) (w : world) (s : t) : Prop :=
  behavior_observer_state.value (cell w) = val s /\
  length (filter same (current w)) = joined s /\
  n0 <= length (delivered w) /\
  heard_since n0 w = map Next (heard s).

(** The behavior is in use, and so is the subscriber. *)
Definition ready (w : world) : Prop :=
  steady b w /\ calm o /\ subscriber.is_subscribed o w = true.

(** The subscriptions among the atoms are those of the subscriber. *)
Definition about (a : atom) : Prop :=
  match a with
  | Replay o' | Join o' => o' = o
  | _ => True
  end.

Lemma heard_since_app n0 w w' ext :
  n0 <= length (delivered w) ->
  delivered w' = delivered w ++ ext ->
  heard_since n0 w' = heard_since n0 w ++ map what (filter mine ext).
Proof.
  intros Hn Hd. unfold heard_since.
  by rewrite Hd, drop_app_le, filter_app, map_app by done.
Qed.

Lemma map_replicate {A B} (f : A -> B) n x : map f (replicate n x) = replicate n (f x).
Proof. induction n as [|n IH]; simpl; by rewrite ?IH. Qed.

(** A cast reaches the subscriber once for each time it is in the list. *)
Lemma cast_heard (os : list observer) n :
  map what (filter mine (map (fun o' => delivery_to o' n) os))
  = replicate (length (filter same os)) n.
Proof.
  induction os as [|o' os IH]; [done|]. simpl. rewrite !filter_cons.
  unfold mine at 1, same at 1. simpl.
  destruct (decide (dest_id (subscriber.destination o') = _)); simpl; by rewrite IH.
Qed.

Lemma ready_same w w' :
  subs w' = subs w -> behavior_observer_state.lock (cell w') = false ->
  Forall calm (observers w') -> ready w -> ready w'.
Proof.
  intros Hs Hc Ho ((Hwf & _ & Hl & _) & Hco & Hsub).
  split; [split_and!; [done|done| |done]|split; [done|unfold subscriber.is_subscribed]];
    by erewrite is_subscribed_same by exact Hs.
Qed.

Lemma current_join w :
  subscriber.is_subscribed o w = true ->
  current (set_observers (current w ++ [o]) w) = current w ++ [o].
Proof.
  intros Hsub. unfold current at 1. cbn [observers set_observers].
  rewrite filter_app, (current_filter w) by done.
  by rewrite filter_cons, decide_True, filter_nil by exact Hsub.
Qed.

Lemma step_refines n0 a w s :
  ready w -> abstracts n0 w s -> about a ->
  exists w', run_atom b a w = Ret w' /\ ready w' /\ abstracts n0 w' (step a s).
Proof.
  intros Hr (Hv & Hj & Hn & Hh) Ha.
  pose proof Hr as ((Hwf & Hu & Hl & Hc) & Hco & Hsub).
  destruct a as [v|v|o'|o']; simpl in Ha; subst.
  - eexists. split; [by apply store_calm|]. split; [by eapply (ready_same w)|done].
  - destruct (cast_to_frame (observers w) (Next v) w) as (Hs' & Hc' & Ho' & Hd').
    eexists. split; [by apply cast_calm|]. split.
    + eapply (ready_same w); [done|by rewrite Hc'|by rewrite Ho'|done].
    + split_and!; simpl.
      * by rewrite Hc'.
      * by rewrite (current_same _ _ Hs' Ho').
      * rewrite Hd', length_app. lia.
      * rewrite (heard_since_app n0 w _ _ Hn Hd'), Hh, map_app. f_equal.
        fold (current w). by rewrite cast_heard, Hj, map_replicate.
  - eexists. split; [by apply replay_calm|]. split; [by eapply (ready_same w)|].
    split_and!; simpl; [done|done|rewrite length_app; lia|].
    erewrite (heard_since_app n0 w) by done. rewrite Hh, map_app, Hv. f_equal.
    by rewrite filter_cons, decide_True, filter_nil by done.
  - eexists. split; [by apply join_calm|]. split.
    + eapply (ready_same w); [done|exact Hu| |done]. simpl.
      apply Forall_app. split; [|by constructor].
      unfold current. by apply Forall_filter_keep.
    + split_and!; [done| |done|done].
      rewrite current_join, filter_app, length_app, Hj by done.
      rewrite filter_cons, decide_True by done. simpl. lia.
Qed.

(** C24. A behavior in use, watched at one subscriber, is the three-register
    machine: whatever atoms of pushes and of subscriptions of that
    subscriber run, in whatever order, every atom returns, the behavior
    stays in use, and the value held, the place of the subscriber among the
    observers and what it was told are what the machine says. *)
Theorem race_refines_machine n0 p w s :
  ready w -> abstracts n0 w s -> Forall about p ->
  exists w', run_atoms b p w = Ret w' /\ ready w' /\ abstracts n0 w' (run p s).
Proof.
  intros Hr Ha Hp. revert w s Hr Ha.
  induction Hp as [|a p Hab _ IH]; intros w s Hr Ha; [by exists w|].
  destruct (step_refines n0 a w s Hr Ha Hab) as (w1 & Hrun & Hr1 & Ha1).
  destruct (IH w1 _ Hr1 Ha1) as (w' & Hrun' & Hr' & Ha').
  exists w'. split; [|done]. cbn [run_atoms]. by rewrite Hrun.
Qed.

(** ** The schedules of two calls *)

(** What the subscriber is told from [w] to [w']. *)
Definition told_from (w w' : world) : list (notification T E) :=
  heard_since (length (delivered w)) w'.

(** The machine set to a world, with nothing heard yet. *)
Definition start (w : world) : t :=
  Make (behavior_observer_state.value (cell w)) (length (filter same (current w))) [].

Lemma abstracts_start w : abstracts (length (delivered w)) w (start w).
Proof. unfold abstracts, heard_since. by rewrite drop_all. Qed.

(** What one schedule does, read off the machine. *)
Lemma schedule_runs p w :
  ready w -> Forall about p ->
  exists w', run_atoms b p w = Ret w' /\
    told_from w w' = map Next (heard (run p (start w))) /\
    behavior_observer_state.value (cell w') = val (run p (start w)).
Proof.
  intros Hr Hp.
  destruct (race_refines_machine _ p w _ Hr (abstracts_start w) Hp)
    as (w' & Hrun & _ & Hv & _ & _ & Hh).
  by exists w'.
Qed.

(** The schedules of two calls, one by one. *)
Ltac schedules w Hr :=
  repeat match goal with
  | |- Forall2 _ [] [] => constructor
  | |- Forall2 _ (?p :: _) _ =>
      constructor;
        [destruct (schedule_runs p w Hr) as (?w' & ?Hrun & ?Hh & ?Hv);
           [by repeat constructor|eexists; split_and!; [eassumption|..]]|]
  end.

(** C25. A push of [v] and a subscription, from two threads, have six
    schedules.  In four of them the new subscriber is told [v] once, after
    the old value if the subscription came first; in one it is told [v]
    twice; in one it is told the old value and never [v], although it is
    subscribed while the behavior holds [v]. *)
Theorem push_subscribe_schedules v w :
  ready w ->
  filter same (current w) = [] ->
  Forall2 (fun p h => exists w', run_atoms b p w = Ret w' /\ told_from w w' = map Next h)
    (interleavings (push_atoms v) (subscribe_atoms o))
    (let old := behavior_observer_state.value (cell w) in
     [[v]; [v]; [v; v]; [old]; [old; v]; [old; v]]).
Proof.
  intros Hr Hnew. cbv [interleavings push_atoms subscribe_atoms app map].
  schedules w Hr; rewrite Hh; unfold start; by rewrite Hnew.
Qed.

(** C26. Two pushes, of [v1] and of [v2], from two threads have six
    schedules.  In two of them an observer is told the two values in one
    order and the behavior is left holding the value it told first: what
    [get_value] and new subscribers get from then on is not the value the
    observer heard last. *)
Theorem push_push_schedules v1 v2 w :
  ready w ->
  length (filter same (current w)) = 1 ->
  Forall2 (fun p hv => exists w', run_atoms b p w = Ret w' /\
             told_from w w' = map Next hv.1 /\
             behavior_observer_state.value (cell w') = hv.2)
    (interleavings (push_atoms v1) (push_atoms v2))
    [([v1; v2], v2); ([v1; v2], v2); ([v2; v1], v2);
     ([v1; v2], v1); ([v2; v1], v1); ([v2; v1], v1)].
Proof.
  intros Hr Hone. cbv [interleavings push_atoms app map].
  schedules w Hr; first [rewrite Hh|rewrite Hv]; unfold start; by rewrite Hone.
Qed.

End race.
End race.

(** ** The schedules of the specification's example *)

Module race_example.
Import subjects behavior_example.

(** [A] has subscribed and heard the seed. *)
Definition w_a : world := Eval vm_compute in after [behavior.Subscribe A].

Lemma ready_a (o : observer) :
  calm o -> subscriber.is_subscribed o w_a = true -> race.ready b o w_a.
Proof.
  intros Hc Hs. split; [|done].
  split_and!; [done|done|by vm_compute|repeat constructor; apply recorder_calm].
Qed.

Lemma race_refines_machine_witness :
  exists w', run_atoms b [Store 5; Replay B; Cast 5; Join B; Cast 6] w_a = Ret w' /\
    race.ready b B w' /\
    race.abstracts B 1 w'
      (race.run [Store 5; Replay B; Cast 5; Join B; Cast 6] (race.start B w_a)).
Proof.
  apply (race.race_refines_machine b B 1 _ w_a (race.start B w_a));
    [by apply ready_a; [apply recorder_calm|]
    |apply (race.abstracts_start B w_a)
    |by repeat constructor].
Defined.

Lemma push_subscribe_schedules_witness :
  Forall2 (fun p h => exists w', run_atoms b p w_a = Ret w' /\
                                 race.told_from B w_a w' = map Next h)
    (interleavings (push_atoms 5) (subscribe_atoms B))
    [[5]; [5]; [5; 5]; [0]; [0; 5]; [0; 5]].
Proof.
  apply (race.push_subscribe_schedules b B 5 w_a);
    [by apply ready_a; [apply recorder_calm|]|reflexivity].
Defined.

Lemma push_push_schedules_witness :
  Forall2 (fun p hv => exists w', run_atoms b p w_a = Ret w' /\
             race.told_from A w_a w' = map Next hv.1 /\
             behavior_observer_state.value (cell w') = hv.2)
    (interleavings (push_atoms 5) (push_atoms 6))
    [([5; 6], 6); ([5; 6], 6); ([6; 5], 6); ([5; 6], 5); ([6; 5], 5); ([6; 5], 5)].
Proof.
  apply (race.push_push_schedules b A 5 6 w_a);
    [by apply ready_a; [apply recorder_calm|]|reflexivity].
Defined.

(** The two schedules of two pushes that go wrong, run: [A] hears [6] and
    then [5] while the behavior keeps [6], and the other way round. *)
Example stale_value :
  map (fun p => let w := final (run_atoms b p w_a) in
                (drop 1 (heard w), behavior_observer_state.value (cell w)))
    [[Store 5; Store 6; Cast 6; Cast 5]; [Store 6; Store 5; Cast 5; Cast 6]]
  = [([(10, Next 6); (10, Next 5)], 6); ([(10, Next 5); (10, Next 6)], 5)].
Proof. by vm_compute. Qed.

End race_example.
