(* ===== verification/Feedback.v ===== *)
(** * Feedback: observers that push into the behavior they observe

    Model of [behavior_observer::on_next] and of [get_subscriber] of
    [src/libs/librxcpp/includes/rxcpp/subjects/rx-behavior.hpp] when the
    code of an observer holds a copy of the subscriber of the behavior and
    calls its [on_next] while it is being told.  The call is nested in the
    cast of the push that is under way: it takes the mutex of the value,
    which the outer push has released, and casts to the observers before the
    outer cast goes on.

    - Module [feedback]: the nested push, by fuel on the depth of nesting;
      [round] is one push whose nested pushes are a parameter.
    - The theorems: without feedback the nested push is the push of
      [Behavior]; no nesting deadlocks; what a nested push does to the order
      in which the observers behind the pushing one hear the values; an
      observer that always pushes back never lets the push return, and one
      whose pushes descend in a rank returns within that rank. *)

From stdpp Require Import base list.
From S2P Require Import Prelude Lifetime Subscriber Behavior.

Module feedback.
Import subjects.
Section feedback.
Context {L U T E : Type} `{!LifetimeOps L, !Lifetimes L}.
#[local] Abbreviation world := (subjects.world L U T E).
#[local] Abbreviation observer := (subscriber.t (dest U T E)).

(** The values the destination named [i] pushes into the behavior when it is
    told [n], after its own commands. *)
Context (back : nat -> notification T E -> list T).

Section round.

(** [on_next] of the copy of [get_subscriber()] the destinations hold. *)
Context (push : T -> world -> outcome world).

Fixpoint push_all (vs : list T) (w : world) : outcome world :=
  match vs with
  | [] => Ret w
  | v :: vs => do w <- push v w; push_all vs w
  end.

(** The destination of [inner], whose code pushes back. *)
Record looped : Type := Looped {
  inner : observer;
}.

Definition tell_looped (r : looped) (n : notification T E) (w : world) : outcome world :=
  do w <- tell_recorded (Recorded (inner r)) n w;
  push_all (back (dest_id (subscriber.destination (inner r))) n) w.

#[local] Instance looped_observer : Observer world T E looped := {
  obs_on_next r v := tell_looped r (Next v);
  obs_on_error r e := tell_looped r (Error e);
  obs_on_completed r := tell_looped r Completed;
}.

(** [o.on_next(v)], [o.on_error(e)], [o.on_completed()] on a subscriber. *)
Definition send (o : observer) (n : notification T E) (w : world) : outcome world :=
  notify (subscriber.Make (subscriber.lifetime o) (Looped o)) n w.

Fixpoint send_all (os : list observer) (n : notification T E) (w : world) : outcome world :=
  match os with
  | [] => Ret w
  | o :: os => do w <- send o n w; send_all os n w
  end.

(** [behavior_observer] over these destinations. *)
Record looping : Type := Looping {
  base : behavior_observer.t;
}.

(** [behavior_observer::on_next(v)]: the value is stored under the mutex,
    and the cast runs with the mutex released. *)
Definition on_next (s : looping) (v : T) (w : world) : outcome world :=
  do w <- on_cell (behavior_observer_state.reset v) w;
  send_all (observers w) (Next v) w.

#[local] Instance looping_observer : Observer world T E looping := {
  obs_on_next := on_next;
  obs_on_error s e w := send_all (observers w) (Error e) w;
  obs_on_completed s w := send_all (observers w) Completed w;
}.

(** [get_subscriber()] *)
Definition get_subscriber (b : behavior.t) : subscriber.t looping :=
  make.explicit (behavior.lifetime b) (Looping (behavior.s b)).

(** One push, the pushes nested in it being [push]. *)
Definition round (b : behavior.t) (v : T) (w : world) : outcome world :=
  notify (get_subscriber b) (Next v) w.

End round.

(** [get_subscriber().on_next(v)], nested at most [fuel] deep. *)
Fixpoint push (fuel : nat) (b : behavior.t) (v : T) (w : world) : outcome world :=
  match fuel with
  | 0 => Fault OutOfFuel w
  | S fuel => round (push fuel b) b v w
  end.

End feedback.

(** ** Theorems *)

Section feedback_facts.
Context {L U T E : Type} `{!LifetimeOps L, !Lifetimes L}.
#[local] Abbreviation world := (subjects.world L U T E).
#[local] Abbreviation observer := (subscriber.t (dest U T E)).
Context (back : nat -> notification T E -> list T).
Implicit Types (w : world) (o : observer) (n : notification T E) (b : behavior.t) (v : T).

(** The name by which [back] knows an observer. *)
Definition name_of o : nat := dest_id (subscriber.destination o).

(** [o] pushes nothing back when it is told [n]. *)
Definition quiet n o : Prop := back (name_of o) n = [].

(** *** One round, whatever the nested pushes are *)

Section round_facts.
Context (push : T -> world -> outcome world).

Lemma tell_looped_quiet o n w :
  quiet n o -> tell_looped back push (Looped o) n w = tell_recorded (Recorded o) n w.
Proof.
  unfold quiet, name_of, tell_looped. simpl. intros ->. apply and_then_Ret_r.
Qed.

Lemma send_quiet o n w : quiet n o -> send back push o n w = subjects.send o n w.
Proof.
  intros Hq. unfold send, subjects.send. apply notify_ext; [done|].
  destruct n; simpl; by apply tell_looped_quiet.
Qed.

Lemma send_all_quiet (os : list observer) n w :
  Forall (quiet n) os -> send_all back push os n w = subjects.send_all os n w.
Proof.
  intros Hos. revert w. induction Hos as [|o os Ho _ IH]; intros w; simpl; [done|].
  rewrite send_quiet by done. destruct (subjects.send o n w); simpl; by rewrite ?IH.
Qed.

Lemma round_quiet b v w :
  Forall (quiet (Next v)) (observers w) ->
  round back push b v w = behavior.step b (behavior.Push v) w.
Proof.
  intros Hq. unfold round, behavior.step. apply notify_ext; [done|]. simpl.
  unfold on_next, behavior_observer.on_next, multicast_observer.on_next, on_cell.
  destruct (behavior_observer_state.reset v (cell w)); simpl; [|done..].
  by apply send_all_quiet.
Qed.

End round_facts.

(** *** More fuel

    [push2] does what [push1] does wherever [push1] comes back; then so do
    the rounds over them. *)
Section more_fuel.
Context (push1 push2 : T -> world -> outcome world).
Context (push_more : forall v w, lands (push1 v w) -> push2 v w = push1 v w).

Lemma push_all_more (vs : list T) w :
  lands (push_all push1 vs w) -> push_all push2 vs w = push_all push1 vs w.
Proof.
  revert w. induction vs as [|v vs IH]; intros w; simpl; [done|].
  intros [Hv Hvs]%lands_and_then_inv. rewrite push_more by done.
  apply and_then_ext. intros w1 H1. by apply IH, Hvs.
Qed.

Lemma tell_looped_more r n w :
  lands (tell_looped back push1 r n w) ->
  tell_looped back push2 r n w = tell_looped back push1 r n w.
Proof.
  unfold tell_looped. intros [_ Hk]%lands_and_then_inv.
  apply and_then_ext. intros w1 H1. by apply push_all_more, Hk.
Qed.

Lemma send_more o n w :
  lands (send back push1 o n w) -> send back push2 o n w = send back push1 o n w.
Proof.
  unfold send. destruct (subscriber.is_subscribed o w) eqn:Ho.
  - intros Hl%notify_lands_inv; [|done]. apply notify_ext; [done|].
    destruct n; by apply tell_looped_more.
  - intros _. by rewrite !notify_unsubscribed.
Qed.

Lemma send_all_more (os : list observer) n w :
  lands (send_all back push1 os n w) ->
  send_all back push2 os n w = send_all back push1 os n w.
Proof.
  revert w. induction os as [|o os IH]; intros w; simpl; [done|].
  intros [Ho Hos]%lands_and_then_inv. rewrite send_more by done.
  apply and_then_ext. intros w1 H1. by apply IH, Hos.
Qed.

Lemma round_more b v w :
  lands (round back push1 b v w) -> round back push2 b v w = round back push1 b v w.
Proof.
  unfold round. destruct (cs_is_subscribed (behavior.lifetime b) w) eqn:Hb.
  - intros Hl%notify_lands_inv; [|done]. apply notify_ext; [done|].
    simpl in *. unfold on_next in *. apply lands_and_then_inv in Hl as [_ Hk].
    apply and_then_ext. intros w1 H1. by apply send_all_more, Hk.
  - intros _. by rewrite !notify_unsubscribed.
Qed.

End more_fuel.

Lemma push_S fuel b v w :
  lands (push back fuel b v w) -> push back (S fuel) b v w = push back fuel b v w.
Proof.
  revert v w. induction fuel as [|fuel IH]; intros v w; [done|].
  intros Hl. change (round back (push back (S fuel) b) b v w
                     = round back (push back fuel b) b v w).
  apply round_more; [|done]. intros v' w'. apply IH.
Qed.

Lemma push_more fuel k b v w :
  lands (push back fuel b v w) -> push back (k + fuel) b v w = push back fuel b v w.
Proof.
  intros Hl. induction k as [|k IH]; [done|].
  change (S k + fuel) with (S (k + fuel)). rewrite push_S; [done|]. by rewrite IH.
Qed.

Section round_grows.
Context (push : T -> world -> outcome world).

(** When the nested pushes leave the mutex free, so does the round. *)
Context (push_grows : forall v w, unlocked w -> sound (grows w) (push v w)).

Lemma push_all_grows (vs : list T) w : unlocked w -> sound (grows w) (push_all push vs w).
Proof.
  revert w. induction vs as [|v vs IH]; intros w Hu; simpl.
  - by apply sound_Ret, grows_refl.
  - apply (sound_trans grows); [by apply push_grows|].
    intros w1 H1. apply IH. by eapply grows_unlocked.
Qed.

Lemma looped_send_grows o n w : unlocked w -> sound (grows w) (send back push o n w).
Proof.
  intros Hu. unfold send.
  apply notify_sound; [by apply grows_refl|intros w'; apply grows_unsubscribe|].
  intros Ho.
  assert (sound (grows w) (tell_looped back push (Looped o) n w)) as Ht.
  { apply (sound_trans grows).
    - apply lands_in_sound. eapply lands_in_impl; [by apply tell_recorded_casts|].
      apply casts_grows.
    - intros w1 H1. apply push_all_grows. by eapply grows_unlocked. }
  by destruct n.
Qed.

Lemma looped_send_all_grows (os : list observer) n w :
  unlocked w -> sound (grows w) (send_all back push os n w).
Proof.
  revert w. induction os as [|o os IH]; intros w Hu; simpl.
  - by apply sound_Ret, grows_refl.
  - apply (sound_trans grows); [by apply looped_send_grows|].
    intros w1 H1. apply IH. by eapply grows_unlocked.
Qed.

Lemma round_grows b v w : unlocked w -> sound (grows w) (round back push b v w).
Proof.
  intros Hu. unfold round.
  apply notify_sound; [by apply grows_refl|intros w'; apply grows_unsubscribe|].
  intros _. simpl. unfold on_next. rewrite reset_unlocked by done. simpl.
  eapply sound_impl; [by apply looped_send_all_grows|].
  intros w'. by transitivity (set_cell (behavior_observer_state.Make false v) w);
    [apply grows_set_cell|].
Qed.

End round_grows.

(** Without feedback the nested push is the push of the behavior: when no
    observer pushes back on [v], one level of nesting is enough and the
    outcome is that of [get_subscriber().on_next(v)]. *)
Theorem push_without_feedback fuel b v w :
  Forall (quiet (Next v)) (observers w) ->
  push back (S fuel) b v w = behavior.step b (behavior.Push v) w.
Proof. apply round_quiet. Qed.

(** C37. No nesting of pushes deadlocks: the mutex of the value is released
    before the cast, so a push from inside the code of an observer finds it
    free, however deep the nesting and whatever the observers do and push
    back.  At every depth allowed the push ends by return, by exception or
    where the depth runs out, never in the fault [Deadlock] of a thread
    that waits for a mutex it holds; the mutex is free where it ends, and
    the world has grown as it does under any operation of the behavior. *)
Theorem feedback_never_deadlocks fuel b v w :
  unlocked w -> sound (grows w) (push back fuel b v w).
Proof.
  revert v w. induction fuel as [|fuel IH]; intros v w Hu; simpl.
  - by apply grows_refl.
  - by apply round_grows.
Qed.

(** *** Observers that record and push back

    When the code of the observers changes the user's state and nothing
    else, a round is told by what the nested pushes return. *)

(** [calmly w w']: the mutex is free, and the subscriptions and the
    observers are those of [w]. *)
Definition calmly (w w' : world) : Prop :=
  unlocked w' /\ subs w' = subs w /\ observers w' = observers w.

#[local] Instance calmly_trans : Transitive calmly.
Proof. intros w1 w2 w3 (_ & ? & ?) (? & ? & ?). split_and!; [done|congruence..]. Qed.

Lemma calmly_refl w : unlocked w -> calmly w w.
Proof. done. Qed.

Lemma calmly_steady b w w' : steady b w -> calmly w w' -> steady b w'.
Proof.
  intros (Hwf & _ & Hl & Hc) (Hu & Hs & Ho).
  split_and!; [done|done| |by rewrite Ho]. simpl in *. by rewrite Hs.
Qed.

Lemma calmly_subscribed o w w' :
  calmly w w' -> subscriber.is_subscribed o w' = subscriber.is_subscribed o w.
Proof. intros (_ & Hs & _). unfold subscriber.is_subscribed. simpl. by rewrite Hs. Qed.

Lemma calmly_told o n w : unlocked w -> calmly w (told o n w).
Proof. done. Qed.

Lemma calmly_stored v w :
  calmly w (set_cell (behavior_observer_state.Make false v) w).
Proof. done. Qed.

Section calm_round.
Context (push : T -> world -> outcome world).

Lemma tell_looped_calm o n w :
  calm o ->
  tell_looped back push (Looped o) n w
  = push_all push (back (name_of o) n) (told o n w).
Proof.
  intros Hc. unfold tell_looped, tell_recorded, tell. simpl.
  by rewrite exec_all_calm.
Qed.

(** What telling a live observer is: its record, then its pushes. *)
Lemma looped_send_calm o v w :
  calm o -> subscriber.is_subscribed o w = true ->
  send back push o (Next v) w
  = unwinding (push_all push (back (name_of o) (Next v)) (told o (Next v) w))
      (subscriber.unsubscribe o).
Proof.
  intros Hc Ho. unfold send. rewrite notify_subscriber, on_next_live by done.
  simpl. by rewrite tell_looped_calm.
Qed.

(** What a push on a behavior in use is: the value is stored and cast. *)
Lemma round_steady b v w :
  steady b w ->
  round back push b v w
  = unwinding (send_all back push (observers w) (Next v)
                 (set_cell (behavior_observer_state.Make false v) w))
      (cs_unsubscribe (behavior.lifetime b)).
Proof.
  intros (_ & Hu & Hl & _). unfold round. rewrite notify_subscriber, on_next_live by done.
  simpl. unfold on_next. by rewrite reset_unlocked.
Qed.

(** The nested pushes return, calmly, for the values [bounded] holds of. *)
Context (b : behavior.t) (bounded : T -> Prop).
Context (push_calmly : forall v w, bounded v -> steady b w -> returns (calmly w) (push v w)).

Lemma push_all_calmly (vs : list T) w :
  Forall bounded vs -> steady b w -> returns (calmly w) (push_all push vs w).
Proof.
  intros Hvs. revert w. induction Hvs as [|v vs Hv _ IH]; intros w Hw; simpl.
  - by destruct Hw as (_ & ? & _).
  - apply (returns_trans calmly); [by apply push_calmly|].
    intros w1 H1. apply IH. by eapply calmly_steady.
Qed.

Lemma send_calmly o v w :
  calm o -> Forall bounded (back (name_of o) (Next v)) -> steady b w ->
  returns (calmly w) (send back push o (Next v) w).
Proof.
  intros Hc Hb Hw. pose proof Hw as (_ & Hu & _).
  destruct (subscriber.is_subscribed o w) eqn:Ho.
  - rewrite looped_send_calm by done. apply returns_unwinding.
    eapply returns_impl.
    + apply push_all_calmly; [done|]. eapply calmly_steady; [done|by apply calmly_told].
    + intros w'. by transitivity (told o (Next v) w); [apply calmly_told|].
  - unfold send. by rewrite notify_unsubscribed.
Qed.

Lemma send_all_calmly (os : list observer) v w :
  Forall calm os -> Forall (fun o => Forall bounded (back (name_of o) (Next v))) os ->
  steady b w -> returns (calmly w) (send_all back push os (Next v) w).
Proof.
  intros Hc Hb. revert w.
  induction os as [|o os IH]; intros w Hw; simpl.
  - by destruct Hw as (_ & ? & _).
  - apply Forall_cons in Hc as [Hco Hc]. apply Forall_cons in Hb as [Hbo Hb].
    apply (returns_trans calmly); [by apply send_calmly|].
    intros w1 H1. apply IH; [done..|]. by eapply calmly_steady.
Qed.

Lemma round_calmly v w :
  Forall (fun o => Forall bounded (back (name_of o) (Next v))) (observers w) ->
  steady b w -> returns (calmly w) (round back push b v w).
Proof.
  intros Hb Hw. rewrite round_steady by done. apply returns_unwinding.
  pose proof Hw as (_ & _ & _ & Hc).
  eapply returns_impl.
  - apply send_all_calmly; [done..|]. eapply calmly_steady; [done|apply calmly_stored].
  - intros w'. by transitivity (set_cell (behavior_observer_state.Make false v) w);
      [apply calmly_stored|].
Qed.

End calm_round.

(** Fuel is only a bound: a push that comes back with some fuel, by return
    or by exception, comes back the same with any more. *)
Theorem more_fuel_same_outcome fuel fuel' b v w :
  fuel <= fuel' -> lands (push back fuel b v w) ->
  push back fuel' b v w = push back fuel b v w.
Proof.
  intros Hle Hl. replace fuel' with ((fuel' - fuel) + fuel) by lia. by apply push_more.
Qed.

(** *** Pushes that descend in a rank *)

Section descent.
Context (rank : T -> nat).
Context (descends : forall i v v', v' ∈ back i (Next v) -> rank v' < rank v).

Lemma push_calmly fuel b v w :
  rank v < fuel -> steady b w -> returns (calmly w) (push back fuel b v w).
Proof.
  revert v w. induction fuel as [|fuel IH]; intros v w Hr Hw; [lia|]. simpl.
  apply (round_calmly _ b (fun v' => rank v' < rank v)); [| |done].
  - intros v' w' Hv' Hw'. apply IH; [lia|done].
  - apply Forall_forall. intros o _. apply Forall_forall. intros v' Hv'.
    by eapply descends.
Qed.

(** C20. Feedback that descends ends: when every value an observer pushes back
    on [v] is below [v] in a rank, a push of [v] on a behavior in use
    returns once the fuel exceeds the rank of [v], however the pushes nest;
    the behavior is in use afterwards, with the observers it had. *)
Theorem descending_feedback_returns fuel b v w :
  rank v < fuel -> steady b w ->
  exists w', push back fuel b v w = Ret w' /\ steady b w' /\
    observers w' = observers w.
Proof.
  intros Hr Hw.
  destruct (returns_inv _ _ (push_calmly fuel b v w Hr Hw)) as (w' & Hp & Hc).
  exists w'. split_and!; [done|by eapply calmly_steady|by destruct Hc as (_ & _ & ?)].
Qed.

End descent.

(** *** One observer pushes back once *)

(** The world after the first observer [o] answered [v1] with [v2]: [o] is
    told [v1], the push of [v2] runs to its end, and then the observers
    behind [o] are told [v1]. *)
Definition answered o (os : list observer) v1 v2 w : world :=
  cast_to os (Next v1)
    (pushed v2 (told o (Next v1) (set_cell (behavior_observer_state.Make false v1) w))).

Lemma push_answered fuel b o (os : list observer) v1 v2 w :
  steady b w -> observers w = o :: os -> subscriber.is_subscribed o w = true ->
  back (name_of o) (Next v1) = [v2] ->
  Forall (quiet (Next v2)) (o :: os) -> Forall (quiet (Next v1)) os ->
  push back (S (S fuel)) b v1 w = Ret (answered o os v1 v2 w).
Proof.
  intros Hw Hobs Ho Hb H2 H1. pose proof Hw as (_ & _ & _ & Hc).
  rewrite Hobs in Hc. apply Forall_cons in Hc as [Hco Hcos].
  set (w1 := set_cell (behavior_observer_state.Make false v1) w).
  set (w2 := told o (Next v1) w1).
  assert (steady b w2) as Hw2
    by (eapply calmly_steady; [exact Hw|by transitivity w1]).
  assert (push back (S fuel) b v2 w2 = Ret (pushed v2 w2)) as Hin.
  { simpl. rewrite round_quiet by (by subst w2 w1; simpl; rewrite Hobs).
    destruct Hw2 as (_ & ? & ? & ?). by apply push_calm. }
  change (round back (push back (S fuel) b) b v1 w = Ret (answered o os v1 v2 w)).
  rewrite round_steady, Hobs by done. fold w1. cbn [send_all].
  rewrite looped_send_calm, Hb by done. fold w2. cbn [push_all]. rewrite Hin. simpl.
  rewrite send_all_quiet by done. by rewrite send_all_calm.
Qed.

(** Observers that were live are live where the subscriptions are the same. *)
Lemma filter_live w w' (l : list observer) :
  subs w' = subs w -> Forall (fun x => subscriber.is_subscribed x w = true) l ->
  filter (fun x => subscriber.is_subscribed x w' = true) l = l.
Proof.
  intros Hs Hl. induction Hl as [|x l Hx _ IH]; [done|].
  rewrite filter_cons, decide_True, IH; [done|].
  unfold subscriber.is_subscribed in *. simpl in *. by rewrite Hs.
Qed.

Lemma answered_frame o (os : list observer) v1 v2 w :
  observers w = o :: os -> Forall (fun x => subscriber.is_subscribed x w = true) (o :: os) ->
  delivered (answered o os v1 v2 w)
  = delivered w ++ delivery_to o (Next v1)
      :: map (fun x => delivery_to x (Next v2)) (o :: os)
      ++ map (fun x => delivery_to x (Next v1)) os /\
  cell (answered o os v1 v2 w) = behavior_observer_state.Make false v2.
Proof.
  intros Hobs Hlive. unfold answered.
  set (w2 := told o (Next v1) (set_cell (behavior_observer_state.Make false v1) w)).
  destruct (cast_to_frame os (Next v1) (pushed v2 w2)) as (_ & -> & _ & ->).
  destruct (pushed_frame v2 w2) as (Hs & -> & _ & ->). split; [|done].
  rewrite (filter_live w) by (done || by apply Forall_cons in Hlive as [_ ?]).
  unfold current. change (observers w2) with (observers w).
  rewrite Hobs, (filter_live w) by done.
  subst w2. simpl. by rewrite <- !app_assoc.
Qed.

(** C27. A push from inside an observer overtakes the push it answers.  When
    the first observer answers [v1] with [v2], the observers behind it are
    told [v2] before [v1]: they hear the two pushes in the opposite order,
    and the value they are left with, [v1], is not the value of the
    behavior, [v2]. *)
Theorem feedback_overtakes fuel b o (os : list observer) v1 v2 w :
  steady b w -> observers w = o :: os ->
  Forall (fun x => subscriber.is_subscribed x w = true) (o :: os) ->
  back (name_of o) (Next v1) = [v2] ->
  Forall (quiet (Next v2)) (o :: os) -> Forall (quiet (Next v1)) os ->
  exists w', push back (S (S fuel)) b v1 w = Ret w' /\
    new_deliveries w w'
    = delivery_to o (Next v1)
        :: map (fun x => delivery_to x (Next v2)) (o :: os)
        ++ map (fun x => delivery_to x (Next v1)) os /\
    behavior_observer_state.value (cell w') = v2.
Proof.
  intros Hw Hobs Hlive Hb H2 H1. exists (answered o os v1 v2 w).
  destruct (answered_frame o os v1 v2 w Hobs Hlive) as [Hd Hc].
  split_and!; [|by apply new_deliveries_app|by rewrite Hc].
  apply push_answered; try done. by apply Forall_cons in Hlive as [? _].
Qed.

(** *** An observer that always pushes back *)

Lemma push_endless fuel b o (os : list observer) w :
  (forall v, exists v', back (name_of o) (Next v) = v' :: []) ->
  forall v, steady b w -> observers w = o :: os -> subscriber.is_subscribed o w = true ->
  exists w' vs, push back fuel b v w = Fault OutOfFuel w' /\ length vs = fuel /\
    delivered w' = delivered w ++ map (fun v => delivery_to o (Next v)) vs.
Proof.
  intros Hb. revert w. induction fuel as [|fuel IH]; intros w v Hw Hobs Ho.
  - exists w, []. by rewrite app_nil_r.
  - pose proof Hw as (_ & _ & _ & Hc).
    rewrite Hobs in Hc. apply Forall_cons in Hc as [Hco _].
    set (w1 := set_cell (behavior_observer_state.Make false v) w).
    set (w2 := told o (Next v) w1).
    destruct (Hb v) as [v' Hv'].
    destruct (IH w2 v') as (w' & vs & Hp & Hlen & Hd); [|done|done|].
    { eapply calmly_steady; [exact Hw|by transitivity w1]. }
    exists w', (v :: vs).
    change (push back (S fuel) b v w) with (round back (push back fuel b) b v w).
    rewrite round_steady, Hobs by done. fold w1. cbn [send_all].
    rewrite looped_send_calm, Hv' by done. fold w2. cbn [push_all]. rewrite Hp. simpl.
    split_and!; [done|by rewrite Hlen|]. rewrite Hd. simpl. by rewrite <- app_assoc.
Qed.

(** An observer that answers every value never lets a push return: with
    any fuel the push is still nesting when the fuel is out, the first
    observer has been told once per level and the observers behind it have
    been told nothing.  In the program the nesting is a recursion of calls. *)
Theorem endless_feedback_never_returns fuel b o (os : list observer) v w :
  (forall v, exists v', back (name_of o) (Next v) = v' :: []) ->
  steady b w -> observers w = o :: os -> subscriber.is_subscribed o w = true ->
  exists w' vs, push back fuel b v w = Fault OutOfFuel w' /\ length vs = fuel /\
    new_deliveries w w' = map (fun v => delivery_to o (Next v)) vs.
Proof.
  intros Hb Hw Hobs Ho.
  destruct (push_endless fuel b o os w Hb v Hw Hobs Ho) as (w' & vs & Hp & Hlen & Hd).
  exists w', vs. split_and!; [done|done|by apply new_deliveries_app].
Qed.

End feedback_facts.
End feedback.

(** ** Feedback at work

    The behavior of [behavior_example], observed by [A] and then [B], with
    three ways for [A] to push back. *)
Module feedback_example.
Import subjects behavior_example.

(** [A] and [B] have subscribed and heard the seed. *)
Definition w_ab : world := after [behavior.Subscribe A; behavior.Subscribe B].

(** What was heard from [w_ab] on. *)
Definition heard_since (w : world) : list (nat * notification nat unit) :=
  drop 2 (heard w).

(** [A] answers [1] with [2]. *)
Definition answer (i : nat) (n : notification nat unit) : list nat :=
  match i, n with
  | 10, Next 1 => [2]
  | _, _ => []
  end.

(** [A] answers every value with the same value. *)
Definition echo (i : nat) (n : notification nat unit) : list nat :=
  match i, n with
  | 10, Next v => [v]
  | _, _ => []
  end.

(** [A] answers a value above [0] with the value below it. *)
Definition countdown (i : nat) (n : notification nat unit) : list nat :=
  match i, n with
  | 10, Next (S v) => [v]
  | _, _ => []
  end.

Lemma observers_ab : observers w_ab = [A; B].
Proof. reflexivity. Qed.

Lemma steady_ab : steady b w_ab.
Proof. split_and!; [done|done|by vm_compute|repeat constructor; apply recorder_calm]. Qed.

Lemma live_ab : Forall (fun x : observer => subscriber.is_subscribed x w_ab = true) [A; B].
Proof. by repeat constructor. Qed.

Lemma countdown_descends i v v' : v' ∈ countdown i (Next v) -> v' < v.
Proof.
  unfold countdown. do 10 (destruct i as [|i]; [by intros ?%elem_of_nil|]).
  destruct i; [|by intros ?%elem_of_nil].
  destruct v; [by intros ?%elem_of_nil|]. intros ->%list_elem_of_singleton. lia.
Qed.

(** [B] hears the answer before the value it answers. *)
Example answer_overtakes :
  heard_since (final (feedback.push answer 2 b 1 w_ab))
  = [(10, Next 1); (10, Next 2); (20, Next 2); (20, Next 1)].
Proof. by vm_compute. Qed.

(** [A] counts down from [3]; [B] hears it count up. *)
Example countdown_heard :
  heard_since (final (feedback.push countdown 4 b 3 w_ab))
  = [(10, Next 3); (10, Next 2); (10, Next 1); (10, Next 0);
     (20, Next 0); (20, Next 1); (20, Next 2); (20, Next 3)] /\
  behavior_observer_state.value (cell (final (feedback.push countdown 4 b 3 w_ab))) = 0.
Proof. by vm_compute. Qed.

(** With too little fuel the push is cut where the nesting is. *)
Example countdown_cut :
  feedback.push countdown 3 b 3 w_ab
  = Fault OutOfFuel (final (feedback.push countdown 3 b 3 w_ab)) /\
  heard_since (final (feedback.push countdown 3 b 3 w_ab))
  = [(10, Next 3); (10, Next 2); (10, Next 1)].
Proof. by vm_compute. Qed.

Lemma push_without_feedback_witness :
  feedback.push answer 1 b 5 w_ab = behavior.step b (behavior.Push 5) w_ab.
Proof.
  apply (feedback.push_without_feedback answer 0 b 5 w_ab).
  rewrite observers_ab. by repeat constructor.
Defined.

Lemma feedback_never_deadlocks_witness :
  sound (grows w_ab) (feedback.push echo 7 b 1 w_ab).
Proof. apply (feedback.feedback_never_deadlocks echo 7 b 1 w_ab). reflexivity. Defined.

Lemma more_fuel_same_outcome_witness :
  feedback.push countdown 9 b 3 w_ab = feedback.push countdown 4 b 3 w_ab.
Proof.
  apply (feedback.more_fuel_same_outcome countdown 4 9 b 3 w_ab); [lia|by vm_compute].
Defined.

Lemma descending_feedback_returns_witness :
  exists w', feedback.push countdown 4 b 3 w_ab = Ret w' /\ steady b w' /\
    observers w' = observers w_ab.
Proof.
  apply (feedback.descending_feedback_returns countdown id countdown_descends 4 b 3 w_ab);
    [unfold id; lia|apply steady_ab].
Defined.

Lemma feedback_overtakes_witness :
  exists w', feedback.push answer 2 b 1 w_ab = Ret w' /\
    new_deliveries w_ab w'
    = delivery_to A (Next 1)
        :: map (fun x => delivery_to x (Next 2)) [A; B]
        ++ map (fun x => delivery_to x (Next 1)) [B] /\
    behavior_observer_state.value (cell w') = 2.
Proof.
  apply (feedback.feedback_overtakes answer 0 b A [B] 1 2 w_ab);
    [apply steady_ab|apply observers_ab|apply live_ab|done
    |by repeat constructor|by repeat constructor].
Defined.

Lemma endless_feedback_never_returns_witness :
  exists w' vs, feedback.push echo 5 b 1 w_ab = Fault OutOfFuel w' /\ length vs = 5 /\
    new_deliveries w_ab w' = map (fun v => delivery_to A (Next v)) vs.
Proof.
  apply (feedback.endless_feedback_never_returns echo 5 b A [B] 1 w_ab);
    [intros v; by exists v|apply steady_ab|apply observers_ab|done].
Defined.

End feedback_example.
