(* ===== verification/Joining.v ===== *)
(** * Joining: observers that subscribe others while they are told

    Model of [behavior_observer::on_next] and of the function of
    [get_observable] of
    [src/libs/librxcpp/includes/rxcpp/subjects/rx-behavior.hpp] when the
    code of an observer subscribes another observer to the behavior while
    it is being told.  The subscription is nested in the cast of the push
    that is under way: it reads the value under the mutex, which the push
    has released, tells it to the new subscriber and adds the subscriber;
    the cast goes on over the observers it began with.

    - Module [joining]: [invite] says whom an observer subscribes, after
      its own commands; [push] is [get_subscriber().on_next(v)] over such
      observers.
    - The theorems: without invitations the push is the push of
      [Behavior]; no subscription from inside a cast blocks on the mutex
      of the value or is told under an ended lifetime; a subscriber that
      joins during the cast of [v] is told [v] once, by the subscription
      and not by the cast, and stands behind the others from then on. *)

From stdpp Require Import base list.
From S2P Require Import Prelude Lifetime Subscriber Behavior.

Module joining.
Import subjects.
Section joining.
Context {L U T E : Type} `{!LifetimeOps L}.
#[local] Abbreviation world := (subjects.world L U T E).
#[local] Abbreviation observer := (subscriber.t (dest U T E)).

(** The subscribers the destination named [i] passes to
    [get_observable().subscribe] when it is told [n], after its own
    commands; [b] is the behavior. *)
Context (invite : nat -> notification T E -> list observer) (b : behavior.t).

Fixpoint subscribe_all (os : list observer) (w : world) : outcome world :=
  match os with
  | [] => Ret w
  | o :: os => do w <- behavior.get_observable b o w; subscribe_all os w
  end.

(** The destination of [inner], whose code subscribes others. *)
Record inviting : Type := Inviting {
  inner : observer;
}.

Definition tell_inviting (r : inviting) (n : notification T E) (w : world) : outcome world :=
  do w <- tell_recorded (Recorded (inner r)) n w;
  subscribe_all (invite (dest_id (subscriber.destination (inner r))) n) w.

#[local] Instance inviting_observer : Observer world T E inviting := {
  obs_on_next r v := tell_inviting r (Next v);
  obs_on_error r e := tell_inviting r (Error e);
  obs_on_completed r := tell_inviting r Completed;
}.

(** [o.on_next(v)], [o.on_error(e)], [o.on_completed()] on a subscriber. *)
Definition send (o : observer) (n : notification T E) (w : world) : outcome world :=
  notify (subscriber.Make (subscriber.lifetime o) (Inviting o)) n w.

Fixpoint send_all (os : list observer) (n : notification T E) (w : world) : outcome world :=
  match os with
  | [] => Ret w
  | o :: os => do w <- send o n w; send_all os n w
  end.

(** [behavior_observer] over these destinations. *)
Record open : Type := Open {
  base : behavior_observer.t;
}.

(** [behavior_observer::on_next(v)]: the value is stored under the mutex;
    the cast runs with the mutex released, over the observers there are
    when it begins. *)
Definition on_next (s : open) (v : T) (w : world) : outcome world :=
  do w <- on_cell (behavior_observer_state.reset v) w;
  send_all (observers w) (Next v) w.

#[local] Instance open_observer : Observer world T E open := {
  obs_on_next := on_next;
  obs_on_error s e w := send_all (observers w) (Error e) w;
  obs_on_completed s w := send_all (observers w) Completed w;
}.

(** [get_subscriber()] *)
Definition get_subscriber : subscriber.t open :=
  make.explicit (behavior.lifetime b) (Open (behavior.s b)).

(** [get_subscriber().on_next(v)] *)
Definition push (v : T) (w : world) : outcome world :=
  notify get_subscriber (Next v) w.

End joining.

(** ** Theorems *)

Section joining_facts.
Context {L U T E : Type} `{!LifetimeOps L, !Lifetimes L}.
#[local] Abbreviation world := (subjects.world L U T E).
#[local] Abbreviation observer := (subscriber.t (dest U T E)).
Context (invite : nat -> notification T E -> list observer) (b : behavior.t).
Implicit Types (w : world) (o : observer) (os : list observer) (n : notification T E) (v : T).

#[local] Abbreviation send := (send invite b).
#[local] Abbreviation send_all := (send_all invite b).
#[local] Abbreviation push := (push invite b).

(** [o] subscribes nobody when it is told [n]. *)
Definition alone n o : Prop := invite (dest_id (subscriber.destination o)) n = [].

(** *** Without invitations *)

Lemma send_alone o n w : alone n o -> send o n w = subjects.send o n w.
Proof.
  intros Ha. unfold joining.send, subjects.send. apply notify_ext; [done|].
  unfold alone in Ha.
  destruct n; simpl; unfold tell_inviting; simpl; rewrite Ha; apply and_then_Ret_r.
Qed.

Lemma send_all_alone os n w :
  Forall (alone n) os -> send_all os n w = subjects.send_all os n w.
Proof.
  intros Hos. revert w. induction Hos as [|o os Ho _ IH]; intros w; simpl; [done|].
  rewrite send_alone by done. destruct (subjects.send o n w); simpl; by rewrite ?IH.
Qed.

(** *** Every nested subscription grows the world and comes back *)

Lemma subscribe_all_grows os w :
  unlocked w -> lands_in (grows w) (subscribe_all b os w).
Proof.
  revert w. induction os as [|o os IH]; intros w Hu; simpl.
  - by apply lands_in_Ret, grows_refl.
  - apply (lands_in_trans grows); [by apply get_observable_grows|].
    intros w1 H1. apply IH. by eapply grows_unlocked.
Qed.

Lemma send_joins o n w : unlocked w -> lands_in (grows w) (send o n w).
Proof.
  intros Hu. unfold joining.send.
  apply notify_lands_in; [by apply grows_refl|intros w'; apply grows_unsubscribe|].
  intros Ho. assert (lands_in (grows w) (tell_inviting invite b (Inviting o) n w)) as Ht.
  { unfold tell_inviting. apply (lands_in_trans grows).
    - eapply lands_in_impl; [by apply tell_recorded_casts|apply casts_grows].
    - intros w1 H1. apply subscribe_all_grows. by eapply grows_unlocked. }
  by destruct n.
Qed.

Lemma send_all_joins os n w : unlocked w -> lands_in (grows w) (send_all os n w).
Proof.
  revert w. induction os as [|o os IH]; intros w Hu; simpl.
  - by apply lands_in_Ret, grows_refl.
  - apply (lands_in_trans grows); [by apply send_joins|].
    intros w1 H1. apply IH. by eapply grows_unlocked.
Qed.

(** Without invitations the push is the push of [Behavior]. *)
Theorem push_without_invitations v w :
  Forall (alone (Next v)) (observers w) ->
  push v w = behavior.step b (behavior.Push v) w.
Proof.
  intros Ha. unfold joining.push, behavior.step. apply notify_ext; [done|]. simpl.
  unfold on_next, behavior_observer.on_next, multicast_observer.on_next, on_cell.
  destruct (behavior_observer_state.reset v (cell w)); simpl; [|done..].
  by apply send_all_alone.
Qed.

(** C34. A subscription from inside a cast never blocks: whatever the
    observers do and whomever they subscribe, a push comes back, by
    return or by exception, with the mutex of the value free, and what it
    has told was told to subscribers whose lifetime had not ended when the
    push began. *)
Theorem joining_never_blocks v w :
  unlocked w ->
  lands_in (fun w' =>
    unlocked w' /\
    Forall (fun d => cs_is_subscribed (to_lifetime d) w = true) (new_deliveries w w'))
    (push v w).
Proof.
  intros Hu. eapply lands_in_impl.
  - unfold joining.push. apply (notify_lands_in (grows w));
      [by apply grows_refl|intros w'; apply grows_unsubscribe|].
    intros _. simpl. unfold on_next. rewrite reset_unlocked by done. simpl.
    eapply lands_in_impl; [by apply send_all_joins|].
    intros w'. by transitivity (set_cell (behavior_observer_state.Make false v) w);
      [apply grows_set_cell|].
  - intros w' Hg. split; [by eapply grows_unlocked|by apply grows_new_deliveries].
Qed.

(** *** A subscriber that joins during the cast *)

Lemma send_all_app os1 os2 n w :
  send_all (os1 ++ os2) n w = do w <- send_all os1 n w; send_all os2 n w.
Proof.
  revert w. induction os1 as [|o os1 IH]; intros w; simpl; [done|].
  destruct (send o n w); simpl; by rewrite ?IH.
Qed.

(** A subscriber that only records is told and then subscribes one
    subscriber, which is told the value of the behavior and put behind the
    others. *)
Lemma send_invites_one a o v w :
  well_formed b -> unlocked w -> cs_is_subscribed (behavior.lifetime b) w = true ->
  calm a -> subscriber.is_subscribed a w = true ->
  calm o -> subscriber.is_subscribed o w = true ->
  invite (dest_id (subscriber.destination a)) (Next v) = [o] ->
  send a (Next v) w
  = Ret (set_observers (current w ++ [o])
           (told o (Next (behavior_observer_state.value (cell w))) (told a (Next v) w))).
Proof.
  intros Hwf Hu Hl Hca Ha Hco Ho Hi. unfold joining.send.
  apply on_next_returns; [done|]. simpl. unfold tell_inviting, tell_recorded, tell. simpl.
  rewrite exec_all_calm, Hi by done. cbn [and_then subscribe_all].
  fold (told a (Next v) w). rewrite and_then_Ret_r.
  apply (subscribe_calm b o (told a (Next v) w)); done.
Qed.

(** The observers [os] are subscribed. *)
Definition all_live os w : Prop :=
  Forall (fun o => subscriber.is_subscribed o w = true) os.

Lemma all_live_same os w w' : subs w' = subs w -> all_live os w -> all_live os w'.
Proof.
  intros Hs Hl. eapply Forall_impl; [exact Hl|]. intros o.
  unfold subscriber.is_subscribed. simpl. by rewrite Hs.
Qed.

(** A cast to subscribers that are subscribed, record and invite nobody. *)
Lemma send_all_live os v w :
  Forall calm os -> Forall (alone (Next v)) os -> all_live os w ->
  exists w', send_all os (Next v) w = Ret w' /\
    subs w' = subs w /\ cell w' = cell w /\ observers w' = observers w /\
    delivered w' = delivered w ++ map (fun o => delivery_to o (Next v)) os.
Proof.
  intros Hc Ha Hl. exists (cast_to os (Next v) w).
  rewrite send_all_alone, send_all_calm by done.
  destruct (cast_to_frame os (Next v) w) as (? & ? & ? & Hd).
  split_and!; try done. by rewrite Hd, filter_all.
Qed.

(** The cast of [v] up to the subscriber [a] that invites, and [a]: the
    subscriber [o] is told [v] and put behind the others. *)
Lemma cast_reaches_inviter v a o front w :
  well_formed b -> unlocked w -> cs_is_subscribed (behavior.lifetime b) w = true ->
  behavior_observer_state.value (cell w) = v ->
  Forall calm (front ++ [a]) -> Forall (alone (Next v)) front ->
  all_live (observers w) w -> all_live (front ++ [a]) w ->
  invite (dest_id (subscriber.destination a)) (Next v) = [o] ->
  calm o -> subscriber.is_subscribed o w = true ->
  exists w', send_all (front ++ [a]) (Next v) w = Ret w' /\
    subs w' = subs w /\ cell w' = cell w /\ observers w' = observers w ++ [o] /\
    delivered w'
    = delivered w ++ map (fun o' => delivery_to o' (Next v)) front
      ++ [delivery_to a (Next v); delivery_to o (Next v)].
Proof.
  intros Hwf Hu Hl Hv [Hcf [Hca _]%Forall_cons]%Forall_app Haf Hlo
    [Hlf [Hla _]%Forall_cons]%Forall_app Hi Hco Ho.
  destruct (send_all_live front v w Hcf Haf Hlf) as (w1 & Hsend & Hs1 & Hc1 & Ho1 & Hd1).
  eexists. rewrite send_all_app, Hsend. cbn [and_then joining.send_all].
  rewrite (send_invites_one a o v w1), and_then_Ret_r; [|done|..].
  - split; [done|]. simpl. rewrite Hs1, Hc1, Hv, Hd1, <-!app_assoc. split_and!; try done.
    f_equal. unfold current. rewrite Ho1. apply filter_all.
    by apply (all_live_same _ w).
  - unfold unlocked. by rewrite Hc1.
  - by rewrite (is_subscribed_same _ w w1).
  - done.
  - unfold subscriber.is_subscribed. by rewrite (is_subscribed_same _ w w1).
  - done.
  - unfold subscriber.is_subscribed. by rewrite (is_subscribed_same _ w w1).
  - done.
Qed.

(** C28. A subscriber that joins during a cast.  Every observer of the
    behavior is subscribed and only records; one of them, [a], subscribes
    [o] to the behavior when it is told [v].  Then the push of [v] tells
    [v] to the observers in front of [a], to [a], to [o], and to the
    observers behind [a]: [o] is told [v] once, by its subscription, the
    cast goes on over the observers it began with, and [o] stands behind
    them afterwards. *)
Theorem joined_in_cast_told_once v a o front back w :
  steady b w -> observers w = front ++ a :: back -> all_live (observers w) w ->
  Forall (alone (Next v)) (front ++ back) ->
  invite (dest_id (subscriber.destination a)) (Next v) = [o] ->
  calm o -> subscriber.is_subscribed o w = true ->
  exists w', push v w = Ret w' /\
    new_deliveries w w'
    = map (fun o' => delivery_to o' (Next v)) front
      ++ [delivery_to a (Next v); delivery_to o (Next v)]
      ++ map (fun o' => delivery_to o' (Next v)) back /\
    observers w' = front ++ a :: back ++ [o] /\
    behavior_observer_state.value (cell w') = v.
Proof.
  intros (Hwf & Hu & Hl & Hc) Hobs Hlive [Haf Hab]%Forall_app Hi Hco Ho.
  rewrite Hobs in Hc, Hlive. rewrite (cons_middle a) in Hc, Hlive.
  rewrite app_assoc in Hc, Hlive.
  apply Forall_app in Hc as [Hcf Hcb]. pose proof Hlive as [Hlf Hlb]%Forall_app.
  set (w1 := set_cell (behavior_observer_state.Make false v) w).
  destruct (cast_reaches_inviter v a o front w1)
    as (w2 & Hsend & Hs2 & Hc2 & Ho2 & Hd2); try done.
  { simpl. by rewrite Hobs, (cons_middle a), app_assoc. }
  destruct (send_all_live back v w2 Hcb Hab) as (w3 & Hsend3 & Hs3 & Hc3 & Ho3 & Hd3).
  { by apply (all_live_same _ w). }
  exists w3. split_and!.
  - unfold joining.push. apply on_next_returns; [done|]. simpl. unfold on_next.
    rewrite reset_unlocked by done. cbn [and_then]. fold w1.
    change (observers w1) with (observers w).
    by rewrite Hobs, (cons_middle a), app_assoc, send_all_app, Hsend.
  - apply new_deliveries_app. rewrite Hd3, Hd2. simpl. by rewrite <-!app_assoc.
  - rewrite Ho3, Ho2. simpl. rewrite Hobs. by rewrite <-app_assoc.
  - by rewrite Hc3, Hc2.
Qed.

End joining_facts.
End joining.

(** ** A subscriber that brings another

    The behavior of [Behavior.behavior_example] with the observers [A] and
    [C]; [A] subscribes [B] when it is told [1]. *)
Module joining_example.
Import subjects behavior_example.

Definition C : observer := subscriber.Make 1 (recorder 30).

(** [A] and [C] have subscribed and heard the seed. *)
Definition w_ac : world := after [behavior.Subscribe A; behavior.Subscribe C].

(** What was heard from [w_ac] on. *)
Definition heard_since (w : world) : list (nat * notification nat unit) :=
  drop 2 (heard w).

(** [A] brings [B] when it is told [1]. *)
Definition bring (i : nat) (n : notification nat unit) : list observer :=
  match i, n with
  | 10, Next 1 => [B]
  | _, _ => []
  end.

Definition w_joined : world := final (joining.push bring b 1 w_ac).

Lemma steady_ac : steady b w_ac.
Proof. split_and!; [done|done|by vm_compute|repeat constructor; apply recorder_calm]. Qed.

(** [B] hears [1] from its subscription, between [A] and [C], and stands
    behind [C] when [2] is pushed. *)
Example brought_in :
  heard_since w_joined = [(10, Next 1); (20, Next 1); (30, Next 1)] /\
  map (fun o => dest_id (subscriber.destination o)) (observers w_joined) = [10; 30; 20] /\
  heard_since (final (joining.push bring b 2 w_joined))
  = [(10, Next 1); (20, Next 1); (30, Next 1); (10, Next 2); (30, Next 2); (20, Next 2)].
Proof. by vm_compute. Qed.

Lemma push_without_invitations_witness :
  joining.push bring b 5 w_ac = behavior.step b (behavior.Push 5) w_ac.
Proof.
  apply (joining.push_without_invitations bring b 5 w_ac). by repeat constructor.
Defined.

Lemma joining_never_blocks_witness :
  lands_in (fun w' =>
    unlocked w' /\
    Forall (fun d => cs_is_subscribed (to_lifetime d) w_ac = true) (new_deliveries w_ac w'))
    (joining.push bring b 1 w_ac).
Proof. apply (joining.joining_never_blocks bring b 1 w_ac). reflexivity. Defined.

Lemma joined_in_cast_told_once_witness :
  exists w', joining.push bring b 1 w_ac = Ret w' /\
    new_deliveries w_ac w'
    = map (fun o' : observer => delivery_to o' (Next 1)) []
      ++ [delivery_to A (Next 1); delivery_to B (Next 1)]
      ++ map (fun o' : observer => delivery_to o' (Next 1)) [C] /\
    observers w' = [] ++ A :: [C] ++ [B] /\
    behavior_observer_state.value (cell w') = 1.
Proof.
  apply (joining.joined_in_cast_told_once bring b 1 A B [] [C] w_ac);
    [apply steady_ac|reflexivity|by repeat constructor|by repeat constructor|reflexivity
    |apply recorder_calm|reflexivity].
Defined.

End joining_example.
