(* ===== verification/Pipeline.v ===== *)
(** * Pipeline: scheduled actions that push into a behavior

    The data flow of section 2 of the specification, from end to end: the
    host emits a frame, the worker drains the items that are due, the
    actions push values into a behavior, and the behavior casts them to its
    observers.  The worker is [Worker.worker] with the world of
    [Behavior.subjects] as the state its actions touch; an action is a call
    of [on_next] of the behavior's subscriber.

    - Section [accounts]: for every program whose actions keep the state
      they touch within a set of states where none of their calls throws
      ([tame]), that state is, at every moment, what the actions that ran
      made of it, in the order they ran ([play_accounts]).
    - Section [pushes]: [push_into], the action that pushes a value, a
      call that throws when an observer does; the theorem that the
      observers of a behavior whose observers only record
      ([Behavior.steady]) hear the values in the order of the due times of
      the actions that pushed them, each value once, and that [get_value]
      gives the value of the action that ran last, for the worker alone and
      for the worker behind the adapter of [TickSource]; and the theorem
      that an exception of an observer ends the behavior and the worker.

    The worker and the behavior have each their own subscription states
    here: an observer cannot cancel a scheduled action. *)

From stdpp Require Import base list sorting.
From S2P Require Import Prelude Lifetime Subscriber Queue Worker TickSource Behavior.

Module pipeline.
Import worker.

(** ** The state the actions touch *)

Section accounts.
Context {L Q U E : Type}.
Context `{!LifetimeOps L, !Lifetimes L, !SchedQueueOps Q, !SchedQueue Q}.
#[local] Abbreviation world := (worker.world L Q U).
#[local] Abbreviation cmd := (worker.cmd U).
Context (clock_now : nat -> time) (body : nat -> list cmd).
Context (OnErrorEmpty : E -> world -> outcome world)
        (OnCompletedEmpty : world -> outcome world).
Implicit Types (w : world) (c : cmd) (ext : list run).

#[local] Abbreviation drain := (worker.drain clock_now body).
#[local] Abbreviation on_tick :=
  (worker.on_tick clock_now body OnErrorEmpty OnCompletedEmpty).
#[local] Abbreviation play :=
  (worker.play clock_now body OnErrorEmpty OnCompletedEmpty).

(** The states of the actions in which no call of an action throws. *)
Context (good : U -> Prop).

(** Commands that come back from a good state, and leave a good state. *)
Definition tame c : Prop :=
  match c with
  | Effect f => forall u, good u -> good (f u)
  | Callout f throws => forall u, good u -> throws u = false /\ good (f u)
  | Raise => False
  | _ => True
  end.

(** Events of the host in which the client leaves the state of the actions
    alone. *)
Definition hands_off (ev : host_event U) : bool :=
  match ev with
  | Call (Effect _) | Call (Callout _ _) => false
  | _ => true
  end.

(** [accounted w w']: the mutex is free, and the state the actions touch is
    good and is what the runs since [w] made of it, one after the other. *)
Definition accounted w w' : Prop :=
  idle w' /\ good (user w') /\
  exists ext, ran w' = ran w ++ ext /\
              user w' = after_runs body (map run_item ext) (user w).

Lemma accounted_refl w : idle w -> good (user w) -> accounted w w.
Proof. intros Hi Hg. split_and!; [done..|]. exists []. by rewrite app_nil_r. Qed.

Lemma accounted_trans w1 w2 w3 : accounted w1 w2 -> accounted w2 w3 -> accounted w1 w3.
Proof.
  intros (_ & _ & e1 & Hr1 & Hu1) (Hi & Hg & e2 & Hr2 & Hu2). split_and!; [done..|].
  exists (e1 ++ e2). rewrite Hr2, Hr1, Hu2, Hu1, app_assoc. split; [done|].
  unfold after_runs. by rewrite fmap_app, foldl_app.
Qed.

(** A step that records no run and leaves the state of the actions alone. *)
Lemma accounted_same w w1 w' :
  ran w1 = ran w -> user w1 = user w -> accounted w1 w' -> accounted w w'.
Proof.
  intros Hr Hu (Hi & Hg & ext & Hr' & Hu'). split_and!; [done..|]. exists ext.
  by rewrite <- Hr, <- Hu.
Qed.

Lemma effects_cons c cs (u : U) : effects (c :: cs) u = effects cs (effects [c] u).
Proof. by destruct c. Qed.

Lemma exec_accounts c w :
  idle w -> good (user w) -> tame c ->
  exists w', exec clock_now c w = Ret w' /\ idle w' /\ ran w' = ran w /\
             user w' = effects [c] (user w) /\ good (user w').
Proof.
  intros Hi Hg Hc. destruct c as [f|scbl|at_ scbl|tok| |f th]; simpl in *; try done.
  - exists (set_user (f (user w)) w). by split_and!; [..|apply Hc].
  - rewrite schedule_idle by done. eexists. split; [done|]. by destruct (live _ _).
  - rewrite schedule_at_idle by done. eexists. split; [done|]. by destruct (live _ _).
  - by eexists.
  - destruct (Hc _ Hg) as [-> Hg']. by exists (set_user (f (user w)) w).
Qed.

Lemma exec_all_accounts cs w :
  idle w -> good (user w) -> Forall tame cs ->
  exists w', exec_all clock_now cs w = Ret w' /\ idle w' /\ ran w' = ran w /\
             user w' = effects cs (user w) /\ good (user w').
Proof.
  revert w. induction cs as [|c cs IH]; intros w Hi Hg Hcs; [by exists w|].
  apply Forall_cons in Hcs as [Hc Hcs].
  destruct (exec_accounts c w Hi Hg Hc) as (w1 & He & Hi1 & Hr1 & Hu1 & Hg1).
  destruct (IH w1 Hi1 Hg1 Hcs) as (w' & He' & Hi' & Hr' & Hu' & Hg').
  exists w'. cbn [exec_all]. rewrite He. cbn [and_then].
  split_and!; [done|done|congruence| |done]. by rewrite effects_cons, <- Hu1.
Qed.

(** From here on no action throws in a good state. *)
Context (body_tame : forall a, Forall tame (body a)).

(** A run and what follows it. *)
Lemma accounted_take peek w w1 w' :
  ran w1 = ran (take clock_now peek w) ->
  user w1 = effects (body (sched_action (what peek))) (user w) ->
  accounted w1 w' -> accounted w w'.
Proof.
  intros Hr Hu (Hi & Hg & ext & Hr' & Hu'). split_and!; [done..|].
  exists (Run peek (clock_now (reads w)) :: ext).
  rewrite Hr', Hr, Hu', Hu. simpl. by rewrite <- app_assoc.
Qed.

Lemma drain_accounts fuel w :
  idle w -> good (user w) -> sound (accounted w) (drain fuel w).
Proof.
  revert w. induction fuel as [|fuel IH]; intros w Hi Hg; [by apply accounted_refl|].
  rewrite drain_S by done.
  destruct (q_empty _ || negb _); [by apply sound_Ret, accounted_refl|].
  destruct (q_top _) as [peek|]; [|by apply sound_Ret, accounted_refl].
  destruct (live (what peek) w); simpl.
  - destruct (clock_now (reads w) <? when peek)%Z.
    { apply sound_Ret, (accounted_same w (tick_clock w)); [done|done|].
      by apply accounted_refl. }
    destruct (exec_all_accounts (body (sched_action (what peek)))
                (take clock_now peek w) Hi Hg (body_tame _))
      as (w1 & He & Hi1 & Hr1 & Hu1 & Hg1).
    unfold invoke. rewrite He. cbn [and_then].
    eapply sound_impl; [by apply IH|]. intros w'. by apply (accounted_take peek).
  - eapply sound_impl; [by apply IH|]. intros w'. by apply accounted_same.
Qed.

Lemma on_tick_accounts fuel w :
  idle w -> good (user w) -> sound (accounted w) (on_tick fuel w).
Proof.
  intros Hi Hg. unfold worker.on_tick, subscriber.on_next. simpl.
  destruct (negb _); [by apply sound_Ret, accounted_refl|].
  pose proof (drain_accounts fuel w Hi Hg) as Hd.
  by destruct (drain fuel w) as [w'|w'|[| |] w'].
Qed.

(** A call of a client that leaves the state of the actions alone. *)
Lemma call_accounts c w :
  hands_off (Call c) = true -> idle w -> good (user w) ->
  sound (accounted w) (exec clock_now c w).
Proof.
  intros Hc Hi Hg.
  assert (tame c \/ c = Raise) as [Hcalm| ->] by (destruct c; simpl in *; try done; by auto);
    [|by apply accounted_refl].
  destruct (exec_accounts c w Hi Hg Hcalm) as (w1 & -> & Hi1 & Hr1 & Hu1 & Hg1).
  apply sound_Ret. split_and!; [done..|]. exists []. rewrite app_nil_r. split; [done|].
  rewrite Hu1. by destruct c.
Qed.

Lemma play_accounts fuel evs w :
  forallb hands_off evs = true -> idle w -> good (user w) ->
  sound (accounted w) (play fuel evs w).
Proof.
  revert w. induction evs as [|ev evs IH]; intros w Hevs Hi Hg;
    [by apply sound_Ret, accounted_refl|].
  simpl in Hevs. apply andb_true_iff in Hevs as [Hev Hevs].
  destruct ev as [|c]; simpl;
    (eapply sound_and_then; [by first [apply on_tick_accounts|apply call_accounts]| |done]);
    intros w1 H1; (eapply sound_impl; [apply IH; [done|apply H1..]|]);
    intros w2; by apply accounted_trans.
Qed.

End accounts.

(** ** Actions that push into a behavior *)

Section pushes.
Context {L Q U T E E' : Type}.
Context `{!LifetimeOps L, !Lifetimes L, !SchedQueueOps Q, !SchedQueue Q}.
#[local] Abbreviation cell := (subjects.world L U T E).
#[local] Abbreviation world := (worker.world L Q cell).
Context (clock_now : nat -> time).
Context (OnErrorEmpty : E' -> world -> outcome world)
        (OnCompletedEmpty : world -> outcome world).
(** The behavior, and the value that each action pushes into it. *)
Context (b : behavior.t) (value : nat -> T).
Implicit Types (w : world) (u : cell) (x : run).

(** [b.get_subscriber().on_next(v)], as a command of an action: the world
    of the behavior is left as the call leaves it, and an exception that
    leaves the call leaves the action. *)
Definition push_into (v : T) : worker.cmd cell :=
  Callout (fun u => final (behavior.step b (behavior.Push v) u))
          (fun u => thrown (behavior.step b (behavior.Push v) u)).

(** The program: action [a] pushes [value a]. *)
Definition body (a : nat) : list (worker.cmd cell) := [push_into (value a)].

(** The value that a run pushed. *)
Definition pushed_by x : T := value (sched_action (what (run_item x))).

#[local] Abbreviation on_tick :=
  (worker.on_tick clock_now body OnErrorEmpty OnCompletedEmpty).
#[local] Abbreviation play :=
  (worker.play clock_now body OnErrorEmpty OnCompletedEmpty).

(** No push throws while the observers of the behavior only record. *)
Lemma body_tame a : Forall (tame (steady b)) (body a).
Proof.
  apply Forall_singleton. intros u Hu. pose proof Hu as (_ & Hf & Hl & Hc).
  cbn beta. rewrite (push_calm b _ u) by done. split; [done|by apply pushed_steady].
Qed.

Lemma flat_map_pushed_by {A} (f : T -> list A) (ext : list run) :
  flat_map f (map pushed_by ext) = flat_map (fun x => f (pushed_by x)) ext.
Proof. induction ext as [|x ext IH]; simpl; [done|]. by rewrite IH. Qed.

(** Pushes one after the other, on a behavior in use, are the fold of
    single pushes. *)
Lemma pushes_fold (vs : list T) u :
  steady b u ->
  behavior.play b (map behavior.Push vs) u
  = Ret (foldl (fun u v => final (behavior.step b (behavior.Push v) u)) u vs).
Proof.
  revert u. induction vs as [|v vs IH]; intros u Hu; [done|].
  pose proof Hu as (_ & Hf & Hl & Hc).
  cbn [map behavior.play foldl]. rewrite (push_calm b v u) by done.
  cbn [and_then final]. by apply IH, pushed_steady.
Qed.

(** What the runs [ext] made of the behavior is what pushing their values
    in that order makes of it. *)
Lemma after_runs_pushes (ext : list run) u :
  after_runs body (map run_item ext) u
  = foldl (fun u v => final (behavior.step b (behavior.Push v) u)) u
      (map pushed_by ext).
Proof.
  unfold after_runs. revert u. induction ext as [|x ext IH]; intros u; [done|].
  simpl. by rewrite IH.
Qed.

(** The core: whatever the frames and the calls between them, the behavior
    is as if the values of the actions that ran had been pushed by hand, in
    the order the actions ran. *)
Lemma play_pushes fuel evs w :
  forallb hands_off evs = true -> idle w -> steady b (user w) ->
  holds (fun w' =>
    behavior.play b (map behavior.Push (map pushed_by (new_runs w w'))) (user w)
    = Ret (user w'))
    (play fuel evs w).
Proof.
  intros Hevs Hi Hu.
  eapply holds_impl;
    [exact (sound_holds _ _ (play_accounts clock_now body OnErrorEmpty
                               OnCompletedEmpty (steady b) body_tame fuel evs w
                               Hevs Hi Hu))|].
  intros w' (_ & _ & ext & Hr & Hu'). unfold new_runs.
  rewrite Hr, drop_app_length, Hu', after_runs_pushes. by apply pushes_fold.
Qed.

(** What the observers hear after a history of the worker. *)
Definition heard_in_due_order (w w' : world) : Prop :=
  StronglySorted due_before (new_runs w w') /\
  new_deliveries (user w) (user w')
  = flat_map (fun x => map (fun o => subjects.delivery_to o (Next (pushed_by x)))
                         (subjects.current (user w)))
      (new_runs w w') /\
  forall k, behavior.get_value b k (user w')
            = k (default (behavior_observer_state.value (subjects.cell (user w)))
                   (last (map pushed_by (new_runs w w'))))
                (user w').

(** From the frame callback to the observers: when scheduled actions push
    into a behavior whose observers record, over any number of frames and
    with any scheduling by clients between them, the observers hear the
    values of the actions that ran, every observer every value once, in the
    order of the due times of the actions; and [get_value] gives the value
    of the action that ran last. *)
Lemma scheduled_pushes_arrive_in_due_order fuel evs w :
  (forall n, (clock_now n <= clock_now (S n))%Z) ->
  forallb timely_event evs = true ->
  forallb hands_off evs = true ->
  idle w ->
  ordered (q_items (queue (state w))) ->
  steady b (user w) ->
  holds (heard_in_due_order w) (play fuel evs w).
Proof.
  intros Hmono Ht Hevs Hi Ho Hu.
  pose proof (play_served clock_now body OnErrorEmpty OnCompletedEmpty fuel evs w
                Hmono (fun _ => eq_refl) Ht Hi Ho) as Hs.
  pose proof (play_pushes fuel evs w Hevs Hi Hu) as Hp.
  unfold holds in *. destruct Hs as (ext & Hr & Hsorted & _).
  destruct (pushes_calm b (map pushed_by (new_runs w (final (play fuel evs w))))
              (user w) Hu) as (u' & Hu' & (_ & Hf & _) & _ & _ & Hd & Hv).
  rewrite Hp in Hu'. injection Hu' as <-.
  unfold heard_in_due_order. split_and!.
  - unfold new_runs. by rewrite Hr, drop_app_length.
  - rewrite (new_deliveries_app _ _ _ Hd). by rewrite flat_map_pushed_by.
  - intros k. by rewrite get_value_unlocked, Hv.
Qed.

(** C10. From the host to the observers.  A worker behind its adapter, with
    actions that push into a behavior whose observers record: over any
    number of update events of the host, with clients that between them
    call [schedule(scbl)], unsubscribe or throw (they do not call
    [schedule(when, scbl)] and do not touch the behavior), as long as the
    subject of the adapter lives, every observer hears the value of every
    action that ran, once, in the order of the due times of the actions,
    and [get_value] gives the value of the action that ran last. *)
Theorem frames_reach_observers_in_due_order fuel evs
    (s : updates.system world E') :
  (forall n, (clock_now n <= clock_now (S n))%Z) ->
  forallb timely_event evs = true ->
  forallb hands_off evs = true ->
  updates.wired clock_now body OnErrorEmpty OnCompletedEmpty fuel s ->
  updates.listening s = Nat.b2n (updates.registered (updates.source s)) ->
  updates.registered (updates.source s) = true ->
  idle (updates.inner s) ->
  ordered (q_items (queue (state (updates.inner s)))) ->
  steady b (user (updates.inner s)) ->
  updates.alive
    (final (updates.play clock_now OnErrorEmpty OnCompletedEmpty
              (map updates.of_host evs) s)) ->
  holds (fun s' => heard_in_due_order (updates.inner s) (updates.inner s'))
    (updates.play clock_now OnErrorEmpty OnCompletedEmpty (map updates.of_host evs) s).
Proof.
  intros Hmono Ht Hevs Hw Hp Hr Hi Ho Hu Ha. unfold holds.
  rewrite <- (final_outcome_map updates.inner),
    (updates.play_of_host clock_now body _ _ fuel) by done.
  by apply scheduled_pushes_arrive_in_due_order.
Qed.

(** The action of the item in front, when an observer throws at the value
    it pushes: the exception leaves the action, the behavior as the
    exception left it. *)
Lemma invoke_push_throws peek w u' :
  behavior.step b (behavior.Push (value (sched_action (what peek)))) (user w) = Throw u' ->
  invoke clock_now body (what peek) (take clock_now peek w)
  = Throw (set_user u' (take clock_now peek w)).
Proof.
  intros Hth. unfold invoke, body, push_into. cbn [exec_all exec].
  change (user (take clock_now peek w)) with (user w). by rewrite Hth.
Qed.

(** C11. An exception of an observer goes all the way up.  When the item in
    front is due and live and an observer of the behavior throws at the
    value its action pushes, the exception leaves the cast, the subscriber
    of the behavior, the action, the drain and the frame callback: the
    behavior's lifetime and the worker's lifetime have both ended, the run
    is on record, the items behind it stay in the queue, and no later frame
    does anything. *)
Theorem observer_exception_ends_worker fuel w peek u' :
  idle w ->
  cs_is_subscribed (lifetime (state w)) w = true ->
  q_top (queue (state w)) = Some peek ->
  live (what peek) w = true ->
  (when peek <= clock_now (reads w))%Z ->
  cs_is_subscribed (behavior.lifetime b) (user w) = true ->
  behavior.step b (behavior.Push (value (sched_action (what peek)))) (user w) = Throw u' ->
  exists w', on_tick (S fuel) w = Throw w' /\
    user w' = u' /\
    new_runs w w' = [Run peek (clock_now (reads w))] /\
    queue (state w') = q_pop (queue (state w)) /\
    cs_is_subscribed (behavior.lifetime b) (user w') = false /\
    cs_is_subscribed (lifetime (state w')) w' = false /\
    forall fuel', on_tick fuel' w' = Ret w'.
Proof.
  intros Hi Hl Ht Hp Hd Hb Hth.
  pose proof (drain_throws clock_now body fuel w peek _ Hi Hl Ht Hp Hd
                (invoke_push_throws peek w u' Hth)) as Hdr.
  pose proof (on_tick_rethrows clock_now body OnErrorEmpty OnCompletedEmpty
                _ _ _ Hl Hdr) as Hon.
  pose proof (on_tick_throws _ _ _ _ _ _ _ Hi Hon) as Hdead.
  eexists. split; [exact Hon|]. split_and!; [done| |done| |done|].
  - unfold new_runs. simpl. by rewrite drop_app_length.
  - exact (notify_throws (behavior.get_subscriber b) (Next _) (user w) u' Hth Hb).
  - intros fuel'. by apply on_tick_dead.
Qed.

End pushes.

End pipeline.

(** ** A pipeline at work

    The worker of [Worker.example] in front of the behavior of
    [Behavior.behavior_example]: action [a] pushes the number [a], and the
    observer [A] records what it hears. *)
Module pipeline_example.
Import worker pipeline.

Abbreviation world :=
  (worker.world composite_subscription.store schedulable_queue.t behavior_example.world).

Definition OnErrorEmpty (e : unit) (w : world) : outcome world := Fault Aborted w.
Definition OnCompletedEmpty (w : world) : outcome world := Ret w.

Definition play : nat -> list (host_event behavior_example.world) -> world -> outcome world :=
  worker.play example.clock (body behavior_example.b id) OnErrorEmpty OnCompletedEmpty.

(** A new worker, and the behavior with its first observer. *)
Definition w0 : world :=
  World example.subs0 (create 0) 0
    (behavior_example.after [behavior.Subscribe behavior_example.A]) [].

Definition heard (m : outcome world) : list (nat * notification nat unit) :=
  behavior_example.heard (user (final m)).

(** The frames of section 8 of the specification, with actions that push:
    [X], which pushes 1, is scheduled for 100 and [Y], which pushes 2, for
    50; the observer, which heard the seed when it subscribed, hears
    nothing at 40, hears 2 at 60 and 1 at 150. *)
Example frames_of_the_specification_heard :
  map (fun frames =>
         heard (play 9 ([Call (ScheduleAt 100 example.X); Call (ScheduleAt 50 example.Y)]
                        ++ frames) w0))
    [[Frame]; [Frame; Frame]; [Frame; Frame; Frame]]
  = [[(10, Next 0)];
     [(10, Next 0); (10, Next 2)];
     [(10, Next 0); (10, Next 2); (10, Next 1)]].
Proof. by vm_compute. Qed.

(** The same worker, made by its constructor behind its adapter. *)
Definition s0 : updates.system world unit :=
  updates.construct example.clock (body behavior_example.b id)
    OnErrorEmpty OnCompletedEmpty 9 0 w0.

Definition through_adapter (evs : list (host_event behavior_example.world))
  : outcome (updates.system world unit) :=
  updates.play example.clock OnErrorEmpty OnCompletedEmpty (map updates.of_host evs) s0.

Lemma w0_live : cs_is_subscribed 0 w0 = true.
Proof. by vm_compute. Qed.

Lemma frames_reach_observers_in_due_order_witness :
  holds (fun s' => heard_in_due_order behavior_example.b id
                     (updates.inner s0) (updates.inner s'))
    (through_adapter [Call (Schedule example.Y); Call (Schedule example.X); Frame; Frame]).
Proof.
  destruct (updates.construct_spec example.clock (body behavior_example.b id)
              OnErrorEmpty OnCompletedEmpty 9 0 w0 w0_live)
    as (Hw & Hp & Hr & _ & _ & Hi & _ & Hu).
  apply (frames_reach_observers_in_due_order example.clock OnErrorEmpty OnCompletedEmpty
           behavior_example.b id 9);
    [exact example.clock_monotone|reflexivity|reflexivity|exact Hw|exact Hp|exact Hr
    |exact Hi|vm_compute; apply SSorted_nil
    |unfold s0; rewrite Hu; exact behavior_example.steady_after_A|by vm_compute].
Defined.

(** What the observer hears through the adapter, and after [clear()] has
    taken the adapter out of the update event of the host. *)
Example frames_heard_through_the_adapter :
  behavior_example.heard
    (user (updates.inner (final (through_adapter
       [Call (Schedule example.Y); Call (Schedule example.X); Frame; Frame]))))
  = [(10, Next 0); (10, Next 2); (10, Next 1)] /\
  behavior_example.heard
    (user (updates.inner (final
       (updates.play example.clock OnErrorEmpty OnCompletedEmpty
          [updates.Do (Schedule example.Y); updates.Clear; updates.Tick; updates.Tick]
          s0))))
  = [(10, Next 0)].
Proof. by vm_compute. Qed.

(** What the observer hears in that history: [Y] is scheduled when the
    clock reads 40 and [X] when it reads 60; both run at the first frame,
    [Y] first. *)
Example scheduled_pushes_heard :
  heard (play 9 [Call (Schedule example.Y); Call (Schedule example.X); Frame; Frame] w0)
  = [(10, Next 0); (10, Next 2); (10, Next 1)].
Proof. by vm_compute. Qed.

(** The same worker in front of the behavior with the observer that
    throws among its observers, after [A]; [X] and [Y] are queued and the
    first frame, at 40, has found nothing due. *)
Definition w_trap : world :=
  World example.subs0 (create 0) 0 behavior_example.w_trap [].

Definition w_due : world :=
  final (play 9 [Call (ScheduleAt 100 example.X); Call (ScheduleAt 50 example.Y); Frame]
           w_trap).

Lemma observer_exception_ends_worker_witness :
  exists w', worker.on_tick example.clock (body behavior_example.b id)
               OnErrorEmpty OnCompletedEmpty 9 w_due = Throw w' /\
    user w' = final (behavior.step behavior_example.b (behavior.Push 2) (user w_due)) /\
    new_runs w_due w' = [Run (Item 50 example.Y) (example.clock (reads w_due))] /\
    queue (state w') = q_pop (queue (state w_due)) /\
    cs_is_subscribed (behavior.lifetime behavior_example.b) (user w') = false /\
    cs_is_subscribed (lifetime (state w')) w' = false /\
    forall fuel', worker.on_tick example.clock (body behavior_example.b id)
                    OnErrorEmpty OnCompletedEmpty fuel' w' = Ret w'.
Proof.
  apply (observer_exception_ends_worker example.clock OnErrorEmpty OnCompletedEmpty
           behavior_example.b id 8 w_due (Item 50 example.Y)); by vm_compute.
Defined.

(** What is heard and what has run when the observer throws: [A] and then
    the thrower are told the 2 that [Y] pushes at 60; the exception leaves
    the frame, the worker is cancelled with [X] in its queue, and the
    frames that follow run nothing. *)
Example exception_of_an_observer_heard :
  let w' := final (play 9 [Frame] w_due) in
  (thrown (play 9 [Frame] w_due), heard (play 9 [Frame] w_due),
   map run_at (ran w'), length (q_items (queue (state w'))),
   cs_is_subscribed (lifetime (state w')) w',
   map run_at (ran (final (play 9 [Frame; Frame] w'))))
  = (true, [(10, Next 0); (10, Next 2); (30, Next 2)], [60%Z], 1, false, [60%Z]).
Proof. by vm_compute. Qed.

End pipeline_example.
