(* ===== verification/App.v ===== *)
(** * App: the state of the demo application

    Model of the logic of [src/emptyExample/src/ofApp.cpp]: what the
    subscriptions made in [ofApp::setup] do to the members of [ofApp], and
    what [ofApp::draw] reads from them.  The operators that route the events
    (map, filter, merge, combine_latest, switch_on_next) are the library's;
    a handler is modelled from the point where its lambda is called.

    - Section [machine]: the integer types of the program, at their width.
    - Module [ofApp]: the members, and one definition per lambda:
      [on_move] for the rolling window of past points, [on_backspace] and
      [on_char] for the flying text, [on_selection] for the choice of the
      source, [draw_text] for the placing of the characters.
    - Section [app_facts]: the theorems.

    Points are a parameter: the program does not compute with the
    coordinates it stores.  Widths of the GUI controls are in tenths of a
    pixel, the program's factor 8.5 being 85 tenths. *)

From Stdlib Require Import String.
From stdpp Require Import base numbers list sorting.
From S2P Require Import Prelude.

#[local] Open Scope Z_scope.

(** ** Machine integers *)

Section machine.

(** Conversion to [unsigned long long] and to [size_t] (64 bits). *)
Definition u64 (z : Z) : Z := z mod 2 ^ 64.

(** Conversion of a key code to [char]: the low byte, as a number from 0
    to 255.  Where [char] is signed the program reads the same byte as a
    number from -128 to 127; the handlers store and compare the byte and
    do no arithmetic on it. *)
Definition to_char (key : Z) : Z := key mod 256.

(** [FLYING_DELAY_MS] *)
Definition FLYING_DELAY_MS : Z := 200.

(** [OF_KEY_BACKSPACE] and [OF_KEY_MODIFIER] of openFrameworks. *)
Definition OF_KEY_BACKSPACE : Z := 8.
Definition OF_KEY_MODIFIER : Z := 256.

End machine.

(** ** The application *)

Module ofApp.
Section ofApp.
Context {ofPoint : Type}.

(** [move_record]: a point and the time, in milliseconds, it was seen. *)
Definition move_record : Type := ofPoint * Z.

Definition tick (r : move_record) : Z := r.2.

(** The members the handlers use.  [center_source] is the index in
    [sources] of the observable last pushed into the behavior of that name. *)
Record t : Type := Make {
  message : list Z;                 (* [std::string message], as bytes *)
  flyingText : list Z;              (* the label that shows it *)
  flyingText_width : Z;             (* in tenths of a pixel *)
  move_window : list move_record;   (* [std::deque<move_record>], front first *)
  center_source : nat;
  selectedText : string;
  selectedText_width : Z;
  show_text : bool;                 (* the toggle "flying text" *)
}.

(** [sourcesText]; [sources] has as many entries. *)
Definition sourcesText : list string :=
  ["window_center"; "all_movement"; "just_moves"; "just_drags"; "never"]%string.

Definition sources_size : Z := Z.of_nat (List.length sourcesText).

(** [(13 + message.size()) * 8.5], in tenths *)
Definition text_width (n : nat) : Z := (13 + Z.of_nat n) * 85.

(** [(17 + msg.size()) * 8.5], in tenths *)
Definition label_width (n : nat) : Z := (17 + Z.of_nat n) * 85.

(** *** The rolling window of past points *)

(** [std::get<1>(pt) - (message.size() * FLYING_DELAY_MS)]: both operands
    are unsigned and 64 bits wide, and so is the difference. *)
Definition cutoff (message : list Z) (pt : move_record) : Z :=
  u64 (tick pt - u64 (Z.of_nat (List.length message) * FLYING_DELAY_MS)).

(** [while (move_window.size() > 1 && get<1>(move_window.front()) < bound)
    move_window.pop_front();] *)
Fixpoint trim (bound : Z) (w : list move_record) : list move_record :=
  match w with
  | [] => []
  | front :: rest =>
      match rest with
      | [] => w
      | _ :: _ => if tick front <? bound then trim bound rest else w
      end
  end.

(** The subscription to [center_points.combine_latest(milliseconds())]. *)
Definition on_move (pt : move_record) (a : t) : t :=
  let w := move_window a ++ [pt] in
  Make (message a) (flyingText a) (flyingText_width a)
       (trim (cutoff (message a) pt) w)
       (center_source a) (selectedText a) (selectedText_width a) (show_text a).

(** *** Editing the flying text *)

Definition set_message (m : list Z) (a : t) : t :=
  Make m m (text_width (List.length m)) (move_window a)
       (center_source a) (selectedText a) (selectedText_width a) (show_text a).

(** The filter and the handler of the first subscription to
    [keyboard.releases()]. *)
Definition is_backspace (key : Z) : bool := key =? OF_KEY_BACKSPACE.

(** [message.erase(--message.end())] when the message is not empty *)
Definition on_backspace (a : t) : t :=
  set_message (removelast (message a)) a.

(** The filter and the handler of the second subscription. *)
Definition is_char (key : Z) : bool :=
  (Z.land key OF_KEY_MODIFIER =? 0) && negb (key =? OF_KEY_BACKSPACE).

Definition on_char (key : Z) (a : t) : t :=
  set_message (message a ++ [to_char key]) a.

(** A key is released: both subscriptions see it, in the order they were
    made. *)
Definition on_key_release (key : Z) (a : t) : t :=
  let a := if is_backspace key then on_backspace a else a in
  if is_char key then on_char key a else a.

(** *** The choice of the source *)

(** [selected % sources.size()]: [selected] is an [int], the size a
    [size_t]; the [int] is converted. *)
Definition source_index (selected : Z) : nat :=
  Z.to_nat (u64 selected mod sources_size).

(** The subscription to [selections]. *)
Definition on_selection (selected : Z) (a : t) : t :=
  let msg := nth (source_index selected) sourcesText EmptyString in
  Make (message a) (flyingText a) (flyingText_width a) (move_window a)
       (source_index selected) msg (label_width (String.length msg)) (show_text a).

(** *** Drawing the flying text *)

(** [now - (FLYING_DELAY_MS * index)]: the product is an [int], the
    difference an [unsigned long long].  The product is taken in [Z]: it is
    the [int] of the program as long as it is below 2^31, that is for the
    first 10737418 characters of the message, beyond which the program
    overflows an [int]. *)
Definition char_time (now : Z) (index : nat) : Z :=
  u64 (now - u64 (FLYING_DELAY_MS * Z.of_nat index)).

(** [std::find_if(move_window.rbegin(), move_window.rend(), ...)]: the newest
    record older than [time]; and the newest record when there is none. *)
Definition find_older (time : Z) (w : list move_record) : option move_record :=
  List.find (fun tp => tick tp <? time) (rev w).

(** [at] is first the front of the window, then what was found, or the
    back of the window when nothing was. *)
Definition place (time : Z) (front : move_record) (w : list move_record) : move_record :=
  match find_older time w with
  | Some r => r
  | None => List.last w front
  end.

(** The loop over the characters of [message]: each with its index and the
    record it is drawn at. *)
Fixpoint draw_from (index : nat) (now : Z) (front : move_record) (w : list move_record)
    (m : list Z) : list (Z * nat * move_record) :=
  match m with
  | [] => []
  | c :: m => (c, index, place (char_time now index) front w)
              :: draw_from (S index) now front w m
  end.

(** [if (show_text && !move_window.empty())] *)
Definition draw_text (now : Z) (a : t) : list (Z * nat * move_record) :=
  match move_window a with
  | front :: _ => if show_text a then draw_from 0 now front (move_window a) (message a)
                  else []
  | [] => []
  end.

End ofApp.
Arguments t : clear implicits.
Arguments move_record : clear implicits.
End ofApp.

(** ** Theorems *)

Section app_facts.
Import ofApp.
Context {ofPoint : Type}.
#[local] Abbreviation move_record := (ofApp.move_record ofPoint).
#[local] Abbreviation app := (ofApp.t ofPoint).
Implicit Types (w : list move_record) (r pt : move_record) (a : app) (m : list Z).

(** The values of an [unsigned long long]. *)
Definition is_u64 (z : Z) : Prop := 0 <= z < 2 ^ 64.

Lemma u64_range z : is_u64 (u64 z).
Proof. unfold is_u64, u64. apply Z.mod_pos_bound. lia. Qed.

Lemma u64_id z : is_u64 z -> u64 z = z.
Proof. unfold is_u64, u64. intros. by apply Z.mod_small. Qed.

(** A difference that does not go below zero is exact. *)
Lemma u64_sub x y : is_u64 x -> 0 <= y <= x -> u64 (x - y) = x - y.
Proof. unfold is_u64. intros. apply u64_id. unfold is_u64. lia. Qed.

(** A difference that goes below zero wraps around. *)
Lemma u64_sub_wrap x y : is_u64 x -> is_u64 y -> x < y -> u64 (x - y) = 2 ^ 64 + x - y.
Proof.
  unfold is_u64, u64. intros. symmetry.
  apply (Z.mod_unique_pos _ _ (-1)); lia.
Qed.

(** The records were seen in the order they are kept in. *)
Definition in_order w : Prop := StronglySorted (fun r1 r2 => tick r1 <= tick r2) w.

(** *** The window *)

Lemma trim_cons bound r r' w :
  trim bound (r :: r' :: w)
  = if tick r <? bound then trim bound (r' :: w) else r :: r' :: w.
Proof. done. Qed.

Lemma trim_nonempty bound w : w <> [] -> trim bound w <> [].
Proof.
  induction w as [|r [|r' w] IH]; [done|done|]. intros _. rewrite trim_cons.
  destruct (tick r <? bound); [by apply IH|done].
Qed.

Lemma trim_last bound w front : List.last (trim bound w) front = List.last w front.
Proof.
  induction w as [|r [|r' w] IH]; [done|done|]. rewrite trim_cons.
  destruct (tick r <? bound); [by rewrite IH|done].
Qed.

(** Trimming drops a prefix of records older than the bound. *)
Lemma trim_split bound w :
  exists dropped, w = dropped ++ trim bound w /\
                  Forall (fun r => tick r < bound) dropped.
Proof.
  induction w as [|r [|r' w] IH]; [by exists []..|]. rewrite trim_cons.
  destruct (Z.ltb_spec (tick r) bound) as [Hlt|Hge]; [|by exists []].
  destruct IH as (dropped & Hw & Hd). exists (r :: dropped).
  split; [by rewrite Hw at 1|by constructor].
Qed.

(** It stops at one record, or at a record that is not older. *)
Lemma trim_stops bound w :
  (length (trim bound w) <= 1)%nat \/
  exists r rest, trim bound w = r :: rest /\ bound <= tick r.
Proof.
  induction w as [|r [|r' w] IH]; [left; simpl; lia..|]. rewrite trim_cons.
  destruct (Z.ltb_spec (tick r) bound) as [Hlt|Hge]; [done|].
  right. by exists r, (r' :: w).
Qed.

Lemma in_order_suffix w1 w2 : in_order (w1 ++ w2) -> in_order w2.
Proof. apply StronglySorted_suffix. Qed.

(** When everything is older than the bound, one record is left. *)
Lemma trim_all_old bound w pt :
  Forall (fun r => tick r < bound) w -> trim bound (w ++ [pt]) = [pt].
Proof.
  induction 1 as [|r w Hr _ IH]; [done|].
  change ((r :: w) ++ [pt]) with (r :: (w ++ [pt])).
  destruct (w ++ [pt]) as [|r' w'] eqn:Hw; [by destruct w|].
  rewrite trim_cons. by destruct (Z.ltb_spec (tick r) bound); [|lia].
Qed.

(** The window always holds the point that came last. *)
Theorem on_move_keeps_newest pt a front :
  List.last (move_window (on_move pt a)) front = pt.
Proof. simpl. rewrite trim_last. apply last_last. Qed.

(** What a new point drops from the window is a prefix of records that
    are older than the cutoff. *)
Theorem on_move_drops_old pt a :
  exists dropped,
    move_window a ++ [pt] = dropped ++ move_window (on_move pt a) /\
    Forall (fun r => tick r < cutoff (message a) pt) dropped.
Proof. apply trim_split. Qed.

Lemma on_move_covers_flight pt a :
  let flight := Z.of_nat (List.length (message a)) * FLYING_DELAY_MS in
  is_u64 (tick pt) -> flight <= tick pt ->
  in_order (move_window a ++ [pt]) ->
  Forall (fun r => tick pt - flight <= tick r) (move_window (on_move pt a)).
Proof.
  intros flight Hpt Hfl Hord. simpl.
  assert (cutoff (message a) pt = tick pt - flight) as Hcut.
  { unfold cutoff. fold flight. unfold is_u64 in Hpt.
    rewrite (u64_id flight) by (unfold is_u64, flight, FLYING_DELAY_MS in *; lia).
    apply u64_sub; [done|]. unfold flight, FLYING_DELAY_MS in *. lia. }
  rewrite Hcut.
  destruct (trim_split (tick pt - flight) (move_window a ++ [pt])) as (dropped & Hw & _).
  pose proof (trim_last (tick pt - flight) (move_window a ++ [pt]) pt) as Hlast.
  rewrite last_last in Hlast.
  rewrite Hw in Hord. apply in_order_suffix in Hord.
  destruct (trim_stops (tick pt - flight) (move_window a ++ [pt]))
    as [Hone|(r & rest & Hr & Hge)].
  - destruct (trim _ _) as [|r [|]]; simpl in *; [done| |lia].
    subst. repeat constructor. unfold flight, FLYING_DELAY_MS. lia.
  - rewrite Hr in Hord |- *. apply StronglySorted_inv in Hord as [_ Hall].
    constructor; [done|]. eapply Forall_impl; [exact Hall|]. intros; simpl in *; lia.
Qed.

(** Once the program has run for longer than the flight of the message,
    the window covers the flight: every record it holds is at most
    [message.size() * FLYING_DELAY_MS] older than the newest. *)
Theorem window_covers_flight pt a :
  let flight := Z.of_nat (List.length (message a)) * FLYING_DELAY_MS in
  is_u64 (tick pt) -> flight <= tick pt ->
  in_order (move_window a ++ [pt]) ->
  Forall (fun r => tick pt - flight <= tick r) (move_window (on_move pt a)).
Proof. apply on_move_covers_flight. Qed.

Lemma on_move_collapses pt a :
  let flight := Z.of_nat (List.length (message a)) * FLYING_DELAY_MS in
  0 <= tick pt < flight -> flight < 2 ^ 64 ->
  Forall (fun r => 0 <= tick r <= tick pt) (move_window a) ->
  move_window (on_move pt a) = [pt].
Proof.
  intros flight Hpt Hfl Hw. simpl. apply trim_all_old.
  unfold cutoff. fold flight.
  rewrite (u64_id flight) by (unfold is_u64, flight, FLYING_DELAY_MS in *; lia).
  rewrite u64_sub_wrap by (unfold is_u64; lia).
  eapply Forall_impl; [exact Hw|]. intros r Hr. simpl in *. lia.
Qed.

(** Before that the subtraction wraps around: the cutoff is a time far
    in the future, every record is older, and the window holds one point. *)
Theorem early_window_collapses pt a :
  let flight := Z.of_nat (List.length (message a)) * FLYING_DELAY_MS in
  0 <= tick pt < flight -> flight < 2 ^ 64 ->
  Forall (fun r => 0 <= tick r <= tick pt) (move_window a) ->
  move_window (on_move pt a) = [pt].
Proof. apply on_move_collapses. Qed.

(** *** Placing the characters *)

Lemma find_older_snoc time w r :
  find_older time (w ++ [r])
  = if tick r <? time then Some r else find_older time w.
Proof. unfold find_older. by rewrite rev_unit. Qed.

(** What is found is the newest of the records older than [time]. *)
Lemma find_older_Some time w r :
  find_older time w = Some r ->
  exists w1 w2, w = w1 ++ r :: w2 /\ tick r < time /\
                Forall (fun r' => time <= tick r') w2.
Proof.
  induction w as [|x w IH] using rev_ind; [done|].
  rewrite find_older_snoc. destruct (Z.ltb_spec (tick x) time) as [Hlt|Hge].
  - intros [= ->]. by exists w, [].
  - intros (w1 & w2 & -> & Hr & Hw2)%IH. exists w1, (w2 ++ [x]).
    rewrite <- app_assoc. split_and!; [done|done|].
    apply Forall_app. split; [done|by constructor].
Qed.

Lemma find_older_None time w :
  find_older time w = None -> Forall (fun r => time <= tick r) w.
Proof.
  induction w as [|x w IH] using rev_ind; [by constructor|].
  rewrite find_older_snoc. destruct (Z.ltb_spec (tick x) time); [done|].
  intros Hw%IH. apply Forall_app. split; [done|by constructor].
Qed.

Lemma last_elem_of w front : w <> [] -> List.last w front ∈ w.
Proof.
  induction w as [|x w _] using rev_ind; [done|]. intros _.
  rewrite last_last. apply elem_of_app. right. constructor.
Qed.

(** A character is drawn at a record of the window: the iterator that
    [find_if] returns is dereferenced inside the deque, and [back()] is
    called on a deque that is not empty. *)
Theorem place_in_window time front w : w <> [] -> place time front w ∈ w.
Proof.
  intros Hw. unfold place. destruct (find_older time w) as [r|] eqn:Hf.
  - apply find_older_Some in Hf as (w1 & w2 & -> & _).
    apply elem_of_app. right. constructor.
  - by apply last_elem_of.
Qed.

(** It is drawn at the newest record older than its time, when there is
    one, and at the newest record otherwise. *)
Theorem place_newest_older time front w :
  (exists w1 w2, w = w1 ++ place time front w :: w2 /\
                 tick (place time front w) < time /\
                 Forall (fun r => time <= tick r) w2) \/
  (place time front w = List.last w front /\ Forall (fun r => time <= tick r) w).
Proof.
  unfold place. destruct (find_older time w) as [r|] eqn:Hf.
  - left. by apply find_older_Some.
  - right. split; [done|by apply find_older_None].
Qed.

(** The time of a character that lies before the start of the program
    wraps around to the far future: the character is drawn at the newest
    record, which is also where it is drawn when nothing is old enough. *)
Theorem early_char_at_newest now index front w :
  let delay := FLYING_DELAY_MS * Z.of_nat index in
  0 <= now < delay -> delay < 2 ^ 64 ->
  Forall (fun r => 0 <= tick r <= now) w -> w <> [] ->
  place (char_time now index) front w = List.last w front.
Proof.
  intros delay Hnow Hd Hw Hne. unfold place, char_time. fold delay.
  rewrite (u64_id delay), u64_sub_wrap by (unfold is_u64; lia).
  destruct w as [|x w _] using rev_ind; [done|].
  apply Forall_app in Hw as [_ [Hx _]%Forall_cons].
  rewrite find_older_snoc, last_last.
  by destruct (Z.ltb_spec (tick x) (2 ^ 64 + now - delay)); [|lia].
Qed.

Lemma place_single time front pt : place time front [pt] = pt.
Proof. unfold place, find_older. simpl. by destruct (tick pt <? time). Qed.

Lemma draw_from_single index now front pt m :
  draw_from index now front [pt] m = imap (fun i c => (c, index + i, pt)%nat) m.
Proof.
  revert index. induction m as [|c m IH]; intros index; [done|].
  cbn [draw_from imap]. rewrite place_single, IH. f_equal; [by rewrite Nat.add_0_r|].
  apply imap_ext. intros i c' _. simpl. do 2 f_equal. lia.
Qed.

(** With one record in the window the text does not fly: every
    character is drawn at that record. *)
Theorem single_record_stacks_text now a pt :
  move_window a = [pt] -> show_text a = true ->
  draw_text now a = imap (fun i c => (c, i, pt)) (message a).
Proof.
  intros Hw Hs. unfold draw_text. rewrite Hw, Hs. apply draw_from_single.
Qed.

(** *** Editing the text *)

(** The label shows the message, at the width of the message. *)
Definition label_shows_message a : Prop :=
  flyingText a = message a /\
  flyingText_width a = text_width (List.length (message a)).

(** The message is a string of bytes. *)
Definition is_text m : Prop := Forall (fun c => 0 <= c < 256) m.

(** No key is handled by both subscriptions. *)
Theorem key_handlers_exclusive key : is_backspace key && is_char key = false.
Proof.
  unfold is_backspace, is_char. destruct (key =? OF_KEY_BACKSPACE); [|done].
  by rewrite andb_false_r.
Qed.

Lemma is_char_not_backspace key : is_char key = true -> is_backspace key = false.
Proof.
  unfold is_backspace, is_char. destruct (key =? OF_KEY_BACKSPACE); [|done].
  by rewrite andb_false_r.
Qed.

Lemma to_char_range key : 0 <= to_char key < 256.
Proof. unfold to_char. apply Z.mod_pos_bound. lia. Qed.

(** C40. Backspace takes back the character that was typed last. *)
Theorem backspace_undoes_char key a :
  is_char key = true ->
  message (on_key_release OF_KEY_BACKSPACE (on_key_release key a)) = message a.
Proof.
  intros Hc. unfold on_key_release.
  rewrite (is_char_not_backspace key Hc), Hc. simpl. apply removelast_last.
Qed.

Lemma removelast_Forall {A} (P : A -> Prop) (l : list A) :
  Forall P l -> Forall P (removelast l).
Proof.
  induction 1 as [|x [|y l] Hx Hl IH]; [constructor..|]. by constructor.
Qed.

Lemma on_key_release_keeps key a :
  label_shows_message a -> is_text (message a) ->
  label_shows_message (on_key_release key a) /\ is_text (message (on_key_release key a)).
Proof.
  intros Hl Ht. unfold on_key_release.
  destruct (is_char key) eqn:Hc.
  - rewrite (is_char_not_backspace key Hc). split; [done|]. simpl.
    apply Forall_app. split; [done|]. repeat constructor; apply to_char_range.
  - destruct (is_backspace key); [|done]. split; [done|]. by apply removelast_Forall.
Qed.

(** Whatever keys are released, the label shows the message and the
    message is a string of bytes. *)
Theorem keys_keep_label keys a :
  label_shows_message a -> is_text (message a) ->
  let a' := foldl (fun a key => on_key_release key a) a keys in
  label_shows_message a' /\ is_text (message a').
Proof.
  revert a. induction keys as [|key keys IH]; intros a Hl Ht; [done|].
  cbn [foldl]. by apply IH; apply on_key_release_keeps.
Qed.

(** *** The choice of the source *)

(** The index into [sources] and [sourcesText] is in range for every
    [int], also a negative one, and the text shown is the text at that
    index. *)
Theorem selection_in_range selected a :
  (source_index selected < List.length sourcesText)%nat /\
  sourcesText !! center_source (on_selection selected a)
  = Some (selectedText (on_selection selected a)).
Proof.
  assert (source_index selected < List.length sourcesText)%nat as Hlt.
  { unfold source_index, sources_size.
    pose proof (Z.mod_pos_bound (u64 selected) (Z.of_nat (List.length sourcesText))).
    simpl in *. lia. }
  split; [done|]. destruct (lookup_lt_is_Some_2 _ _ Hlt) as [s Hs].
  unfold on_selection. cbn [center_source selectedText].
  by rewrite Hs, (nth_lookup_Some _ _ _ _ Hs).
Qed.

End app_facts.

(** ** The application at work *)

Module app_example.
Import ofApp.

(** Points are named by numbers. *)
Abbreviation app := (ofApp.t Z).

Definition bytes (s : string) : list Z :=
  map (fun c => Z.of_nat (Ascii.nat_of_ascii c)) (list_ascii_of_string s).

(** The state [setup] leaves (the message of the program, an empty window,
    the first source), with the toggle "flying text" switched on. *)
Definition started : app :=
  let m := bytes "Time flies like an arrow" in
  Make m m (text_width (List.length m)) [] 0%nat "window_center" (label_width 13) true.

(** A short message: its flight is 600 ms. *)
Definition short : app := on_key_release 121 (on_key_release 108 (on_key_release 102
  (Make [] [] (text_width 0) [] 0%nat "window_center" (label_width 13) true))).

Definition moves (pts : list (Z * Z)) (a : app) : app :=
  foldl (fun a pt => on_move pt a) a pts.

(** The message of the program flies for 4800 ms.  The points of the first
    4800 ms replace each other; later ones are kept for 4800 ms. *)
Example startup_has_no_trail :
  move_window (moves [(1, 1000); (2, 2000); (3, 3000)] started) = [(3, 3000)] /\
  move_window (moves [(1, 1000); (2, 2000); (3, 3000); (4, 5000)] started)
  = [(3, 3000); (4, 5000)] /\
  move_window (moves [(1, 1000); (2, 2000); (3, 3000); (4, 5000); (5, 9000)] started)
  = [(4, 5000); (5, 9000)].
Proof. by vm_compute. Qed.

Lemma window_covers_flight_witness :
  Forall (fun r => tick (3, 1000) - Z.of_nat (List.length (message short)) * FLYING_DELAY_MS
                   <= tick r)
    (move_window (on_move (3, 1000) (moves [(1, 300); (2, 700)] short))).
Proof.
  apply (window_covers_flight (3, 1000) (moves [(1, 300); (2, 700)] short));
    [by vm_compute|by vm_compute|].
  vm_compute. repeat constructor; by vm_compute.
Defined.

Lemma early_window_collapses_witness :
  move_window (on_move (3, 500) (moves [(1, 100); (2, 300)] short)) = [(3, 500)].
Proof.
  apply (early_window_collapses (3, 500) (moves [(1, 100); (2, 300)] short));
    [by vm_compute|by vm_compute|].
  vm_compute. repeat constructor; by vm_compute.
Defined.

Lemma place_in_window_witness :
  place 450 (1, 100) [(1, 100); (2, 300); (3, 500)] ∈ [(1, 100); (2, 300); (3, 500)].
Proof. by apply place_in_window. Defined.

Lemma early_char_at_newest_witness :
  place (char_time 500 3) (1, 100) [(1, 100); (2, 300); (3, 500)]
  = List.last [(1, 100); (2, 300); (3, 500)] (1, 100).
Proof.
  apply early_char_at_newest; [by vm_compute|by vm_compute| |done].
  repeat constructor; by vm_compute.
Defined.

Lemma single_record_stacks_text_witness :
  draw_text 500 (on_move (3, 500) (moves [(1, 100); (2, 300)] short))
  = imap (fun i c => (c, i, (3, 500)))
      (message (on_move (3, 500) (moves [(1, 100); (2, 300)] short))).
Proof. by apply single_record_stacks_text. Defined.

Lemma backspace_undoes_char_witness :
  message (on_key_release OF_KEY_BACKSPACE (on_key_release 33 short)) = message short.
Proof. by apply backspace_undoes_char. Defined.

Lemma keys_keep_label_witness :
  let a' := foldl (fun a key => on_key_release key a) short [33; 8; 8; 257; 65] in
  label_shows_message a' /\ is_text (message a').
Proof.
  apply keys_keep_label; [done|]. repeat constructor; by vm_compute.
Defined.

(** A key code above the bytes that has bit 8 clear passes the filter and is
    cut to its low byte: 0x251 is stored as 0x51. *)
Example wide_key_is_cut :
  is_char 593 = true /\ message (on_key_release 593 short) = message short ++ [81].
Proof. by vm_compute. Qed.

(** The slider of the selection goes up to the number of sources: its last
    value selects the first source again; and a negative value, converted,
    does not select what its remainder would. *)
Example selection_wraps :
  source_index 5 = 0%nat /\ source_index (-1) = 0%nat /\ source_index 7 = 2%nat.
Proof. by vm_compute. Qed.

End app_example.
