(* ===== verification/Demo.v ===== *)
(** * Demo: the streams of the demo application

    Model of the wiring that [ofApp::setup] in
    [src/emptyExample/src/ofApp.cpp] builds out of the library's operators,
    from the events of the host to the handlers of [App].

    The host delivers one event at a time, on one thread: a mouse event, a
    released key, a frame, a change of the slider.  The operators between
    the event and a handler keep state ([combine_latest] the latest value
    of each side, [switch_on_next] the source it follows), so the program
    is a state machine over the host's events: [demo.step], [demo.play].

    - Module [combine_latest]: the operator, from its contract.
    - [demo.t]: the members of [ofApp] and the states of the operators of
      the two subscriptions to [center_points], the one that fills
      [move_window] and the one that sets [center].
    - [demo.setup]: the state that [ofApp::setup] leaves.
    - [demo.center_source_behavior]: the behavior [center_source] with the
      two [switch_on_next] as its observers, in the world of [Behavior].

    Coordinates are floats and the program only adds them and takes sines
    and cosines: the type [F] of floats, its addition and the two library
    functions are parameters. *)

From Stdlib Require Import String.
From stdpp Require Import base numbers list sorting.
From S2P Require Import Prelude Lifetime Subscriber Behavior App.

#[local] Open Scope Z_scope.

(** ** [combine_latest]

    Two sources; the latest value of each is kept, and every value that
    arrives once both sides have one is passed on with the latest of the
    other side. *)
Module combine_latest.
Section combine_latest.
Context {A B : Type}.

Record t : Type := Make {
  first : option A;
  second : option B;
}.

Definition create : t := Make None None.

Definition on_first (a : A) (s : t) : t * option (A * B) :=
  (Make (Some a) (second s), (fun b => (a, b)) <$> second s).

Definition on_second (b : B) (s : t) : t * option (A * B) :=
  (Make (first s) (Some b), (fun a => (a, b)) <$> first s).

End combine_latest.
Arguments t : clear implicits.
End combine_latest.

Module demo.
Section demo.
(** [float], its zero, its sum. *)
Context {F : Type} (f0 : F) (fadd : F -> F -> F).
(** [ofMap(value, 0, max, 0.0, 1.0)] of an integer value, and the pair
    [(r * cos(t * 2 * 3.14), r * sin(t * 2 * 3.14))]. *)
Context (ofMap : Z -> Z -> F) (orbit_at : F -> F -> F * F).

(** [ofPoint], with its constructors and its sum. *)
Record ofPoint : Type := OfPoint { px : F; py : F; pz : F }.

Definition ofPoint_default : ofPoint := OfPoint f0 f0 f0.
Definition ofPoint_xy (x y : F) : ofPoint := OfPoint x y f0.
Definition ofPoint_plus (p q : ofPoint) : ofPoint :=
  OfPoint (fadd (px p) (px q)) (fadd (py p) (py q)) (fadd (pz p) (pz q)).

(** [ofMouseEventArgs]: where the mouse is, and whether it moved or was
    dragged, that is, which of [mouse.moves()] and [mouse.drags()] has it. *)
Inductive mouse_kind : Set := Moved | Dragged.

Record ofMouseEventArgs : Type := OfMouseEventArgs {
  kind : mouse_kind;
  mouse_x : F;
  mouse_y : F;
}.

(** *** The sources of points *)

(** [pointFromMouse] *)
Definition pointFromMouse (e : ofMouseEventArgs) : ofPoint :=
  ofPoint_xy (mouse_x e) (mouse_y e).

(** The observables [window_center], [all_movement], [just_moves],
    [just_drags] and [never]. *)
Inductive source : Set :=
| window_center
| all_movement
| just_moves
| just_drags
| never.

#[global] Instance source_eq_dec : EqDecision source.
Proof. solve_decision. Defined.

(** [sources] *)
Definition sources : list source :=
  [window_center; all_movement; just_moves; just_drags; never].

(** What a subscriber to a source gets at once: [just] emits its value,
    the others wait for the mouse. *)
Definition on_subscribe (p0 : ofPoint) (src : source) : option ofPoint :=
  match src with
  | window_center => Some p0
  | _ => None
  end.

(** What a subscriber to a source gets from a mouse event. *)
Definition from_mouse (src : source) (e : ofMouseEventArgs) : option ofPoint :=
  match src, kind e with
  | all_movement, _ => Some (pointFromMouse e)
  | just_moves, Moved => Some (pointFromMouse e)
  | just_drags, Dragged => Some (pointFromMouse e)
  | _, _ => None
  end.

(** *** The state *)

Record t : Type := Make {
  app : ofApp.t ofPoint;              (* the members that [App] models *)
  center : ofPoint;
  show_circle : bool;
  orbit_circle : bool;
  circle_radius : F;
  orbit_radius : F;
  orbit_period_ms : Z;                (* [int(orbit_period * 1000)] *)
  window_center_point : ofPoint;      (* the value of [window_center] *)
  (* the subscription that fills [move_window] *)
  window_source : source;             (* the source [switch_on_next] follows *)
  window_latest : combine_latest.t ofPoint Z;
  (* the subscription that sets [center] *)
  center_source : source;
  center_latest : combine_latest.t ofPoint ofPoint;
}.

Definition set_app (a : ofApp.t ofPoint) (s : t) : t :=
  Make a (center s) (show_circle s) (orbit_circle s) (circle_radius s) (orbit_radius s)
    (orbit_period_ms s) (window_center_point s) (window_source s) (window_latest s)
    (center_source s) (center_latest s).
Definition set_center (c : ofPoint) (s : t) : t :=
  Make (app s) c (show_circle s) (orbit_circle s) (circle_radius s) (orbit_radius s)
    (orbit_period_ms s) (window_center_point s) (window_source s) (window_latest s)
    (center_source s) (center_latest s).
Definition set_window_source (src : source) (s : t) : t :=
  Make (app s) (center s) (show_circle s) (orbit_circle s) (circle_radius s) (orbit_radius s)
    (orbit_period_ms s) (window_center_point s) src (window_latest s)
    (center_source s) (center_latest s).
Definition set_window_latest (l : combine_latest.t ofPoint Z) (s : t) : t :=
  Make (app s) (center s) (show_circle s) (orbit_circle s) (circle_radius s) (orbit_radius s)
    (orbit_period_ms s) (window_center_point s) (window_source s) l
    (center_source s) (center_latest s).
Definition set_center_source (src : source) (s : t) : t :=
  Make (app s) (center s) (show_circle s) (orbit_circle s) (circle_radius s) (orbit_radius s)
    (orbit_period_ms s) (window_center_point s) (window_source s) (window_latest s)
    src (center_latest s).
Definition set_center_latest (l : combine_latest.t ofPoint ofPoint) (s : t) : t :=
  Make (app s) (center s) (show_circle s) (orbit_circle s) (circle_radius s) (orbit_radius s)
    (orbit_period_ms s) (window_center_point s) (window_source s) (window_latest s)
    (center_source s) l.

(** *** The position on the orbit *)

(** [tick % int(orbit_period * 1000)]: the [int] is converted to
    [unsigned long long]. *)
Definition orbit_phase (period_ms tick : Z) : Z := tick mod u64 period_ms.

(** The two [map]s of [orbit_points]. *)
Definition orbit_point (s : t) (tick : Z) : ofPoint :=
  let t := ofMap (orbit_phase (orbit_period_ms s) tick) (orbit_period_ms s) in
  if orbit_circle s
  then let '(x, y) := orbit_at (orbit_radius s) t in ofPoint_xy x y
  else ofPoint_default.

(** *** The subscription that fills the window:
    [center_points.combine_latest(updates.milliseconds()).subscribe(...)] *)

Definition window_emit (r : option (ofPoint * Z)) (s : t) : t :=
  match r with
  | Some pt => set_app (ofApp.on_move pt (app s)) s
  | None => s
  end.

(** [center_points] has a point. *)
Definition window_point (p : ofPoint) (s : t) : t :=
  let '(l, r) := combine_latest.on_first p (window_latest s) in
  window_emit r (set_window_latest l s).

(** [updates.milliseconds()] has a time. *)
Definition window_tick (ms : Z) (s : t) : t :=
  let '(l, r) := combine_latest.on_second ms (window_latest s) in
  window_emit r (set_window_latest l s).

(** *** The subscription that sets the center:
    [orbit_points.combine_latest(std::plus<ofPoint>(), center_points).subscribe(...)] *)

Definition center_emit (r : option (ofPoint * ofPoint)) (s : t) : t :=
  match r with
  | Some (o, c) => set_center (ofPoint_plus o c) s
  | None => s
  end.

(** [orbit_points] has a point: a frame has come. *)
Definition orbit_tick (ms : Z) (s : t) : t :=
  let '(l, r) := combine_latest.on_first (orbit_point s ms) (center_latest s) in
  center_emit r (set_center_latest l s).

(** [center_points] has a point. *)
Definition center_point (p : ofPoint) (s : t) : t :=
  let '(l, r) := combine_latest.on_second p (center_latest s) in
  center_emit r (set_center_latest l s).

(** *** [switch_on_next]: a new source

    Each of the two subscriptions to [center_points] has its own
    [switch_on_next]; told a source, it leaves the one it followed and
    subscribes to the new one. *)
Definition switch_window (src : source) (s : t) : t :=
  let s := set_window_source src s in
  match on_subscribe (window_center_point s) src with
  | Some p => window_point p s
  | None => s
  end.

Definition switch_center (src : source) (s : t) : t :=
  let s := set_center_source src s in
  match on_subscribe (window_center_point s) src with
  | Some p => center_point p s
  | None => s
  end.

(** [dest_center.on_next(src)]: the behavior [center_source] tells its
    observers, the two [switch_on_next], in the order they subscribed. *)
Definition select_source (src : source) (s : t) : t :=
  switch_center src (switch_window src s).

(** The subscription to [selections]. *)
Definition on_selection (selected : Z) (s : t) : t :=
  let s := select_source (nth (ofApp.source_index selected) sources never) s in
  set_app (ofApp.on_selection selected (app s)) s.

(** *** The host *)

Inductive host_event : Type :=
| Mouse (e : ofMouseEventArgs)
| KeyReleased (key : Z)
| Update (ms_window ms_orbit : Z)   (* a frame; each subscriber reads the time *)
| Selected (selected : Z).          (* the slider "select source" *)

Definition on_mouse (e : ofMouseEventArgs) (s : t) : t :=
  let s := match from_mouse (window_source s) e with
           | Some p => window_point p s
           | None => s
           end in
  match from_mouse (center_source s) e with
  | Some p => center_point p s
  | None => s
  end.

Definition step (ev : host_event) (s : t) : t :=
  match ev with
  | Mouse e => on_mouse e s
  | KeyReleased key => set_app (ofApp.on_key_release key (app s)) s
  | Update ms_window ms_orbit => orbit_tick ms_orbit (window_tick ms_window s)
  | Selected selected => on_selection selected s
  end.

Definition play (evs : list host_event) (s : t) : t := foldl (fun s ev => step ev s) s evs.

(** *** [ofApp::setup] *)

(** The bytes of a string literal. *)
Definition bytes (s : string) : list Z :=
  map (fun c => Z.of_nat (Ascii.nat_of_ascii c)) (list_ascii_of_string s).

(** The members as [setup] gives them their values: the message, the
    controls of the GUI, the operators of the two subscriptions before they
    have seen anything.  [p0] is the point that [window_center] is made of,
    [seed] the source that the behavior [center_source] is constructed with;
    the two floats are the literals 20.0 and 50.0 given to the sliders. *)
Definition members (p0 : ofPoint) (seed : source) (r20 r50 : F) : t :=
  let message := bytes "Time flies like an arrow" in
  let a := ofApp.Make message message (ofApp.text_width (List.length message)) [] 0%nat
             (nth 0 ofApp.sourcesText EmptyString)
             (ofApp.label_width (String.length (nth 0 ofApp.sourcesText EmptyString)))
             false in
  Make a ofPoint_default true true r20 r50 1000 p0
    seed combine_latest.create seed combine_latest.create.

(** [ofApp::setup]: the two subscriptions to [center_points] get the seed
    of the behavior as they are made, then [dest_center.on_next(window_center)]
    gives them the first source. *)
Definition setup (p0 : ofPoint) (seed : source) (r20 r50 : F) : t :=
  select_source window_center
    (switch_center seed (switch_window seed (members p0 seed r20 r50))).

(** *** [ofApp::draw], the circle *)

(** [if (show_circle) ofCircle(center, circle_radius)] *)
Definition draw_circle (s : t) : option (ofPoint * F) :=
  if show_circle s then Some (center s, circle_radius s) else None.

(** ** Theorems *)

Implicit Types (s : t) (ev : host_event) (evs : list host_event) (p : ofPoint) (src : source).

(** The latest point and the latest time of the subscription that fills the
    window. *)
Definition latest_point (s : t) : option ofPoint := combine_latest.first (window_latest s).
Definition latest_tick (s : t) : option Z := combine_latest.second (window_latest s).

Definition window (s : t) : list (ofApp.move_record ofPoint) := ofApp.move_window (app s).

(** *** What each part of a step does to the window *)

Lemma window_point_spec p s :
  window_point p s
  = match latest_tick s with
    | Some ms => set_app (ofApp.on_move (p, ms) (app s))
                   (set_window_latest (combine_latest.Make (Some p) (Some ms)) s)
    | None => set_window_latest (combine_latest.Make (Some p) None) s
    end.
Proof.
  unfold window_point, latest_tick, combine_latest.on_first.
  by destruct (combine_latest.second (window_latest s)).
Qed.

Lemma window_tick_spec ms s :
  window_tick ms s
  = match latest_point s with
    | Some p => set_app (ofApp.on_move (p, ms) (app s))
                  (set_window_latest (combine_latest.Make (Some p) (Some ms)) s)
    | None => set_window_latest (combine_latest.Make None (Some ms)) s
    end.
Proof.
  unfold window_tick, latest_point, combine_latest.on_second.
  by destruct (combine_latest.first (window_latest s)).
Qed.

(** The subscription that sets the center leaves the window alone. *)
Lemma center_emit_window r s :
  app (center_emit r s) = app s /\ window_latest (center_emit r s) = window_latest s /\
  window_source (center_emit r s) = window_source s /\
  center_source (center_emit r s) = center_source s.
Proof. by destruct r as [[? ?]|]. Qed.

Lemma center_point_window p s :
  app (center_point p s) = app s /\ window_latest (center_point p s) = window_latest s /\
  window_source (center_point p s) = window_source s /\
  center_source (center_point p s) = center_source s.
Proof. unfold center_point. simpl. apply (center_emit_window _ (set_center_latest _ s)). Qed.

Lemma orbit_tick_window ms s :
  app (orbit_tick ms s) = app s /\ window_latest (orbit_tick ms s) = window_latest s /\
  window_source (orbit_tick ms s) = window_source s /\
  center_source (orbit_tick ms s) = center_source s.
Proof. unfold orbit_tick. simpl. apply (center_emit_window _ (set_center_latest _ s)). Qed.

Lemma switch_center_window src s :
  app (switch_center src s) = app s /\
  window_latest (switch_center src s) = window_latest s /\
  window_source (switch_center src s) = window_source s /\
  center_source (switch_center src s) = src.
Proof.
  unfold switch_center. destruct (on_subscribe _ src); [|done].
  destruct (center_point_window o (set_center_source src s)) as (-> & -> & -> & ->). done.
Qed.

(** The time the window was last told, after a step. *)
Lemma latest_tick_window_point p s : latest_tick (window_point p s) = latest_tick s.
Proof. rewrite window_point_spec. by destruct (latest_tick s) eqn:Hl. Qed.

Lemma latest_tick_center_point p s : latest_tick (center_point p s) = latest_tick s.
Proof. unfold latest_tick. by destruct (center_point_window p s) as (_ & -> & _). Qed.

Lemma latest_tick_orbit_tick ms s : latest_tick (orbit_tick ms s) = latest_tick s.
Proof. unfold latest_tick. by destruct (orbit_tick_window ms s) as (_ & -> & _). Qed.

Lemma latest_tick_switch_window src s : latest_tick (switch_window src s) = latest_tick s.
Proof.
  unfold switch_window. destruct (on_subscribe _ src); [|done].
  apply (latest_tick_window_point _ (set_window_source src s)).
Qed.

Lemma latest_tick_switch_center src s : latest_tick (switch_center src s) = latest_tick s.
Proof. unfold latest_tick. by destruct (switch_center_window src s) as (_ & -> & _). Qed.

Lemma latest_tick_on_mouse e s : latest_tick (on_mouse e s) = latest_tick s.
Proof.
  unfold on_mouse. destruct (from_mouse (center_source _) e);
    rewrite ?latest_tick_center_point;
    destruct (from_mouse (window_source s) e); by rewrite ?latest_tick_window_point.
Qed.

Lemma latest_tick_step ev s :
  latest_tick (step ev s)
  = match ev with
    | Update ms _ => Some ms
    | _ => latest_tick s
    end.
Proof.
  destruct ev as [e|key|ms ms'|k]; unfold step.
  - apply latest_tick_on_mouse.
  - done.
  - rewrite latest_tick_orbit_tick, window_tick_spec. by destruct (latest_point s).
  - unfold on_selection, select_source.
    change (latest_tick (set_app ?a ?s')) with (latest_tick s').
    by rewrite latest_tick_switch_center, latest_tick_switch_window.
Qed.

(** *** The window is in order

    The records of the window carry the times that the frames brought, so
    they are in the order of the frames as long as the time of the host
    does not go back. *)

Definition ok (s : t) : Prop :=
  in_order (window s) /\
  match latest_tick s with
  | Some ms => is_u64 ms /\ Forall (fun r => 0 <= ofApp.tick r <= ms) (window s)
  | None => window s = []
  end.

(** The frame brings a time that is an [unsigned long long] and not before
    the last. *)
Definition timely (last : option Z) (ev : host_event) : Prop :=
  match ev with
  | Update ms _ =>
      is_u64 ms /\ match last with Some m => m <= ms | None => True end
  | _ => True
  end.

Fixpoint monotone (last : option Z) (evs : list host_event) : Prop :=
  match evs with
  | [] => True
  | ev :: evs =>
      timely last ev /\
      monotone (match ev with Update ms _ => Some ms | _ => last end) evs
  end.

Lemma ok_same s s' :
  app s' = app s -> window_latest s' = window_latest s -> ok s -> ok s'.
Proof. unfold ok, window, latest_tick. by intros -> ->. Qed.

(** A record that is not older than those of the window keeps it in order. *)
Lemma on_move_in_order p ms (a : ofApp.t ofPoint) :
  0 <= ms ->
  in_order (ofApp.move_window a) ->
  Forall (fun r => 0 <= ofApp.tick r <= ms) (ofApp.move_window a) ->
  in_order (ofApp.move_window (ofApp.on_move (p, ms) a)) /\
  Forall (fun r => 0 <= ofApp.tick r <= ms) (ofApp.move_window (ofApp.on_move (p, ms) a)).
Proof.
  intros Hms Ho Hle. simpl.
  destruct (trim_split (ofApp.cutoff (ofApp.message a) (p, ms))
              (ofApp.move_window a ++ [(p, ms)])) as (dropped & Hw & _).
  assert (in_order (ofApp.move_window a ++ [(p, ms)])) as Ho'.
  { apply StronglySorted_snoc; [done|]. eapply Forall_impl; [exact Hle|].
    intros r Hr. simpl in *. lia. }
  assert (Forall (fun r => 0 <= ofApp.tick r <= ms) (ofApp.move_window a ++ [(p, ms)]))
    as Hle' by (apply Forall_app; split; [done|repeat constructor; simpl; lia]).
  rewrite Hw in Ho', Hle'. split; [by eapply in_order_suffix|].
  by apply Forall_app in Hle' as [_ ?].
Qed.

Lemma on_move_ok p ms s l :
  combine_latest.second l = Some ms -> is_u64 ms ->
  in_order (window s) -> Forall (fun r => 0 <= ofApp.tick r <= ms) (window s) ->
  ok (set_app (ofApp.on_move (p, ms) (app s)) (set_window_latest l s)).
Proof.
  intros Hl Hms Ho Hle.
  destruct (on_move_in_order p ms (app s)) as [Ho' Hle']; [by destruct Hms|done|done|].
  unfold ok, latest_tick, window. simpl. by rewrite Hl.
Qed.

Lemma window_point_ok p s : ok s -> ok (window_point p s).
Proof.
  intros [Ho Hl]. rewrite window_point_spec. destruct (latest_tick s) as [ms|] eqn:Ht.
  - destruct Hl as [Hms Hle]. by apply on_move_ok.
  - unfold ok, latest_tick, window in *. by simpl.
Qed.

Lemma window_tick_ok ms s : ok s -> timely (latest_tick s) (Update ms ms) -> ok (window_tick ms s).
Proof.
  intros [Ho Hl] [Hms Hlast]. rewrite window_tick_spec.
  assert (Forall (fun r => 0 <= ofApp.tick r <= ms) (window s)) as Hle.
  { destruct (latest_tick s) as [m|]; [|by rewrite Hl].
    destruct Hl as [_ Hle]. eapply Forall_impl; [exact Hle|]. intros r Hr. simpl in *. lia. }
  destruct (latest_point s) as [p|]; [by apply on_move_ok|].
  unfold ok, latest_tick, window in *. by simpl.
Qed.

Lemma switch_window_ok src s : ok s -> ok (switch_window src s).
Proof.
  intros Hs. unfold switch_window.
  assert (ok (set_window_source src s)) as Hs' by (by apply (ok_same s)).
  destruct (on_subscribe _ src); [by apply window_point_ok|done].
Qed.

Lemma key_release_window key (a : ofApp.t ofPoint) :
  ofApp.move_window (ofApp.on_key_release key a) = ofApp.move_window a.
Proof. unfold ofApp.on_key_release. by repeat case_match. Qed.

Lemma ok_window s s' :
  window s' = window s -> window_latest s' = window_latest s -> ok s -> ok s'.
Proof. unfold ok, latest_tick. by intros -> ->. Qed.

Lemma step_ok ev s : ok s -> timely (latest_tick s) ev -> ok (step ev s).
Proof.
  intros Hs Hev. destruct ev as [e|key|ms ms'|k]; unfold step.
  - unfold on_mouse.
    set (s1 := match from_mouse (window_source s) e with Some p => _ | None => s end).
    assert (ok s1) as H1
      by (unfold s1; destruct (from_mouse _ e); [by apply window_point_ok|done]).
    destruct (from_mouse (center_source s1) e) as [p|]; [|done].
    destruct (center_point_window p s1) as (Ha & Hl & _). by apply (ok_same s1).
  - apply (ok_window s); [apply key_release_window|done|done].
  - destruct (orbit_tick_window ms' (window_tick ms s)) as (Ha & Hl & _).
    apply (ok_same (window_tick ms s)); [done|done|]. by apply window_tick_ok.
  - unfold on_selection, select_source.
    set (src := nth _ sources never).
    destruct (switch_center_window src (switch_window src s)) as (Ha & Hl & _).
    eapply (ok_window (switch_window src s)); [by unfold window; simpl; rewrite Ha|by simpl|].
    by apply switch_window_ok.
Qed.

Lemma play_cons ev evs s : play (ev :: evs) s = play evs (step ev s).
Proof. done. Qed.

(** C35. The window stays in the order of the frames.  Whatever the mouse,
    the keys and the slider do, as long as the frames bring times that do
    not go back, the records of [move_window] are in the order of their
    times and none is later than the last frame: what [draw] finds from the
    back of the window is the newest record that is old enough. *)
Theorem window_in_order evs s :
  ok s -> monotone (latest_tick s) evs -> ok (play evs s).
Proof.
  revert s. induction evs as [|ev evs IH]; intros s Hs Hm; [done|].
  destruct Hm as [Hev Hm]. rewrite play_cons. apply IH; [by apply step_ok|].
  rewrite latest_tick_step. by destruct ev.
Qed.

(** *** What a frame leaves in the window *)

Lemma window_update ms ms' p s :
  latest_point s = Some p ->
  window (step (Update ms ms') s) = ofApp.move_window (ofApp.on_move (p, ms) (app s)).
Proof.
  intros Hp. unfold step, window.
  destruct (orbit_tick_window ms' (window_tick ms s)) as (-> & _).
  by rewrite window_tick_spec, Hp.
Qed.

(** The time a message takes to fly past: [message.size() * FLYING_DELAY_MS]. *)
Definition flight (s : t) : Z :=
  Z.of_nat (List.length (ofApp.message (app s))) * FLYING_DELAY_MS.

Lemma ok_snoc p ms s :
  ok s -> timely (latest_tick s) (Update ms ms) ->
  in_order (window s ++ [(p, ms)]) /\ Forall (fun r => 0 <= ofApp.tick r <= ms) (window s).
Proof.
  intros [Ho Hl] [Hms Hlast].
  assert (Forall (fun r => 0 <= ofApp.tick r <= ms) (window s)) as Hle.
  { destruct (latest_tick s) as [m|]; [|by rewrite Hl].
    destruct Hl as [_ Hle]. eapply Forall_impl; [exact Hle|]. intros r Hr. simpl in *. lia. }
  split; [|done]. apply StronglySorted_snoc; [done|].
  eapply Forall_impl; [exact Hle|]. intros r Hr. simpl in *. lia.
Qed.

(** Once the program has run for longer than the flight of the message,
    every frame leaves a window that covers the flight and no more: each
    record is at most [message.size() * FLYING_DELAY_MS] older than the
    frame. *)
Theorem frame_keeps_flight ms ms' p s :
  ok s -> latest_point s = Some p ->
  timely (latest_tick s) (Update ms ms') ->
  flight s <= ms ->
  Forall (fun r => ms - flight s <= ofApp.tick r <= ms) (window (step (Update ms ms') s)).
Proof.
  intros Hs Hp Hev Hfl. destruct (ok_snoc p ms s Hs Hev) as [Ho Hle].
  pose proof (step_ok _ _ Hs Hev) as [_ Hok]. rewrite latest_tick_step in Hok.
  destruct Hok as [_ Hup]. rewrite (window_update ms ms' p s Hp) in Hup |- *.
  pose proof (on_move_covers_flight (p, ms) (app s) (proj1 Hev) Hfl Ho) as Hlow.
  apply Forall_forall. intros r Hr. rewrite Forall_forall in Hlow, Hup.
  specialize (Hlow r Hr). specialize (Hup r Hr). simpl in *. unfold flight. lia.
Qed.

(** C36. Until then the window holds one record after every frame, and the
    text does not fly: the cutoff, computed in unsigned arithmetic, lies in
    the far future, and [draw] puts every character of the message at the
    point of the last frame. *)
Theorem no_flight_at_start ms ms' now p s :
  ok s -> latest_point s = Some p ->
  timely (latest_tick s) (Update ms ms') ->
  ms < flight s -> flight s < 2 ^ 64 ->
  ofApp.show_text (app s) = true ->
  window (step (Update ms ms') s) = [(p, ms)] /\
  ofApp.draw_text now (app (step (Update ms ms') s))
  = imap (fun i c => (c, i, (p, ms))) (ofApp.message (app s)).
Proof.
  intros Hs Hp Hev Hfl Hmax Hshow. destruct (ok_snoc p ms s Hs Hev) as [_ Hle].
  assert (window (step (Update ms ms') s) = [(p, ms)]) as Hw.
  { rewrite (window_update ms ms' p s Hp).
    apply on_move_collapses; [|done..]. destruct Hev as [[? ?] _]. simpl. split; [lia|done]. }
  split; [done|]. unfold window in Hw.
  rewrite (single_record_stacks_text now _ (p, ms) Hw).
  - unfold step. destruct (orbit_tick_window ms' (window_tick ms s)) as (-> & _).
    by rewrite window_tick_spec, Hp.
  - unfold step. destruct (orbit_tick_window ms' (window_tick ms s)) as (-> & _).
    by rewrite window_tick_spec, Hp.
Qed.

(** *** The window is never empty again *)

Lemma latest_point_window_point p s : latest_point (window_point p s) = Some p.
Proof. rewrite window_point_spec. by destruct (latest_tick s). Qed.

(** A point has been seen, and if a time has been seen too, the window has
    a record. *)
Definition fed (s : t) : Prop :=
  is_Some (latest_point s) /\ (is_Some (latest_tick s) -> window s <> []).

Lemma fed_same s s' :
  app s' = app s -> window_latest s' = window_latest s -> fed s -> fed s'.
Proof. unfold fed, window, latest_tick, latest_point. by intros -> ->. Qed.

Lemma window_point_fed p s : fed (window_point p s).
Proof.
  split; [by rewrite latest_point_window_point|].
  rewrite window_point_spec. destruct (latest_tick s) as [ms|] eqn:Ht.
  - intros _. apply trim_nonempty. by destruct (ofApp.move_window (app s)).
  - by intros [? ?].
Qed.

Lemma window_tick_fed ms s : fed s -> fed (window_tick ms s) /\ window (window_tick ms s) <> [].
Proof.
  intros [[p Hp] _]. rewrite window_tick_spec, Hp.
  assert (ofApp.move_window (ofApp.on_move (p, ms) (app s)) <> []) as Hne
    by (apply trim_nonempty; by destruct (ofApp.move_window (app s))).
  split; [|done]. by split.
Qed.

Lemma step_fed ev s : fed s -> fed (step ev s).
Proof.
  intros Hs. destruct ev as [e|key|ms ms'|k]; unfold step.
  - unfold on_mouse.
    set (s1 := match from_mouse (window_source s) e with Some p => _ | None => s end).
    assert (fed s1) as H1
      by (unfold s1; destruct (from_mouse _ e); [by apply window_point_fed|done]).
    destruct (from_mouse (center_source s1) e) as [p|]; [|done].
    destruct (center_point_window p s1) as (Ha & Hl & _). by apply (fed_same s1).
  - destruct Hs as [Hp Hw]. split; [done|]. unfold window. simpl.
    by rewrite key_release_window.
  - destruct (orbit_tick_window ms' (window_tick ms s)) as (Ha & Hl & _).
    apply (fed_same (window_tick ms s)); [done|done|]. by apply window_tick_fed.
  - unfold on_selection, select_source.
    set (src := nth _ sources never).
    destruct (switch_center_window src (switch_window src s)) as (Ha & Hl & _).
    assert (fed (switch_window src s)) as [Hp Hw].
    { unfold switch_window. destruct (on_subscribe _ src); [apply window_point_fed|].
      by apply (fed_same s). }
    split; unfold latest_point, latest_tick, window in *; simpl; by rewrite ?Ha, ?Hl.
Qed.

Lemma play_fed evs s : fed s -> fed (play evs s).
Proof.
  revert s. induction evs as [|ev evs IH]; intros s Hs; [done|].
  rewrite play_cons. by apply IH, step_fed.
Qed.

(** From the first frame after a point was seen, [move_window] is never
    empty: whatever follows, [draw] has a record to put the text at, and
    [move_window.front()] and [back()] are called on a deque that has them. *)
Theorem window_never_empty ms ms' evs s :
  is_Some (latest_point s) -> window (play (Update ms ms' :: evs) s) <> [].
Proof.
  intros Hp. rewrite play_cons.
  assert (fed (step (Update ms ms') s)) as Hfed.
  { unfold step. destruct (orbit_tick_window ms' (window_tick ms s)) as (Ha & Hl & _).
    destruct Hp as [p Hp]. apply (fed_same (window_tick ms s)); [done|done|].
    rewrite window_tick_spec, Hp. split; [done|]. intros _.
    apply trim_nonempty. by destruct (ofApp.move_window (app s)). }
  destruct (play_fed evs _ Hfed) as [_ Hw]. apply Hw.
  assert (forall evs s, is_Some (latest_tick s) -> is_Some (latest_tick (play evs s))) as Hkeep.
  { clear. intros evs. induction evs as [|ev evs IH]; intros s Hs; [done|].
    rewrite play_cons. apply IH. rewrite latest_tick_step. by destruct ev. }
  apply Hkeep. by rewrite latest_tick_step.
Qed.

(** *** The source that is followed *)

(** Both subscriptions follow the source that was selected last. *)
Definition follows (src : source) (s : t) : Prop :=
  window_source s = src /\ center_source s = src.

Lemma window_emit_sources r s :
  window_source (window_emit r s) = window_source s /\
  center_source (window_emit r s) = center_source s.
Proof. by destruct r. Qed.

Lemma window_point_sources p s :
  window_source (window_point p s) = window_source s /\
  center_source (window_point p s) = center_source s.
Proof. unfold window_point. simpl. apply (window_emit_sources _ (set_window_latest _ s)). Qed.

Lemma window_tick_sources ms s :
  window_source (window_tick ms s) = window_source s /\
  center_source (window_tick ms s) = center_source s.
Proof. unfold window_tick. simpl. apply (window_emit_sources _ (set_window_latest _ s)). Qed.

Lemma switch_window_sources src s :
  window_source (switch_window src s) = src /\
  center_source (switch_window src s) = center_source s.
Proof.
  unfold switch_window. destruct (on_subscribe _ src); [|done].
  apply (window_point_sources _ (set_window_source src s)).
Qed.

Lemma select_source_follows src s : follows src (select_source src s).
Proof.
  unfold select_source, follows.
  destruct (switch_center_window src (switch_window src s)) as (_ & _ & -> & ->).
  by destruct (switch_window_sources src s) as [-> _].
Qed.

Lemma on_mouse_sources e s :
  window_source (on_mouse e s) = window_source s /\
  center_source (on_mouse e s) = center_source s.
Proof.
  unfold on_mouse.
  set (s1 := match from_mouse (window_source s) e with Some p => _ | None => s end).
  assert (window_source s1 = window_source s /\ center_source s1 = center_source s) as [H1 H2]
    by (unfold s1; destruct (from_mouse _ e); [apply window_point_sources|done]).
  destruct (from_mouse (center_source s1) e) as [p|]; [|done].
  destruct (center_point_window p s1) as (_ & _ & -> & ->). done.
Qed.

(** The source an event leaves the subscriptions with. *)
Definition selects (src : source) (ev : host_event) : source :=
  match ev with
  | Selected k => nth (ofApp.source_index k) sources never
  | _ => src
  end.

Lemma step_follows src ev s : follows src s -> follows (selects src ev) (step ev s).
Proof.
  intros [Hw Hc]. destruct ev as [e|key|ms ms'|k]; unfold step, selects.
  - unfold follows. by destruct (on_mouse_sources e s) as [-> ->].
  - done.
  - unfold follows. destruct (orbit_tick_window ms' (window_tick ms s)) as (_ & _ & -> & ->).
    by destruct (window_tick_sources ms s) as [-> ->].
  - apply (select_source_follows _ s).
Qed.

(** The two subscriptions to [center_points] always follow the same
    source, the one of the last selection: the point that is recorded in
    the window and the point the circle is drawn around come from the same
    observable, whatever the order of the events. *)
Theorem subscriptions_follow_selection evs src s :
  follows src s -> follows (foldl selects src evs) (play evs s).
Proof.
  revert src s. induction evs as [|ev evs IH]; intros src s Hs; [done|].
  rewrite play_cons. simpl. by apply IH, step_follows.
Qed.

(** What the mouse does to the window.  An event of a stream that the
    selected source passes on is recorded, with the time of the last frame,
    as the newest record; any other event changes nothing at all: with
    [just_moves] a drag is not seen, with [just_drags] a move is not, with
    [window_center] and [never] neither is. *)
Theorem mouse_reaches_selected_source src e ms front s :
  follows src s -> latest_tick s = Some ms ->
  match from_mouse src e with
  | Some p => p = pointFromMouse e /\
              List.last (window (on_mouse e s)) front = (p, ms) /\
              latest_point (on_mouse e s) = Some p
  | None => on_mouse e s = s
  end.
Proof.
  intros [Hw Hc] Ht. unfold on_mouse. rewrite Hw.
  destruct (from_mouse src e) as [p|] eqn:Hp.
  - assert (center_source (window_point p s) = src) as ->
      by (by destruct (window_point_sources p s) as [_ ->]).
    rewrite Hp. destruct (center_point_window p (window_point p s)) as (Ha & Hl & _).
    unfold window, latest_point. rewrite Ha, Hl.
    fold (latest_point (window_point p s)). rewrite latest_point_window_point.
    split_and!; [|
      rewrite window_point_spec, Ht; apply (on_move_keeps_newest (p, ms) (app s))|done].
    revert Hp. unfold from_mouse. by repeat case_match; intros [= <-].
  - by rewrite Hc, Hp.
Qed.

(** *** The orbit *)

(** The phase of the orbit is a number of milliseconds within the
    period, and it comes back after every period: the circle is where it
    was one period ago. *)
Theorem orbit_is_periodic s tick k :
  0 < orbit_period_ms s < 2 ^ 64 ->
  0 <= orbit_phase (orbit_period_ms s) tick < orbit_period_ms s /\
  orbit_point s (tick + k * orbit_period_ms s) = orbit_point s tick.
Proof.
  intros Hp. unfold orbit_point, orbit_phase.
  rewrite (u64_id (orbit_period_ms s)) by (unfold is_u64; lia).
  split; [apply Z.mod_pos_bound; lia|]. by rewrite Z_mod_plus_full.
Qed.

(** *** [setup] *)

(** The state that [setup] leaves does not depend on the source the
    behavior [center_source] was constructed with: both subscriptions have
    replaced it by [window_center] and hold its point, before any frame
    could pair the point with a time. *)
Theorem setup_forgets_seed p0 seed r20 r50 :
  setup p0 seed r20 r50 = setup p0 never r20 r50 /\
  follows window_center (setup p0 seed r20 r50) /\
  latest_point (setup p0 seed r20 r50) = Some p0 /\
  window (setup p0 seed r20 r50) = [] /\
  ok (setup p0 seed r20 r50).
Proof. destruct seed; split_and!; try done; (split; [constructor|done]). Qed.

(** ** [center_source] is a behavior

    [center_source] is a [behavior<observable<ofPoint>>], and the two
    [switch_on_next] are its observers.  In the world of [Behavior], with
    the state of the program as the user's state, [setup] and the handler
    of the selections are calls of that behavior; what they do to the state
    is what [setup] and [on_selection] above say. *)

Section center_source.
Import subjects.
Context {L E : Type} `{!LifetimeOps L, !Lifetimes L}.
#[local] Abbreviation rx_world := (subjects.world L t source E).
Implicit Types (w : rx_world) (b : behavior.t).

(** What a [switch_on_next] does when it is told a source.  The program
    never ends [center_source]. *)
Definition switch_dest (i : nat) (switch : source -> t -> t) : dest t source E :=
  Dest i (fun n => match n with
                   | Next src => [Effect (switch src)]
                   | _ => []
                   end).

(** The [switch_on_next] of the two subscriptions, as subscribers. *)
Definition window_switch (l : token) : subscriber.t (dest t source E) :=
  subscriber.Make l (switch_dest 1 switch_window).
Definition center_switch (l : token) : subscriber.t (dest t source E) :=
  subscriber.Make l (switch_dest 2 switch_center).

(** [center_source.get_subscriber().get_observer()]: the observer of the
    behavior itself.  A call of its [on_next] passes neither the guard nor
    the detacher of the subscriber it was taken from. *)
Definition dest_center b : behavior_observer.t :=
  subscriber.get_observer (behavior.get_subscriber b).

(** The calls of [setup] that reach the behavior: the two subscriptions,
    then [dest_center.on_next(window_center)]. *)
Definition rx_setup b (l1 l2 : token) (w : rx_world) : outcome rx_world :=
  do w <- behavior.play b [behavior.Subscribe (window_switch l1);
                           behavior.Subscribe (center_switch l2)] w;
  behavior_observer.on_next (dest_center b) window_center w.

(** The subscription to [selections], with its call of [dest_center]. *)
Definition rx_on_selection b (selected : Z) (w : rx_world) : outcome rx_world :=
  do w <- behavior_observer.on_next (dest_center b)
            (nth (ofApp.source_index selected) sources never) w;
  Ret (set_user (set_app (ofApp.on_selection selected (app (user w))) (user w)) w).

Lemma switch_calm i switch l : calm (subscriber.Make l (switch_dest i switch)).
Proof. by intros [src|e|]. Qed.

(** The two subscriptions are the observers, and both are live. *)
Definition wired (l1 l2 : token) (w : rx_world) : Prop :=
  observers w = [window_switch l1; center_switch l2] /\
  cs_is_subscribed l1 w = true /\ cs_is_subscribed l2 w = true.

Lemma push_source b l1 l2 src w :
  steady b w -> wired l1 l2 w ->
  exists w', behavior_observer.on_next (dest_center b) src w = Ret w' /\
    user w' = select_source src (user w) /\
    behavior_observer_state.value (cell w') = src /\
    steady b w' /\ wired l1 l2 w'.
Proof.
  intros Hs (Ho & Hl1 & Hl2). pose proof Hs as (Hwf & Hu & Hl & Hc).
  exists (pushed src w). split; [by apply on_next_calm|].
  destruct (pushed_frame src w) as (Hsubs & Hcell & Hobs & _).
  split_and!; [|by rewrite Hcell|by apply pushed_steady|].
  - unfold pushed, cast_to. rewrite Ho. simpl in *. rewrite Hl1. simpl. by rewrite Hl2.
  - unfold wired. rewrite Hobs. simpl in *. by rewrite Hsubs.
Qed.

(** What taking the observer out of the subscriber changes: a push
    through [get_subscriber()] into a behavior whose lifetime has ended is
    dropped at the guard, while [dest_center.on_next] still stores the
    source and tells the observers that are subscribed. *)
Lemma dest_center_passes_the_guard b src w :
  unlocked w -> Forall calm (observers w) ->
  cs_is_subscribed (behavior.lifetime b) w = false ->
  behavior.step b (behavior.Push src) w = Ret w /\
  behavior_observer.on_next (dest_center b) src w = Ret (pushed src w).
Proof.
  intros Hu Hc Hl. split; [by apply notify_unsubscribed|by apply on_next_calm].
Qed.

(** A selection goes through the behavior.  The handler pushes the
    source into [center_source]; the behavior stores it and tells its two
    observers, in the order they subscribed; each switches to the source.
    What this does to the program is [on_selection], and [get_value] of the
    behavior is the source that both subscriptions follow. *)
Theorem selection_through_behavior b l1 l2 selected w :
  steady b w -> wired l1 l2 w ->
  exists w', rx_on_selection b selected w = Ret w' /\
    user w' = on_selection selected (user w) /\
    follows (behavior_observer_state.value (cell w')) (user w') /\
    steady b w' /\ wired l1 l2 w'.
Proof.
  intros Hs Hw. unfold rx_on_selection.
  destruct (push_source b l1 l2 (nth (ofApp.source_index selected) sources never) w Hs Hw)
    as (w1 & -> & Hu & Hv & Hs1 & Hw1).
  eexists. split; [done|]. simpl. rewrite Hu, Hv.
  split_and!; [done|apply (select_source_follows _ (user w))|done|done].
Qed.

(** [setup] goes through the behavior.  The two subscriptions get the
    value the behavior was constructed with as they are made, and
    [window_center] when it is pushed: the program is left in the state
    [setup], with the behavior holding [window_center] and the two
    [switch_on_next] as its observers. *)
Theorem setup_through_behavior b l1 l2 p0 seed r20 r50 w :
  steady b w -> observers w = [] ->
  cs_is_subscribed l1 w = true -> cs_is_subscribed l2 w = true ->
  behavior_observer_state.value (cell w) = seed ->
  user w = members p0 seed r20 r50 ->
  exists w', rx_setup b l1 l2 w = Ret w' /\
    user w' = setup p0 seed r20 r50 /\
    behavior_observer_state.value (cell w') = window_center /\
    steady b w' /\ wired l1 l2 w'.
Proof.
  intros Hs Ho Hl1 Hl2 Hseed Hsetup. pose proof Hs as (Hwf & Hu & Hl & Hc).
  unfold rx_setup. cbn [behavior.play].
  rewrite subscribe_calm by (done || apply switch_calm). cbn [and_then].
  set (w1 := set_observers _ _).
  assert (steady b w1 /\ observers w1 = [window_switch l1] /\
          user w1 = switch_window seed (user w) /\
          behavior_observer_state.value (cell w1) = seed /\
          cs_is_subscribed l1 w1 = true /\ cs_is_subscribed l2 w1 = true)
    as (Hs1 & Ho1 & Hu1 & Hseed1 & Hl11 & Hl21).
  { unfold w1, current. rewrite Ho, Hseed. split_and!; [|done..].
    split_and!; [done|done|done|]. repeat constructor. apply switch_calm. }
  clearbody w1. pose proof Hs1 as (_ & Hu1' & Hl' & Hc1).
  rewrite subscribe_calm by (done || apply switch_calm). cbn [and_then].
  set (w2 := set_observers _ _).
  assert (steady b w2 /\ wired l1 l2 w2 /\
          user w2 = switch_center seed (switch_window seed (user w))) as (Hs2 & Hw2 & Hu2).
  { unfold w2, current. rewrite Ho1. rewrite filter_cons, decide_True, filter_nil by done.
    split_and!; [split_and!; [done|done|done|]|done|].
    - repeat constructor; apply switch_calm.
    - simpl. by rewrite Hu1, Hseed1. }
  clearbody w2.
  destruct (push_source b l1 l2 window_center w2 Hs2 Hw2) as (w3 & Hp & Hu3 & Hv3 & Hs3 & Hw3).
  exists w3. cbn [behavior.play and_then]. rewrite Hp. cbn [and_then].
  split_and!; [done| |done..]. by rewrite Hu3, Hu2, Hsetup.
Qed.

End center_source.

End demo.
End demo.

(** ** The demo on integers *)

Module demo_example.
Import demo.

(** Stand-ins for the floats: coordinates are integers, [ofMap] gives
    thousandths, and the orbit is the pair of the radius and the phase. *)
Definition ofMap (v max : Z) : Z := v * 1000 / max.
Definition orbit_at (r t : Z) : Z * Z := (r, t).

Abbreviation state := (demo.t (F:=Z)).
Abbreviation point := (demo.ofPoint (F:=Z)).

Definition play : list host_event -> state -> state := demo.play 0 Z.add ofMap orbit_at.
Definition step : host_event -> state -> state := demo.step 0 Z.add ofMap orbit_at.

Definition p0 : point := OfPoint 300 200 0.

(** The program after [setup]. *)
Definition started : state := Eval vm_compute in setup 0 Z.add p0 never 20 50.

(** The same with the toggle "flying text" on. *)
Definition shown : state :=
  let a := app started in
  set_app (ofApp.Make (ofApp.message a) (ofApp.flyingText a) (ofApp.flyingText_width a)
             (ofApp.move_window a) (ofApp.center_source a) (ofApp.selectedText a)
             (ofApp.selectedText_width a) true) started.

Definition moved (x y : Z) : host_event := Mouse (OfMouseEventArgs Moved x y).
Definition dragged (x y : Z) : host_event := Mouse (OfMouseEventArgs Dragged x y).

(** What [setup] leaves: the message of 24 characters, no record, the
    point of [window_center] waiting for the first frame. *)
Example after_setup :
  List.length (ofApp.message (app started)) = 24%nat /\
  window started = [] /\ latest_point started = Some p0 /\ latest_tick started = None /\
  ofApp.show_text (app started) = false /\ flight started = 4800.
Proof. by vm_compute. Qed.

(** Frames at 100 and 200, then the source [all_movement] (the slider at 1)
    and a move, then a late frame.  The records of the first 4800 ms
    replace each other; the frame at 4900 keeps what is not older than 100,
    the frame at 5100 what is not older than 300.  With [just_drags] (the
    slider at 3) the move is not seen. *)
Example a_session :
  map (fun evs => map (fun r => (px r.1, ofApp.tick r)) (window (play evs started)))
    [[Update 100 100];
     [Update 100 100; Update 200 200];
     [Update 100 100; Update 200 200; Selected 1; moved 7 8];
     [Update 100 100; Update 200 200; Selected 1; moved 7 8; Update 4900 4900];
     [Update 100 100; Update 200 200; Selected 3; moved 7 8; Update 4900 4900];
     [Update 100 100; Update 200 200; Selected 1; moved 7 8; Update 5100 5100]]
  = [[(300, 100)]; [(300, 200)]; [(7, 200)]; [(7, 200); (7, 4900)];
     [(300, 200); (300, 4900)]; [(7, 5100)]].
Proof. by vm_compute. Qed.

(** The slider goes from 0 to [sources.size()]: at 5 the index wraps to
    the first source, and the label says so. *)
Example slider_past_the_end :
  window_source (step (Selected 5) (step (Selected 4) started)) = window_center /\
  ofApp.selectedText (app (step (Selected 5) started)) = "window_center"%string.
Proof. by vm_compute. Qed.

Lemma ok_started : ok started.
Proof. split; [constructor|done]. Qed.

Lemma window_in_order_witness :
  ok (play [Update 100 100; Selected 1; moved 7 8; Update 200 201; KeyReleased 97;
            dragged 9 9; Update 5100 5100] started).
Proof. apply (window_in_order 0 Z.add ofMap orbit_at); [exact ok_started|by vm_compute]. Defined.

(** The program after a first frame at 100. *)
Definition running : state := Eval vm_compute in step (Update 100 100) shown.

Lemma ok_running : ok running.
Proof.
  apply (step_ok 0 Z.add ofMap orbit_at (Update 100 100) shown); [|by vm_compute].
  split; [constructor|done].
Qed.

Lemma frame_keeps_flight_witness :
  Forall (fun r => 5100 - flight running <= ofApp.tick r <= 5100)
    (window (step (Update 5100 5101) running)).
Proof.
  apply (frame_keeps_flight 0 Z.add ofMap orbit_at 5100 5101 p0 running);
    [exact ok_running|reflexivity|by vm_compute|by vm_compute].
Defined.

Lemma no_flight_at_start_witness :
  window (step (Update 900 900) running) = [(p0, 900)] /\
  ofApp.draw_text 950 (app (step (Update 900 900) running))
  = imap (fun i c => (c, i, (p0, 900))) (ofApp.message (app running)).
Proof.
  apply (no_flight_at_start 0 Z.add ofMap orbit_at 900 900 950 p0 running);
    [exact ok_running|reflexivity|by vm_compute|by vm_compute|by vm_compute|reflexivity].
Defined.

Lemma window_never_empty_witness :
  window (play [Update 100 100; Selected 4; moved 1 1; KeyReleased 8; Update 9000 9000] started)
  <> [].
Proof.
  apply (window_never_empty 0 Z.add ofMap orbit_at 100 100
           [Selected 4; moved 1 1; KeyReleased 8; Update 9000 9000] started).
  by exists p0.
Defined.

(** The program follows [just_moves]. *)
Definition following : state := Eval vm_compute in step (Selected 2) running.

Lemma mouse_reaches_selected_source_witness :
  match from_mouse 0 just_moves (OfMouseEventArgs Dragged 5 6) with
  | Some p => p = pointFromMouse 0 (OfMouseEventArgs Dragged 5 6) /\
              List.last (window (on_mouse 0 Z.add (OfMouseEventArgs Dragged 5 6) following))
                (p0, 0) = (p, 100) /\
              latest_point (on_mouse 0 Z.add (OfMouseEventArgs Dragged 5 6) following) = Some p
  | None => on_mouse 0 Z.add (OfMouseEventArgs Dragged 5 6) following = following
  end.
Proof.
  apply (mouse_reaches_selected_source 0 Z.add just_moves (OfMouseEventArgs Dragged 5 6)
           100 (p0, 0) following); by vm_compute.
Defined.

(** The mouse under each source: what a move and a drag leave as the
    latest point. *)
Example sources_and_the_mouse :
  map (fun k => let s := step (Selected k) running in
                (px <$> latest_point (step (moved 7 8) s),
                 px <$> latest_point (step (dragged 9 9) s)))
    [0; 1; 2; 3; 4]
  = [(Some 300, Some 300); (Some 7, Some 9); (Some 7, Some 300);
     (Some 300, Some 9); (Some 300, Some 300)].
Proof. by vm_compute. Qed.

(** *** The behavior [center_source] *)

Import subjects.

Abbreviation rx_world := (subjects.world composite_subscription.store state source unit).

(** Lifetimes 0, 1 and 2: the behavior and the two subscriptions. *)
Definition w0 : rx_world :=
  World behavior_example.subs0 (behavior_observer_state.create never) [] []
    (members 0 p0 never 20 50).

Definition b : behavior.t := (behavior.create never 0 w0).1.
Definition w_seed : rx_world := (behavior.create never 0 w0).2.

Lemma steady_seed : steady b w_seed.
Proof. split_and!; [done|done|by vm_compute|constructor]. Qed.

Lemma setup_through_behavior_witness :
  exists w', rx_setup Z.add b 1 2 w_seed = Ret w' /\
    user w' = setup 0 Z.add p0 never 20 50 /\
    behavior_observer_state.value (cell w') = window_center /\
    steady b w' /\ wired Z.add 1 2 w'.
Proof.
  apply (setup_through_behavior 0 Z.add b 1 2 p0 never 20 50 w_seed);
    [exact steady_seed|done|by vm_compute|by vm_compute|done|done].
Defined.

(** The world after [setup]. *)
Definition w_started : rx_world := final (rx_setup Z.add b 1 2 w_seed).

Lemma steady_started : steady b w_started /\ wired Z.add 1 2 w_started.
Proof.
  destruct (setup_through_behavior 0 Z.add b 1 2 p0 never 20 50 w_seed)
    as (w' & Hrun & _ & _ & Hs & Hw);
    [exact steady_seed|done|by vm_compute|by vm_compute|done|done|].
  unfold w_started. by rewrite Hrun.
Qed.

Lemma selection_through_behavior_witness :
  exists w', rx_on_selection b 3 w_started = Ret w' /\
    user w' = on_selection Z.add 3 (user w_started) /\
    follows (behavior_observer_state.value (cell w')) (user w') /\
    steady b w' /\ wired Z.add 1 2 w'.
Proof.
  apply (selection_through_behavior Z.add b 1 2 3 w_started); apply steady_started.
Defined.

End demo_example.
