(* ===== verification/Frames.v ===== *)
(** * Frames: the tick source of the demo application

    [ofApp] has an [Updates] of its own, the member [updates].
    [ofApp::setup] ([src/emptyExample/src/ofApp.cpp]) calls
    [updates.setup()] (line 15) and subscribes to [updates.milliseconds()]
    twice: under [combine_latest] for the rolling window (lines 38-40) and
    at the head of [orbit_points] for the center (lines 22 and 52).  A frame
    of the host then reaches the window and, after it, the orbit, each
    with a reading of the clock of its own: that is the event [Update] of
    [Demo].

    - Module [frames]: [world] is what the two subscriptions touch (the
      subscription states, the clock of the host as the number of readings
      taken so far, the program of [Demo]); [milliseconds] is the
      observable of [Updates], [events()] mapped through
      [ofGetElapsedTimeMillis]; [window_observer] and [orbit_observer] are
      the two subscriptions; [setup] is what [ofApp::setup] does to the
      adapter.
    - The theorems: a frame through the adapter is the step [Update] of
      [Demo] with two successive readings of the clock; any number of
      frames is a run of [Demo.demo.play]; and when the clock of the host
      does not go back, the window of the program stays in the order of
      its times, frame after frame. *)

From stdpp Require Import base list.
From S2P Require Import Prelude Lifetime Subscriber Queue Worker TickSource.
From S2P Require Import Behavior App Demo.

Module frames.
Import updates.

Section frames.
Context {L F E : Type} `{!LifetimeOps L, !Lifetimes L}.
Context (f0 : F) (fadd : F -> F -> F).
Context (ofMap : Z -> Z -> F) (orbit_at : F -> F -> F * F).
(** [ofGetElapsedTimeMillis()]: the n-th reading of the clock of the host. *)
Context (ofGetElapsedTimeMillis : nat -> Z).

Record world : Type := World {
  subs : L;
  elapsed : nat;           (* readings of the clock taken so far *)
  prog : demo.t (F:=F);
}.

Definition set_subs (l : L) (w : world) : world := World l (elapsed w) (prog w).
Definition set_prog (p : demo.t) (w : world) : world := World (subs w) (elapsed w) p.

#[global] Instance world_ops : LifetimeOps world := lifted_ops subs set_subs.

#[global] Instance world_lifetimes : Lifetimes world.
Proof. apply lifted_lifetimes; [apply _|done|by intros []]. Qed.

Context (OnErrorEmpty : E -> world -> outcome world)
        (OnCompletedEmpty : world -> outcome world).

#[local] Abbreviation listener := (subscriber.t (static_observer.t world ofEventArgs E)).
#[local] Abbreviation system := (updates.system world E).
#[local] Abbreviation frame := (updates.frame OnErrorEmpty OnCompletedEmpty).
#[local] Abbreviation step := (demo.step f0 fadd ofMap orbit_at).
#[local] Abbreviation play := (demo.play f0 fadd ofMap orbit_at).

(** [milliseconds()], subscribed with [on]: every event of [events()] is
    mapped to a reading of the clock, which [on] is given. *)
Definition milliseconds (on : Z -> demo.t -> demo.t)
  : static_observer.t world ofEventArgs E :=
  make.of_on_next OnErrorEmpty OnCompletedEmpty
    (fun _ w =>
       Ret (World (subs w) (S (elapsed w))
              (on (ofGetElapsedTimeMillis (elapsed w)) (prog w)))).

(** [center_points.combine_latest(updates.milliseconds()).subscribe(...)],
    on the side of the tick source. *)
Definition window_observer (l : token) : listener :=
  make.explicit l (milliseconds demo.window_tick).

(** [orbit_points], which begins with [updates.milliseconds()], subscribed
    under [combine_latest]. *)
Definition orbit_observer (l : token) : listener :=
  make.explicit l (milliseconds (demo.orbit_tick f0 fadd ofMap orbit_at)).

(** What [ofApp::setup] does to the tick source: [updates.setup()], and the
    two subscriptions in the order of the program. *)
Definition setup (l1 l2 : token) (s : system) : system :=
  subscribe (orbit_observer l2) (subscribe (window_observer l1) (updates.setup s)).

(** [n] frames of the host. *)
Fixpoint run (n : nat) (s : system) : outcome system :=
  match n with
  | 0 => Ret s
  | S n => do s <- frame s; run n s
  end.

(** The events of [Demo] that [n] frames are, from the [k]-th reading of
    the clock on: each frame takes two readings. *)
Fixpoint ticks (k n : nat) : list (demo.host_event (F:=F)) :=
  match n with
  | 0 => []
  | S n =>
      demo.Update (ofGetElapsedTimeMillis k) (ofGetElapsedTimeMillis (S k))
      :: ticks (S (S k)) n
  end.

(** ** Facts *)

(** [framed l1 l2 s]: the adapter is in the update event of the host and
    the two subscriptions of the program are its observers, all alive. *)
Record framed (l1 l2 : token) (s : system) : Prop := Framed {
  framed_once : listening s = 1;
  framed_observers :
    observers (sub_updates (source s)) = [window_observer l1; orbit_observer l2];
  framed_subject : cs_is_subscribed (dest_updates (source s)) (inner s) = true;
  framed_window : cs_is_subscribed l1 (inner s) = true;
  framed_orbit : cs_is_subscribed l2 (inner s) = true;
}.

(** The world after a frame. *)
Definition after_frame (w : world) : world :=
  World (subs w) (S (S (elapsed w)))
    (step (demo.Update (ofGetElapsedTimeMillis (elapsed w))
             (ofGetElapsedTimeMillis (S (elapsed w))))
       (prog w)).

Lemma frame_framed l1 l2 s :
  framed l1 l2 s -> frame s = Ret (set_inner s (after_frame (inner s))).
Proof.
  intros [H1 Ho Hs Hw Hb]. unfold updates.frame. rewrite H1.
  cbn [notify_listeners]. rewrite and_then_Ret_r. unfold update. f_equal.
  unfold subscriber.on_next at 1. unfold subscriber.is_subscribed.
  cbn [subscriber.lifetime subscriber.destination make.explicit].
  rewrite Hs, Ho.
  cbn [negb obs_on_next static_observer.observer static_observer.on_next
       make.of_on_next cast].
  unfold subscriber.on_next, subscriber.is_subscribed, window_observer, orbit_observer.
  cbn [subscriber.lifetime subscriber.destination make.explicit].
  rewrite Hw. cbn. change (cs_is_subscribed l2 (subs (inner s)))
    with (cs_is_subscribed l2 (inner s)). by rewrite Hb.
Qed.

Lemma after_frame_framed l1 l2 s :
  framed l1 l2 s -> framed l1 l2 (set_inner s (after_frame (inner s))).
Proof. by intros []. Qed.

(** What [ofApp::setup] leaves of a new adapter. *)
Lemma setup_framed l1 l2 s :
  registered (source s) = false -> listening s = 0 ->
  observers (sub_updates (source s)) = [] ->
  dest_updates (source s) = subject_lifetime (sub_updates (source s)) ->
  cs_is_subscribed (dest_updates (source s)) (inner s) = true ->
  cs_is_subscribed l1 (inner s) = true ->
  cs_is_subscribed l2 (inner s) = true ->
  framed l1 l2 (setup l1 l2 s) /\ inner (setup l1 l2 s) = inner s.
Proof.
  intros Hr H0 Ho Hd Hs H1 H2. unfold setup, subscribe, current, subscriber.is_subscribed.
  destruct s as [[r [l os] d] n w]. simpl in *. subst.
  do 3 (rewrite ?Hs, ?H1, ?H2; simpl).
  rewrite filter_cons_True by exact H1. by split.
Qed.

(** Frames are steps of the program. *)
Lemma run_framed n l1 l2 s :
  framed l1 l2 s ->
  exists s', run n s = Ret s' /\ framed l1 l2 s' /\
    subs (inner s') = subs (inner s) /\
    elapsed (inner s') = 2 * n + elapsed (inner s) /\
    prog (inner s') = play (ticks (elapsed (inner s)) n) (prog (inner s)).
Proof.
  revert s. induction n as [|n IH]; intros s Hs; [by exists s|].
  cbn [run ticks]. rewrite (frame_framed l1 l2) by done. cbn [and_then].
  destruct (IH _ (after_frame_framed l1 l2 s Hs)) as (s' & Hr & Hf & Hsub & He & Hp).
  exists s'. split_and!; [done|done|done|simpl in He; lia|].
  rewrite Hp. by rewrite demo.play_cons.
Qed.

(** A clock that does not go back gives frames that [Demo] calls
    monotone. *)
Lemma ticks_monotone k n last :
  (forall i, is_u64 (ofGetElapsedTimeMillis i)) ->
  (forall i, ofGetElapsedTimeMillis i <= ofGetElapsedTimeMillis (S i))%Z ->
  match last with Some m => (m <= ofGetElapsedTimeMillis k)%Z | None => True end ->
  demo.monotone last (ticks k n).
Proof.
  intros Hu Hm. revert k last. induction n as [|n IH]; intros k last Hl; [done|].
  split; [split; [apply Hu|done]|]. apply IH.
  pose proof (Hm k). pose proof (Hm (S k)). lia.
Qed.

(** A run of monotone events keeps the window in order. *)
Lemma play_keeps_ok evs (p : demo.t) :
  demo.ok p -> demo.monotone (demo.latest_tick p) evs -> demo.ok (play evs p).
Proof.
  revert p. induction evs as [|ev evs IH]; intros p Hp Hm; [done|].
  destruct Hm as [Hev Hm]. rewrite demo.play_cons. apply IH; [by apply demo.step_ok|].
  rewrite demo.latest_tick_step. by destruct ev.
Qed.

(** ** Theorems *)

(** When the clock of the host gives unsigned 64-bit times that do not
    go back, the rolling window of the program is in the order of its
    times after any number of frames, from the setup of the tick source
    on. *)
Theorem frames_keep_window_in_order n l1 l2 s :
  (forall i, is_u64 (ofGetElapsedTimeMillis i)) ->
  (forall i, ofGetElapsedTimeMillis i <= ofGetElapsedTimeMillis (S i))%Z ->
  framed l1 l2 s ->
  demo.ok (prog (inner s)) ->
  match demo.latest_tick (prog (inner s)) with
  | Some m => (m <= ofGetElapsedTimeMillis (elapsed (inner s)))%Z
  | None => True
  end ->
  returns (fun s' => demo.ok (prog (inner s'))) (run n s).
Proof.
  intros Hu Hm Hs Hok Hl.
  destruct (run_framed n l1 l2 s Hs) as (s' & -> & _ & _ & _ & Hp).
  simpl. rewrite Hp. apply play_keeps_ok; [done|]. by apply ticks_monotone.
Qed.

End frames.

Arguments world : clear implicits.

End frames.

(** ** The tick source of the program at work *)

Module frames_example.
Import updates frames.

Abbreviation world := (frames.world composite_subscription.store Z).
Abbreviation system := (updates.system world unit).

Definition OnErrorEmpty (e : unit) (w : world) : outcome world := Fault Aborted w.
Definition OnCompletedEmpty (w : world) : outcome world := Ret w.

(** The clock of the host: a reading every 100 ms, up to a day. *)
Definition millis (n : nat) : Z := Z.min (100 * Z.of_nat n) 86400000.

Lemma millis_u64 i : is_u64 (millis i).
Proof. unfold is_u64, millis. lia. Qed.

Lemma millis_monotone i : (millis i <= millis (S i))%Z.
Proof. unfold millis. lia. Qed.

(** The program after [ofApp::setup], the clock not yet read; the subject
    of the adapter lives under the token 0, the two subscriptions under 1
    and 2. *)
Definition w0 : world := World behavior_example.subs0 0 demo_example.shown.

Definition s0 : system := System (Make false (Subject 0 []) 0) 0 w0.

Definition started : system :=
  frames.setup 0%Z Z.add demo_example.ofMap demo_example.orbit_at millis
    OnErrorEmpty OnCompletedEmpty 1 2 s0.

Definition run : nat -> system -> outcome system :=
  frames.run OnErrorEmpty OnCompletedEmpty.

Lemma started_framed :
  framed 0%Z Z.add demo_example.ofMap demo_example.orbit_at millis
    OnErrorEmpty OnCompletedEmpty 1 2 started.
Proof. by apply setup_framed; vm_compute. Qed.

(** Three frames: the window gets the point of [window_center] with the
    times 0, 200 and 400, the orbit the times 100, 300 and 500. *)
Example three_frames :
  map (fun r => ofApp.tick r) (demo.window (prog (inner (final (run 3 started)))))
  = [400%Z] /\
  elapsed (inner (final (run 3 started))) = 6.
Proof. by vm_compute. Qed.

Lemma frames_keep_window_in_order_witness :
  returns (fun s' => demo.ok (prog (inner s'))) (run 3 started).
Proof.
  apply (frames_keep_window_in_order 0%Z Z.add demo_example.ofMap demo_example.orbit_at
           millis OnErrorEmpty OnCompletedEmpty 3 1 2 started);
    [exact millis_u64|exact millis_monotone|exact started_framed| |done].
  split; [constructor|done].
Defined.

End frames_example.
